(** * Schwa semantic analyzer: a shallow embedding of [src/schwa/analyzer.ts]

    The analyzer decorates an AST in place (a scope pointer and a data-type
    string per node), builds a tree of scopes holding variables, functions
    and structs, and pushes diagnostics to a logger.

    Embedding choices.
    - The AST is an immutable rose tree.  A node is identified by its path
      from the root, innermost child index first, so that [n.parent] is the
      tail of the path and the root is the empty path.  The two mutable
      annotations [node.scope] and [node.dataType] live in two finite maps
      keyed by path.
    - Scopes are shared mutable objects (parent links, [node.scope],
      [variable.scope], [p.scopes[id]]): they live in a heap, a list indexed by
      scope id; [new Scope(..)] appends.  The root scope has id 0.
    - Variable, Function and Struct records are each held by one map slot (or
      one field list) only, so they are stored by value in the maps.
    - JS objects used as dictionaries are [gmap string _], the finite map of
      their own entries.  A lookup [map[id]] in an object literal also finds
      the members inherited from [Object.prototype] (such as [toString]);
      statements whose truth depends on a name being absent from a map carry
      the hypothesis that the name is [ordinary], none of
      [objectPrototypeKeys].
    - A JS number is an IEEE 754 double, [spec_float] of the Standard Library
      at precision 53.
    - A JS [TypeError] (reading a property of [undefined]) is the failure of
      the state-and-error monad [M]. *)

From Stdlib Require Import Ascii SpecFloat.
From stdpp Require Import gmap strings list pretty.

#[local] Set Warnings "-register-all".

(** ** Enumerations *)

(** Modelled from the spec: [token.ts] is not among the sources; the members
    are those the analyzer and the lexer name.  [name] is the reverse mapping
    [TokenType[t]] of a TypeScript numeric enum. *)
Module TokenType.
Inductive t :=
| None | Unknown | BOF | EOF | BOL | EOL | Indent | Dedent
| Comment | InlineComment | Name | Type_ | Const | Export
| Int | UInt | Long | ULong | Float | Double | Bool
| Neg | NOT | Not
| Add | Sub | Mul | Div | Mod | AND | OR | XOR | ShL | ShR | RotL | RotR
| Eq | Ne | Lt | Le | Gt | Ge | And | Or
| As | To | Assign | LParen | RParen | Comma | Period
| If | Else | ElseIf | While | Break | Continue | Return.

#[global] Instance eq_dec : EqDecision t.
Proof. solve_decision. Defined.

Definition name (x : t) : string :=
  match x with
  | None => "None" | Unknown => "Unknown" | BOF => "BOF" | EOF => "EOF"
  | BOL => "BOL" | EOL => "EOL" | Indent => "Indent" | Dedent => "Dedent"
  | Comment => "Comment" | InlineComment => "InlineComment" | Name => "Name"
  | Type_ => "Type" | Const => "Const" | Export => "Export"
  | Int => "Int" | UInt => "UInt" | Long => "Long" | ULong => "ULong"
  | Float => "Float" | Double => "Double" | Bool => "Bool"
  | Neg => "Neg" | NOT => "NOT" | Not => "Not"
  | Add => "Add" | Sub => "Sub" | Mul => "Mul" | Div => "Div" | Mod => "Mod"
  | AND => "AND" | OR => "OR" | XOR => "XOR" | ShL => "ShL" | ShR => "ShR"
  | RotL => "RotL" | RotR => "RotR"
  | Eq => "Eq" | Ne => "Ne" | Lt => "Lt" | Le => "Le" | Gt => "Gt" | Ge => "Ge"
  | And => "And" | Or => "Or" | As => "As" | To => "To" | Assign => "Assign"
  | LParen => "LParen" | RParen => "RParen" | Comma => "Comma" | Period => "Period"
  | If => "If" | Else => "Else" | ElseIf => "ElseIf" | While => "While"
  | Break => "Break" | Continue => "Continue" | Return => "Return"
  end.
End TokenType.

(** Modelled from the spec: [ast.ts] is not among the sources; the members are
    the AST kinds the analyzer and the validator name. *)
Module AstType.
Inductive t :=
| None | Unknown | Program | Block | Comment
| StructDef | FunctionDef | VariableDef | Global | Map
| Access | Const | Export | Type_
| VariableId | FunctionId | StructId | Literal
| Assignment | BinaryOp | UnaryOp | FunctionCall
| Arguments | Parameters | Fields
| Return | ReturnVoid | If | Else | ElseIf | While | Break | Continue.

#[global] Instance eq_dec : EqDecision t.
Proof. solve_decision. Defined.
End AstType.

(** [datatype.ts]: a string enum; a struct's data type is its name, so data
    types are strings throughout. *)
Module DataType.
Definition None : string := "void".
Definition Invalid : string := "invalid".
Definition Type_ : string := "type".
Definition Int : string := "int".
Definition UInt : string := "uint".
Definition Long : string := "long".
Definition ULong : string := "ulong".
Definition Float : string := "float".
Definition Double : string := "double".
Definition Bool : string := "bool".

Definition fromTokenType (type : TokenType.t) : string :=
  if decide (type = TokenType.Int) then Int
  else if decide (type = TokenType.UInt) then UInt
  else if decide (type = TokenType.Long) then Long
  else if decide (type = TokenType.ULong) then ULong
  else if decide (type = TokenType.Float) then Float
  else if decide (type = TokenType.Double) then Double
  else if decide (type = TokenType.Bool) then Bool
  else Invalid.

Definition isPrimitive (type : string) : bool :=
  if decide (type = None) then true
  else if decide (type = Invalid) then true
  else if decide (type = Type_) then true
  else if decide (type = Int) then true
  else if decide (type = UInt) then true
  else if decide (type = Long) then true
  else if decide (type = ULong) then true
  else if decide (type = Float) then true
  else if decide (type = Double) then true
  else if decide (type = Bool) then true
  else false.
End DataType.

(** ** Tokens and AST nodes *)

(** Modelled from the spec: [token.ts] is not among the sources; a token has
    the four fields the lexer fills and the analyzer reads. *)
Module Token.
Record t := mk { type : TokenType.t; value : string; row : nat; column : nat }.
End Token.

(** Modelled from the spec: [ast.ts] is not among the sources.  This is the
    immutable part of an [AstNode]: kind, token, the validator's [valid] flag
    and the ordered children.  [children] is always an array: the passes
    iterate [node.children] of every node without a guard. *)
Module AstNode.
Inductive t := mk { type : AstType.t; token : Token.t; valid : bool; children : list t }.

Fixpoint height (n : t) : nat :=
  S (foldr (fun c acc => Nat.max (height c) acc) 0 (children n)).
End AstNode.

(** A path names a node: child indices from the node up to the root. *)
Abbreviation Path := (list nat) (only parsing).

Fixpoint descend (n : AstNode.t) (down : list nat) : option AstNode.t :=
  match down with
  | [] => Some n
  | i :: rest =>
    match AstNode.children n !! i with
    | Some c => descend c rest
    | None => None
    end
  end.

Definition nodeAt (root : AstNode.t) (path : Path) : option AstNode.t :=
  descend root (reverse path).

(** ** JavaScript helpers used to build messages *)

Definition quote : string := String (Ascii.ascii_of_nat 34) EmptyString.
Definition backslash : string := String (Ascii.ascii_of_nat 92) EmptyString.

Definition hexDigit (n : nat) : string :=
  String (Ascii.ascii_of_nat (if n <? 10 then 48 + n else 87 + n)) EmptyString.

(** [JSON.stringify] of a string: quotes, with the JSON escapes of the
    quote, the backslash and the control characters. *)
Definition escapeChar (c : Ascii.ascii) : string :=
  let n := Ascii.nat_of_ascii c in
  if n =? 34 then backslash +:+ quote
  else if n =? 92 then backslash +:+ backslash
  else if n =? 8 then backslash +:+ "b"
  else if n =? 12 then backslash +:+ "f"
  else if n =? 10 then backslash +:+ "n"
  else if n =? 13 then backslash +:+ "r"
  else if n =? 9 then backslash +:+ "t"
  else if n <? 32 then backslash +:+ "u00" +:+ hexDigit (n / 16) +:+ hexDigit (n mod 16)
  else String c EmptyString.

Fixpoint escapeString (s : string) : string :=
  match s with
  | EmptyString => EmptyString
  | String c rest => escapeChar c +:+ escapeString rest
  end.

Definition JSON_stringify (s : string) : string := quote +:+ escapeString s +:+ quote.

Definition endsWith (s suffix : string) : bool :=
  String.prefix (String.rev suffix) (String.rev s).

(** [formatOrdinal], analyzer.ts lines 9-15; [n.toFixed()] of a natural
    number is its decimal representation. *)
Definition formatOrdinal (n : nat) : string :=
  let str := pretty n in
  if bool_decide (str ≠ "11") && endsWith str "1" then str +:+ "st"
  else if bool_decide (str ≠ "12") && endsWith str "2" then str +:+ "nd"
  else if bool_decide (str ≠ "13") && endsWith str "3" then str +:+ "rd"
  else str +:+ "th".

(** A JS number is an IEEE 754 binary64 value: [spec_float] at precision 53
    and exponent bound 1024.  [Num z] is the number the integer [z] converts
    to, the nearest double with ties to even (so [Num 9007199254740993] is
    9007199254740992, and an integer of 309 digits is [Infinity]);
    [JSNum_add a z] is the JS sum [a + z]. *)
Definition JSNum : Type := spec_float.
Definition NaN : JSNum := S754_nan.
Definition Num (z : Z) : JSNum := binary_normalize 53 1024 z 0 false.
Definition JSNum_add (a : JSNum) (z : Z) : JSNum := SFadd 53 1024 a (Num z).

(** The names every object literal inherits from [Object.prototype]: for one
    of them [map[id]] on a map such as [scope.vars = {}] is the inherited
    member, not [undefined], when the map has no entry of its own. *)
Definition objectPrototypeKeys : list string :=
  [ "constructor"; "__defineGetter__"; "__defineSetter__"; "hasOwnProperty";
    "__lookupGetter__"; "__lookupSetter__"; "isPrototypeOf"; "propertyIsEnumerable";
    "toString"; "valueOf"; "__proto__"; "toLocaleString" ].

(** A name for which a lookup in an object literal finds the object's own
    entries only. *)
Definition ordinary (id : string) : Prop := id ∉ objectPrototypeKeys.

#[global] Instance ordinary_dec (id : string) : Decision (ordinary id).
Proof. unfold ordinary. apply _. Defined.

Definition isSpace (c : Ascii.ascii) : bool :=
  let n := Ascii.nat_of_ascii c in
  (n =? 32) || ((9 <=? n) && (n <=? 13)).

Definition digitOf (radix : nat) (c : Ascii.ascii) : option nat :=
  let n := Ascii.nat_of_ascii c in
  let d := if (48 <=? n) && (n <=? 57) then Some (n - 48)
           else if (97 <=? n) && (n <=? 122) then Some (n - 87)
           else if (65 <=? n) && (n <=? 90) then Some (n - 55)
           else None in
  match d with
  | Some k => if k <? radix then Some k else None
  | None => None
  end.

Fixpoint skipSpaces (s : string) : string :=
  match s with
  | String c rest => if isSpace c then skipSpaces rest else s
  | EmptyString => s
  end.

Fixpoint parseDigits (radix : nat) (s : string) (acc : option Z) : option Z :=
  match s with
  | String c rest =>
    match digitOf radix c with
    | Some d => parseDigits radix rest (Some (default 0%Z acc * Z.of_nat radix + Z.of_nat d)%Z)
    | None => acc
    end
  | EmptyString => acc
  end.

(** [parseInt(s)] with no radix argument: leading white space, a sign, a
    [0x] prefix, then the longest run of digits; the integer read is
    converted to a number, [-0] for a negated zero, and no digit gives
    [NaN].  (ECMAScript lets an engine read the decimal digits after the
    twentieth as zeros; the conversion here is of the digits as written.) *)
Definition parseInt (s : string) : JSNum :=
  let s := skipSpaces s in
  let '(neg, s) := match s with
                   | String "-"%char rest => (true, rest)
                   | String "+"%char rest => (false, rest)
                   | _ => (false, s)
                   end in
  let '(radix, s) := match s with
                     | String "0"%char (String "x"%char rest) => (16, rest)
                     | String "0"%char (String "X"%char rest) => (16, rest)
                     | _ => (10, s)
                     end in
  match parseDigits radix s Datatypes.None with
  | Some z => if neg : bool then SFopp (Num z) else Num z
  | None => NaN
  end.

(** [path.split('.')] *)
Fixpoint splitDot (s : string) (cur : string) : list string :=
  match s with
  | EmptyString => [String.rev cur]
  | String c rest =>
    if Ascii.eqb c "."%char then String.rev cur :: splitDot rest EmptyString
    else splitDot rest (String c cur)
  end.

(** ** Symbol records

    The [scope.ts] among the sources predates structs and the modifier flags;
    the records below add what the analyzer uses of the later file. *)

Abbreviation ScopeId := nat (only parsing).

(** Modelled from the spec: [Variable] of [scope.ts] with the flags [const],
    [export], [global], [mapped] and [offset] the analyzer reads and writes;
    a fresh variable has its flags off and its offset 0. *)
Module Var.
Record t := mk {
  node : option AstNode.t; scope : ScopeId; id : string; type : string;
  const : bool; export : bool; global : bool; mapped : bool; offset : JSNum }.

(** [new Variable(node, scope, id, type)] *)
Definition new (node : option AstNode.t) (scope : ScopeId) (id type : string) : t :=
  mk node scope id type false false false false (Num 0).

Definition set_const (b : bool) (v : t) : t :=
  mk (node v) (scope v) (id v) (type v) b (export v) (global v) (mapped v) (offset v).
Definition set_export (b : bool) (v : t) : t :=
  mk (node v) (scope v) (id v) (type v) (const v) b (global v) (mapped v) (offset v).
Definition set_global (b : bool) (v : t) : t :=
  mk (node v) (scope v) (id v) (type v) (const v) (export v) b (mapped v) (offset v).
Definition set_mapped (b : bool) (v : t) : t :=
  mk (node v) (scope v) (id v) (type v) (const v) (export v) (global v) b (offset v).
Definition set_offset (o : JSNum) (v : t) : t :=
  mk (node v) (scope v) (id v) (type v) (const v) (export v) (global v) (mapped v) o.
End Var.

(** Modelled from the spec: [Function] of [scope.ts] with parameters that are
    variables, as the analyzer builds them, and the [export] flag. *)
Module Function.
Record t := mk {
  node : option AstNode.t; scope : ScopeId; id : string; type : string;
  params : list Var.t; export : bool }.

Definition new (node : option AstNode.t) (scope : ScopeId) (id type : string)
    (params : list Var.t) : t :=
  mk node scope id type params false.

Definition set_export (b : bool) (f : t) : t :=
  mk (node f) (scope f) (id f) (type f) (params f) b.
End Function.

(** Modelled from the spec: [Struct] is not in the [scope.ts] among the
    sources; it has the five members the analyzer uses. *)
Module Struct.
Record t := mk {
  node : option AstNode.t; scope : ScopeId; id : string;
  fields : list Var.t; export : bool }.

Definition new (node : option AstNode.t) (scope : ScopeId) (id : string)
    (fields : list Var.t) : t :=
  mk node scope id fields false.

Definition set_export (b : bool) (s : t) : t :=
  mk (node s) (scope s) (id s) (fields s) b.
End Struct.

(** Modelled from the spec: [Scope] of [scope.ts] with the [structs] map and
    [getStruct] added; the lookups follow [getScope], [getVariable] and
    [getFunction] of that file. *)
Module Scope.
Record t := mk {
  node : option AstNode.t; parent : option ScopeId; id : string;
  scopes : gmap string ScopeId;
  vars : gmap string Var.t;
  funcs : gmap string Function.t;
  structs : gmap string Struct.t }.

(** [new Scope(node, parent, id)] *)
Definition new (node : option AstNode.t) (parent : option ScopeId) (id : string) : t :=
  mk node parent id ∅ ∅ ∅ ∅.

Definition set_scopes (f : gmap string ScopeId → gmap string ScopeId) (s : t) : t :=
  mk (node s) (parent s) (id s) (f (scopes s)) (vars s) (funcs s) (structs s).
Definition set_vars (f : gmap string Var.t → gmap string Var.t) (s : t) : t :=
  mk (node s) (parent s) (id s) (scopes s) (f (vars s)) (funcs s) (structs s).
Definition set_funcs (f : gmap string Function.t → gmap string Function.t) (s : t) : t :=
  mk (node s) (parent s) (id s) (scopes s) (vars s) (f (funcs s)) (structs s).
Definition set_structs (f : gmap string Struct.t → gmap string Struct.t) (s : t) : t :=
  mk (node s) (parent s) (id s) (scopes s) (vars s) (funcs s) (f (structs s)).

(** The hierarchical lookup shared by [getScope], [getVariable],
    [getFunction] and [getStruct]: this scope's own map first, then the
    parent's lookup.  The result carries the scope that owns the entry.  A
    parent is allocated before its children, so a chain is no longer than
    the heap, which bounds the walk. *)
Fixpoint lookupUp {A} (sel : t → gmap string A) (h : list t) (fuel : nat)
    (this : ScopeId) (id : string) : option (ScopeId * A) :=
  match fuel with
  | O => None
  | S fuel' =>
    match h !! this with
    | Some s =>
      match sel s !! id with
      | Some x => Some (this, x)
      | None =>
        match parent s with
        | Some p => lookupUp sel h fuel' p id
        | None => None
        end
      end
    | None => None
    end
  end.

Definition getScope (h : list t) (this : ScopeId) (id : string) : option ScopeId :=
  snd <$> lookupUp scopes h (length h) this id.
Definition getVariable (h : list t) (this : ScopeId) (id : string) : option Var.t :=
  snd <$> lookupUp vars h (length h) this id.
Definition getFunction (h : list t) (this : ScopeId) (id : string) : option Function.t :=
  snd <$> lookupUp funcs h (length h) this id.
Definition getStruct (h : list t) (this : ScopeId) (id : string) : option Struct.t :=
  snd <$> lookupUp structs h (length h) this id.
End Scope.

(** ** Diagnostics *)

(** Modelled from the spec: [log.ts] is not among the sources; the three
    kinds of message. *)
Inductive LogType := Error | Warning | Info.

(** Modelled from the spec: [log.ts] is not among the sources; a message has
    the six constructor arguments [logError] passes, and [Logger.log] appends
    it to the log. *)
Module LogMsg.
Record t := mk {
  type : LogType; source : string; msg : string;
  row : nat; column : nat; length : nat }.
End LogMsg.

(** ** Analyzer state and its monad *)

Record State := mkState {
  heap : list Scope.t;                (* all Scope objects; index 0 is rootScope *)
  scopeOf : gmap Path ScopeId;        (* node.scope, absent when null *)
  dataTypeOf : gmap Path string;      (* node.dataType, absent when null *)
  logger : list LogMsg.t }.

Definition M (A : Type) : Type := State → option (A * State).

Definition ret {A} (a : A) : M A := fun st => Some (a, st).
Definition bind {A B} (m : M A) (k : A → M B) : M B :=
  fun st => match m st with Some (a, st') => k a st' | None => None end.
Definition throw {A} : M A := fun _ => None.

(** stdpp's monad notations: [x ← m; k] and [m;; k]. *)
#[global] Instance M_ret : MRet M := @ret.
#[global] Instance M_bind : MBind M := fun A B k m => bind m k.

Definition get : M State := fun st => Some (st, st).
Definition modify (f : State → State) : M unit := fun st => Some (tt, f st).

Definition set_heap (f : list Scope.t → list Scope.t) (st : State) : State :=
  mkState (f (heap st)) (scopeOf st) (dataTypeOf st) (logger st).
Definition set_scopeOf (f : gmap Path ScopeId → gmap Path ScopeId) (st : State) : State :=
  mkState (heap st) (f (scopeOf st)) (dataTypeOf st) (logger st).
Definition set_dataTypeOf (f : gmap Path string → gmap Path string) (st : State) : State :=
  mkState (heap st) (scopeOf st) (f (dataTypeOf st)) (logger st).
Definition set_logger (f : list LogMsg.t → list LogMsg.t) (st : State) : State :=
  mkState (heap st) (scopeOf st) (dataTypeOf st) (f (logger st)).

(** A value read from [undefined]: the access throws. *)
Definition orThrow {A} (o : option A) : M A :=
  match o with Some a => mret a | None => throw end.

Definition when (b : bool) (m : M unit) : M unit := if b then m else mret tt.

Section Loops.
Context {A B : Type}.

(** [for (let x of l) acc = f(acc, x)] *)
Definition foldM (f : B → A → M B) : B → list A → M B :=
  fix go (acc : B) (l : list A) : M B :=
    match l with
    | [] => mret acc
    | x :: l' => acc' ← f acc x; go acc' l'
    end.

(** [for (let i = i0; i < l.length; i++) f(i, l[i])] *)
Definition forIndexed (f : nat → A → M unit) : nat → list A → M unit :=
  fix go (i : nat) (l : list A) : M unit :=
    match l with
    | [] => mret tt
    | x :: l' => f i x;; go (S i) l'
    end.
End Loops.

(** [Analyzer.logError], analyzer.ts lines 173-175 *)
Definition errorMsg (msg : string) (node : AstNode.t) : LogMsg.t :=
  let tok := AstNode.token node in
  LogMsg.mk Error "Analyzer" msg (Token.row tok) (Token.column tok)
            (String.length (Token.value tok)).

(** The state after [this.logger.log(m)]. *)
Definition withLog (m : LogMsg.t) (st : State) : State :=
  set_logger (fun l => l ++ [m]) st.

Definition logError (msg : string) (node : AstNode.t) : M unit :=
  modify (withLog (errorMsg msg node)).

(** [new Scope(node, parent, id)]: allocates the object and returns its id. *)
Definition newScope (node : option AstNode.t) (parent : ScopeId) (id : string) : M ScopeId :=
  st ← get;
  modify (set_heap (fun h => h ++ [Scope.new node (Some parent) id]));;
  mret (length (heap st)).

(** In-place update of the Scope object [s]. *)
Definition updScope (s : ScopeId) (f : Scope.t → Scope.t) : M unit :=
  modify (set_heap (alter f s)).

Definition rootScope : ScopeId := 0.

Definition MAX_TYPE_DEPTH : nat := 16.

Definition noStructMsg (type : string) : string :=
  "No struct named " +:+ type +:+ " exists in the current scope".

(** ** [Analyzer.getSize], analyzer.ts lines 117-140

    [getSize_body] is the method's body with its recursive call abstracted;
    [getSize] closes the recursion on the distance of [depth] to the cut-off,
    and [getSize_unfold] below shows it satisfies the method's own
    equation. *)
Definition getSize_body (getSize : Var.t → ScopeId → nat → M Z)
    (v : Var.t) (p : ScopeId) (depth : nat) : M Z :=
  if (MAX_TYPE_DEPTH <? depth)%nat then mret 0%Z
  else if bool_decide (Var.type v ∈ [DataType.Int; DataType.UInt; DataType.Float; DataType.Bool])
  then mret 4%Z
  else if bool_decide (Var.type v ∈ [DataType.Long; DataType.ULong; DataType.Double])
  then mret 8%Z
  else if DataType.isPrimitive (Var.type v) then mret 0%Z
  else
    st ← get;
    match Scope.getStruct (heap st) p (Var.type v) with
    | None =>
      match Var.node v with
      | Some node => logError (noStructMsg (Var.type v)) node
      | None => mret tt
      end;;
      (mret 0%Z : M Z)
    | Some struct =>
      foldM (fun size field =>
               s ← getSize field (Var.scope field) (depth + 1);
               mret (size + s)%Z)
            0%Z (Struct.fields struct)
    end.

Fixpoint getSize_fuel (fuel : nat) (v : Var.t) (p : ScopeId) (depth : nat) : M Z :=
  match fuel with
  | O => mret 0%Z
  | S fuel' => getSize_body (getSize_fuel fuel') v p depth
  end.

Definition getSize (v : Var.t) (p : ScopeId) (depth : nat) : M Z :=
  getSize_fuel (S MAX_TYPE_DEPTH - depth) v p depth.

(** [Analyzer.makeStructScope], analyzer.ts lines 95-115 *)
Definition makeStructScope (v : Var.t) (p : ScopeId) : M unit :=
  if DataType.isPrimitive (Var.type v) then mret tt
  else
    st ← get;
    match Scope.getStruct (heap st) p (Var.type v) with
    | None =>
      match Var.node v with
      | Some node => logError (noStructMsg (Var.type v)) node
      | None => mret tt
      end
    | Some struct =>
      scope ← newScope (Var.node v) p (Var.id v);
      updScope p (Scope.set_scopes <[Var.id v := scope]>);;
      foldM (fun offset field =>
               let nvar := Var.new None scope (Var.id field) (Var.type field) in
               let nvar := Var.set_offset offset
                             (Var.set_mapped (Var.mapped v)
                                (Var.set_export (Var.export v)
                                   (Var.set_const (Var.const v) nvar))) in
               updScope scope (Scope.set_vars <[Var.id nvar := nvar]>);;
               size ← getSize nvar scope 0;
               mret (JSNum_add offset size))
            (Var.offset v) (Struct.fields struct);;
      mret tt
    end.

(** ** Node annotations and tree navigation *)

Definition tokenValue (n : AstNode.t) : string := Token.value (AstNode.token n).

(** [node.scope] and [node.dataType] *)
Definition nodeScope (path : Path) : M (option ScopeId) :=
  st ← get; mret (scopeOf st !! path).
Definition withScope (path : Path) (s : ScopeId) (st : State) : State :=
  set_scopeOf <[path := s]> st.
Definition setNodeScope (path : Path) (s : ScopeId) : M unit :=
  modify (withScope path s).
Definition nodeDataType (path : Path) : M (option string) :=
  st ← get; mret (dataTypeOf st !! path).
Definition withDataType (path : Path) (t : option string) (st : State) : State :=
  set_dataTypeOf (match t with
                  | Some s => <[path := s]>
                  | None => delete path
                  end) st.
Definition setNodeDataType (path : Path) (t : option string) : M unit :=
  modify (withDataType path t).

(** JS truthiness of a [string | null]: neither null nor empty. *)
Definition truthy (t : option string) : bool :=
  match t with
  | Some s => bool_decide (s ≠ EmptyString)
  | None => false
  end.

(** [n.children[i]] where the result is used at once: [undefined] throws. *)
Definition childAt (n : AstNode.t) (i : nat) : M AstNode.t :=
  orThrow (AstNode.children n !! i).

(** The lookups [p.vars[id]], [p.funcs[id]], [p.structs[id]] in a scope's own map. *)
Definition ownVar (h : list Scope.t) (p : ScopeId) (id : string) : option Var.t :=
  s ← h !! p; Scope.vars s !! id.
Definition ownFunc (h : list Scope.t) (p : ScopeId) (id : string) : option Function.t :=
  s ← h !! p; Scope.funcs s !! id.
Definition ownStruct (h : list Scope.t) (p : ScopeId) (id : string) : option Struct.t :=
  s ← h !! p; Scope.structs s !! id.

(** In-place update of the record stored at [p.vars[id]] (and likewise for
    functions and structs). *)
Definition updVar (p : ScopeId) (id : string) (f : Var.t → Var.t) : M unit :=
  updScope p (Scope.set_vars (alter f id)).
Definition updFunc (p : ScopeId) (id : string) (f : Function.t → Function.t) : M unit :=
  updScope p (Scope.set_funcs (alter f id)).
Definition updStruct (p : ScopeId) (id : string) (f : Struct.t → Struct.t) : M unit :=
  updScope p (Scope.set_structs (alter f id)).

(** [while (node && node.children) node = node.children[0]], the descent of
    the Const and Export rules.  An array is truthy even when empty, so the
    loop leaves only when [node.children[0]] is [undefined]. *)
Fixpoint descendFirst (node : AstNode.t) : option AstNode.t :=
  match AstNode.children node with
  | [] => None
  | c :: _ => descendFirst c
  end.

(** [SchwaAnalyzer.getIdentifier], analyzer.ts lines 620-624.  The argument
    may be [undefined] (a missing child), in which case [node.type] throws. *)
Fixpoint getIdentifier (node : AstNode.t) (path : Path) : M (option (AstNode.t * Path)) :=
  if bool_decide (AstNode.type node = AstType.FunctionId ∨ AstNode.type node = AstType.VariableId)
  then mret (Some (node, path))
  else if bool_decide (AstNode.type node = AstType.Access) then
    match AstNode.children node with
    | _ :: c1 :: _ => getIdentifier c1 (1 :: path)
    | _ => throw
    end
  else mret None.

Section Analyzer.
(** The tree under analysis; the parent links of its nodes are its paths. *)
Context (root : AstNode.t).

(** [n.parent] *)
Definition parentNode (path : Path) : option AstNode.t :=
  match path with
  | [] => None
  | _ :: pp => nodeAt root pp
  end.

(** [pn = n.parent; while (pn && pn.type != ty) pn = pn.parent] *)
Fixpoint findAncestor (ty : AstType.t) (path : Path) : option AstNode.t :=
  match path with
  | [] => None
  | _ :: pp =>
    match nodeAt root pp with
    | Some a => if decide (AstNode.type a = ty) then Some a else findAncestor ty pp
    | None => None
    end
  end.

(** *** Scope rules, analyzer.ts lines 260-364 *)

Definition scopeRule_Block (n : AstNode.t) (p : ScopeId) : M ScopeId :=
  scope ← newScope (Some n) p "";
  updScope p (Scope.set_scopes <["" := scope]>);;
  mret scope.

Definition structExistsMsg (id : string) : string :=
  "A struct with the name " +:+ JSON_stringify id +:+ " already exists in the current scope".
Definition functionExistsMsg (id : string) : string :=
  "A function with the name " +:+ JSON_stringify id +:+ " already exists in the current scope".
Definition variableExistsMsg (id : string) : string :=
  "A variable with the name " +:+ JSON_stringify id +:+ " already exists in the current scope".

Definition scopeRule_StructDef (n : AstNode.t) (p : ScopeId) : M ScopeId :=
  c0 ← childAt n 0;
  scope ← newScope (Some n) p (tokenValue c0);
  c1 ← childAt n 1;
  fields ← foldM (fun (fields : list Var.t) fieldNode =>
                    if bool_decide (AstNode.type fieldNode ≠ AstType.VariableDef)
                    then mret fields
                    else
                      f0 ← childAt fieldNode 0;
                      mret (fields ++ [Var.new (Some n) scope (tokenValue f0) (tokenValue fieldNode)]))
                 [] (AstNode.children c1);
  let struct := Struct.new (Some n) scope (tokenValue c0) fields in
  st ← get;
  match ownStruct (heap st) p (Struct.id struct) with
  | Some _ => logError (structExistsMsg (Struct.id struct)) n
  | None =>
    updScope p (Scope.set_structs <[Struct.id struct := struct]>);;
    updScope p (Scope.set_scopes <[tokenValue c0 := scope]>)
  end;;
  mret scope.

Definition scopeRule_FunctionDef (n : AstNode.t) (p : ScopeId) : M ScopeId :=
  c0 ← childAt n 0;
  scope ← newScope (Some n) p (tokenValue c0);
  c1 ← childAt n 1;
  params ← foldM (fun (params : list Var.t) paramNode =>
                    f0 ← childAt paramNode 0;
                    mret (params ++ [Var.new (Some n) scope (tokenValue f0) (tokenValue paramNode)]))
                 [] (AstNode.children c1);
  let func := Function.new (Some n) scope (tokenValue c0) (tokenValue n) params in
  st ← get;
  match ownFunc (heap st) p (Function.id func) with
  | Some _ => logError (functionExistsMsg (Function.id func)) n
  | None =>
    updScope p (Scope.set_funcs <[Function.id func := func]>);;
    updScope p (Scope.set_scopes <[tokenValue c0 := scope]>)
  end;;
  mret scope.

Definition scopeRule_VariableDef (n : AstNode.t) (path : Path) (p : ScopeId) : M ScopeId :=
  c0 ← childAt n 0;
  let nvar := Var.new (Some n) p (tokenValue c0) (tokenValue n) in
  st ← get;
  match ownVar (heap st) p (Var.id nvar) with
  | Some _ => logError (variableExistsMsg (Var.id nvar)) n
  | None =>
    updScope p (Scope.set_vars <[Var.id nvar := nvar]>);;
    match findAncestor AstType.Global path with
    | Some _ => updVar p (Var.id nvar) (Var.set_global true)
    | None => mret tt
    end;;
    match findAncestor AstType.Map path with
    | Some pn =>
      updVar p (Var.id nvar) (Var.set_global true);;
      updVar p (Var.id nvar) (Var.set_mapped true);;
      if (2 <=? length (AstNode.children pn))%nat then
        m1 ← childAt pn 1;
        updVar p (Var.id nvar) (Var.set_offset (parseInt (tokenValue m1)))
      else mret tt
    | None => mret tt
    end
  end;;
  mret p.

Definition noScopeMsg (id : string) : string :=
  "No scope named " +:+ JSON_stringify id +:+ " exists in the current scope".

Definition scopeRule_Access (n : AstNode.t) (p : ScopeId) : M ScopeId :=
  c0 ← childAt n 0;
  st ← get;
  match Scope.getScope (heap st) p (tokenValue c0) with
  | Some scope => mret scope
  | None =>
    match Scope.getVariable (heap st) p (tokenValue c0) with
    | Some nvar =>
      makeStructScope nvar p;;
      st' ← get;
      match Scope.getScope (heap st') p (tokenValue c0) with
      | Some scope => mret scope
      | None => logError (noScopeMsg (tokenValue c0)) n;; mret p
      end
    | None => logError (noScopeMsg (tokenValue c0)) n;; mret p
    end
  end.

Definition scopeRule_Const (path : Path) (p : ScopeId) : M ScopeId :=
  match parentNode path ≫= descendFirst with
  | Some node =>
    st ← get;
    match Scope.lookupUp Scope.vars (heap st) (length (heap st)) p (tokenValue node) with
    | Some (owner, _) => updVar owner (tokenValue node) (Var.set_const true)
    | None => mret tt
    end
  | None => mret tt
  end;;
  mret p.

Definition scopeRule_Export (path : Path) (p : ScopeId) : M ScopeId :=
  match parentNode path ≫= descendFirst with
  | Some node =>
    st ← get;
    match Scope.lookupUp Scope.vars (heap st) (length (heap st)) p (tokenValue node) with
    | Some (owner, _) => updVar owner (tokenValue node) (Var.set_export true)
    | None => mret tt
    end;;
    st ← get;
    match Scope.lookupUp Scope.funcs (heap st) (length (heap st)) p (tokenValue node) with
    | Some (owner, _) => updFunc owner (tokenValue node) (Function.set_export true)
    | None => mret tt
    end;;
    st ← get;
    match Scope.lookupUp Scope.structs (heap st) (length (heap st)) p (tokenValue node) with
    | Some (owner, _) => updStruct owner (tokenValue node) (Struct.set_export true)
    | None => mret tt
    end
  | None => mret tt
  end;;
  mret p.

(** The [registerScope] calls of the constructor, in order, applied to the
    node and its parent scope. *)
Definition scopeRegistrations (n : AstNode.t) (path : Path) (p : ScopeId)
    : list (AstType.t * M ScopeId) :=
  [ (AstType.Program, scopeRule_Block n p);
    (AstType.Block, scopeRule_Block n p);
    (AstType.StructDef, scopeRule_StructDef n p);
    (AstType.FunctionDef, scopeRule_FunctionDef n p);
    (AstType.VariableDef, scopeRule_VariableDef n path p);
    (AstType.Access, scopeRule_Access n p);
    (AstType.Const, scopeRule_Const path p);
    (AstType.Export, scopeRule_Export path p) ].

(** [ruleMap[node.type]]: the rules registered for the node's kind. *)
Definition rulesFor {A} (n : AstNode.t) (regs : list (AstType.t * A)) : list A :=
  omap (fun r => if decide (r.1 = AstNode.type n) then Some r.2 else None) regs.

(** [Analyzer.getScope], analyzer.ts lines 52-63; [getParentScope] is
    [(node.parent) ? this.getScope(node.parent) : this.rootScope]. *)
Definition getScope_body (getParentScope : M ScopeId) (path : Path) : M ScopeId :=
  cur ← nodeScope path;
  match cur with
  | Some s => mret s
  | None =>
    parentScope ← getParentScope;
    n ← orThrow (nodeAt root path);
    foldM (fun (_ : unit) rule => s ← rule; setNodeScope path s)
          tt (rulesFor n (scopeRegistrations n path parentScope));;
    cur ← nodeScope path;
    match cur with
    | Some s => mret s
    | None => setNodeScope path parentScope;; mret parentScope
    end
  end.

Fixpoint getScope (path : Path) : M ScopeId :=
  getScope_body (match path with
                 | [] => mret rootScope
                 | _ :: pp => getScope pp
                 end) path.

(** *** Data-type rules, analyzer.ts lines 366-618

    A rule reaches [this.getDataType] through its first argument; the
    recursion is closed in [getDataType] below. *)

Definition Rec := AstNode.t → Path → M string.

Definition noVariableMsg (id : string) : string :=
  "No variable named " +:+ JSON_stringify id +:+ " exists in the current scope".
Definition noFunctionMsg (id : string) : string :=
  "No function named " +:+ JSON_stringify id +:+ " exists in the current scope".
Definition noStructIdMsg (id : string) : string :=
  "No struct named " +:+ JSON_stringify id +:+ " exists in the current scope".

Section WithIdentifier.
Context {A : Type} (found : AstNode.t → Path → A) (notFound : A) (thrown : A).

(** [getIdentifier] with its three outcomes handed to continuations, the
    form in which the Access rule can recurse on the identifier found. *)
Fixpoint withIdentifier (node : AstNode.t) (path : Path) : A :=
  if bool_decide (AstNode.type node = AstType.FunctionId ∨ AstNode.type node = AstType.VariableId)
  then found node path
  else if bool_decide (AstNode.type node = AstType.Access) then
    match AstNode.children node with
    | _ :: c1 :: _ => withIdentifier c1 (1 :: path)
    | _ => thrown
    end
  else notFound.
End WithIdentifier.

(** The rule is registered for Access nodes, for which [getIdentifier(n)]
    is [getIdentifier(n.children[1])]; see [dtRule_Access_getIdentifier]. *)
Definition dtRule_Access (rec : Rec) (n : AstNode.t) (path : Path) : M (option string) :=
  match AstNode.children n with
  | _ :: c1 :: _ =>
    withIdentifier (fun node npath => t ← rec node npath; mret (Some t))
                   (mret (Some DataType.Invalid)) throw c1 (1 :: path)
  | _ => mret (Some DataType.Invalid)
  end.

Definition dtRule_VariableId (n : AstNode.t) (path : Path) : M (option string) :=
  getScope path;;
  s ← getScope path;
  st ← get;
  match Scope.getVariable (heap st) s (tokenValue n) with
  | Some nvar => mret (Some (Var.type nvar))
  | None => logError (noVariableMsg (tokenValue n)) n;; mret (Some DataType.Invalid)
  end.

Definition dtRule_FunctionId (n : AstNode.t) (path : Path) : M (option string) :=
  getScope path;;
  s ← getScope path;
  st ← get;
  match Scope.getFunction (heap st) s (tokenValue n) with
  | Some func => mret (Some (Function.type func))
  | None => logError (noFunctionMsg (tokenValue n)) n;; mret (Some DataType.Invalid)
  end.

Definition dtRule_StructId (n : AstNode.t) (path : Path) : M (option string) :=
  getScope path;;
  s ← getScope path;
  st ← get;
  match Scope.getStruct (heap st) s (tokenValue n) with
  | Some struct => mret (Some (Struct.id struct))
  | None => logError (noStructIdMsg (tokenValue n)) n;; mret (Some DataType.Invalid)
  end.

Definition dtRule_Type : M (option string) := mret (Some DataType.Type_).
Definition dtRule_VariableDef (n : AstNode.t) : M (option string) := mret (Some (tokenValue n)).
Definition dtRule_FunctionDef (n : AstNode.t) : M (option string) := mret (Some (tokenValue n)).
Definition dtRule_StructDef (n : AstNode.t) : M (option string) :=
  c0 ← childAt n 0; mret (Some (tokenValue c0)).
Definition dtRule_Literal (n : AstNode.t) : M (option string) :=
  mret (Some (DataType.fromTokenType (Token.type (AstNode.token n)))).

(** The type-set tables of the constructor, lines 403-414 *)
Definition intTypeSet := [DataType.Int; DataType.Int; DataType.Int].
Definition uintTypeSet := [DataType.UInt; DataType.UInt; DataType.UInt].
Definition longTypeSet := [DataType.Long; DataType.Long; DataType.Long].
Definition ulongTypeSet := [DataType.ULong; DataType.ULong; DataType.ULong].
Definition floatTypeSet := [DataType.Float; DataType.Float; DataType.Float].
Definition doubleTypeSet := [DataType.Double; DataType.Double; DataType.Double].
Definition fixedTypeSets := [intTypeSet; uintTypeSet; longTypeSet; ulongTypeSet].
Definition floatingTypeSets := [floatTypeSet; doubleTypeSet].
Definition signedTypeSets := [intTypeSet; longTypeSet; floatTypeSet; doubleTypeSet].
Definition numberTypeSets :=
  [intTypeSet; uintTypeSet; longTypeSet; ulongTypeSet; floatTypeSet; doubleTypeSet].
Definition boolTypeSet := [DataType.Bool; DataType.Bool; DataType.Bool].
Definition compareSets :=
  [ [DataType.Int; DataType.Int; DataType.Bool];
    [DataType.UInt; DataType.UInt; DataType.Bool];
    [DataType.Long; DataType.Long; DataType.Bool];
    [DataType.ULong; DataType.ULong; DataType.Bool];
    [DataType.Float; DataType.Float; DataType.Bool];
    [DataType.Double; DataType.Double; DataType.Bool] ].

(** [for (i ..) if (t == typeSets[i][0]) return typeSets[i][1]]: the result
    of the first matching row, if any. *)
Fixpoint unaryLookup (t : string) (typeSets : list (list string)) : option (option string) :=
  match typeSets with
  | [] => None
  | row :: rest =>
    if bool_decide (row !! 0%nat = Some t) then Some (row !! 1%nat)
    else unaryLookup t rest
  end.

Fixpoint binaryLookup (t0 t1 : string) (typeSets : list (list string))
    : option (option string) :=
  match typeSets with
  | [] => None
  | row :: rest =>
    if bool_decide (row !! 0%nat = Some t0) && bool_decide (row !! 1%nat = Some t1)
    then Some (row !! 2%nat)
    else binaryLookup t0 t1 rest
  end.

Definition invalidArgMsg (ordinal : string) (n : AstNode.t) : string :=
  "Invalid " +:+ ordinal +:+ "argument to operator " +:+ TokenType.name (Token.type (AstNode.token n)).

(** [registerDataTypeUnaryOp], lines 594-604 *)
Definition dtRule_UnaryOp (rec : Rec) (type : TokenType.t) (typeSets : list (list string))
    (n : AstNode.t) (path : Path) : M (option string) :=
  dt ← nodeDataType path;
  if truthy dt || bool_decide (Token.type (AstNode.token n) ≠ type) then mret dt
  else
    match AstNode.children n with
    | [] => throw
    | c0 :: _ =>
      t ← rec c0 (0 :: path);
      match unaryLookup t typeSets with
      | Some r => mret r
      | None => logError (invalidArgMsg "" n) c0;; mret (Some DataType.Invalid)
      end
    end.

(** [registerDataTypeBinaryOp], lines 606-618 *)
Definition dtRule_BinaryOp (rec : Rec) (type : TokenType.t) (typeSets : list (list string))
    (n : AstNode.t) (path : Path) : M (option string) :=
  dt ← nodeDataType path;
  if truthy dt || bool_decide (Token.type (AstNode.token n) ≠ type) then mret dt
  else
    match AstNode.children n with
    | [] => throw
    | c0 :: rest =>
      t0 ← rec c0 (0 :: path);
      match rest with
      | [] => throw
      | c1 :: _ =>
        t1 ← rec c1 (1 :: path);
        match binaryLookup t0 t1 typeSets with
        | Some r => mret r
        | None =>
          logError (invalidArgMsg "1st " n) c0;;
          logError (invalidArgMsg "2nd " n) c1;;
          mret (Some DataType.Invalid)
        end
      end
    end.

(** The identifier an assignment or a call resolves, and the scope it is
    resolved in: [ident = getIdentifier(..)] and [this.getScope(ident)]. *)
Definition constAssignMsg : string := "Constant globals cannot be assigned to".
Definition invalidLhsMsg : string := "Invalid left-hand side of assignment".
Definition invalidRhsMsg : string := "Invalid right-hand side of assignment".
Definition sameTypeMsg : string := "Both sides of an assignment must be of the same type".

(** Lines 454-465, shared verbatim by the Assignment and Global rules. *)
Definition assignSides (rec : Rec) (n : AstNode.t) (path : Path)
    (c0 : AstNode.t) (rest : list AstNode.t) : M (option string) :=
  t0 ← rec c0 (0 :: path);
  match rest with
  | [] => throw
  | c1 :: _ =>
    t1 ← rec c1 (1 :: path);
    if bool_decide (t0 = DataType.Invalid ∨ t1 = DataType.Invalid) then
      when (bool_decide (t0 = DataType.Invalid)) (logError invalidLhsMsg c0);;
      when (bool_decide (t1 = DataType.Invalid)) (logError invalidRhsMsg c1);;
      mret (Some DataType.Invalid)
    else if bool_decide (t0 ≠ t1) then
      logError sameTypeMsg n;;
      mret (Some DataType.Invalid)
    else mret (Some t0)
  end.

(** The const check of the Assignment rule, lines 445-452: [true] when the
    target's identifier resolves to a variable whose [const] flag is set. *)
Definition targetIsConst (c0 : AstNode.t) (path : Path) : M bool :=
  ident ← getIdentifier c0 (0 :: path);
  match ident with
  | Some (inode, ipath) =>
    s ← getScope ipath;
    st ← get;
    match Scope.getVariable (heap st) s (tokenValue inode) with
    | Some nvar => mret (Var.const nvar)
    | None => mret false
    end
  | None => mret false
  end.

Definition dtRule_Assignment (rec : Rec) (n : AstNode.t) (path : Path) : M (option string) :=
  match AstNode.children n with
  | [] => throw
  | c0 :: rest =>
    isConst ← targetIsConst c0 path;
    if isConst : bool then
      logError constAssignMsg n;;
      mret (Some DataType.Invalid)
    else assignSides rec n path c0 rest
  end.

Definition dtRule_Global (rec : Rec) (n : AstNode.t) (path : Path) : M (option string) :=
  match AstNode.children n with
  | [] => throw
  | c0 :: rest => assignSides rec n path c0 rest
  end.

(** The twelve admitted pairs of the [as] rule, lines 489-500, in order. *)
Definition asTable : list (string * string) :=
  [ (DataType.Int, DataType.UInt); (DataType.Int, DataType.Float);
    (DataType.UInt, DataType.Int); (DataType.UInt, DataType.Float);
    (DataType.Long, DataType.ULong); (DataType.Long, DataType.Double);
    (DataType.ULong, DataType.Long); (DataType.ULong, DataType.Double);
    (DataType.Float, DataType.Int); (DataType.Float, DataType.UInt);
    (DataType.Double, DataType.Long); (DataType.Double, DataType.ULong) ].

(** The twenty-six admitted pairs of the [to] rule, lines 513-538. *)
Definition toTable : list (string * string) :=
  [ (DataType.Int, DataType.Long); (DataType.Int, DataType.ULong);
    (DataType.Int, DataType.Float); (DataType.Int, DataType.Double);
    (DataType.UInt, DataType.Long); (DataType.UInt, DataType.ULong);
    (DataType.UInt, DataType.Float); (DataType.UInt, DataType.Double);
    (DataType.Long, DataType.Int); (DataType.Long, DataType.UInt);
    (DataType.Long, DataType.Float); (DataType.Long, DataType.Double);
    (DataType.ULong, DataType.Int); (DataType.ULong, DataType.UInt);
    (DataType.ULong, DataType.Float); (DataType.ULong, DataType.Double);
    (DataType.Float, DataType.Int); (DataType.Float, DataType.UInt);
    (DataType.Float, DataType.Long); (DataType.Float, DataType.ULong);
    (DataType.Float, DataType.Double);
    (DataType.Double, DataType.Int); (DataType.Double, DataType.UInt);
    (DataType.Double, DataType.Long); (DataType.Double, DataType.ULong);
    (DataType.Double, DataType.Float) ].

(** [if (t0 == a && t1 == b) return b], row after row. *)
Fixpoint castLookup (t0 t1 : string) (table : list (string * string)) : option string :=
  match table with
  | [] => None
  | (a, b) :: rest =>
    if bool_decide (t0 = a) && bool_decide (t1 = b) then Some b
    else castLookup t0 t1 rest
  end.

(** The type named by the right-hand side of a cast, lines 486-487. *)
Definition castTargetType (c1 : AstNode.t) : string :=
  let t1 := if bool_decide (AstNode.type c1 = AstType.Type_) then tokenValue c1
            else DataType.Invalid in
  if bool_decide (t1 = DataType.Bool) then DataType.Invalid else t1.

Definition invalidValueArgMsg (n : AstNode.t) : string :=
  "Invalid value argument to operator " +:+ TokenType.name (Token.type (AstNode.token n)).
Definition invalidTypeArgMsg (n : AstNode.t) : string :=
  "Invalid type argument to operator " +:+ TokenType.name (Token.type (AstNode.token n)).

(** The two cast rules, lines 483-505 and 507-543, differ in the operator
    token and in the table only. *)
Definition dtRule_Cast (rec : Rec) (type : TokenType.t) (table : list (string * string))
    (n : AstNode.t) (path : Path) : M (option string) :=
  dt ← nodeDataType path;
  if truthy dt || bool_decide (Token.type (AstNode.token n) ≠ type) then mret dt
  else
    match AstNode.children n with
    | [] => throw
    | c0 :: rest =>
      t0 ← rec c0 (0 :: path);
      match rest with
      | [] => throw
      | c1 :: _ =>
        let t1 := castTargetType c1 in
        match castLookup t0 t1 table with
        | Some r => mret (Some r)
        | None =>
          when (bool_decide (t0 = DataType.Invalid)) (logError (invalidValueArgMsg n) c0);;
          when (bool_decide (t1 = DataType.Invalid)) (logError (invalidTypeArgMsg n) c1);;
          mret (Some DataType.Invalid)
        end
      end
    end.

Definition dtRule_As (rec : Rec) := dtRule_Cast rec TokenType.As asTable.
Definition dtRule_To (rec : Rec) := dtRule_Cast rec TokenType.To toTable.

Definition invalidFunctionIdMsg : string := "Invalid function identifier".

Definition arityMsg (func : Function.t) (nargs : nat) : string :=
  "Function " +:+ JSON_stringify (Function.id func) +:+ " takes "
    +:+ pretty (length (Function.params func)) +:+ " arguments, not " +:+ pretty nargs.

Definition paramMsg (func : Function.t) (i : nat) (param : Var.t) (type : string) : string :=
  "The " +:+ formatOrdinal (i + 1) +:+ " parameter (" +:+ JSON_stringify (Var.id param)
    +:+ ") of function " +:+ JSON_stringify (Function.id func) +:+ " is type "
    +:+ Var.type param +:+ ", not " +:+ type.

Section CheckArgs.
Context (rec : Rec) (func : Function.t) (argsPath : Path).

(** The loop of lines 561-567, entered with as many arguments as
    parameters: [params] are [func.params[i..]], [args] the argument
    nodes [n.children[1].children[i..]]. *)
Fixpoint checkArgs (i : nat) (params : list Var.t) (args : list AstNode.t)
    (valid : bool) {struct args} : M bool :=
  match params with
  | [] => mret valid
  | param :: params' =>
    match args with
    | [] => throw
    | arg :: args' =>
      type ← rec arg (i :: argsPath);
      if bool_decide (type ≠ Var.type param) then
        logError (paramMsg func i param type) arg;;
        checkArgs (S i) params' args' false
      else checkArgs (S i) params' args' valid
    end
  end.
End CheckArgs.

(** Lines 545-570 *)
Definition dtRule_FunctionCall (rec : Rec) (n : AstNode.t) (path : Path) : M (option string) :=
  match AstNode.children n with
  | [] => throw
  | c0 :: rest =>
    ident ← getIdentifier c0 (0 :: path);
    match ident with
    | None => logError invalidFunctionIdMsg n;; mret (Some DataType.Invalid)
    | Some (inode, ipath) =>
      s ← getScope ipath;
      st ← get;
      match Scope.getFunction (heap st) s (tokenValue inode) with
      | None => logError (noFunctionMsg (tokenValue inode)) n;; mret (Some DataType.Invalid)
      | Some func =>
        match rest with
        | [] => throw
        | c1 :: _ =>
          if bool_decide (length (Function.params func) ≠ length (AstNode.children c1)) then
            logError (arityMsg func (length (AstNode.children c1))) n;;
            mret (Some DataType.Invalid)
          else
            valid ← checkArgs rec func (1 :: path) 0 (Function.params func)
                              (AstNode.children c1) true;
            if valid : bool then mret (Some (Function.type func))
            else mret (Some DataType.Invalid)
        end
      end
    end
  end.

Definition returnMsg (t fname r : string) : string :=
  "Type of return value (" +:+ t +:+ ") does not match function " +:+ fname
    +:+ "'s return type (" +:+ r +:+ ")".

(** Lines 572-581 *)
Definition dtRule_Return (rec : Rec) (n : AstNode.t) (path : Path) : M (option string) :=
  match AstNode.children n with
  | [] => throw
  | c0 :: _ =>
    t ← rec c0 (0 :: path);
    match findAncestor AstType.FunctionDef path with
    | Some p =>
      if bool_decide (t ≠ tokenValue p ∨ tokenValue p = DataType.None) then
        p0 ← childAt p 0;
        logError (returnMsg t (tokenValue p0) (tokenValue p)) c0;;
        mret (Some DataType.Invalid)
      else mret (Some t)
    | None => mret (Some t)
    end
  end.

(** Lines 583-591 *)
Definition dtRule_ReturnVoid (n : AstNode.t) (path : Path) : M (option string) :=
  match findAncestor AstType.FunctionDef path with
  | Some p =>
    if bool_decide (tokenValue p ≠ DataType.None) then
      p0 ← childAt p 0;
      c0 ← childAt n 0;
      logError (returnMsg DataType.None (tokenValue p0) (tokenValue p)) c0;;
      mret (Some DataType.Invalid)
    else mret (Some DataType.None)
  | None => mret (Some DataType.None)
  end.

(** The [registerDataType] calls of the constructor, in order, applied to
    the node. *)
Definition dataTypeRegistrations (rec : Rec) (n : AstNode.t) (path : Path)
    : list (AstType.t * M (option string)) :=
  [ (AstType.Access, dtRule_Access rec n path);
    (AstType.VariableId, dtRule_VariableId n path);
    (AstType.FunctionId, dtRule_FunctionId n path);
    (AstType.StructId, dtRule_StructId n path);
    (AstType.Type_, dtRule_Type);
    (AstType.VariableDef, dtRule_VariableDef n);
    (AstType.FunctionDef, dtRule_FunctionDef n);
    (AstType.StructDef, dtRule_StructDef n);
    (AstType.Literal, dtRule_Literal n);
    (AstType.UnaryOp, dtRule_UnaryOp rec TokenType.Neg signedTypeSets n path);
    (AstType.UnaryOp, dtRule_UnaryOp rec TokenType.NOT fixedTypeSets n path);
    (AstType.UnaryOp, dtRule_UnaryOp rec TokenType.Not [boolTypeSet] n path);
    (AstType.BinaryOp, dtRule_BinaryOp rec TokenType.Add numberTypeSets n path);
    (AstType.BinaryOp, dtRule_BinaryOp rec TokenType.Sub numberTypeSets n path);
    (AstType.BinaryOp, dtRule_BinaryOp rec TokenType.Mul numberTypeSets n path);
    (AstType.BinaryOp, dtRule_BinaryOp rec TokenType.Div numberTypeSets n path);
    (AstType.BinaryOp, dtRule_BinaryOp rec TokenType.Mod fixedTypeSets n path);
    (AstType.BinaryOp, dtRule_BinaryOp rec TokenType.AND fixedTypeSets n path);
    (AstType.BinaryOp, dtRule_BinaryOp rec TokenType.OR fixedTypeSets n path);
    (AstType.BinaryOp, dtRule_BinaryOp rec TokenType.XOR fixedTypeSets n path);
    (AstType.BinaryOp, dtRule_BinaryOp rec TokenType.NOT fixedTypeSets n path);
    (AstType.BinaryOp, dtRule_BinaryOp rec TokenType.ShL fixedTypeSets n path);
    (AstType.BinaryOp, dtRule_BinaryOp rec TokenType.ShR fixedTypeSets n path);
    (AstType.BinaryOp, dtRule_BinaryOp rec TokenType.RotL fixedTypeSets n path);
    (AstType.BinaryOp, dtRule_BinaryOp rec TokenType.RotR fixedTypeSets n path);
    (AstType.BinaryOp, dtRule_BinaryOp rec TokenType.Eq (compareSets ++ [boolTypeSet]) n path);
    (AstType.BinaryOp, dtRule_BinaryOp rec TokenType.Ne (compareSets ++ [boolTypeSet]) n path);
    (AstType.BinaryOp, dtRule_BinaryOp rec TokenType.Lt compareSets n path);
    (AstType.BinaryOp, dtRule_BinaryOp rec TokenType.Le compareSets n path);
    (AstType.BinaryOp, dtRule_BinaryOp rec TokenType.Gt compareSets n path);
    (AstType.BinaryOp, dtRule_BinaryOp rec TokenType.Ge compareSets n path);
    (AstType.BinaryOp, dtRule_BinaryOp rec TokenType.And [boolTypeSet] n path);
    (AstType.BinaryOp, dtRule_BinaryOp rec TokenType.Or [boolTypeSet] n path);
    (AstType.Assignment, dtRule_Assignment rec n path);
    (AstType.Global, dtRule_Global rec n path);
    (AstType.BinaryOp, dtRule_As rec n path);
    (AstType.BinaryOp, dtRule_To rec n path);
    (AstType.FunctionCall, dtRule_FunctionCall rec n path);
    (AstType.Return, dtRule_Return rec n path);
    (AstType.ReturnVoid, dtRule_ReturnVoid n path) ].

(** [for (let rule of rules) node.dataType = rule(node)] *)
Definition runDataTypeRules (path : Path) (rules : list (M (option string))) : M unit :=
  foldM (fun (_ : unit) rule => r ← rule; setNodeDataType path r) tt rules.

(** [Analyzer.getDataType], analyzer.ts lines 72-83, with [this.getDataType]
    abstracted. *)
Definition getDataType_body (rec : Rec) (n : AstNode.t) (path : Path) : M string :=
  when (negb (AstNode.valid n)) (setNodeDataType path (Some DataType.Invalid));;
  dt ← nodeDataType path;
  if truthy dt then mret (default EmptyString dt)
  else
    runDataTypeRules path (rulesFor n (dataTypeRegistrations rec n path));;
    dt ← nodeDataType path;
    if truthy dt then mret (default EmptyString dt)
    else setNodeDataType path (Some DataType.None);; mret DataType.None.

Fixpoint getDataType (n : AstNode.t) (path : Path) {struct n} : M string :=
  getDataType_body getDataType n path.

(** *** The four passes, analyzer.ts lines 30-50, 65-70 and 85-93 *)

Fixpoint hoistPass (node : AstNode.t) (path : Path) {struct node} : M unit :=
  s ← getScope path;
  setNodeScope path s;;
  forIndexed (fun i child =>
                if bool_decide (AstNode.type child ≠ AstType.StructDef) then mret tt
                else hoistPass child (i :: path))
             0 (AstNode.children node).

Fixpoint scopePass (node : AstNode.t) (path : Path) {struct node} : M unit :=
  s ← getScope path;
  setNodeScope path s;;
  forIndexed (fun i child => scopePass child (i :: path)) 0 (AstNode.children node).

Fixpoint typePass (node : AstNode.t) (path : Path) {struct node} : M unit :=
  t ← getDataType node path;
  setNodeDataType path (Some t);;
  forIndexed (fun i child => typePass child (i :: path)) 0 (AstNode.children node).

(** [registerAnalysis] is never called: the constructor leaves
    [analysisRuleMap] empty. *)
Definition analysisRegistrations (n : AstNode.t) (path : Path) : list (AstType.t * M unit) := [].

Fixpoint analysisPass (node : AstNode.t) (path : Path) {struct node} : M unit :=
  foldM (fun (_ : unit) rule => rule) tt (rulesFor node (analysisRegistrations node path));;
  forIndexed (fun i child => analysisPass child (i :: path)) 0 (AstNode.children node).

(** [Analyzer.analyze(ast)] with [ast] the root of the tree. *)
Definition analyze : M unit :=
  hoistPass root [];;
  scopePass root [];;
  typePass root [];;
  analysisPass root [].
End Analyzer.

(** ** The constructor, analyzer.ts lines 157-171 and 179-258 *)

Definition registerBuiltinFunc (path type : string) (paramTypes paramNames : list string)
    : M unit :=
  let parts := splitDot path EmptyString in
  let id := default EmptyString (last parts) in
  let parts := removelast parts in
  scope ← foldM (fun scope part =>
                   st ← get;
                   match heap st !! scope ≫= (fun s => Scope.scopes s !! part) with
                   | Some s' => mret s'
                   | None =>
                     s' ← newScope None scope part;
                     updScope scope (Scope.set_scopes <[part := s']>);;
                     mret s'
                   end)
                rootScope parts;
  let params := imap (fun i ty => Var.new None scope (default EmptyString (paramNames !! i)) ty)
                     paramTypes in
  if bool_decide (id ≠ EmptyString)
  then updScope scope (Scope.set_funcs <[id := Function.new None scope id type params]>)
  else mret tt.

Definition loadStore (T : string) (loads stores : list string) : M unit :=
  foldM (fun (_ : unit) f => registerBuiltinFunc (T +:+ "." +:+ f) T [DataType.UInt] ["addr"])
        tt loads;;
  foldM (fun (_ : unit) f =>
           registerBuiltinFunc (T +:+ "." +:+ f) DataType.None [DataType.UInt; T] ["addr"; "val"])
        tt stores.

Definition unaryBuiltins (T : string) (names : list string) : M unit :=
  foldM (fun (_ : unit) f => registerBuiltinFunc (T +:+ "." +:+ f) T [T] ["n"]) tt names.

Definition binaryBuiltins (T : string) (names : list string) : M unit :=
  foldM (fun (_ : unit) f => registerBuiltinFunc (T +:+ "." +:+ f) T [T; T] ["a"; "b"]) tt names.

Definition registerBuiltins : M unit :=
  registerBuiltinFunc "nop" DataType.None [] [];;
  loadStore DataType.Int ["loadSByte"; "loadShort"; "load"] ["storeSByte"; "storeShort"; "store"];;
  loadStore DataType.UInt ["loadByte"; "loadUShort"; "load"] ["storeByte"; "storeUShort"; "store"];;
  loadStore DataType.Long ["loadSByte"; "loadShort"; "loadInt"; "load"]
                          ["storeSByte"; "storeShort"; "storeInt"; "store"];;
  loadStore DataType.ULong ["loadByte"; "loadUShort"; "loadUInt"; "load"]
                           ["storeByte"; "storeUShort"; "storeUInt"; "store"];;
  registerBuiltinFunc "float.load" DataType.Float [DataType.UInt] ["addr"];;
  registerBuiltinFunc "float.store" DataType.None [DataType.UInt; DataType.Float] ["addr"; "val"];;
  registerBuiltinFunc "double.load" DataType.Double [DataType.UInt] ["addr"; "val"];;
  registerBuiltinFunc "double.store" DataType.None [DataType.UInt; DataType.Double] ["addr"; "val"];;
  unaryBuiltins DataType.Int ["clz"; "ctz"; "popcnt"; "eqz"];;
  unaryBuiltins DataType.UInt ["clz"; "ctz"; "popcnt"; "eqz"];;
  unaryBuiltins DataType.Long ["clz"; "ctz"; "popcnt"; "eqz"];;
  unaryBuiltins DataType.ULong ["clz"; "ctz"; "popcnt"; "eqz"];;
  unaryBuiltins DataType.Float ["abs"; "ceil"; "floor"; "truncate"; "round"; "sqrt"];;
  binaryBuiltins DataType.Float ["copysign"; "min"; "max"];;
  unaryBuiltins DataType.Double ["abs"; "ceil"; "floor"; "truncate"; "round"; "sqrt"];;
  binaryBuiltins DataType.Double ["copysign"; "min"; "max"].

(** The state of a fresh [SchwaAnalyzer]: the root scope with the builtin
    catalog, no annotation, an empty log. *)
Definition emptyState : State := mkState [Scope.new None None EmptyString] ∅ ∅ [].

Definition newSchwaAnalyzer : State :=
  match registerBuiltins emptyState with
  | Some (_, st) => st
  | None => emptyState
  end.

(** ** Sample inputs *)

Definition tk (ty : TokenType.t) (v : string) : Token.t := Token.mk ty v 0 0.
Definition nd (ty : AstType.t) (t : Token.t) (cs : list AstNode.t) : AstNode.t :=
  AstNode.mk ty t true cs.
Definition vid (x : string) : AstNode.t := nd AstType.VariableId (tk TokenType.Name x) [].
Definition fid (x : string) : AstNode.t := nd AstType.FunctionId (tk TokenType.Name x) [].
Definition vdef (ty x : string) : AstNode.t :=
  nd AstType.VariableDef (tk TokenType.Type_ ty) [vid x].
Definition lit (ty : TokenType.t) (v : string) : AstNode.t := nd AstType.Literal (tk ty v) [].
Definition tyNode (ty : string) : AstNode.t := nd AstType.Type_ (tk TokenType.Type_ ty) [].

(** A variable of type [bool], as [makeStructScope] builds one for a field. *)
Definition boolVar : Var.t := Var.new None rootScope "flag" DataType.Bool.

(** A function whose body declares [Foo x] where no struct [Foo] exists. *)
Definition undeclaredTypeProgram : AstNode.t :=
  nd AstType.Program (tk TokenType.BOF "") [
    nd AstType.FunctionDef (tk TokenType.Type_ "void") [
      fid "main";
      nd AstType.Parameters (tk TokenType.LParen "(") [];
      nd AstType.Block (tk TokenType.Indent "") [
        nd AstType.VariableDef (tk TokenType.Name "Foo") [vid "x"] ] ] ].

(** The state in which [analyze] leaves a fresh analyzer on [t]. *)
Definition analyzed (t : AstNode.t) : State :=
  match analyze t newSchwaAnalyzer with
  | Some (_, st) => st
  | None => emptyState
  end.

(** The state a computation leaves, for naming intermediate states. *)
Definition stateAfter {A} (m : M A) (st : State) : State :=
  match m st with
  | Some (_, st') => st'
  | None => st
  end.

(** The state of a fresh analyzer after the hoist and scope passes on [t]. *)
Definition afterScopePass (t : AstNode.t) : State :=
  stateAfter (hoistPass t t [];; scopePass t t []) newSchwaAnalyzer.

(** [void f()] with the body [return 1]. *)
Definition voidReturnProgram : AstNode.t :=
  nd AstType.Program (tk TokenType.BOF "") [
    nd AstType.FunctionDef (tk TokenType.Type_ "void") [
      fid "f";
      nd AstType.Parameters (tk TokenType.LParen "(") [];
      nd AstType.Block (tk TokenType.Indent "") [
        nd AstType.Return (tk TokenType.Return "return") [lit TokenType.Int "1"] ] ] ].

(** A state whose root scope holds a variable [C] with the [const] flag set,
    and the assignment [C = 20] as a tree of its own. *)
Definition constVar : Var.t := Var.set_const true (Var.new None rootScope "C" DataType.Int).
Definition constState : State :=
  mkState [Scope.set_vars <["C" := constVar]> (Scope.new None None EmptyString)] ∅ ∅ [].
Definition constAssignment : AstNode.t :=
  nd AstType.Assignment (tk TokenType.Assign "=") [vid "C"; lit TokenType.Int "20"].

(** [void main()] with the body [int x = 5] and [x = 3.14]. *)
Definition mismatchedAssignment : AstNode.t :=
  nd AstType.Assignment (tk TokenType.Assign "=") [vid "x"; lit TokenType.Double "3.14"].
Definition mismatchProgram : AstNode.t :=
  nd AstType.Program (tk TokenType.BOF "") [
    nd AstType.FunctionDef (tk TokenType.Type_ "void") [
      fid "main";
      nd AstType.Parameters (tk TokenType.LParen "(") [];
      nd AstType.Block (tk TokenType.Indent "") [
        nd AstType.Assignment (tk TokenType.Assign "=") [vdef "int" "x"; lit TokenType.Int "5"];
        mismatchedAssignment ] ] ].

(** The pairs admitted by the [as] cast as the specification lists them,
    [a↔b] standing for both directions. *)
Definition bothWays (a b : string) : list (string * string) := [(a, b); (b, a)].
Definition asPairsOfSpec : list (string * string) :=
  bothWays DataType.Int DataType.UInt ++ bothWays DataType.Int DataType.Float
  ++ bothWays DataType.UInt DataType.Float ++ bothWays DataType.Long DataType.ULong
  ++ bothWays DataType.Long DataType.Double ++ bothWays DataType.ULong DataType.Double
  ++ [ (DataType.Float, DataType.Int); (DataType.Float, DataType.UInt);
       (DataType.Double, DataType.Long); (DataType.Double, DataType.ULong) ].

(** The operators registered through [registerDataTypeBinaryOp], in order. *)
Definition binaryOps : list (TokenType.t * list (list string)) :=
  [ (TokenType.Add, numberTypeSets); (TokenType.Sub, numberTypeSets);
    (TokenType.Mul, numberTypeSets); (TokenType.Div, numberTypeSets);
    (TokenType.Mod, fixedTypeSets); (TokenType.AND, fixedTypeSets);
    (TokenType.OR, fixedTypeSets); (TokenType.XOR, fixedTypeSets);
    (TokenType.NOT, fixedTypeSets); (TokenType.ShL, fixedTypeSets);
    (TokenType.ShR, fixedTypeSets); (TokenType.RotL, fixedTypeSets);
    (TokenType.RotR, fixedTypeSets);
    (TokenType.Eq, compareSets ++ [boolTypeSet]); (TokenType.Ne, compareSets ++ [boolTypeSet]);
    (TokenType.Lt, compareSets); (TokenType.Le, compareSets);
    (TokenType.Gt, compareSets); (TokenType.Ge, compareSets);
    (TokenType.And, [boolTypeSet]); (TokenType.Or, [boolTypeSet]) ].

(** The state after [if (b) this.logError(msg, node)]. *)
Definition withLogIf (b : bool) (m : LogMsg.t) (st : State) : State :=
  if b then withLog m st else st.

(** [void main()] with the body [int x = 1] and [long y = x as long]. *)
Definition castNode : AstNode.t :=
  nd AstType.BinaryOp (tk TokenType.As "as") [vid "x"; tyNode "long"].
Definition castProgram : AstNode.t :=
  nd AstType.Program (tk TokenType.BOF "") [
    nd AstType.FunctionDef (tk TokenType.Type_ "void") [
      fid "main";
      nd AstType.Parameters (tk TokenType.LParen "(") [];
      nd AstType.Block (tk TokenType.Indent "") [
        nd AstType.Assignment (tk TokenType.Assign "=") [vdef "int" "x"; lit TokenType.Int "1"];
        nd AstType.Assignment (tk TokenType.Assign "=") [vdef "long" "y"; castNode] ] ] ].

(** The same with [uint y = x as uint]. *)
Definition goodCastNode : AstNode.t :=
  nd AstType.BinaryOp (tk TokenType.As "as") [vid "x"; tyNode "uint"].
Definition goodCastProgram : AstNode.t :=
  nd AstType.Program (tk TokenType.BOF "") [
    nd AstType.FunctionDef (tk TokenType.Type_ "void") [
      fid "main";
      nd AstType.Parameters (tk TokenType.LParen "(") [];
      nd AstType.Block (tk TokenType.Indent "") [
        nd AstType.Assignment (tk TokenType.Assign "=") [vdef "int" "x"; lit TokenType.Int "1"];
        nd AstType.Assignment (tk TokenType.Assign "=") [vdef "uint" "y"; goodCastNode] ] ] ].

(** [int add(int a, int b)] returning [a + b], and [int bad()] whose body
    returns the call [call]. *)
Definition callNode (args : list AstNode.t) : AstNode.t :=
  nd AstType.FunctionCall (tk TokenType.LParen "(") [
    fid "add"; nd AstType.Arguments (tk TokenType.LParen "(") args ].
Definition callProgram (call : AstNode.t) : AstNode.t :=
  nd AstType.Program (tk TokenType.BOF "") [
    nd AstType.FunctionDef (tk TokenType.Type_ "int") [
      fid "add";
      nd AstType.Parameters (tk TokenType.LParen "(") [vdef "int" "a"; vdef "int" "b"];
      nd AstType.Block (tk TokenType.Indent "") [
        nd AstType.Return (tk TokenType.Return "return") [
          nd AstType.BinaryOp (tk TokenType.Add "+") [vid "a"; vid "b"] ] ] ];
    nd AstType.FunctionDef (tk TokenType.Type_ "int") [
      fid "bad";
      nd AstType.Parameters (tk TokenType.LParen "(") [];
      nd AstType.Block (tk TokenType.Indent "") [
        nd AstType.Return (tk TokenType.Return "return") [call] ] ] ].

(** [add(1)]: one argument for two parameters. *)
Definition shortCall : AstNode.t := callNode [lit TokenType.Int "1"].
(** [add(1.5, true)]: both arguments of the wrong type. *)
Definition wrongCall : AstNode.t := callNode [lit TokenType.Double "1.5"; lit TokenType.Bool "true"].

(** The function a call to [add] resolves to in [st], from the scope [s]. *)
Definition resolvedAdd (st : State) (s : ScopeId) : Function.t :=
  default (Function.new None rootScope EmptyString EmptyString [])
          (Scope.getFunction (heap st) s "add").

(** A state whose root scope holds a struct [S], and second declarations of
    the variable [C], of the builtin function [nop] and of the struct [S]. *)
Definition structState : State :=
  mkState [Scope.set_structs <["S" := Struct.new None rootScope "S" []]>
             (Scope.new None None EmptyString)] ∅ ∅ [].
Definition secondVariable : AstNode.t := vdef "long" "C".
Definition secondFunction : AstNode.t :=
  nd AstType.FunctionDef (tk TokenType.Type_ "int") [
    fid "nop";
    nd AstType.Parameters (tk TokenType.LParen "(") [vdef "int" "a"];
    nd AstType.Block (tk TokenType.Indent "") [] ].
Definition secondStruct : AstNode.t :=
  nd AstType.StructDef (tk TokenType.Name "struct") [
    nd AstType.StructId (tk TokenType.Name "S") [];
    nd AstType.Fields (tk TokenType.Indent "") [vdef "int" "x"] ].

(** The access [a.f] whose right-hand side is the function identifier [f]. *)
Definition accessNode : AstNode.t :=
  nd AstType.Access (tk TokenType.Period ".") [vid "a"; fid "f"].

(** A literal the validator flagged. *)
Definition flaggedLiteral : AstNode.t :=
  AstNode.mk AstType.Literal (tk TokenType.Int "1") false [].

(** A state whose root scope holds the variable [n] of type [uint], and the
    expressions [-n] and [n < n] over it. *)
Definition uintState : State :=
  mkState [Scope.set_vars <["n" := Var.new None rootScope "n" DataType.UInt]>
             (Scope.new None None EmptyString)] ∅ ∅ [].
Definition negNode : AstNode.t := nd AstType.UnaryOp (tk TokenType.Neg "-") [vid "n"].
Definition ltNode : AstNode.t := nd AstType.BinaryOp (tk TokenType.Lt "<") [vid "n"; vid "n"].
(** [n ? n] with an operator token no rule is registered for. *)
Definition commaNode : AstNode.t :=
  nd AstType.BinaryOp (tk TokenType.Comma ",") [vid "n"; vid "n"].
(** [n to float]. *)
Definition toFloatNode : AstNode.t :=
  nd AstType.BinaryOp (tk TokenType.To "to") [vid "n"; tyNode "float"].

(** [int f()] whose body is a bare [return]. *)
Definition bareReturn : AstNode.t := nd AstType.ReturnVoid (tk TokenType.Return "return") [].
Definition bareReturnProgram : AstNode.t :=
  nd AstType.Program (tk TokenType.BOF "") [
    nd AstType.FunctionDef (tk TokenType.Type_ "int") [
      fid "f";
      nd AstType.Parameters (tk TokenType.LParen "(") [];
      nd AstType.Block (tk TokenType.Indent "") [bareReturn] ] ].

(** The global [int n = 1.5] over [uintState], and the assignment [n = m]
    whose right-hand side names no variable. *)
Definition globalNode : AstNode.t :=
  nd AstType.Global (tk TokenType.Assign "=") [vid "n"; lit TokenType.Double "1.5"].
Definition danglingAssignment : AstNode.t :=
  nd AstType.Assignment (tk TokenType.Assign "=") [vid "n"; vid "m"].

(** The access [a.n] and an access with one child only. *)
Definition accessVar : AstNode.t :=
  nd AstType.Access (tk TokenType.Period ".") [vid "a"; vid "n"].
Definition shortAccess : AstNode.t :=
  nd AstType.Access (tk TokenType.Period ".") [vid "a"].

(** The calls [1()] and [g()] where no function [g] exists. *)
Definition literalCall : AstNode.t :=
  nd AstType.FunctionCall (tk TokenType.LParen "(") [
    lit TokenType.Int "1"; nd AstType.Arguments (tk TokenType.LParen "(") [vid "n"] ].
Definition unknownCall : AstNode.t :=
  nd AstType.FunctionCall (tk TokenType.LParen "(") [
    fid "g"; nd AstType.Arguments (tk TokenType.LParen "(") [vid "n"] ].

(** [map 16] over the definition [int m], and the definition [int g] under
    a Global node. *)
Definition mappedDef : AstNode.t := vdef "int" "m".
Definition mapProgram : AstNode.t :=
  nd AstType.Program (tk TokenType.BOF "") [
    nd AstType.Map (tk TokenType.Name "map") [mappedDef; lit TokenType.Int "16"] ].

(** [struct P] with the fields [int x] and [long y] and a comment between
    them. *)
Definition pointStruct : AstNode.t :=
  nd AstType.StructDef (tk TokenType.Name "struct") [
    nd AstType.StructId (tk TokenType.Name "P") [];
    nd AstType.Fields (tk TokenType.Indent "") [
      vdef "int" "x"; nd AstType.Comment (tk TokenType.Comment "//") []; vdef "long" "y" ] ].

(** [const int k] as the parser nests it: the modifier node above the
    definition. *)
Definition constProgram : AstNode.t :=
  nd AstType.Program (tk TokenType.BOF "") [
    nd AstType.Const (tk TokenType.Const "const") [vdef "int" "k"] ].

(** The access [int.x], whose left-hand side names the scope of the builtin
    functions of [int], and the access [q.x] that names nothing. *)
Definition intAccess : AstNode.t :=
  nd AstType.Access (tk TokenType.Period ".") [vid "int"; vid "x"].
Definition danglingAccess : AstNode.t :=
  nd AstType.Access (tk TokenType.Period ".") [vid "q"; vid "x"].

(** The state after the definition of [struct P] in the root scope, and a
    variable [pt] of type [P] mapped at offset 16. *)
Definition pointState : State :=
  stateAfter (scopeRule_StructDef pointStruct rootScope) emptyState.
Definition pointVar : Var.t :=
  Var.set_offset (Num 16) (Var.set_mapped true (Var.new None rootScope "pt" "P")).
(** The same variable mapped at offset 2^55, where the doubles are 8 apart. *)
Definition farPointVar : Var.t := Var.set_offset (Num (2 ^ 55)) pointVar.

(** [void f(Foo x)] with an empty body, where no struct [Foo] exists.  The
    validator passes the tree: the children of the Program, FunctionDef and
    Parameters nodes are of the kinds it expects, the identifiers have no
    child, and the definition of [x] has one VariableId child and a
    Parameters node above it. *)
Definition undeclaredParamProgram : AstNode.t :=
  nd AstType.Program (tk TokenType.BOF "") [
    nd AstType.FunctionDef (tk TokenType.Type_ "void") [
      fid "f";
      nd AstType.Parameters (tk TokenType.LParen "(") [
        nd AstType.VariableDef (tk TokenType.Name "Foo") [vid "x"] ];
      nd AstType.Block (tk TokenType.Indent "") [] ] ].

(** * Specification vocabulary *)

(** [pres R m]: every run of [m] that returns relates the state it started in
    to the state it ends in by [R]. *)
Definition pres (R : State → State → Prop) {A} (m : M A) : Prop :=
  ∀ st a st', m st = Some (a, st') → R st st'.

(** [extX xs xt st st']: from [st] to [st'] a scope annotation once set stays
    as it is, a truthy data-type annotation stays or becomes [invalid], and
    the log is extended; the node [xs] is exempt from the first clause, the
    node [xt] from the second. *)
Definition extX (xs xt : option Path) (st st' : State) : Prop :=
  (∀ p s, xs ≠ Some p → scopeOf st !! p = Some s → scopeOf st' !! p = Some s) ∧
  (∀ p t, xt ≠ Some p → dataTypeOf st !! p = Some t → t ≠ EmptyString →
     dataTypeOf st' !! p = Some t ∨ dataTypeOf st' !! p = Some DataType.Invalid) ∧
  logger st `prefix_of` logger st'.

Definition ext : State → State → Prop := extX None None.

(** What a rule may assume of [this.getDataType]: on the nodes below [n] it
    preserves [R]. *)
Definition recOk (R : State → State → Prop) (rec : Rec) (n : AstNode.t) : Prop :=
  ∀ c q, AstNode.height c < AstNode.height n → pres R (rec c q).

(** A node is settled when its data type is a non-empty string, [invalid] if
    the validator flagged the node. *)
Definition settled (n : AstNode.t) (path : Path) (st : State) : Prop :=
  ∃ t, dataTypeOf st !! path = Some t ∧ t ≠ EmptyString ∧
       (AstNode.valid n = false → t = DataType.Invalid).

(** A node is scoped when it carries a scope annotation. *)
Definition scoped (n : AstNode.t) (path : Path) (st : State) : Prop :=
  is_Some (scopeOf st !! path).

(** [P] holds of every node of the subtree [n] rooted at [path]. *)
Definition onSubtree (P : AstNode.t → Path → State → Prop) (n : AstNode.t) (path : Path)
    (st : State) : Prop :=
  ∀ down m, descend n down = Some m → P m (reverse down ++ path) st.

(** What the argument loop did: [types] are the types [this.getDataType]
    returned for the arguments, each in a state between [st] and [st']; every
    argument whose type differs from its parameter's has its diagnostic in
    the log; and the flag stays up only if all of them agree. *)
Definition argsChecked (rec : Rec) (func : Function.t) (argsPath : Path) (i : nat)
    (params : list Var.t) (args : list AstNode.t) (st st' : State) (types : list string)
    : Prop :=
  length types = length args ∧
  ∀ j param arg type,
    params !! j = Some param → args !! j = Some arg → types !! j = Some type →
    (∃ sa sb, rec arg ((i + j) :: argsPath) sa = Some (type, sb) ∧ ext st sa ∧ ext sb st') ∧
    (type ≠ Var.type param →
       errorMsg (paramMsg func (i + j) param type) arg ∈ logger st').

Definition typesAgree (params : list Var.t) (types : list string) : bool :=
  bool_decide (Forall2 (fun param type => type = Var.type param) params types).

(** [keptX E st st']: every scope of [st] is a scope of [st'] whose maps of
    variables, functions and structs still hold every record they held, the
    variables named by [E] excepted. *)
Definition keptX (E : ScopeId → string → Prop) (st st' : State) : Prop :=
  ∀ q sc, heap st !! q = Some sc →
    ∃ sc', heap st' !! q = Some sc' ∧
      (∀ k x, ¬ E q k → Scope.vars sc !! k = Some x → Scope.vars sc' !! k = Some x) ∧
      Scope.funcs sc ⊆ Scope.funcs sc' ∧ Scope.structs sc ⊆ Scope.structs sc'.

Definition symbolsKept : State → State → Prop := keptX (fun _ _ => False).

(** The suffix of an English ordinal as [formatOrdinal] chooses it: by the
    last digit, the numbers 11, 12 and 13 themselves excepted. *)
Definition ordinalSuffix (n : nat) : string :=
  if decide (n mod 10 = 1 ∧ n ≠ 11) then "st"
  else if decide (n mod 10 = 2 ∧ n ≠ 12) then "nd"
  else if decide (n mod 10 = 3 ∧ n ≠ 13) then "rd"
  else "th".

(** The token types of the seven literal kinds. *)
Definition literalTokens : list TokenType.t :=
  [ TokenType.Int; TokenType.UInt; TokenType.Long; TokenType.ULong;
    TokenType.Float; TokenType.Double; TokenType.Bool ].

(** The type a rule's result leaves on a node: the result if it is a
    non-empty string, [void] otherwise. *)
Definition orVoid (o : option string) : string :=
  if truthy o then default EmptyString o else DataType.None.

Definition numberTypes : list string :=
  [DataType.Int; DataType.UInt; DataType.Long; DataType.ULong; DataType.Float; DataType.Double].
Definition integerTypes : list string :=
  [DataType.Int; DataType.UInt; DataType.Long; DataType.ULong].
Definition signedTypes : list string :=
  [DataType.Int; DataType.Long; DataType.Float; DataType.Double].

(** Both operands of one type among [types]: the result is [res] of it. *)
Definition sameIn (types : list string) (res : string → string) (t0 t1 : string)
    : option string :=
  if bool_decide (t0 = t1 ∧ t0 ∈ types) then Some (res t0) else None.

(** The operand types a binary operator admits and the type of its result,
    as the registrations of the constructor amount to. *)
Definition binaryResult (op : TokenType.t) (t0 t1 : string) : option string :=
  match op with
  | TokenType.Add | TokenType.Sub | TokenType.Mul | TokenType.Div =>
    sameIn numberTypes id t0 t1
  | TokenType.Mod | TokenType.AND | TokenType.OR | TokenType.XOR | TokenType.NOT
  | TokenType.ShL | TokenType.ShR | TokenType.RotL | TokenType.RotR =>
    sameIn integerTypes id t0 t1
  | TokenType.Lt | TokenType.Le | TokenType.Gt | TokenType.Ge =>
    sameIn numberTypes (fun _ => DataType.Bool) t0 t1
  | TokenType.Eq | TokenType.Ne =>
    sameIn (numberTypes ++ [DataType.Bool]) (fun _ => DataType.Bool) t0 t1
  | TokenType.And | TokenType.Or =>
    sameIn [DataType.Bool] (fun _ => DataType.Bool) t0 t1
  | _ => None
  end.

(** The operators registered through [registerDataTypeUnaryOp], in order. *)
Definition unaryOps : list (TokenType.t * list (list string)) :=
  [ (TokenType.Neg, signedTypeSets); (TokenType.NOT, fixedTypeSets);
    (TokenType.Not, [boolTypeSet]) ].

(** The operand types a unary operator admits; the result has the type of
    the operand. *)
Definition unaryResult (op : TokenType.t) (t : string) : option string :=
  match op with
  | TokenType.Neg => if bool_decide (t ∈ signedTypes) then Some t else None
  | TokenType.NOT => if bool_decide (t ∈ integerTypes) then Some t else None
  | TokenType.Not => if bool_decide (t = DataType.Bool) then Some t else None
  | _ => None
  end.

(** The same-width sign changes, which [to] leaves to [as]. *)
Definition signChanges : list (string * string) :=
  [ (DataType.Int, DataType.UInt); (DataType.UInt, DataType.Int);
    (DataType.Long, DataType.ULong); (DataType.ULong, DataType.Long) ].

(** The name a parameter or field definition declares: the token of its
    first child. *)
Definition declaredName (def : AstNode.t) : string :=
  from_option tokenValue EmptyString (AstNode.children def !! 0).

(** The variable record built for the parameter or field definition [def]
    of the declaration [n] whose scope is [scope]. *)
Definition memberOf (n : AstNode.t) (scope : ScopeId) (def : AstNode.t) : Var.t :=
  Var.new (Some n) scope (declaredName def) (tokenValue def).

(** The node kinds a scope rule that acts is registered for; the rules of
    Const and Export do nothing. *)
Definition scopeOpeningKinds : list AstType.t :=
  [ AstType.Program; AstType.Block; AstType.StructDef; AstType.FunctionDef;
    AstType.VariableDef; AstType.Access ].

(** The annotations are the same in both states. *)
Definition sameAnnotations (st st' : State) : Prop :=
  scopeOf st' = scopeOf st ∧ dataTypeOf st' = dataTypeOf st.

(** From [st] to [st'] no data type changed, and no scope annotation other
    than those of [path] and of the nodes above it. *)
Definition annotatedUpTo (path : Path) (st st' : State) : Prop :=
  dataTypeOf st' = dataTypeOf st ∧
  ∀ q, ¬ q `suffix_of` path → scopeOf st' !! q = scopeOf st !! q.

(** A heap of scopes is well formed when it holds the root scope, every
    scope's parent was allocated before the scope, and every entry of a
    [scopes] map is a scope of the heap. *)
Definition wfHeap (h : list Scope.t) : Prop :=
  0 < length h ∧
  ∀ i sc, h !! i = Some sc →
    (∀ p, Scope.parent sc = Some p → p < i) ∧
    (∀ k j, Scope.scopes sc !! k = Some j → j < length h).

(** A tree none of whose tokens is a member of [Object.prototype], and a
    state whose maps have no such member for a key and whose variables and
    struct fields are named and typed by none: the names and types an
    analysis looks up in the maps of a scope are then ordinary. *)
Fixpoint ordinaryNames (n : AstNode.t) : bool :=
  bool_decide (ordinary (Token.value (AstNode.token n)))
  && forallb ordinaryNames (AstNode.children n).

Definition ordinaryVar (v : Var.t) : Prop := ordinary (Var.id v) ∧ ordinary (Var.type v).

Definition ordinaryScope (sc : Scope.t) : Prop :=
  map_Forall (fun k v => ordinary k ∧ ordinaryVar v) (Scope.vars sc) ∧
  map_Forall (fun k _ => ordinary k) (Scope.funcs sc) ∧
  map_Forall (fun k s => ordinary k ∧ Forall ordinaryVar (Struct.fields s))
             (Scope.structs sc) ∧
  map_Forall (fun k _ => ordinary k) (Scope.scopes sc).

Definition ordinaryState (st : State) : Prop := Forall ordinaryScope (heap st).

#[global] Instance ordinaryState_dec (st : State) : Decision (ordinaryState st).
Proof. unfold ordinaryState, ordinaryScope, ordinaryVar. apply _. Defined.

(** A state is well formed when its heap is and every scope annotation is a
    scope of the heap. *)
Definition wfState (st : State) : Prop :=
  wfHeap (heap st) ∧ ∀ q s, scopeOf st !! q = Some s → s < length (heap st).

(** From a well-formed state to a well-formed state with no fewer scopes. *)
Definition wfKept (st st' : State) : Prop :=
  wfState st → wfState st' ∧ length (heap st) ≤ length (heap st').

(** The scope annotations and the tree of scopes (parents and [scopes]
    maps) are the same in both states. *)
Definition treeKept (st st' : State) : Prop :=
  scopeOf st' = scopeOf st ∧ length (heap st') = length (heap st) ∧
  ∀ i sc, heap st !! i = Some sc →
    ∃ sc', heap st' !! i = Some sc' ∧
           Scope.parent sc' = Scope.parent sc ∧ Scope.scopes sc' = Scope.scopes sc.

(** A scope rule run from a well-formed state with a parent scope of the
    heap ends in a well-formed state with no fewer scopes and returns a scope
    of the heap. *)
Definition scopeStep (p : ScopeId) (m : M ScopeId) : Prop :=
  ∀ st s st', wfState st → p < length (heap st) → m st = Some (s, st') →
    wfState st' ∧ length (heap st) ≤ length (heap st') ∧ s < length (heap st').



(** The size in bytes [getSize] gives a primitive type. *)
Definition primitiveSize (type : string) : Z :=
  if bool_decide (type ∈ [DataType.Int; DataType.UInt; DataType.Float; DataType.Bool]) then 4
  else if bool_decide (type ∈ [DataType.Long; DataType.ULong; DataType.Double]) then 8
  else 0.

Definition fieldsSize (fields : list Var.t) : Z :=
  foldr (fun f acc => (primitiveSize (Var.type f) + acc)%Z) 0%Z fields.

(** The variable [makeStructScope] makes of field [f] of a variable [v], in
    scope [scope] at [offset]: the flags [const], [export] and [mapped] are
    those of [v]; [global] is not copied. *)
Definition fieldVar (v : Var.t) (scope : ScopeId) (offset : JSNum) (f : Var.t) : Var.t :=
  Var.mk None scope (Var.id f) (Var.type f) (Var.const v) (Var.export v) false (Var.mapped v)
         offset.

Fixpoint layoutFields (v : Var.t) (scope : ScopeId) (offset : JSNum) (fields : list Var.t)
    : list Var.t :=
  match fields with
  | [] => []
  | f :: rest =>
    fieldVar v scope offset f
    :: layoutFields v scope (JSNum_add offset (primitiveSize (Var.type f))) rest
  end.

(** The offset reached from [offset] after [fields]: the sizes are added
    one by one, each sum a JS number. *)
Definition offsetAfter (offset : JSNum) (fields : list Var.t) : JSNum :=
  foldl (fun o f => JSNum_add o (primitiveSize (Var.type f))) offset fields.

Definition declare (m : gmap string Var.t) (nv : Var.t) : gmap string Var.t :=
  <[Var.id nv := nv]> m.

(** A scope none of whose variables is [const] or exported and none of whose
    functions and structs is exported. *)
Definition unmodified (sc : Scope.t) : Prop :=
  map_Forall (fun _ v => Var.const v = false ∧ Var.export v = false) (Scope.vars sc) ∧
  map_Forall (fun _ f => Function.export f = false) (Scope.funcs sc) ∧
  map_Forall (fun _ s => Struct.export s = false) (Scope.structs sc).

Definition noModifiers (st : State) : Prop := Forall unmodified (heap st).

Definition modsKept (st st' : State) : Prop := noModifiers st → noModifiers st'.

(** A type name written in the tree: the type token of a variable or
    function definition, or the name of a struct definition. *)
Definition writtenType (root : AstNode.t) (t : string) : Prop :=
  ∃ q n, nodeAt root q = Some n ∧
    ((AstNode.type n = AstType.VariableDef ∨ AstNode.type n = AstType.FunctionDef)
     ∧ tokenValue n = t
     ∨ AstNode.type n = AstType.StructDef
       ∧ tokenValue <$> AstNode.children n !! 0 = Some t).

(** The data types an analysis of [root] gives: the ten primitive names,
    [void], [invalid] and [type] among them, and the type names written in
    the tree. *)
Definition typeName (root : AstNode.t) (t : string) : Prop :=
  DataType.isPrimitive t = true ∨ writtenType root t.

(** A truthy result of a type rule is a type name. *)
Definition optTyped (root : AstNode.t) (r : option string) : Prop :=
  ∀ t, r = Some t → t ≠ EmptyString → typeName root t.

Definition typedScope (root : AstNode.t) (sc : Scope.t) : Prop :=
  map_Forall (fun _ v => typeName root (Var.type v)) (Scope.vars sc) ∧
  map_Forall (fun _ f => typeName root (Function.type f)) (Scope.funcs sc) ∧
  map_Forall (fun _ s => typeName root (Struct.id s) ∧
                         Forall (fun f => typeName root (Var.type f)) (Struct.fields s))
             (Scope.structs sc).

(** A state that holds type names of [root] only: as the types of its
    variables, functions and struct fields, as the ids of its structs and as
    the data types its nodes carry.  The state of a fresh analyzer is one,
    for every tree. *)
Definition typedState (root : AstNode.t) (st : State) : Prop :=
  Forall (typedScope root) (heap st) ∧
  ∀ q t, dataTypeOf st !! q = Some t → t ≠ EmptyString → typeName root t.

(** [keeps Inv m Φ]: a run of [m] from a state in [Inv] that returns ends in
    a state in [Inv] with a result in [Φ]. *)
Definition keeps (Inv : State → Prop) {A} (m : M A) (Φ : A → Prop) : Prop :=
  ∀ st a st', Inv st → m st = Some (a, st') → Inv st' ∧ Φ a.

(** What the type rules of a node ask of [this.getDataType]: on a node of
    the tree below it, a type name. *)
Definition recTyped (root : AstNode.t) (rec : Rec) (n : AstNode.t) : Prop :=
  ∀ c q, AstNode.height c < AstNode.height n → nodeAt root q = Some c →
         keeps (typedState root) (rec c q) (typeName root).

(** Type-set tables and cast tables of primitive names only. *)
Definition primitiveRows (typeSets : list (list string)) : bool :=
  forallb (forallb DataType.isPrimitive) typeSets.
Definition primitiveTargets (table : list (string * string)) : bool :=
  forallb (fun row => DataType.isPrimitive row.2) table.

(** * Properties *)

(** ** The monad *)

Lemma bind_unfold {A B} (m : M A) (k : A → M B) (st : State) :
  (m ≫= k) st = match m st with Some (a, st') => k a st' | None => None end.
Proof. reflexivity. Qed.

Lemma bind_Some {A B} (m : M A) (k : A → M B) (st st' : State) (a : A) :
  m st = Some (a, st') → (m ≫= k) st = k a st'.
Proof. intros H. rewrite bind_unfold, H. reflexivity. Qed.

Lemma bind_inv {A B} (m : M A) (k : A → M B) (st st2 : State) (b : B) :
  (m ≫= k) st = Some (b, st2) →
  ∃ a st1, m st = Some (a, st1) ∧ k a st1 = Some (b, st2).
Proof.
  rewrite bind_unfold. destruct (m st) as [[a st1]|] eqn:E; [|discriminate].
  intros H. exists a, st1. split; [reflexivity | exact H].
Qed.

Lemma foldM_ext {A B} (f g : B → A → M B) (l : list A) :
  (∀ acc x st, x ∈ l → f acc x st = g acc x st) →
  ∀ acc st, foldM f acc l st = foldM g acc l st.
Proof.
  induction l as [|x l IH]; intros Hfg acc st; simpl; [reflexivity|].
  rewrite !bind_unfold, Hfg by left.
  destruct (g acc x st) as [[acc' st']|]; [|reflexivity].
  apply IH. intros. apply Hfg. by right.
Qed.

(** Induction on the tree, with the hypothesis for every child. *)
Lemma AstNode_ind' (P : AstNode.t → Prop) :
  (∀ ty tok v cs, Forall P cs → P (AstNode.mk ty tok v cs)) → ∀ n, P n.
Proof.
  intros H. fix IH 1. intros [ty tok v cs]. apply H.
  induction cs as [|c cs IHcs]; constructor; [apply IH | exact IHcs].
Qed.

(** ** [getSize] *)

Lemma getSize_body_ext (r1 r2 : Var.t → ScopeId → nat → M Z) v p depth st :
  (∀ f s st', r1 f s (depth + 1) st' = r2 f s (depth + 1) st') →
  getSize_body r1 v p depth st = getSize_body r2 v p depth st.
Proof.
  intros H. unfold getSize_body.
  repeat (case_match; [reflexivity|]).
  rewrite !bind_unfold. simpl.
  case_match; [|reflexivity].
  apply foldM_ext. intros acc x st' _. rewrite !bind_unfold, H. reflexivity.
Qed.

(** [getSize] satisfies the equation of the source method. *)
Lemma getSize_unfold v p depth st :
  getSize v p depth st = getSize_body getSize v p depth st.
Proof.
  unfold getSize at 1.
  destruct (decide (depth ≤ MAX_TYPE_DEPTH)) as [Hle|Hgt].
  - replace (S MAX_TYPE_DEPTH - depth) with (S (MAX_TYPE_DEPTH - depth)) by lia.
    simpl. apply getSize_body_ext. intros f s st'. unfold getSize.
    replace (S MAX_TYPE_DEPTH - (depth + 1)) with (MAX_TYPE_DEPTH - depth) by lia.
    reflexivity.
  - replace (S MAX_TYPE_DEPTH - depth) with 0 by lia.
    simpl. unfold getSize_body.
    destruct (MAX_TYPE_DEPTH <? depth)%nat eqn:E; [reflexivity|].
    apply Nat.ltb_ge in E. lia.
Qed.

Lemma getSize_body_cutoff rec v p depth st :
  depth > MAX_TYPE_DEPTH → getSize_body rec v p depth st = Some (0%Z, st).
Proof.
  intros H. unfold getSize_body.
  destruct (MAX_TYPE_DEPTH <? depth)%nat eqn:E; [reflexivity|].
  apply Nat.ltb_ge in E. lia.
Qed.

Lemma foldM_size_total (f : Z → Var.t → M Z) (l : list Var.t) :
  (∀ acc x st, (0 ≤ acc)%Z → ∃ acc' st', f acc x st = Some (acc', st') ∧ (0 ≤ acc')%Z) →
  ∀ acc st, (0 ≤ acc)%Z → ∃ acc' st', foldM f acc l st = Some (acc', st') ∧ (0 ≤ acc')%Z.
Proof.
  intros Hf. induction l as [|x l IH]; intros acc st Hacc; simpl.
  - exists acc, st. split; [reflexivity | exact Hacc].
  - destruct (Hf acc x st Hacc) as (acc' & st' & E & Hacc').
    rewrite (bind_Some _ _ _ _ _ E). apply IH, Hacc'.
Qed.

Lemma getSize_fuel_total fuel :
  ∀ v p depth st,
    ∃ size st', getSize_fuel fuel v p depth st = Some (size, st') ∧ (0 ≤ size)%Z.
Proof.
  induction fuel as [|fuel IH]; intros v p depth st; simpl.
  - exists 0%Z, st. split; [reflexivity | lia].
  - unfold getSize_body.
    repeat (case_match; [eexists _, st; split; [reflexivity | lia]|]).
    rewrite bind_unfold. simpl.
    case_match.
    + apply foldM_size_total; [|lia].
      intros acc x st' Hacc.
      destruct (IH x (Var.scope x) (depth + 1) st') as (s & st'' & E & Hs).
      exists (acc + s)%Z, st''. rewrite (bind_Some _ _ _ _ _ E). split; [reflexivity | lia].
    + destruct (Var.node v); eexists 0%Z, _; (split; [reflexivity | lia]).
Qed.

(** C2. [getSize] returns on every variable, scope, depth and state,
    self-referential structs included, and the size it returns is a
    non-negative integer; once the depth exceeds [MAX_TYPE_DEPTH] = 16 it
    returns 0 at once, whatever the recursive call would do ([getSize_body]
    with an arbitrary [rec]), leaving the state as it was. *)
Theorem getSize_terminates (v : Var.t) (p : ScopeId) (depth : nat) (st : State) :
  (∃ size st', getSize v p depth st = Some (size, st') ∧ (0 ≤ size)%Z) ∧
  (depth > MAX_TYPE_DEPTH →
     getSize v p depth st = Some (0%Z, st) ∧
     ∀ rec, getSize_body rec v p depth st = Some (0%Z, st)).
Proof.
  split.
  - apply getSize_fuel_total.
  - intros H. split.
    + rewrite getSize_unfold. by apply getSize_body_cutoff.
    + intros rec. by apply getSize_body_cutoff.
Qed.

Lemma getSize_terminates_witness :
  17 > MAX_TYPE_DEPTH ∧
  getSize boolVar rootScope 17 emptyState = Some (0%Z, emptyState).
Proof.
  split; [unfold MAX_TYPE_DEPTH; lia|].
  apply (getSize_terminates boolVar rootScope 17 emptyState).
  unfold MAX_TYPE_DEPTH; lia.
Defined.

(** C9 as stated fails for [bool]: the switch of [getSize] lists it with the
    four-byte types. *)
Lemma getSize_bool_counterexample :
  Var.type boolVar = DataType.Bool ∧
  getSize boolVar rootScope 0 emptyState = Some (4%Z, emptyState) ∧
  ¬ (∃ st', getSize boolVar rootScope 0 emptyState = Some (0%Z, st')).
Proof.
  split; [reflexivity|]. split; [reflexivity|].
  intros [st' H]. vm_compute in H. discriminate H.
Qed.

(** C9, amended.  For a variable of type [void], [invalid] or [type],
    [getSize] returns 0 at every depth, without a diagnostic; for [bool] it
    returns 4 up to the depth cut-off, like [int], [uint] and [float]. *)
Theorem getSize_unsized_primitives (v : Var.t) (p : ScopeId) (depth : nat) (st : State) :
  (Var.type v = DataType.None ∨ Var.type v = DataType.Invalid ∨ Var.type v = DataType.Type_ →
     getSize v p depth st = Some (0%Z, st)) ∧
  (Var.type v = DataType.Bool → depth ≤ MAX_TYPE_DEPTH →
     getSize v p depth st = Some (4%Z, st)).
Proof.
  split.
  - intros H. rewrite getSize_unfold. unfold getSize_body.
    destruct (MAX_TYPE_DEPTH <? depth)%nat; [reflexivity|].
    destruct H as [-> | [-> | ->]]; reflexivity.
  - intros H Hd. rewrite getSize_unfold. unfold getSize_body.
    destruct (MAX_TYPE_DEPTH <? depth)%nat eqn:E.
    + apply Nat.ltb_lt in E. lia.
    + rewrite H. reflexivity.
Qed.

Lemma getSize_unsized_primitives_witness :
  (Var.type (Var.new None rootScope "v" DataType.None) = DataType.None ∨
   Var.type (Var.new None rootScope "v" DataType.None) = DataType.Invalid ∨
   Var.type (Var.new None rootScope "v" DataType.None) = DataType.Type_) ∧
  getSize (Var.new None rootScope "v" DataType.None) rootScope 0 emptyState
    = Some (0%Z, emptyState) ∧
  Var.type boolVar = DataType.Bool ∧ 3 ≤ MAX_TYPE_DEPTH ∧
  getSize boolVar rootScope 3 emptyState = Some (4%Z, emptyState).
Proof.
  assert (H1 : Var.type (Var.new None rootScope "v" DataType.None) = DataType.None ∨
               Var.type (Var.new None rootScope "v" DataType.None) = DataType.Invalid ∨
               Var.type (Var.new None rootScope "v" DataType.None) = DataType.Type_)
    by (left; reflexivity).
  assert (H2 : 3 ≤ MAX_TYPE_DEPTH) by (unfold MAX_TYPE_DEPTH; lia).
  split; [exact H1|]. split.
  - exact (proj1 (getSize_unsized_primitives _ rootScope 0 emptyState) H1).
  - split; [reflexivity|]. split; [exact H2|].
    exact (proj2 (getSize_unsized_primitives boolVar rootScope 3 emptyState) eq_refl H2).
Defined.

(** ** Computations that preserve a relation between states *)

Section Preservation.
Context (R : State → State → Prop).
Context (R_refl : ∀ st, R st st).
Context (R_trans : ∀ a b c, R a b → R b c → R a c).

Lemma pres_ret {A} (a : A) : pres R (mret a).
Proof using R_refl. intros st a' st' [= _ <-]. apply R_refl. Qed.

Lemma pres_throw {A} : pres R (@throw A).
Proof. intros st a st' [=]. Qed.

Lemma pres_get : pres R get.
Proof using R_refl. intros st a st' [= _ <-]. apply R_refl. Qed.

Lemma pres_bind {A B} (m : M A) (k : A → M B) :
  pres R m → (∀ a, pres R (k a)) → pres R (m ≫= k).
Proof using R_trans.
  intros Hm Hk st b st2 H. apply bind_inv in H as (a & st1 & H1 & H2).
  eapply R_trans; [eapply Hm, H1 | eapply Hk, H2].
Qed.

Lemma pres_orThrow {A} (o : option A) : pres R (orThrow o).
Proof using R_refl. destruct o; [apply pres_ret | apply pres_throw]. Qed.

Lemma pres_when (b : bool) (m : M unit) : pres R m → pres R (when b m).
Proof using R_refl. destruct b; [auto | intros _; apply pres_ret]. Qed.

Lemma pres_foldM {A B} (f : B → A → M B) (l : list A) :
  (∀ acc x, x ∈ l → pres R (f acc x)) → ∀ acc, pres R (foldM f acc l).
Proof using R_refl R_trans.
  induction l as [|x l IH]; intros Hf acc; simpl; [apply pres_ret|].
  apply pres_bind; [apply Hf; by left|].
  intros acc'. apply IH. intros. apply Hf. by right.
Qed.

Lemma pres_forIndexed {A} (f : nat → A → M unit) (l : list A) :
  (∀ i x, x ∈ l → pres R (f i x)) → ∀ i, pres R (forIndexed f i l).
Proof using R_refl R_trans.
  induction l as [|x l IH]; intros Hf i; simpl; [apply pres_ret|].
  apply pres_bind; [apply Hf; by left|].
  intros _. apply IH. intros. apply Hf. by right.
Qed.

Lemma pres_modify (f : State → State) : (∀ st, R st (f st)) → pres R (modify f).
Proof. intros H st a st' [= _ <-]. apply H. Qed.
End Preservation.

(** ** Annotations only grow *)

Lemma extX_refl xs xt st : extX xs xt st st.
Proof. repeat split; auto. Qed.

Lemma extX_trans xs xt a b c : extX xs xt a b → extX xs xt b c → extX xs xt a c.
Proof.
  intros (S1 & T1 & L1) (S2 & T2 & L2). repeat split.
  - intros p s Hp H. by apply S2, S1.
  - intros p t Hp H Ht.
    destruct (T1 p t Hp H Ht) as [H1|H1].
    + by apply T2.
    + right. destruct (T2 p _ Hp H1) as [H2|H2]; [done|exact H2|exact H2].
  - by etrans.
Qed.

Lemma ext_extX xs xt st st' : ext st st' → extX xs xt st st'.
Proof.
  intros (S1 & T1 & L1). repeat split.
  - intros p s _. by apply S1.
  - intros p t _. by apply T1.
  - exact L1.
Qed.

Lemma extX_scope_close path xt st st' :
  extX (Some path) xt st st' → scopeOf st !! path = None → extX None xt st st'.
Proof.
  intros (S1 & T1 & L1) Hnone. repeat split; [|exact T1|exact L1].
  intros p s _ H. apply S1; [|exact H]. intros [= ->]. congruence.
Qed.

Lemma extX_type_close xs path st st' :
  extX xs (Some path) st st' → truthy (dataTypeOf st !! path) = false → extX xs None st st'.
Proof.
  intros (S1 & T1 & L1) Hfalsy. repeat split; [exact S1| |exact L1].
  intros p t _ H Ht. apply T1; [|exact H|exact Ht].
  intros [= ->]. rewrite H in Hfalsy. simpl in Hfalsy.
  by rewrite bool_decide_eq_false in Hfalsy.
Qed.

Lemma extX_set_heap xs xt f st : extX xs xt st (set_heap f st).
Proof. repeat split; auto. Qed.

Lemma extX_set_logger xs xt l st : extX xs xt st (set_logger (fun l0 => l0 ++ l) st).
Proof. repeat split; auto. simpl. by apply prefix_app_r. Qed.

Lemma extX_setNodeScope path xt s st :
  extX (Some path) xt st (set_scopeOf <[path := s]> st).
Proof.
  repeat split; auto. simpl. intros p s' Hp H.
  rewrite lookup_insert_ne; [exact H | congruence].
Qed.

Lemma extX_setNodeDataType xs path r st :
  extX xs (Some path) st
       (set_dataTypeOf (match r with Some s => <[path := s]> | None => delete path end) st).
Proof.
  repeat split; auto. simpl. intros p t Hp H _. left.
  destruct r; [rewrite lookup_insert_ne | rewrite lookup_delete_ne]; congruence.
Qed.

Section ExtPrimitives.
Context (xs xt : option Path).

Lemma ext_logError msg node : pres (extX xs xt) (logError msg node).
Proof. apply pres_modify. intros st. apply extX_set_logger. Qed.

Lemma ext_updScope s f : pres (extX xs xt) (updScope s f).
Proof. apply pres_modify. intros st. apply extX_set_heap. Qed.

Lemma ext_newScope node parent id : pres (extX xs xt) (newScope node parent id).
Proof.
  intros st a st' [= _ <-]. apply extX_set_heap.
Qed.

Lemma ext_weaken {A} (m : M A) : pres ext m → pres (extX xs xt) m.
Proof. intros H st a st' E. eapply ext_extX, H, E. Qed.
End ExtPrimitives.

Lemma ext_setNodeScope_X path xt s : pres (extX (Some path) xt) (setNodeScope path s).
Proof. apply pres_modify. intros st. apply extX_setNodeScope. Qed.

Lemma ext_setNodeDataType_X xs path r : pres (extX xs (Some path)) (setNodeDataType path r).
Proof. apply pres_modify. intros st. apply extX_setNodeDataType. Qed.

(** Structural steps of a preservation proof, given tactics for the
    reflexivity and the transitivity of the relation. *)
Ltac pres_struct_with rfl trn :=
  first
    [ apply pres_ret; rfl
    | apply pres_throw
    | apply pres_get; rfl
    | apply pres_orThrow; rfl
    | apply pres_when; [rfl|]
    | apply pres_bind; [trn| |intros ?]
    | apply pres_foldM; [rfl|trn|intros ? ? ?]
    | apply pres_forIndexed; [rfl|trn|intros ? ? ?] ].

Ltac pres_cases :=
  match goal with
  | |- pres _ (match ?x with _ => _ end) => destruct x eqn:?
  | |- pres _ (if ?b then _ else _) => destruct b eqn:?
  | |- pres _ (let _ := _ in _) => cbv zeta
  end.

Ltac pres_auto_with rfl trn leaf :=
  repeat first [ leaf | pres_struct_with rfl trn | pres_cases ].

(** The same for [extX xs xt], with its primitives. *)
Ltac pres_struct :=
  first
    [ apply ext_logError
    | apply ext_updScope
    | apply ext_newScope
    | pres_struct_with ltac:(apply extX_refl) ltac:(apply extX_trans) ].

Ltac pres_auto tac := repeat first [ tac | pres_struct | pres_cases ].

(** ** The scope side: everything below leaves annotations alone or extends them *)

Section ExtScope.
Context (root : AstNode.t) (xs xt : option Path).

Lemma ext_getSize_fuel fuel : ∀ v p depth, pres (extX xs xt) (getSize_fuel fuel v p depth).
Proof.
  induction fuel as [|fuel IH]; intros v p depth; simpl.
  - pres_auto fail.
  - unfold getSize_body. pres_auto ltac:(apply IH).
Qed.

Lemma ext_getSize v p depth : pres (extX xs xt) (getSize v p depth).
Proof. apply ext_getSize_fuel. Qed.

Lemma ext_makeStructScope v p : pres (extX xs xt) (makeStructScope v p).
Proof. unfold makeStructScope. pres_auto ltac:(apply ext_getSize). Qed.

Lemma ext_scopeRule_Block n p : pres (extX xs xt) (scopeRule_Block n p).
Proof. unfold scopeRule_Block. pres_auto fail. Qed.

Lemma ext_scopeRule_StructDef n p : pres (extX xs xt) (scopeRule_StructDef n p).
Proof. unfold scopeRule_StructDef, childAt. pres_auto fail. Qed.

Lemma ext_scopeRule_FunctionDef n p : pres (extX xs xt) (scopeRule_FunctionDef n p).
Proof. unfold scopeRule_FunctionDef, childAt. pres_auto fail. Qed.

Lemma ext_scopeRule_VariableDef n path p :
  pres (extX xs xt) (scopeRule_VariableDef root n path p).
Proof. unfold scopeRule_VariableDef, childAt, updVar. pres_auto fail. Qed.

Lemma ext_scopeRule_Access n p : pres (extX xs xt) (scopeRule_Access n p).
Proof. unfold scopeRule_Access, childAt. pres_auto ltac:(apply ext_makeStructScope). Qed.

Lemma ext_scopeRule_Const path p : pres (extX xs xt) (scopeRule_Const root path p).
Proof. unfold scopeRule_Const, updVar. pres_auto fail. Qed.

Lemma ext_scopeRule_Export path p : pres (extX xs xt) (scopeRule_Export root path p).
Proof. unfold scopeRule_Export, updVar, updFunc, updStruct. pres_auto fail. Qed.

Lemma ext_scopeRegistrations n path p :
  Forall (fun r => pres (extX xs xt) r.2) (scopeRegistrations root n path p).
Proof.
  unfold scopeRegistrations.
  repeat (constructor; simpl;
          [first [ apply ext_scopeRule_Block | apply ext_scopeRule_StructDef
                 | apply ext_scopeRule_FunctionDef | apply ext_scopeRule_VariableDef
                 | apply ext_scopeRule_Access | apply ext_scopeRule_Const
                 | apply ext_scopeRule_Export ]|]).
  constructor.
Qed.

Lemma rulesFor_Forall {A} (P : A → Prop) (n : AstNode.t) (regs : list (AstType.t * A)) :
  Forall (fun r => P r.2) regs → Forall P (rulesFor n regs).
Proof.
  intros H. unfold rulesFor. induction H as [|r regs Hr _ IH]; simpl; [constructor|].
  destruct (decide (r.1 = AstNode.type n)); [constructor; assumption | assumption].
Qed.
End ExtScope.

Section ExtGetScope.
Context (root : AstNode.t).

Lemma getScope_unfold path :
  getScope root path =
  getScope_body root (match path with
                      | [] => mret rootScope
                      | _ :: pp => getScope root pp
                      end) path.
Proof. destruct path; reflexivity. Qed.

Lemma getScope_body_spec (getParentScope : M ScopeId) path :
  pres ext getParentScope →
  ∀ st s st', getScope_body root getParentScope path st = Some (s, st') →
    ext st st' ∧ scopeOf st' !! path = Some s.
Proof.
  intros Hparent st s st' H. unfold getScope_body, nodeScope in H.
  apply bind_inv in H as (cur & st0 & Hcur & H).
  apply bind_inv in Hcur as (? & ? & [= <- <-] & [= <- <-]).
  destruct (scopeOf st !! path) as [s0|] eqn:Ecur.
  { injection H as <- <-. split; [apply extX_refl | exact Ecur]. }
  apply bind_inv in H as (parentScope & st1 & Hpar & H).
  apply Hparent in Hpar as Hext1.
  apply bind_inv in H as (n & st1' & Hn & H).
  assert (st1' = st1) as ->.
  { destruct (nodeAt root path); [by injection Hn | discriminate]. }
  apply bind_inv in H as (u & st2 & Hrules & H).
  assert (Hext2 : extX (Some path) None st1 st2).
  { revert Hrules. apply pres_foldM; [apply extX_refl | apply extX_trans |].
    intros acc rule Hin.
    apply pres_bind; [apply extX_trans | | intros ?; apply ext_setNodeScope_X].
    pose proof (rulesFor_Forall _ n _
                  (ext_scopeRegistrations root (Some path) None n path parentScope)) as HF.
    rewrite Forall_forall in HF. apply HF, Hin. }
  assert (Hext : extX (Some path) None st st2).
  { eapply extX_trans; [apply ext_extX, Hext1 | exact Hext2]. }
  apply bind_inv in H as (cur' & st2' & Hcur' & H).
  apply bind_inv in Hcur' as (? & ? & [= <- <-] & [= <- <-]).
  destruct (scopeOf st2 !! path) as [s2|] eqn:Ecur2.
  - injection H as <- <-. split; [|exact Ecur2].
    eapply extX_scope_close; [exact Hext | exact Ecur].
  - apply bind_inv in H as (u' & st3 & Hset & H).
    unfold setNodeScope, modify in Hset. injection Hset as ? ?. injection H as ? ?. subst.
    split; [|simpl; apply lookup_insert_eq].
    eapply extX_scope_close; [|exact Ecur].
    eapply extX_trans; [exact Hext | apply extX_setNodeScope].
Qed.

(** [getScope] extends the annotations and leaves the node with the scope
    it returns. *)
Lemma getScope_spec path :
  ∀ st s st', getScope root path st = Some (s, st') →
    ext st st' ∧ scopeOf st' !! path = Some s.
Proof.
  induction path as [|i pp IH]; intros st s st'; rewrite getScope_unfold;
    apply getScope_body_spec.
  - apply pres_ret, extX_refl.
  - intros st0 a st0' H. eapply IH, H.
Qed.

Lemma ext_getScope xs xt path : pres (extX xs xt) (getScope root path).
Proof. intros st s st' H. apply ext_extX. eapply getScope_spec, H. Qed.

(** On an annotated node [getScope] is a read. *)
Lemma getScope_annotated path st s :
  scopeOf st !! path = Some s → getScope root path st = Some (s, st).
Proof.
  intros H. rewrite getScope_unfold. unfold getScope_body, nodeScope.
  rewrite !bind_unfold. simpl. rewrite H. reflexivity.
Qed.
End ExtGetScope.

(** ** The data-type side *)

Lemma height_child (n c : AstNode.t) :
  c ∈ AstNode.children n → AstNode.height c < AstNode.height n.
Proof.
  destruct n as [ty tok v cs]. simpl. intros H.
  induction H as [c cs | c c' cs _ IH]; simpl; lia.
Qed.

Lemma getIdentifier_pure node :
  ∀ path st r st', getIdentifier node path st = Some (r, st') → st' = st.
Proof.
  induction node as [ty tok v cs IH] using AstNode_ind'. intros path st r st' H.
  simpl in H. repeat case_match; try discriminate; try by injection H.
  subst. rewrite Forall_cons in IH. destruct IH as [_ IH].
  rewrite Forall_cons in IH. destruct IH as [IH _]. eapply IH, H.
Qed.

(** The data-type rules preserve every reflexive and transitive relation
    that logging and [getScope] preserve, provided [this.getDataType] does on
    the nodes below the rule's node. *)
Section DataTypeRules.
Context (root : AstNode.t) (R : State → State → Prop).
Context (R_refl : ∀ st, R st st) (R_trans : ∀ a b c, R a b → R b c → R a c).
Context (R_logError : ∀ msg node, pres R (logError msg node)).
Context (R_getScope : ∀ path, pres R (getScope root path)).

Lemma pres_getIdentifier node path : pres R (getIdentifier node path).
Proof using R_refl.
  intros st r st' H. apply getIdentifier_pure in H as ->. apply R_refl.
Qed.

Lemma pres_nodeDataType path : pres R (nodeDataType path).
Proof using R_refl R_trans.
  unfold nodeDataType.
  apply pres_bind; [exact R_trans | by apply pres_get | intros ?; by apply pres_ret].
Qed.

Lemma pres_withIdentifier {A} (found : AstNode.t → Path → M A) (notFound thrown : M A) node :
  ∀ path,
    (∀ c q, AstNode.height c ≤ AstNode.height node → pres R (found c q)) →
    pres R notFound → pres R thrown →
    pres R (withIdentifier found notFound thrown node path).
Proof.
  induction node as [ty tok v cs IH] using AstNode_ind'.
  intros path Hfound Hnot Hthrown. simpl.
  repeat case_match; subst; try assumption.
  - apply Hfound. lia.
  - rewrite Forall_cons in IH. destruct IH as [_ IH].
    rewrite Forall_cons in IH. destruct IH as [IH _].
    apply IH; [|assumption..].
    intros c q Hc. apply Hfound. simpl in *. lia.
Qed.

Ltac rule_leaf Hrec :=
  first
    [ apply R_logError
    | apply R_getScope
    | apply pres_getIdentifier
    | apply pres_nodeDataType
    | apply Hrec; simpl; lia ].

Ltac rule_tac Hrec :=
  pres_auto_with ltac:(apply R_refl) ltac:(apply R_trans) ltac:(rule_leaf Hrec).

Lemma pres_checkArgs rec func argsPath args :
  (∀ a q, a ∈ args → pres R (rec a q)) →
  ∀ i params valid, pres R (checkArgs rec func argsPath i params args valid).
Proof using R_refl R_trans R_logError.
  induction args as [|arg args IH]; intros Hrec i params valid.
  - destruct params; simpl; rule_tac Hrec.
  - destruct params as [|param params]; simpl; [rule_tac Hrec|].
    assert (Hrest : ∀ a q, a ∈ args → pres R (rec a q))
      by (intros; apply Hrec; by right).
    pres_auto_with ltac:(apply R_refl) ltac:(apply R_trans)
      ltac:(first [ apply R_logError | apply Hrec; by left | apply IH; exact Hrest ]).
Qed.

Section Rules.
Context (rec : Rec) (n : AstNode.t) (path : Path) (Hrec : recOk R rec n).

Lemma pres_dtRule_Access : pres R (dtRule_Access rec n path).
Proof using Hrec R_refl R_trans.
  destruct n as [ty tok v cs]. unfold dtRule_Access. cbn [AstNode.children].
  destruct cs as [|c0 [|c1 l]]; [rule_tac Hrec..|].
  apply pres_withIdentifier; [|rule_tac Hrec..].
  intros c q Hc. apply pres_bind; [apply R_trans| |intros ?; rule_tac Hrec].
  apply Hrec. simpl in *. lia.
Qed.

Lemma pres_dtRule_VariableId : pres R (dtRule_VariableId root n path).
Proof using R_refl R_trans R_logError R_getScope.
  unfold dtRule_VariableId. rule_tac Hrec.
Qed.

Lemma pres_dtRule_FunctionId : pres R (dtRule_FunctionId root n path).
Proof using R_refl R_trans R_logError R_getScope.
  unfold dtRule_FunctionId. rule_tac Hrec.
Qed.

Lemma pres_dtRule_StructId : pres R (dtRule_StructId root n path).
Proof using R_refl R_trans R_logError R_getScope.
  unfold dtRule_StructId. rule_tac Hrec.
Qed.

Lemma pres_dtRule_StructDef : pres R (dtRule_StructDef n).
Proof using R_refl R_trans. unfold dtRule_StructDef, childAt. rule_tac Hrec. Qed.

Lemma pres_dtRule_UnaryOp type typeSets : pres R (dtRule_UnaryOp rec type typeSets n path).
Proof using Hrec R_refl R_trans R_logError.
  destruct n as [ty tok v cs]. unfold dtRule_UnaryOp. cbn [AstNode.children].
  rule_tac Hrec.
Qed.

Lemma pres_dtRule_BinaryOp type typeSets : pres R (dtRule_BinaryOp rec type typeSets n path).
Proof using Hrec R_refl R_trans R_logError.
  destruct n as [ty tok v cs]. unfold dtRule_BinaryOp. cbn [AstNode.children].
  rule_tac Hrec.
Qed.

Lemma pres_assignSides c0 rest :
  AstNode.children n = c0 :: rest → pres R (assignSides rec n path c0 rest).
Proof using Hrec R_refl R_trans R_logError.
  intros Hcs. destruct n as [ty tok v cs]. simpl in Hcs. subst cs.
  unfold assignSides. rule_tac Hrec.
Qed.

Lemma pres_targetIsConst c0 : pres R (targetIsConst root c0 path).
Proof using R_refl R_trans R_getScope. unfold targetIsConst. rule_tac Hrec. Qed.

Lemma pres_dtRule_Assignment : pres R (dtRule_Assignment root rec n path).
Proof using Hrec R_refl R_trans R_logError R_getScope.
  unfold dtRule_Assignment. destruct (AstNode.children n) as [|c0 rest] eqn:Hcs.
  - rule_tac Hrec.
  - pres_auto_with ltac:(apply R_refl) ltac:(apply R_trans)
      ltac:(first [ by apply pres_assignSides | apply pres_targetIsConst | rule_leaf Hrec ]).
Qed.

Lemma pres_dtRule_Global : pres R (dtRule_Global rec n path).
Proof using Hrec R_refl R_trans R_logError.
  unfold dtRule_Global. destruct (AstNode.children n) as [|c0 rest] eqn:Hcs.
  - rule_tac Hrec.
  - by apply pres_assignSides.
Qed.

Lemma pres_dtRule_Cast type table : pres R (dtRule_Cast rec type table n path).
Proof using Hrec R_refl R_trans R_logError.
  destruct n as [ty tok v cs]. unfold dtRule_Cast. cbn [AstNode.children].
  rule_tac Hrec.
Qed.

Lemma pres_dtRule_FunctionCall : pres R (dtRule_FunctionCall root rec n path).
Proof using Hrec R_refl R_trans R_logError R_getScope.
  destruct n as [ty tok v cs]. unfold dtRule_FunctionCall. cbn [AstNode.children].
  pres_auto_with ltac:(apply R_refl) ltac:(apply R_trans) ltac:(first
    [ rule_leaf Hrec
    | apply pres_checkArgs;
      let Ha := fresh "Harg" in
      intros ? ? Ha; apply Hrec; apply height_child in Ha; simpl in *; lia ]).
Qed.

Lemma pres_dtRule_Return : pres R (dtRule_Return root rec n path).
Proof using Hrec R_refl R_trans R_logError.
  destruct n as [ty tok v cs]. unfold dtRule_Return, childAt. cbn [AstNode.children].
  rule_tac Hrec.
Qed.

Lemma pres_dtRule_ReturnVoid : pres R (dtRule_ReturnVoid root n path).
Proof using R_refl R_trans R_logError.
  unfold dtRule_ReturnVoid, childAt. rule_tac Hrec.
Qed.

Lemma pres_dataTypeRegistrations :
  Forall (fun r => pres R r.2) (dataTypeRegistrations root rec n path).
Proof using Hrec R_refl R_trans R_logError R_getScope.
  unfold dataTypeRegistrations.
  repeat (constructor; simpl;
          [first [ apply pres_dtRule_Access | apply pres_dtRule_VariableId
                 | apply pres_dtRule_FunctionId | apply pres_dtRule_StructId
                 | apply pres_dtRule_StructDef | apply pres_dtRule_UnaryOp
                 | apply pres_dtRule_BinaryOp | apply pres_dtRule_Assignment
                 | apply pres_dtRule_Global | apply pres_dtRule_Cast
                 | apply pres_dtRule_FunctionCall | apply pres_dtRule_Return
                 | apply pres_dtRule_ReturnVoid
                 | apply pres_ret; apply R_refl ]|]).
  constructor.
Qed.
End Rules.
End DataTypeRules.

Lemma ext_dataTypeRegistrations root rec n path :
  recOk ext rec n → Forall (fun r => pres ext r.2) (dataTypeRegistrations root rec n path).
Proof.
  apply pres_dataTypeRegistrations.
  - apply extX_refl.
  - apply extX_trans.
  - apply ext_logError.
  - apply ext_getScope.
Qed.

(** ** [getDataType] and the passes *)

Lemma nodeScope_run path st : nodeScope path st = Some (scopeOf st !! path, st).
Proof. reflexivity. Qed.

Lemma nodeDataType_run path st : nodeDataType path st = Some (dataTypeOf st !! path, st).
Proof. reflexivity. Qed.

Lemma truthy_Some (o : option string) :
  truthy o = true → ∃ t, o = Some t ∧ t ≠ EmptyString ∧ default EmptyString o = t.
Proof.
  destruct o as [t|]; simpl; [|discriminate].
  rewrite bool_decide_eq_true. intros H. by exists t.
Qed.

Lemma withScope_same path s st :
  scopeOf st !! path = Some s → withScope path s st = st.
Proof.
  intros H. destruct st as [h sc dt lg]. unfold withScope, set_scopeOf. simpl in *.
  by rewrite insert_id.
Qed.

Lemma withDataType_same path t st :
  dataTypeOf st !! path = Some t → withDataType path (Some t) st = st.
Proof.
  intros H. destruct st as [h sc dt lg]. unfold withDataType, set_dataTypeOf. simpl in *.
  by rewrite insert_id.
Qed.

Lemma ext_setInvalid path st :
  ext st (withDataType path (Some DataType.Invalid) st).
Proof.
  repeat split; auto. simpl. intros p t _ H Ht.
  destruct (decide (path = p)) as [->|Hne].
  - right. apply lookup_insert_eq.
  - left. by rewrite lookup_insert_ne.
Qed.

Lemma settled_ext n path st st' : settled n path st → ext st st' → settled n path st'.
Proof.
  intros (t & Ht & Hne & Hv) (_ & T & _).
  destruct (T path t ltac:(done) Ht Hne) as [H|H].
  - by exists t.
  - exists DataType.Invalid. by repeat split.
Qed.

Lemma scoped_ext path st st' :
  is_Some (scopeOf st !! path) → ext st st' → is_Some (scopeOf st' !! path).
Proof. intros [s Hs] (S & _ & _). exists s. by apply S. Qed.

Section Passes.
Context (root : AstNode.t).

Lemma getDataType_unfold n path :
  getDataType root n path = getDataType_body root (getDataType root) n path.
Proof. destruct n; reflexivity. Qed.

Lemma getDataType_body_spec rec n path :
  recOk ext rec n →
  ∀ st t st', getDataType_body root rec n path st = Some (t, st') →
    ext st st' ∧ dataTypeOf st' !! path = Some t ∧ t ≠ EmptyString ∧
    (AstNode.valid n = false → t = DataType.Invalid).
Proof.
  intros Hrec st t st' H. unfold getDataType_body in H.
  apply bind_inv in H as (u & st0 & Hwhen & H).
  assert (Hext0 : ext st st0 ∧
                  (AstNode.valid n = false → dataTypeOf st0 !! path = Some DataType.Invalid)).
  { destruct (AstNode.valid n); simpl in Hwhen; injection Hwhen as ? ?; subst.
    - split; [apply extX_refl | discriminate].
    - split; [apply ext_setInvalid | intros _; simpl; apply lookup_insert_eq]. }
  destruct Hext0 as [Hext0 Hinv].
  apply bind_inv in H as (dt & st0' & Hdt & H).
  apply bind_inv in Hdt as (? & ? & [= <- <-] & [= <- <-]).
  destruct (truthy (dataTypeOf st0 !! path)) eqn:Etr.
  { apply truthy_Some in Etr as (t0 & Hlook & Hne & Hdef).
    rewrite Hdef in H. injection H as ? ?; subst.
    refine (conj Hext0 (conj Hlook (conj Hne _))).
    intros Hv. specialize (Hinv Hv). congruence. }
  assert (Hvalid : AstNode.valid n = false → False).
  { intros Hv. rewrite (Hinv Hv) in Etr. discriminate. }
  apply bind_inv in H as (u1 & st1 & Hrules & H).
  assert (Hext1 : extX None (Some path) st0 st1).
  { revert Hrules. unfold runDataTypeRules.
    apply pres_foldM; [apply extX_refl | apply extX_trans |].
    intros acc rule Hin.
    apply pres_bind; [apply extX_trans | | intros ?; apply ext_setNodeDataType_X].
    apply ext_weaken.
    pose proof (rulesFor_Forall _ n _ (ext_dataTypeRegistrations root rec n path Hrec)) as HF.
    rewrite Forall_forall in HF. apply HF, Hin. }
  apply bind_inv in H as (dt1 & st1' & Hdt1 & H).
  apply bind_inv in Hdt1 as (? & ? & [= <- <-] & [= <- <-]).
  destruct (truthy (dataTypeOf st1 !! path)) eqn:Etr1.
  - apply truthy_Some in Etr1 as (t1 & Hlook & Hne & Hdef).
    rewrite Hdef in H. injection H as ? ?; subst.
    refine (conj _ (conj Hlook (conj Hne (fun Hv => False_ind _ (Hvalid Hv))))).
    eapply extX_trans; [exact Hext0|]. by eapply extX_type_close.
  - apply bind_inv in H as (u2 & st2 & Hset & H).
    injection Hset as ? ?. injection H as ? ?. subst.
    refine (conj _ (conj _ (conj _ (fun Hv => False_ind _ (Hvalid Hv))))).
    + eapply extX_trans; [exact Hext0|].
      eapply extX_type_close; [|exact Etr].
      eapply extX_trans; [exact Hext1 | apply (extX_setNodeDataType None path (Some _))].
    + simpl. apply lookup_insert_eq.
    + done.
Qed.

(** [getDataType] extends the annotations and leaves the node with the
    non-empty type it returns, [invalid] on a node flagged by the validator. *)
Lemma getDataType_spec n :
  ∀ path st t st', getDataType root n path st = Some (t, st') →
    ext st st' ∧ dataTypeOf st' !! path = Some t ∧ t ≠ EmptyString ∧
    (AstNode.valid n = false → t = DataType.Invalid).
Proof.
  remember (S (AstNode.height n)) as k eqn:Hk.
  assert (Hlt : AstNode.height n < k) by lia. clear Hk. revert n Hlt.
  induction k as [|k IH]; intros n Hlt path st t st'; [lia|].
  rewrite getDataType_unfold. apply getDataType_body_spec.
  intros c q Hc st0 t0 st0' H0. eapply (IH c), H0. lia.
Qed.

Lemma ext_getDataType n path : pres ext (getDataType root n path).
Proof. intros st t st' H. eapply getDataType_spec, H. Qed.

(** On a settled node [getDataType] is a read. *)
Lemma getDataType_settled n path st :
  settled n path st →
  ∃ t, getDataType root n path st = Some (t, st) ∧ dataTypeOf st !! path = Some t.
Proof.
  intros (t & Ht & Hne & Hv). exists t. split; [|exact Ht].
  rewrite getDataType_unfold. unfold getDataType_body, nodeDataType.
  assert (E : when (negb (AstNode.valid n))
                   (setNodeDataType path (Some DataType.Invalid)) st = Some (tt, st)).
  { destruct (AstNode.valid n); [reflexivity|]. simpl.
    unfold setNodeDataType, modify. rewrite withDataType_same; [reflexivity|].
    rewrite Ht, Hv; reflexivity. }
  rewrite (bind_Some _ _ _ _ _ E).
  rewrite (bind_Some _ _ _ _ _ (nodeDataType_run path st)), Ht.
  cbn [truthy]. rewrite bool_decide_eq_true_2 by exact Hne. reflexivity.
Qed.

Lemma hoistPass_unfold node path :
  hoistPass root node path =
  (s ← getScope root path;
   setNodeScope path s;;
   forIndexed (fun i child =>
                 if bool_decide (AstNode.type child ≠ AstType.StructDef) then mret tt
                 else hoistPass root child (i :: path))
              0 (AstNode.children node)).
Proof. destruct node; reflexivity. Qed.

Lemma scopePass_unfold node path :
  scopePass root node path =
  (s ← getScope root path;
   setNodeScope path s;;
   forIndexed (fun i child => scopePass root child (i :: path)) 0 (AstNode.children node)).
Proof. destruct node; reflexivity. Qed.

Lemma typePass_unfold node path :
  typePass root node path =
  (t ← getDataType root node path;
   setNodeDataType path (Some t);;
   forIndexed (fun i child => typePass root child (i :: path)) 0 (AstNode.children node)).
Proof. destruct node; reflexivity. Qed.

Lemma analysisPass_unfold node path :
  analysisPass node path =
  (foldM (fun (_ : unit) rule => rule) tt (rulesFor node (analysisRegistrations node path));;
   forIndexed (fun i child => analysisPass child (i :: path)) 0 (AstNode.children node)).
Proof. destruct node; reflexivity. Qed.

Lemma onSubtree_node P n path st :
  P n path st →
  (∀ j c, AstNode.children n !! j = Some c → onSubtree P c (j :: path) st) →
  onSubtree P n path st.
Proof.
  intros Hn Hcs down m Hd. destruct down as [|j rest]; simpl in Hd.
  - injection Hd as <-. exact Hn.
  - destruct (AstNode.children n !! j) as [c|] eqn:Ec; [|discriminate].
    rewrite reverse_cons, <- app_assoc. simpl. by eapply Hcs.
Qed.

Lemma onSubtree_child P n path st j c :
  onSubtree P n path st → AstNode.children n !! j = Some c → onSubtree P c (j :: path) st.
Proof.
  intros H Hc down m Hd. specialize (H (j :: down) m). simpl in H. rewrite Hc in H.
  rewrite reverse_cons, <- app_assoc in H. by apply H.
Qed.

Lemma forIndexed_spec {A} (f : nat → A → M unit) (P : nat → A → State → Prop) (l : list A) :
  (∀ i x st st', P i x st → ext st st' → P i x st') →
  (∀ i x, x ∈ l → ∀ st u st', f i x st = Some (u, st') → ext st st' ∧ P i x st') →
  ∀ i st u st', forIndexed f i l st = Some (u, st') →
    ext st st' ∧ ∀ j x, l !! j = Some x → P (i + j) x st'.
Proof.
  intros Hstable. induction l as [|x l IH]; intros Hf i st u st' H; simpl in H.
  - injection H as ? ?; subst. split; [apply extX_refl|]. intros j y Hj. discriminate.
  - apply bind_inv in H as (u1 & st1 & H1 & H).
    destruct (Hf i x ltac:(by left) _ _ _ H1) as [E1 P1].
    assert (Hf' : ∀ i x, x ∈ l → ∀ st u st', f i x st = Some (u, st') → ext st st' ∧ P i x st')
      by (intros; eapply Hf; [by right | done]).
    destruct (IH Hf' _ _ _ _ H) as [E2 P2].
    split; [by eapply extX_trans|].
    intros [|j] y Hj; simpl in Hj.
    + injection Hj as <-. rewrite Nat.add_0_r. by eapply Hstable.
    + replace (i + S j) with (S i + j) by lia. by apply P2.
Qed.

Lemma forIndexed_fixed {A} (f : nat → A → M unit) (l : list A) st :
  ∀ i, (∀ j x, l !! j = Some x → f (i + j) x st = Some (tt, st)) →
       forIndexed f i l st = Some (tt, st).
Proof.
  induction l as [|x l IH]; intros i Hf; simpl; [reflexivity|].
  rewrite (bind_Some _ _ _ _ _ (eq_trans (f_equal (fun k => f k x st) (eq_sym (Nat.add_0_r i)))
                                         (Hf 0 x eq_refl))).
  apply IH. intros j y Hj. replace (S i + j) with (i + S j) by lia. by apply Hf.
Qed.

Lemma ext_hoistPass node : ∀ path, pres ext (hoistPass root node path).
Proof.
  induction node as [ty tok v cs IH] using AstNode_ind'. intros path.
  rewrite hoistPass_unfold. cbn [AstNode.children].
  rewrite Forall_forall in IH.
  intros st u st' H.
  apply bind_inv in H as (s & st1 & Hs & H).
  apply getScope_spec in Hs as [E1 Hs].
  apply bind_inv in H as (u1 & st1' & Hset & H).
  unfold setNodeScope, modify in Hset. injection Hset as ? ?; subst.
  rewrite (withScope_same _ _ _ Hs) in H.
  eapply extX_trans; [exact E1|]. revert H.
  apply pres_forIndexed; [apply extX_refl | apply extX_trans |].
  intros i x Hx. destruct (bool_decide _); [apply pres_ret, extX_refl | by apply IH].
Qed.

Lemma scopePass_spec node :
  ∀ path st u st', scopePass root node path st = Some (u, st') →
    ext st st' ∧ onSubtree scoped node path st'.
Proof.
  induction node as [ty tok v cs IH] using AstNode_ind'. intros path st u st' H.
  rewrite scopePass_unfold in H. cbn [AstNode.children] in H.
  rewrite Forall_forall in IH.
  apply bind_inv in H as (s & st1 & Hs & H).
  apply getScope_spec in Hs as [E1 Hs].
  apply bind_inv in H as (u1 & st1' & Hset & H).
  unfold setNodeScope, modify in Hset. injection Hset as ? ?; subst.
  rewrite (withScope_same _ _ _ Hs) in H.
  apply (forIndexed_spec _ (fun i c st => onSubtree scoped c (i :: path) st)) in H
    as [E2 Hcs].
  - split; [by eapply extX_trans|].
    apply onSubtree_node.
    + eapply scoped_ext; [by eexists | exact E2].
    + intros j c Hj. by apply (Hcs j c).
  - intros i x st0 st0' HP Hext down m Hd. eapply scoped_ext; [by eapply HP | exact Hext].
  - intros i x Hx st0 u0 st0' H0. by eapply IH.
Qed.

Lemma typePass_spec node :
  ∀ path st u st', typePass root node path st = Some (u, st') →
    ext st st' ∧ onSubtree settled node path st'.
Proof.
  induction node as [ty tok v cs IH] using AstNode_ind'. intros path st u st' H.
  rewrite typePass_unfold in H. cbn [AstNode.children] in H.
  rewrite Forall_forall in IH.
  apply bind_inv in H as (t & st1 & Ht & H).
  apply getDataType_spec in Ht as (E1 & Ht & Hne & Hv).
  apply bind_inv in H as (u1 & st1' & Hset & H).
  unfold setNodeDataType, modify in Hset. injection Hset as ? ?; subst.
  rewrite (withDataType_same _ _ _ Ht) in H.
  apply (forIndexed_spec _ (fun i c st => onSubtree settled c (i :: path) st)) in H
    as [E2 Hcs].
  - split; [by eapply extX_trans|].
    apply onSubtree_node.
    + eapply settled_ext; [by exists t | exact E2].
    + intros j c Hj. by apply (Hcs j c).
  - intros i x st0 st0' HP Hext down m Hd. eapply settled_ext; [by eapply HP | exact Hext].
  - intros i x Hx st0 u0 st0' H0. by eapply IH.
Qed.

Lemma analysisPass_noop node : ∀ path st, analysisPass node path st = Some (tt, st).
Proof.
  induction node as [ty tok v cs IH] using AstNode_ind'. intros path st.
  rewrite analysisPass_unfold. cbn [AstNode.children].
  rewrite Forall_forall in IH.
  change (rulesFor _ (analysisRegistrations _ path)) with (@nil (M unit)).
  simpl foldM. rewrite bind_unfold. simpl.
  apply forIndexed_fixed. intros j x Hj. apply IH. by eapply list_elem_of_lookup_2.
Qed.

Lemma hoistPass_fixed node :
  ∀ path st, onSubtree scoped node path st → hoistPass root node path st = Some (tt, st).
Proof.
  induction node as [ty tok v cs IH] using AstNode_ind'. intros path st Hsub.
  rewrite hoistPass_unfold. cbn [AstNode.children].
  rewrite Forall_forall in IH.
  destruct (Hsub [] _ eq_refl) as [s Hs]. simpl in Hs.
  rewrite (bind_Some _ _ _ _ _ (getScope_annotated root path st s Hs)).
  unfold setNodeScope, modify. rewrite bind_unfold, (withScope_same _ _ _ Hs).
  apply forIndexed_fixed. intros j x Hj. simpl.
  destruct (bool_decide _); [reflexivity|].
  apply IH; [by eapply list_elem_of_lookup_2|].
  by eapply (onSubtree_child _ (AstNode.mk ty tok v cs)).
Qed.

Lemma scopePass_fixed node :
  ∀ path st, onSubtree scoped node path st → scopePass root node path st = Some (tt, st).
Proof.
  induction node as [ty tok v cs IH] using AstNode_ind'. intros path st Hsub.
  rewrite scopePass_unfold. cbn [AstNode.children].
  rewrite Forall_forall in IH.
  destruct (Hsub [] _ eq_refl) as [s Hs]. simpl in Hs.
  rewrite (bind_Some _ _ _ _ _ (getScope_annotated root path st s Hs)).
  unfold setNodeScope, modify. rewrite bind_unfold, (withScope_same _ _ _ Hs).
  apply forIndexed_fixed. intros j x Hj. simpl.
  apply IH; [by eapply list_elem_of_lookup_2|].
  by eapply (onSubtree_child _ (AstNode.mk ty tok v cs)).
Qed.

Lemma typePass_fixed node :
  ∀ path st, onSubtree settled node path st → typePass root node path st = Some (tt, st).
Proof.
  induction node as [ty tok v cs IH] using AstNode_ind'. intros path st Hsub.
  rewrite typePass_unfold. cbn [AstNode.children].
  rewrite Forall_forall in IH.
  destruct (getDataType_settled _ path st (Hsub [] _ eq_refl)) as (t & Ht & Hlook).
  rewrite (bind_Some _ _ _ _ _ Ht).
  unfold setNodeDataType, modify. rewrite bind_unfold, (withDataType_same _ _ _ Hlook).
  apply forIndexed_fixed. intros j x Hj. simpl.
  apply IH; [by eapply list_elem_of_lookup_2|].
  by eapply (onSubtree_child _ (AstNode.mk ty tok v cs)).
Qed.

(** After [analyze] every node of the tree is scoped and settled. *)
Lemma analyze_spec st u st' :
  analyze root st = Some (u, st') →
  ext st st' ∧ onSubtree scoped root [] st' ∧ onSubtree settled root [] st'.
Proof.
  unfold analyze. intros H.
  apply bind_inv in H as (u1 & st1 & H1 & H). apply ext_hoistPass in H1.
  apply bind_inv in H as (u2 & st2 & H2 & H). apply scopePass_spec in H2 as [E2 S2].
  apply bind_inv in H as (u3 & st3 & H3 & H). apply typePass_spec in H3 as [E3 T3].
  rewrite analysisPass_noop in H. injection H as ? ?; subst.
  split; [|split].
  - eapply extX_trans; [exact H1|]. by eapply extX_trans.
  - intros down m Hd. eapply scoped_ext; [by eapply S2 | exact E3].
  - exact T3.
Qed.
End Passes.


(** ** Properties of the whole analysis *)

Lemma bind_ext_r {A B} (m : M A) (k1 k2 : A → M B) (st : State) :
  (∀ a st', k1 a st' = k2 a st') → (m ≫= k1) st = (m ≫= k2) st.
Proof. intros H. rewrite !bind_unfold. destruct (m st) as [[a st']|]; [apply H | reflexivity]. Qed.

(** C8.  A second [analyze] on the tree as the first one left it returns
    with the state unchanged: the same scope and data-type annotation on
    every node, and no diagnostic added to the log. *)
Theorem analyze_idempotent (root : AstNode.t) (st st1 : State) (u : unit) :
  analyze root st = Some (u, st1) →
  analyze root st1 = Some (tt, st1).
Proof.
  intros H. apply analyze_spec in H as (_ & Hs & Ht).
  unfold analyze.
  rewrite (bind_Some _ _ _ _ _ (hoistPass_fixed root root [] st1 Hs)).
  rewrite (bind_Some _ _ _ _ _ (scopePass_fixed root root [] st1 Hs)).
  rewrite (bind_Some _ _ _ _ _ (typePass_fixed root root [] st1 Ht)).
  apply analysisPass_noop.
Qed.

Lemma analyze_idempotent_witness :
  analyze undeclaredTypeProgram newSchwaAnalyzer
    = Some (tt, analyzed undeclaredTypeProgram) ∧
  analyze undeclaredTypeProgram (analyzed undeclaredTypeProgram)
    = Some (tt, analyzed undeclaredTypeProgram).
Proof.
  assert (H1 : analyze undeclaredTypeProgram newSchwaAnalyzer
               = Some (tt, analyzed undeclaredTypeProgram)) by (vm_compute; reflexivity).
  split; [exact H1|].
  exact (analyze_idempotent _ _ _ _ H1).
Defined.

(** C10.  No analysis rule is registered for any node, the analysis pass
    returns on every tree with the state as it was (no diagnostic, no change
    to a node, a scope or a symbol), and [analyze] is the hoist, scope and
    type passes in sequence. *)
Theorem analysisPass_does_nothing (root : AstNode.t) :
  (∀ n path, rulesFor n (analysisRegistrations n path) = []) ∧
  (∀ node path st, analysisPass node path st = Some (tt, st)) ∧
  (∀ st, analyze root st
         = (hoistPass root root [];; scopePass root root [];; typePass root root []) st).
Proof.
  split; [reflexivity|]. split; [apply analysisPass_noop|].
  intros st. unfold analyze.
  apply bind_ext_r; intros _ st1. apply bind_ext_r; intros _ st2.
  rewrite bind_unfold.
  destruct (typePass root root [] st2) as [[[] st3]|]; [apply analysisPass_noop | reflexivity].
Qed.

(** ** Properties of single rules *)

Lemma when_true (m : M unit) : when true m = m.
Proof. reflexivity. Qed.

Lemma when_false (m : M unit) st : when false m st = Some (tt, st).
Proof. reflexivity. Qed.

Lemma logError_run msg node st : logError msg node st = Some (tt, withLog (errorMsg msg node) st).
Proof. reflexivity. Qed.

Lemma setNodeDataType_run path o st :
  setNodeDataType path o st = Some (tt, withDataType path o st).
Proof. reflexivity. Qed.

Lemma dataTypeOf_withDataType path t st :
  dataTypeOf (withDataType path (Some t) st) !! path = Some t.
Proof. simpl. apply lookup_insert_eq. Qed.

Lemma dataTypeOf_withLog m st : dataTypeOf (withLog m st) = dataTypeOf st.
Proof. reflexivity. Qed.

Lemma runDataTypeRules_nil path st : runDataTypeRules path [] st = Some (tt, st).
Proof. reflexivity. Qed.

Lemma runDataTypeRules_cons path rule rules st o st1 :
  rule st = Some (o, st1) →
  runDataTypeRules path (rule :: rules) st
  = runDataTypeRules path rules (withDataType path o st1).
Proof.
  intros H. unfold runDataTypeRules. simpl foldM.
  rewrite bind_unfold. rewrite (bind_Some _ _ _ _ _ H). reflexivity.
Qed.

Section NodeLevel.
Context (root : AstNode.t).

(** A valid node without a data type gets the type its rules leave on it. *)
Lemma getDataType_run_rules n path st st1 r :
  AstNode.valid n = true →
  truthy (dataTypeOf st !! path) = false →
  runDataTypeRules path (rulesFor n (dataTypeRegistrations root (getDataType root) n path)) st
    = Some (tt, st1) →
  dataTypeOf st1 !! path = Some r → r ≠ EmptyString →
  getDataType root n path st = Some (r, st1).
Proof.
  intros Hv Hfalsy Hrun Hr Hne.
  rewrite getDataType_unfold. unfold getDataType_body.
  rewrite Hv. cbn [negb]. rewrite (bind_Some _ _ _ _ _ (when_false _ st)).
  rewrite (bind_Some _ _ _ _ _ (nodeDataType_run path st)), Hfalsy.
  rewrite (bind_Some _ _ _ _ _ Hrun).
  rewrite (bind_Some _ _ _ _ _ (nodeDataType_run path st1)), Hr.
  cbn [truthy]. rewrite bool_decide_eq_true_2 by exact Hne. reflexivity.
Qed.

Lemma getDataType_single_rule n path st rule r st1 :
  AstNode.valid n = true →
  truthy (dataTypeOf st !! path) = false →
  rulesFor n (dataTypeRegistrations root (getDataType root) n path) = [rule] →
  rule st = Some (Some r, st1) → r ≠ EmptyString →
  getDataType root n path st = Some (r, withDataType path (Some r) st1).
Proof.
  intros Hv Hfalsy Hrules Hrule Hne.
  eapply getDataType_run_rules; try done.
  - rewrite Hrules, (runDataTypeRules_cons _ _ _ _ _ _ Hrule). reflexivity.
  - apply dataTypeOf_withDataType.
Qed.

Lemma rulesFor_Return rec n path :
  AstNode.type n = AstType.Return →
  rulesFor n (dataTypeRegistrations root rec n path) = [dtRule_Return root rec n path].
Proof. intros H. unfold rulesFor, dataTypeRegistrations. rewrite H. reflexivity. Qed.

(** C5.  On a Return node with the child [c0] of type [t], inside a
    FunctionDef [p] declared with return type [r]: if [t] differs from [r] or
    [r] is [void], the rule logs the mismatch at the child and returns
    [invalid]; otherwise it logs nothing and returns [t].  What the rule
    returns is the data type the node ends with, provided the validator did
    not flag the node and the node was not typed before. *)
Theorem return_rule_checks_declared_type (n : AstNode.t) (path : Path) (c0 : AstNode.t)
    (st st1 : State) (t : string) (p p0 : AstNode.t) :
  AstNode.children n = [c0] →
  getDataType root c0 (0 :: path) st = Some (t, st1) →
  findAncestor root AstType.FunctionDef path = Some p →
  AstNode.children p !! 0 = Some p0 →
  let r := tokenValue p in
  let diagnosed := withLog (errorMsg (returnMsg t (tokenValue p0) r) c0) st1 in
  let untyped := AstNode.type n = AstType.Return ∧ AstNode.valid n = true ∧
                 truthy (dataTypeOf st !! path) = false in
  (t ≠ r ∨ r = DataType.None →
     dtRule_Return root (getDataType root) n path st
       = Some (Some DataType.Invalid, diagnosed) ∧
     (untyped →
      getDataType root n path st
        = Some (DataType.Invalid, withDataType path (Some DataType.Invalid) diagnosed))) ∧
  (t = r ∧ r ≠ DataType.None →
     dtRule_Return root (getDataType root) n path st = Some (Some t, st1) ∧
     (untyped →
      getDataType root n path st = Some (t, withDataType path (Some t) st1))).
Proof.
  intros Hcs Hc0 Hanc Hp0 r diagnosed untyped.
  assert (Hne : t ≠ EmptyString) by (apply getDataType_spec in Hc0; tauto).
  assert (Hrule : dtRule_Return root (getDataType root) n path st =
                  if bool_decide (t ≠ r ∨ r = DataType.None)
                  then Some (Some DataType.Invalid, diagnosed) else Some (Some t, st1)).
  { unfold dtRule_Return. rewrite Hcs, (bind_Some _ _ _ _ _ Hc0), Hanc. fold r.
    destruct (bool_decide (t ≠ r ∨ r = DataType.None)); [|reflexivity].
    unfold childAt. rewrite Hp0. reflexivity. }
  split.
  - intros Hbad. rewrite bool_decide_eq_true_2 in Hrule by exact Hbad.
    split; [exact Hrule|]. intros (Hty & Hv & Hfalsy).
    eapply getDataType_single_rule; try done. by apply rulesFor_Return.
  - intros [Heq Hnv]. rewrite bool_decide_eq_false_2 in Hrule by tauto.
    split; [exact Hrule|]. intros (Hty & Hv & Hfalsy).
    eapply getDataType_single_rule; try done. by apply rulesFor_Return.
Qed.
End NodeLevel.

Lemma return_rule_checks_declared_type_witness :
  let root := voidReturnProgram in
  let n := nd AstType.Return (tk TokenType.Return "return") [lit TokenType.Int "1"] in
  let st := afterScopePass root in
  let st1 := withDataType [0; 0; 2; 0] (Some "int") st in
  dtRule_Return root (getDataType root) n [0; 2; 0] st
    = Some (Some DataType.Invalid,
            withLog (errorMsg (returnMsg "int" "f" "void") (lit TokenType.Int "1")) st1) ∧
  getDataType root n [0; 2; 0] st
    = Some (DataType.Invalid,
            withDataType [0; 2; 0] (Some DataType.Invalid)
              (withLog (errorMsg (returnMsg "int" "f" "void") (lit TokenType.Int "1")) st1)).
Proof.
  intros root n st st1.
  assert (H1 : AstNode.children n = [lit TokenType.Int "1"]) by reflexivity.
  assert (H2 : getDataType root (lit TokenType.Int "1") [0; 0; 2; 0] st = Some ("int", st1))
    by (vm_compute; reflexivity).
  assert (H3 : findAncestor root AstType.FunctionDef [0; 2; 0]
               = Some (nd AstType.FunctionDef (tk TokenType.Type_ "void") [
                         fid "f";
                         nd AstType.Parameters (tk TokenType.LParen "(") [];
                         nd AstType.Block (tk TokenType.Indent "") [n] ]))
    by (vm_compute; reflexivity).
  assert (H4 : AstNode.children
                 (nd AstType.FunctionDef (tk TokenType.Type_ "void") [
                    fid "f";
                    nd AstType.Parameters (tk TokenType.LParen "(") [];
                    nd AstType.Block (tk TokenType.Indent "") [n] ]) !! 0 = Some (fid "f"))
    by reflexivity.
  assert (H5 : "int" ≠ "void" ∨ "void" = DataType.None) by (right; reflexivity).
  assert (H6 : AstNode.type n = AstType.Return ∧ AstNode.valid n = true ∧
               truthy (dataTypeOf st !! [0; 2; 0]) = false)
    by (split; [reflexivity | split; [reflexivity | vm_compute; reflexivity]]).
  destruct (proj1 (return_rule_checks_declared_type root n [0; 2; 0] _ st st1 "int" _ _
                     H1 H2 H3 H4) H5) as [Hrule Hnode].
  exact (conj Hrule (Hnode H6)).
Defined.

Section AssignmentRule.
Context (root : AstNode.t).

Lemma rulesFor_Assignment rec n path :
  AstNode.type n = AstType.Assignment →
  rulesFor n (dataTypeRegistrations root rec n path) = [dtRule_Assignment root rec n path].
Proof. intros H. unfold rulesFor, dataTypeRegistrations. rewrite H. reflexivity. Qed.

(** The const check answers [true] exactly when the target's identifier
    resolves to a variable whose [const] flag is set. *)
Lemma targetIsConst_resolved c0 path st inode ipath s st1 :
  getIdentifier c0 (0 :: path) st = Some (Some (inode, ipath), st) →
  getScope root ipath st = Some (s, st1) →
  targetIsConst root c0 path st
  = Some (match Scope.getVariable (heap st1) s (tokenValue inode) with
          | Some nvar => Var.const nvar
          | None => false
          end, st1).
Proof.
  intros Hid Hs. unfold targetIsConst.
  rewrite (bind_Some _ _ _ _ _ Hid), (bind_Some _ _ _ _ _ Hs).
  rewrite bind_unfold. cbn [get].
  destruct (Scope.getVariable (heap st1) s (tokenValue inode)); reflexivity.
Qed.

Lemma targetIsConst_no_identifier c0 path st :
  getIdentifier c0 (0 :: path) st = Some (None, st) →
  targetIsConst root c0 path st = Some (false, st).
Proof. intros Hid. unfold targetIsConst. rewrite (bind_Some _ _ _ _ _ Hid). reflexivity. Qed.

(** C3.  On an Assignment node with the children [c0] and [c1]: (a) if the
    identifier of the target resolves to a variable whose [const] flag is
    set, the rule logs "Constant globals cannot be assigned to" at the node
    and returns [invalid]; (b) otherwise, with [t0] and [t1] the types of the
    two children, neither of them [invalid]: if they differ the rule logs
    "Both sides of an assignment must be of the same type" at the node and
    returns [invalid]; if they are equal it logs nothing and returns that
    common type.  What the rule returns is the data type the node ends with,
    provided the validator did not flag the node and the node was not typed
    before. *)
Theorem assignment_rule (n : AstNode.t) (path : Path) (c0 c1 : AstNode.t) (st : State) :
  AstNode.children n = [c0; c1] →
  let untyped := AstNode.type n = AstType.Assignment ∧ AstNode.valid n = true ∧
                 truthy (dataTypeOf st !! path) = false in
  (∀ inode ipath s st1 nvar,
     getIdentifier c0 (0 :: path) st = Some (Some (inode, ipath), st) →
     getScope root ipath st = Some (s, st1) →
     Scope.getVariable (heap st1) s (tokenValue inode) = Some nvar →
     Var.const nvar = true →
     let diagnosed := withLog (errorMsg constAssignMsg n) st1 in
     dtRule_Assignment root (getDataType root) n path st
       = Some (Some DataType.Invalid, diagnosed) ∧
     (untyped →
      getDataType root n path st
        = Some (DataType.Invalid, withDataType path (Some DataType.Invalid) diagnosed))) ∧
  (∀ st1 st2 st3 t0 t1,
     targetIsConst root c0 path st = Some (false, st1) →
     getDataType root c0 (0 :: path) st1 = Some (t0, st2) →
     getDataType root c1 (1 :: path) st2 = Some (t1, st3) →
     t0 ≠ DataType.Invalid → t1 ≠ DataType.Invalid →
     let diagnosed := withLog (errorMsg sameTypeMsg n) st3 in
     (t0 ≠ t1 →
        dtRule_Assignment root (getDataType root) n path st
          = Some (Some DataType.Invalid, diagnosed) ∧
        (untyped →
         getDataType root n path st
           = Some (DataType.Invalid, withDataType path (Some DataType.Invalid) diagnosed))) ∧
     (t0 = t1 →
        dtRule_Assignment root (getDataType root) n path st = Some (Some t0, st3) ∧
        (untyped →
         getDataType root n path st = Some (t0, withDataType path (Some t0) st3)))).
Proof.
  intros Hcs untyped. split.
  - intros inode ipath s st1 nvar Hid Hs Hvar Hconst diagnosed.
    assert (Hrule : dtRule_Assignment root (getDataType root) n path st
                    = Some (Some DataType.Invalid, diagnosed)).
    { unfold dtRule_Assignment. rewrite Hcs.
      rewrite (bind_Some _ _ _ _ _ (targetIsConst_resolved _ _ _ _ _ _ _ Hid Hs)).
      rewrite Hvar, Hconst. reflexivity. }
    split; [exact Hrule|]. intros (Hty & Hv & Hfalsy).
    eapply getDataType_single_rule; try done. by apply rulesFor_Assignment.
  - intros st1 st2 st3 t0 t1 Hconst H0 H1 Hi0 Hi1 diagnosed.
    assert (Hne : t0 ≠ EmptyString) by (apply getDataType_spec in H0; tauto).
    assert (Hrule : dtRule_Assignment root (getDataType root) n path st =
                    if bool_decide (t0 ≠ t1)
                    then Some (Some DataType.Invalid, diagnosed) else Some (Some t0, st3)).
    { unfold dtRule_Assignment. rewrite Hcs, (bind_Some _ _ _ _ _ Hconst).
      unfold assignSides. rewrite (bind_Some _ _ _ _ _ H0), (bind_Some _ _ _ _ _ H1).
      rewrite bool_decide_eq_false_2 by tauto.
      destruct (bool_decide (t0 ≠ t1)); reflexivity. }
    split.
    + intros Hdiff. rewrite bool_decide_eq_true_2 in Hrule by exact Hdiff.
      split; [exact Hrule|]. intros (Hty & Hv & Hfalsy).
      eapply getDataType_single_rule; try done. by apply rulesFor_Assignment.
    + intros Hsame. rewrite bool_decide_eq_false_2 in Hrule by tauto.
      split; [exact Hrule|]. intros (Hty & Hv & Hfalsy).
      eapply getDataType_single_rule; try done. by apply rulesFor_Assignment.
Qed.
End AssignmentRule.

Lemma assignment_rule_witness :
  (let st1 := withScope [0] rootScope (withScope [] rootScope constState) in
   let diagnosed := withLog (errorMsg constAssignMsg constAssignment) st1 in
   dtRule_Assignment constAssignment (getDataType constAssignment) constAssignment [] constState
     = Some (Some DataType.Invalid, diagnosed) ∧
   getDataType constAssignment constAssignment [] constState
     = Some (DataType.Invalid, withDataType [] (Some DataType.Invalid) diagnosed)) ∧
  (let root := mismatchProgram in
   let st := afterScopePass root in
   let st2 := withDataType [0; 1; 2; 0] (Some "int") st in
   let st3 := withDataType [1; 1; 2; 0] (Some "double") st2 in
   let diagnosed := withLog (errorMsg sameTypeMsg mismatchedAssignment) st3 in
   dtRule_Assignment root (getDataType root) mismatchedAssignment [1; 2; 0] st
     = Some (Some DataType.Invalid, diagnosed) ∧
   getDataType root mismatchedAssignment [1; 2; 0] st
     = Some (DataType.Invalid, withDataType [1; 2; 0] (Some DataType.Invalid) diagnosed)).
Proof.
  split.
  - intros st1 diagnosed.
    assert (H1 : AstNode.children constAssignment = [vid "C"; lit TokenType.Int "20"])
      by reflexivity.
    assert (H2 : getIdentifier (vid "C") [0] constState = Some (Some (vid "C", [0]), constState))
      by reflexivity.
    assert (H3 : getScope constAssignment [0] constState = Some (rootScope, st1))
      by (vm_compute; reflexivity).
    assert (H4 : Scope.getVariable (heap st1) rootScope (tokenValue (vid "C")) = Some constVar)
      by (vm_compute; reflexivity).
    assert (H5 : Var.const constVar = true) by reflexivity.
    assert (H6 : AstNode.type constAssignment = AstType.Assignment ∧
                 AstNode.valid constAssignment = true ∧
                 truthy (dataTypeOf constState !! []) = false)
      by (split; [reflexivity | split; reflexivity]).
    destruct (proj1 (assignment_rule constAssignment constAssignment [] _ _ constState H1)
                    _ _ _ _ _ H2 H3 H4 H5) as [Hrule Hnode].
    exact (conj Hrule (Hnode H6)).
  - intros root st st2 st3 diagnosed.
    assert (H1 : AstNode.children mismatchedAssignment
                 = [vid "x"; lit TokenType.Double "3.14"]) by reflexivity.
    assert (H2 : targetIsConst root (vid "x") [1; 2; 0] st = Some (false, st))
      by (vm_compute; reflexivity).
    assert (H3 : getDataType root (vid "x") [0; 1; 2; 0] st = Some ("int", st2))
      by (vm_compute; reflexivity).
    assert (H4 : getDataType root (lit TokenType.Double "3.14") [1; 1; 2; 0] st2
                 = Some ("double", st3)) by (vm_compute; reflexivity).
    assert (H5 : "int" ≠ DataType.Invalid) by discriminate.
    assert (H6 : "double" ≠ DataType.Invalid) by discriminate.
    assert (H7 : "int" ≠ "double") by discriminate.
    assert (H8 : AstNode.type mismatchedAssignment = AstType.Assignment ∧
                 AstNode.valid mismatchedAssignment = true ∧
                 truthy (dataTypeOf st !! [1; 2; 0]) = false)
      by (split; [reflexivity | split; [reflexivity | vm_compute; reflexivity]]).
    destruct (proj1 (proj2 (assignment_rule root mismatchedAssignment [1; 2; 0] _ _ st H1)
                           _ _ _ _ _ H2 H3 H4 H5 H6) H7) as [Hrule Hnode].
    exact (conj Hrule (Hnode H8)).
Defined.

(** ** The [as] cast *)

Lemma castLookup_elem_of t0 t1 table :
  castLookup t0 t1 table = if bool_decide ((t0, t1) ∈ table) then Some t1 else None.
Proof.
  induction table as [|[a b] table IH]; cbn [castLookup].
  - case_bool_decide as H; [by apply elem_of_nil in H | reflexivity].
  - rewrite IH. clear IH.
    destruct (decide (t0 = a)) as [->|Ha]; destruct (decide (t1 = b)) as [->|Hb].
    + rewrite (bool_decide_eq_true_2 (a = a)) by done.
      rewrite (bool_decide_eq_true_2 (b = b)) by done.
      rewrite (bool_decide_eq_true_2 (_ ∈ _ :: _)) by (by left). reflexivity.
    + rewrite (bool_decide_eq_false_2 (t1 = b)) by done. rewrite andb_false_r.
      apply (f_equal (fun c : bool => if c then Some t1 else None)).
      apply bool_decide_ext. rewrite elem_of_cons. split; [tauto|].
      intros [[= ?]|?]; tauto.
    + rewrite (bool_decide_eq_false_2 (t0 = a)) by done. cbn [andb].
      apply (f_equal (fun c : bool => if c then Some b else None)).
      apply bool_decide_ext. rewrite elem_of_cons. split; [tauto|].
      intros [[= ?]|?]; tauto.
    + rewrite (bool_decide_eq_false_2 (t0 = a)) by done. cbn [andb].
      apply (f_equal (fun c : bool => if c then Some t1 else None)).
      apply bool_decide_ext. rewrite elem_of_cons. split; [tauto|].
      intros [[= ?]|?]; tauto.
Qed.

(** The table of the code is the table of the specification. *)
Lemma asTable_spec (x : string * string) : x ∈ asTable ↔ x ∈ asPairsOfSpec.
Proof.
  unfold asTable, asPairsOfSpec, bothWays. simpl.
  rewrite !elem_of_cons, !elem_of_nil. tauto.
Qed.

Lemma withDataType_noop path st : withDataType path (dataTypeOf st !! path) st = st.
Proof.
  destruct st as [h sc dt lg]. unfold withDataType, set_dataTypeOf. simpl.
  destruct (dt !! path) eqn:E; f_equal.
  - by apply insert_id.
  - by apply delete_id.
Qed.

Lemma dtRule_BinaryOp_skip rec type typeSets n path st :
  Token.type (AstNode.token n) ≠ type →
  dtRule_BinaryOp rec type typeSets n path st = Some (dataTypeOf st !! path, st).
Proof.
  intros H. unfold dtRule_BinaryOp.
  rewrite (bind_Some _ _ _ _ _ (nodeDataType_run path st)).
  rewrite (bool_decide_eq_true_2 _ H), orb_true_r. reflexivity.
Qed.

Lemma dtRule_Cast_skip rec type table n path st :
  truthy (dataTypeOf st !! path) = true ∨ Token.type (AstNode.token n) ≠ type →
  dtRule_Cast rec type table n path st = Some (dataTypeOf st !! path, st).
Proof.
  intros H. unfold dtRule_Cast.
  rewrite (bind_Some _ _ _ _ _ (nodeDataType_run path st)).
  destruct H as [H|H].
  - rewrite H. reflexivity.
  - rewrite (bool_decide_eq_true_2 _ H), orb_true_r. reflexivity.
Qed.

Lemma runDataTypeRules_skip_binaryOps rec n path rest ops st :
  Forall (fun op => Token.type (AstNode.token n) ≠ op.1) ops →
  runDataTypeRules path (map (fun op => dtRule_BinaryOp rec op.1 op.2 n path) ops ++ rest) st
  = runDataTypeRules path rest st.
Proof.
  induction 1 as [|op ops Hop _ IH]; [reflexivity|]. simpl.
  rewrite (runDataTypeRules_cons _ _ _ _ _ _ (dtRule_BinaryOp_skip _ _ _ _ _ _ Hop)).
  rewrite withDataType_noop. exact IH.
Qed.

Section CastRule.
Context (root : AstNode.t).

Lemma rulesFor_BinaryOp rec n path :
  AstNode.type n = AstType.BinaryOp →
  rulesFor n (dataTypeRegistrations root rec n path)
  = map (fun op => dtRule_BinaryOp rec op.1 op.2 n path) binaryOps
    ++ [dtRule_As rec n path; dtRule_To rec n path].
Proof. intros H. unfold rulesFor, dataTypeRegistrations. rewrite H. reflexivity. Qed.

(** C6 as stated fails in its last clause: [x as long] with [x] an [int] is
    outside the table, its right-hand side is a Type node other than [bool],
    and the node is typed [invalid] without any diagnostic. *)
Lemma as_cast_silent_counterexample :
  let st := afterScopePass castProgram in
  let st' := stateAfter (getDataType castProgram castNode [1; 1; 2; 0]) st in
  nodeAt castProgram [1; 1; 2; 0] = Some castNode ∧
  getDataType castProgram (vid "x") [0; 1; 1; 2; 0] st
    = Some ("int", withDataType [0; 1; 1; 2; 0] (Some "int") st) ∧
  castTargetType (tyNode "long") = "long" ∧
  (("int", "long") ∉ asPairsOfSpec) ∧
  getDataType castProgram castNode [1; 1; 2; 0] st = Some (DataType.Invalid, st') ∧
  logger st' = logger st.
Proof.
  intros st st'.
  split; [reflexivity|]. split; [vm_compute; reflexivity|]. split; [reflexivity|].
  split; [|split; vm_compute; reflexivity].
  unfold asPairsOfSpec, bothWays. simpl. rewrite !elem_of_cons, elem_of_nil.
  intros H. repeat (destruct H as [H|H]; [discriminate H|]). exact H.
Qed.

(** C6, amended.  On a valid, not yet typed BinaryOp node whose operator is
    [as], with [t0] the type of the value and [t1] the type named by the
    right-hand side ([invalid] unless that is a Type node other than [bool]):
    the node's data type is [t1] when the pair is one of the table and
    [invalid] otherwise; outside the table the rule logs "Invalid value
    argument" at the value when [t0] is [invalid] and "Invalid type argument"
    at the right-hand side when [t1] is [invalid], and nothing else. *)
Theorem as_cast_rule (n : AstNode.t) (path : Path) (c0 c1 : AstNode.t) (st st1 : State)
    (t0 : string) :
  AstNode.type n = AstType.BinaryOp →
  Token.type (AstNode.token n) = TokenType.As →
  AstNode.valid n = true →
  truthy (dataTypeOf st !! path) = false →
  AstNode.children n = [c0; c1] →
  getDataType root c0 (0 :: path) st = Some (t0, st1) →
  let t1 := castTargetType c1 in
  let admitted := bool_decide ((t0, t1) ∈ asPairsOfSpec) in
  let result := if admitted then t1 else DataType.Invalid in
  let st2 := if admitted then st1
             else withLogIf (bool_decide (t1 = DataType.Invalid))
                            (errorMsg (invalidTypeArgMsg n) c1)
                    (withLogIf (bool_decide (t0 = DataType.Invalid))
                               (errorMsg (invalidValueArgMsg n) c0) st1) in
  (t1 = if bool_decide (AstNode.type c1 = AstType.Type_ ∧ tokenValue c1 ≠ DataType.Bool)
        then tokenValue c1 else DataType.Invalid) ∧
  dtRule_As (getDataType root) n path st = Some (Some result, st2) ∧
  getDataType root n path st = Some (result, withDataType path (Some result) st2).
Proof.
  intros Hty Htok Hv Hfalsy Hcs Hc0 t1 admitted result st2.
  assert (Hne0 : t0 ≠ EmptyString) by (apply getDataType_spec in Hc0; tauto).
  assert (Ht1 : t1 = if bool_decide (AstNode.type c1 = AstType.Type_ ∧
                                     tokenValue c1 ≠ DataType.Bool)
                     then tokenValue c1 else DataType.Invalid).
  { unfold t1, castTargetType.
    destruct (bool_decide (AstNode.type c1 = AstType.Type_)) eqn:E1.
    - apply bool_decide_eq_true in E1.
      destruct (bool_decide (tokenValue c1 = DataType.Bool)) eqn:E2.
      + apply bool_decide_eq_true in E2. rewrite bool_decide_eq_false_2; [reflexivity | tauto].
      + apply bool_decide_eq_false in E2. rewrite bool_decide_eq_true_2; [reflexivity | tauto].
    - apply bool_decide_eq_false in E1.
      rewrite (bool_decide_eq_false_2 (DataType.Invalid = DataType.Bool)) by discriminate.
      rewrite bool_decide_eq_false_2; [reflexivity | tauto]. }
  assert (Hrule : dtRule_As (getDataType root) n path st = Some (Some result, st2)).
  { unfold dtRule_As, dtRule_Cast.
    rewrite (bind_Some _ _ _ _ _ (nodeDataType_run path st)), Hfalsy, Htok.
    rewrite (bool_decide_eq_false_2 (TokenType.As ≠ TokenType.As)) by tauto.
    cbn [orb]. rewrite Hcs, (bind_Some _ _ _ _ _ Hc0). cbv zeta. fold t1.
    rewrite castLookup_elem_of.
    rewrite (bool_decide_ext _ _ (asTable_spec (t0, t1))). fold admitted.
    unfold result, st2. destruct admitted; [reflexivity|].
    unfold withLogIf.
    destruct (bool_decide (t0 = DataType.Invalid));
      destruct (bool_decide (t1 = DataType.Invalid)); reflexivity. }
  assert (Hres : result ≠ EmptyString).
  { unfold result. destruct admitted eqn:E; [|discriminate].
    apply bool_decide_eq_true in E. unfold asPairsOfSpec, bothWays in E. simpl in E.
    rewrite !elem_of_cons, elem_of_nil in E.
    repeat (destruct E as [E|E]; [injection E as _ ->; discriminate|]). destruct E. }
  split; [exact Ht1|]. split; [exact Hrule|].
  eapply getDataType_run_rules; try done; [|apply dataTypeOf_withDataType].
  rewrite rulesFor_BinaryOp by exact Hty.
  rewrite runDataTypeRules_skip_binaryOps
    by (rewrite Htok; unfold binaryOps; repeat constructor; discriminate).
  rewrite (runDataTypeRules_cons _ _ _ _ _ _ Hrule).
  assert (Hto : dtRule_To (getDataType root) n path (withDataType path (Some result) st2)
                = Some (Some result, withDataType path (Some result) st2)).
  { unfold dtRule_To. rewrite dtRule_Cast_skip; [|right; rewrite Htok; discriminate].
    by rewrite dataTypeOf_withDataType. }
  rewrite (runDataTypeRules_cons _ _ _ _ _ _ Hto).
  rewrite withDataType_same by apply dataTypeOf_withDataType. reflexivity.
Qed.
End CastRule.

Lemma as_cast_rule_witness :
  let root := goodCastProgram in
  let st := afterScopePass root in
  let st1 := withDataType [0; 1; 1; 2; 0] (Some "int") st in
  ("int", castTargetType (tyNode "uint")) ∈ asPairsOfSpec ∧
  dtRule_As (getDataType root) goodCastNode [1; 1; 2; 0] st = Some (Some "uint", st1) ∧
  getDataType root goodCastNode [1; 1; 2; 0] st
    = Some ("uint", withDataType [1; 1; 2; 0] (Some "uint") st1).
Proof.
  intros root st st1.
  split; [by left|].
  refine (proj2 (as_cast_rule root goodCastNode [1; 1; 2; 0] (vid "x") (tyNode "uint")
                   st st1 "int" _ _ _ _ _ _)).
  all: first [ reflexivity | vm_compute; reflexivity ].
Defined.

(** ** The call rule *)

Lemma ext_logger_elem m st st' : m ∈ logger st → ext st st' → m ∈ logger st'.
Proof.
  intros Hm (_ & _ & [k Hk]). rewrite Hk. apply elem_of_app. by left.
Qed.

Lemma ext_withLog m st : ext st (withLog m st).
Proof. apply extX_set_logger. Qed.

Lemma argsChecked_ext rec func argsPath i params args st0 st st' types :
  ext st0 st → argsChecked rec func argsPath i params args st st' types →
  argsChecked rec func argsPath i params args st0 st' types.
Proof.
  intros H0 [Hlen H]. split; [exact Hlen|].
  intros j param arg type Hp Ha Ht.
  destruct (H j param arg type Hp Ha Ht) as [(sa & sb & Hrec & E1 & E2) Hmsg].
  split; [|exact Hmsg]. exists sa, sb. split; [exact Hrec|].
  split; [by eapply extX_trans | exact E2].
Qed.

Lemma typesAgree_cons param params type types :
  typesAgree (param :: params) (type :: types)
  = bool_decide (type = Var.type param) && typesAgree params types.
Proof.
  unfold typesAgree.
  destruct (decide (type = Var.type param)) as [H|H];
    destruct (decide (Forall2 (fun param type => type = Var.type param) params types)) as [F|F].
  - rewrite !bool_decide_eq_true_2; [reflexivity | done | done | by constructor].
  - rewrite (bool_decide_eq_false_2 _ F), andb_false_r.
    apply bool_decide_eq_false_2. intros F'. by apply Forall2_cons in F' as [_ ?].
  - rewrite (bool_decide_eq_false_2 _ H). cbn [andb].
    apply bool_decide_eq_false_2. intros F'. by apply Forall2_cons in F' as [? _].
  - rewrite (bool_decide_eq_false_2 _ H). cbn [andb].
    apply bool_decide_eq_false_2. intros F'. by apply Forall2_cons in F' as [? _].
Qed.

Lemma checkArgs_spec rec func argsPath args :
  (∀ a q, pres ext (rec a q)) →
  ∀ i params valid st v st',
    length params = length args →
    checkArgs rec func argsPath i params args valid st = Some (v, st') →
    ext st st' ∧
    ∃ types, argsChecked rec func argsPath i params args st st' types ∧
             v = valid && typesAgree params types.
Proof.
  intros Hrec. induction args as [|arg args IH]; intros i params valid st v st' Hlen H.
  - destruct params; [|discriminate]. simpl in H. injection H as ? ?; subst.
    split; [apply extX_refl|]. exists []. split.
    + split; [reflexivity|]. intros j param arg type Hp. discriminate.
    + unfold typesAgree. rewrite bool_decide_eq_true_2 by constructor.
      by rewrite andb_true_r.
  - destruct params as [|param params]; [discriminate|]. injection Hlen as Hlen.
    simpl in H. apply bind_inv in H as (type & sa & Hty & H).
    pose proof (Hrec _ _ _ _ _ Hty) as E1.
    set (sb := if bool_decide (type ≠ Var.type param)
               then withLog (errorMsg (paramMsg func i param type) arg) sa else sa).
    set (valid' := if bool_decide (type ≠ Var.type param) then false else valid).
    assert (H' : checkArgs rec func argsPath (S i) params args valid' sb = Some (v, st')).
    { unfold sb, valid'. destruct (bool_decide (type ≠ Var.type param)); [|exact H].
      rewrite (bind_Some _ _ _ _ _ (logError_run _ _ sa)) in H. exact H. }
    assert (E2 : ext sa sb).
    { unfold sb. destruct (bool_decide _); [apply ext_withLog | apply extX_refl]. }
    destruct (IH _ _ _ _ _ _ Hlen H') as (E3 & types & [Hlen' Hargs] & Hv).
    split; [eapply extX_trans; [exact E1 | by eapply extX_trans]|].
    exists (type :: types). split; [split|].
    + simpl. by rewrite Hlen'.
    + intros [|j] param' arg' type' Hp Ha Ht; simpl in Hp, Ha, Ht.
      * injection Hp as <-. injection Ha as <-. injection Ht as <-.
        rewrite Nat.add_0_r. split.
        -- exists st, sa. split; [exact Hty|]. split; [apply extX_refl|].
           by eapply extX_trans.
        -- intros Hdiff. eapply ext_logger_elem; [|exact E3].
           unfold sb. rewrite bool_decide_eq_true_2 by exact Hdiff.
           simpl. apply elem_of_app. right. by left.
      * replace (i + S j) with (S i + j) by lia.
        destruct (Hargs j param' arg' type' Hp Ha Ht) as [(sa' & sb' & Hr & Ea & Eb) Hmsg].
        split; [|exact Hmsg]. exists sa', sb'. split; [exact Hr|]. split; [|exact Eb].
        eapply extX_trans; [exact E1|]. by eapply extX_trans.
    + rewrite typesAgree_cons, Hv. unfold valid'.
      destruct (decide (type = Var.type param)) as [He|He].
      * rewrite (bool_decide_eq_false_2 (type ≠ Var.type param)) by tauto.
        rewrite (bool_decide_eq_true_2 _ He). reflexivity.
      * rewrite (bool_decide_eq_true_2 (type ≠ Var.type param)) by exact He.
        rewrite (bool_decide_eq_false_2 _ He). cbn [andb]. by rewrite andb_false_r.
Qed.

Section CallRule.
Context (root : AstNode.t).

(** C4.  On a FunctionCall node whose callee resolves to the function
    [func]: (a) if the numbers of parameters and of arguments differ, the rule
    logs at the node the message that states both counts, [Function "f" takes
    2 arguments, not 1] for a function [f] of two parameters called with one
    argument, and returns [invalid]
    without consulting [this.getDataType] at all; (b) otherwise, whenever the
    rule returns, the arguments have all been typed in order, every argument
    whose type differs from the declared type of its parameter has its own
    diagnostic in the log, placed at the argument, [The 1st parameter ("a") of
    function "f" is type int, not double] for a first argument of type
    [double], and the result is the function's return type if
    all of them agree and [invalid] if any differs. *)
Theorem function_call_rule (n : AstNode.t) (path : Path) (c0 c1 : AstNode.t)
    (st st1 : State) (inode : AstNode.t) (ipath : Path) (s : ScopeId) (func : Function.t) :
  AstNode.children n = [c0; c1] →
  getIdentifier c0 (0 :: path) st = Some (Some (inode, ipath), st) →
  getScope root ipath st = Some (s, st1) →
  Scope.getFunction (heap st1) s (tokenValue inode) = Some func →
  let params := Function.params func in
  let args := AstNode.children c1 in
  (length params ≠ length args →
     ∀ rec, dtRule_FunctionCall root rec n path st
            = Some (Some DataType.Invalid,
                    withLog (errorMsg ("Function " +:+ JSON_stringify (Function.id func)
                                         +:+ " takes " +:+ pretty (length params)
                                         +:+ " arguments, not " +:+ pretty (length args)) n)
                            st1)) ∧
  (length params = length args →
     ∀ res st2,
       dtRule_FunctionCall root (getDataType root) n path st = Some (res, st2) →
       ∃ types,
         argsChecked (getDataType root) func (1 :: path) 0 params args st1 st2 types ∧
         res = Some (if typesAgree params types then Function.type func
                     else DataType.Invalid) ∧
         ∀ j param arg type,
           params !! j = Some param → args !! j = Some arg → types !! j = Some type →
           type ≠ Var.type param →
           errorMsg ("The " +:+ formatOrdinal (j + 1) +:+ " parameter ("
                       +:+ JSON_stringify (Var.id param) +:+ ") of function "
                       +:+ JSON_stringify (Function.id func) +:+ " is type "
                       +:+ Var.type param +:+ ", not " +:+ type) arg
           ∈ logger st2).
Proof.
  intros Hcs Hid Hs Hf params args.
  assert (Hrule : ∀ rec, dtRule_FunctionCall root rec n path st =
            (if bool_decide (length params ≠ length args) then
               logError (arityMsg func (length args)) n;; mret (Some DataType.Invalid)
             else
               valid ← checkArgs rec func (1 :: path) 0 params args true;
               if valid : bool then mret (Some (Function.type func))
               else mret (Some DataType.Invalid)) st1).
  { intros rec. unfold dtRule_FunctionCall.
    rewrite Hcs, (bind_Some _ _ _ _ _ Hid), (bind_Some _ _ _ _ _ Hs).
    rewrite bind_unfold. cbn [get]. rewrite Hf. reflexivity. }
  split.
  - intros Hlen rec. rewrite Hrule, bool_decide_eq_true_2 by exact Hlen. reflexivity.
  - intros Hlen res st2 H. rewrite Hrule, bool_decide_eq_false_2 in H by tauto.
    apply bind_inv in H as (v & st2' & Hargs & H).
    apply checkArgs_spec in Hargs as (_ & types & Hchecked & Hv);
      [|intros a q; apply ext_getDataType | exact Hlen].
    exists types. rewrite andb_true_l in Hv. subst v.
    assert (Hst : st2 = st2' ∧
                  res = Some (if typesAgree params types then Function.type func
                              else DataType.Invalid))
      by (destruct (typesAgree params types); injection H as ? ?; subst; by split).
    destruct Hst as [-> Hres]. split; [exact Hchecked|]. split; [exact Hres|].
    intros j param arg type Hp Ha Ht Hne.
    exact (proj2 (proj2 Hchecked j param arg type Hp Ha Ht) Hne).
Qed.
End CallRule.

Lemma function_call_rule_witness :
  (let root := callProgram shortCall in
   let st := afterScopePass root in
   let path := [0; 0; 2; 1] in
   let func := resolvedAdd st 11 in
   length (Function.params func) ≠ length [lit TokenType.Int "1"] ∧
   dtRule_FunctionCall root (getDataType root) shortCall path st
     = Some (Some DataType.Invalid,
             withLog (errorMsg ("Function " +:+ quote +:+ "add" +:+ quote
                                  +:+ " takes 2 arguments, not 1") shortCall) st)) ∧
  (let root := callProgram wrongCall in
   let st := afterScopePass root in
   let path := [0; 0; 2; 1] in
   let func := resolvedAdd st 11 in
   let st2 := stateAfter (dtRule_FunctionCall root (getDataType root) wrongCall path) st in
   length (Function.params func) = length [lit TokenType.Double "1.5"; lit TokenType.Bool "true"] ∧
   logger st = [] ∧
   logger st2
   = [ errorMsg ("The 1st parameter (" +:+ quote +:+ "a" +:+ quote +:+ ") of function "
                   +:+ quote +:+ "add" +:+ quote +:+ " is type int, not double")
                (lit TokenType.Double "1.5");
       errorMsg ("The 2nd parameter (" +:+ quote +:+ "b" +:+ quote +:+ ") of function "
                   +:+ quote +:+ "add" +:+ quote +:+ " is type int, not bool")
                (lit TokenType.Bool "true") ] ∧
   ∃ types,
     argsChecked (getDataType root) func (1 :: path) 0 (Function.params func)
                 [lit TokenType.Double "1.5"; lit TokenType.Bool "true"] st st2 types ∧
     Some DataType.Invalid
     = Some (if typesAgree (Function.params func) types then Function.type func
             else DataType.Invalid) ∧
     ∀ j param arg type,
       Function.params func !! j = Some param →
       [lit TokenType.Double "1.5"; lit TokenType.Bool "true"] !! j = Some arg →
       types !! j = Some type →
       type ≠ Var.type param →
       errorMsg ("The " +:+ formatOrdinal (j + 1) +:+ " parameter ("
                   +:+ JSON_stringify (Var.id param) +:+ ") of function "
                   +:+ JSON_stringify (Function.id func) +:+ " is type "
                   +:+ Var.type param +:+ ", not " +:+ type) arg
       ∈ logger st2).
Proof.
  split.
  - intros root st path func.
    assert (Hlen : length (Function.params func) ≠ length [lit TokenType.Int "1"])
      by (vm_compute; discriminate).
    split; [exact Hlen|].
    refine (proj1 (function_call_rule root shortCall path (fid "add")
                     (nd AstType.Arguments (tk TokenType.LParen "(") [lit TokenType.Int "1"])
                     st st (fid "add") (0 :: path) 11 func _ _ _ _) Hlen _).
    all: first [ reflexivity | vm_compute; reflexivity ].
  - intros root st path func st2.
    assert (Hlen : length (Function.params func)
                   = length [lit TokenType.Double "1.5"; lit TokenType.Bool "true"])
      by (vm_compute; reflexivity).
    split; [exact Hlen|].
    split; [vm_compute; reflexivity|]. split; [vm_compute; reflexivity|].
    refine (proj2 (function_call_rule root wrongCall path (fid "add")
                     (nd AstType.Arguments (tk TokenType.LParen "(")
                         [lit TokenType.Double "1.5"; lit TokenType.Bool "true"])
                     st st (fid "add") (0 :: path) 11 func _ _ _ _) Hlen _ st2 _).
    all: first [ reflexivity | vm_compute; reflexivity ].
Defined.

(** ** Redeclarations *)

Lemma newScope_run node parent id st :
  newScope node parent id st
  = Some (length (heap st), set_heap (fun h => h ++ [Scope.new node (Some parent) id]) st).
Proof. reflexivity. Qed.

Lemma childAt_run n i c st : AstNode.children n !! i = Some c → childAt n i st = Some (c, st).
Proof. intros H. unfold childAt. rewrite H. reflexivity. Qed.

Lemma collect_params (n : AstNode.t) (scope : ScopeId) (nodes : list AstNode.t) st :
  Forall (fun pn => is_Some (AstNode.children pn !! 0)) nodes →
  ∀ acc, ∃ params,
    foldM (fun (params : list Var.t) paramNode =>
             f0 ← childAt paramNode 0;
             mret (params ++ [Var.new (Some n) scope (tokenValue f0) (tokenValue paramNode)]))
          acc nodes st = Some (params, st).
Proof.
  induction 1 as [|pn nodes [f0 Hf0] _ IH]; intros acc; simpl.
  - by exists acc.
  - rewrite bind_unfold, (bind_Some _ _ _ _ _ (childAt_run _ _ _ st Hf0)). apply IH.
Qed.

Lemma collect_fields (n : AstNode.t) (scope : ScopeId) (nodes : list AstNode.t) st :
  Forall (fun fn => AstNode.type fn = AstType.VariableDef → is_Some (AstNode.children fn !! 0))
         nodes →
  ∀ acc, ∃ fields,
    foldM (fun (fields : list Var.t) fieldNode =>
             if bool_decide (AstNode.type fieldNode ≠ AstType.VariableDef)
             then mret fields
             else
               f0 ← childAt fieldNode 0;
               mret (fields ++ [Var.new (Some n) scope (tokenValue f0) (tokenValue fieldNode)]))
          acc nodes st = Some (fields, st).
Proof.
  induction 1 as [|fn nodes Hfn _ IH]; intros acc; simpl.
  - by exists acc.
  - rewrite bind_unfold. case_bool_decide as Hty.
    + apply IH.
    + destruct Hfn as [f0 Hf0]; [by destruct (decide (AstNode.type fn = AstType.VariableDef))|].
      rewrite (bind_Some _ _ _ _ _ (childAt_run _ _ _ st Hf0)). apply IH.
Qed.

Lemma own_lookup_app {A} (sel : Scope.t → gmap string A) (h : list Scope.t) (extra : list Scope.t)
    (p : ScopeId) (id : string) (x : A) :
  (h !! p ≫= fun s => sel s !! id) = Some x → (h ++ extra) !! p = h !! p.
Proof.
  intros H. destruct (h !! p) as [s|] eqn:E; [|discriminate].
  by apply lookup_app_l_Some.
Qed.


(** ** Symbols are never changed or removed *)

Lemma keptX_refl E st : keptX E st st.
Proof. intros q sc H. exists sc. by repeat split. Qed.

Lemma keptX_trans E a b c : keptX E a b → keptX E b c → keptX E a c.
Proof.
  intros H1 H2 q sc H. destruct (H1 q sc H) as (sc1 & Hb & V1 & F1 & S1).
  destruct (H2 q sc1 Hb) as (sc2 & Hc & V2 & F2 & S2).
  exists sc2. split; [exact Hc|]. split; [|split].
  - intros k x HE Hx. by apply V2, V1.
  - by etrans.
  - by etrans.
Qed.

Lemma kept_keptX E st st' : symbolsKept st st' → keptX E st st'.
Proof.
  intros H q sc Hq. destruct (H q sc Hq) as (sc' & Hq' & V & F & S).
  exists sc'. split; [exact Hq'|]. split; [|by split].
  intros k x _. apply V. tauto.
Qed.

Lemma keptX_close E st st' :
  keptX E st st' → (∀ q k, E q k → ownVar (heap st) q k = None) → symbolsKept st st'.
Proof.
  intros H Hnone q sc Hq. destruct (H q sc Hq) as (sc' & Hq' & V & F & S).
  exists sc'. split; [exact Hq'|]. split; [|by split].
  intros k x _ Hx. apply V; [|exact Hx].
  intros HE. specialize (Hnone q k HE). unfold ownVar in Hnone. rewrite Hq in Hnone.
  simpl in Hnone. congruence.
Qed.

Lemma keptX_same_heap E st st' : heap st' = heap st → keptX E st st'.
Proof. intros Heq q sc H. exists sc. rewrite Heq. by repeat split. Qed.

Lemma keptX_append E l st : keptX E st (set_heap (fun h => h ++ l) st).
Proof.
  intros q sc H. exists sc.
  split; [cbn [heap set_heap]; by apply lookup_app_l_Some | by repeat split].
Qed.

Lemma keptX_alter E (f : Scope.t → Scope.t) s st :
  (∀ sc, (∀ k x, ¬ E s k → Scope.vars sc !! k = Some x → Scope.vars (f sc) !! k = Some x) ∧
         Scope.funcs sc ⊆ Scope.funcs (f sc) ∧ Scope.structs sc ⊆ Scope.structs (f sc)) →
  keptX E st (set_heap (alter f s) st).
Proof.
  intros Hf q sc H. cbn [heap set_heap]. destruct (decide (s = q)) as [->|Hne].
  - exists (f sc). split; [by rewrite list_lookup_alter_eq, H|]. apply Hf.
  - exists sc. split; [by rewrite list_lookup_alter_ne|]. by repeat split.
Qed.

Lemma symbolsKept_own st st' q k :
  symbolsKept st st' →
  (∀ x, ownVar (heap st) q k = Some x → ownVar (heap st') q k = Some x) ∧
  (∀ x, ownFunc (heap st) q k = Some x → ownFunc (heap st') q k = Some x) ∧
  (∀ x, ownStruct (heap st) q k = Some x → ownStruct (heap st') q k = Some x).
Proof.
  intros H. unfold ownVar, ownFunc, ownStruct.
  split; [|split]; intros x Hx;
    (destruct (heap st !! q) as [sc|] eqn:Hq; [|discriminate]);
    destruct (H q sc Hq) as (sc' & Hq' & V & F & S); rewrite Hq'; simpl in *.
  - apply V; [tauto | exact Hx].
  - by eapply lookup_weaken.
  - by eapply lookup_weaken.
Qed.

Section KeptPrimitives.
Context (E : ScopeId → string → Prop).

Lemma kept_logError msg node : pres (keptX E) (logError msg node).
Proof. apply pres_modify. intros st. by apply keptX_same_heap. Qed.

Lemma kept_setNodeScope path s : pres (keptX E) (setNodeScope path s).
Proof. apply pres_modify. intros st. by apply keptX_same_heap. Qed.

Lemma kept_setNodeDataType path t : pres (keptX E) (setNodeDataType path t).
Proof. apply pres_modify. intros st. by apply keptX_same_heap. Qed.

Lemma kept_newScope node parent id : pres (keptX E) (newScope node parent id).
Proof. intros st a st' [= _ <-]. apply keptX_append. Qed.

Lemma kept_updScope_scopes s f : pres (keptX E) (updScope s (Scope.set_scopes f)).
Proof. apply pres_modify. intros st. apply keptX_alter. intros sc. by repeat split. Qed.

Lemma kept_updScope_insert_var s id v :
  E s id → pres (keptX E) (updScope s (Scope.set_vars <[id := v]>)).
Proof.
  intros HE. apply pres_modify. intros st. apply keptX_alter. intros sc.
  split; [|by split]. intros k x Hk Hx. simpl.
  rewrite lookup_insert_ne; [exact Hx | congruence].
Qed.

Lemma kept_updVar s id f : E s id → pres (keptX E) (updVar s id f).
Proof.
  intros HE. apply pres_modify. intros st. apply keptX_alter. intros sc.
  split; [|by split]. intros k x Hk Hx. simpl.
  rewrite lookup_alter_ne; [exact Hx | congruence].
Qed.
End KeptPrimitives.

Ltac kept_struct :=
  first
    [ apply kept_logError
    | apply kept_newScope
    | apply kept_updScope_scopes
    | apply kept_setNodeScope
    | apply kept_setNodeDataType
    | pres_struct_with ltac:(apply keptX_refl) ltac:(apply keptX_trans) ].

Ltac kept_auto tac := repeat first [ tac | kept_struct | pres_cases ].

Lemma kept_getSize_fuel E fuel : ∀ v p depth, pres (keptX E) (getSize_fuel fuel v p depth).
Proof.
  induction fuel as [|fuel IH]; intros v p depth; simpl.
  - kept_auto fail.
  - unfold getSize_body. kept_auto ltac:(apply IH).
Qed.

Lemma kept_getSize E v p depth : pres (keptX E) (getSize v p depth).
Proof. apply kept_getSize_fuel. Qed.

Lemma kept_makeStructScope v p : pres symbolsKept (makeStructScope v p).
Proof.
  unfold makeStructScope.
  destruct (DataType.isPrimitive (Var.type v)); [kept_auto fail|].
  intros st a st' H. apply bind_inv in H as (st0 & ? & [= <- <-] & H).
  destruct (Scope.getStruct (heap st) p (Var.type v)) as [struct|].
  2: { assert (Hp : pres symbolsKept
                      (match Var.node v with
                       | Some node => logError (noStructMsg (Var.type v)) node
                       | None => mret tt
                       end)) by kept_auto fail.
       exact (Hp _ _ _ H). }
  apply bind_inv in H as (scope & st1 & Hnew & H).
  rewrite newScope_run in Hnew. injection Hnew as <- <-.
  apply (keptX_close (fun q _ => q = length (heap st))).
  - eapply keptX_trans; [apply keptX_append|].
    match type of H with
    | ?m _ = Some _ =>
      assert (Hp : pres (keptX (fun q _ => q = length (heap st))) m)
        by kept_auto ltac:(first [ by apply kept_updScope_insert_var | apply kept_getSize ])
    end.
    exact (Hp _ _ _ H).
  - intros q k ->. unfold ownVar. by rewrite lookup_ge_None_2.
Qed.

(** The descent of the Const and Export rules never finds a node. *)
Lemma descendFirst_None n : descendFirst n = None.
Proof.
  induction n as [ty tok v cs IH] using AstNode_ind'. simpl.
  destruct cs as [|c cs]; [reflexivity|]. by apply Forall_cons in IH as [? _].
Qed.

Lemma bind_descendFirst_None (o : option AstNode.t) : o ≫= descendFirst = None.
Proof. destruct o; [apply descendFirst_None | reflexivity]. Qed.

Section KeptScope.
Context (root : AstNode.t).

Lemma kept_scopeRule_Block n p : pres symbolsKept (scopeRule_Block n p).
Proof. unfold scopeRule_Block. kept_auto fail. Qed.

Lemma kept_register_struct {A} p struct name scope n (k : M A) :
  pres symbolsKept k →
  pres symbolsKept
    (st ← get;
     match ownStruct (heap st) p (Struct.id struct) with
     | Some _ => logError (structExistsMsg (Struct.id struct)) n
     | None =>
       updScope p (Scope.set_structs <[Struct.id struct := struct]>);;
       updScope p (Scope.set_scopes <[name := scope]>)
     end;;
     k).
Proof.
  intros Hk st a st' H. apply bind_inv in H as (st0 & ? & [= <- <-] & H).
  apply bind_inv in H as (u & st1 & H & Hk').
  eapply keptX_trans; [|exact (Hk _ _ _ Hk')].
  destruct (ownStruct (heap st) p (Struct.id struct)) eqn:Hown.
  - exact (kept_logError _ _ _ _ _ _ H).
  - injection H as _ <-.
    eapply keptX_trans; [|apply keptX_alter; intros sc; by repeat split].
    intros q sc Hq. cbn [heap set_heap]. destruct (decide (p = q)) as [->|Hne].
    + exists (Scope.set_structs <[Struct.id struct := struct]> sc).
      split; [by rewrite list_lookup_alter_eq, Hq|]. split; [done|]. split; [done|].
      simpl. apply insert_subseteq. unfold ownStruct in Hown. by rewrite Hq in Hown.
    + exists sc. split; [by rewrite list_lookup_alter_ne|]. by repeat split.
Qed.

Lemma kept_register_func {A} p func name scope n (k : M A) :
  pres symbolsKept k →
  pres symbolsKept
    (st ← get;
     match ownFunc (heap st) p (Function.id func) with
     | Some _ => logError (functionExistsMsg (Function.id func)) n
     | None =>
       updScope p (Scope.set_funcs <[Function.id func := func]>);;
       updScope p (Scope.set_scopes <[name := scope]>)
     end;;
     k).
Proof.
  intros Hk st a st' H. apply bind_inv in H as (st0 & ? & [= <- <-] & H).
  apply bind_inv in H as (u & st1 & H & Hk').
  eapply keptX_trans; [|exact (Hk _ _ _ Hk')].
  destruct (ownFunc (heap st) p (Function.id func)) eqn:Hown.
  - exact (kept_logError _ _ _ _ _ _ H).
  - injection H as _ <-.
    eapply keptX_trans; [|apply keptX_alter; intros sc; by repeat split].
    intros q sc Hq. cbn [heap set_heap]. destruct (decide (p = q)) as [->|Hne].
    + exists (Scope.set_funcs <[Function.id func := func]> sc).
      split; [by rewrite list_lookup_alter_eq, Hq|]. split; [done|]. split; [|done].
      simpl. apply insert_subseteq. unfold ownFunc in Hown. by rewrite Hq in Hown.
    + exists sc. split; [by rewrite list_lookup_alter_ne|]. by repeat split.
Qed.

Lemma kept_register_var {A} p id n (body : M unit) (k : M A) :
  pres (keptX (fun q k => q = p ∧ k = id)) body →
  pres symbolsKept k →
  pres symbolsKept
    (st ← get;
     match ownVar (heap st) p id with
     | Some _ => logError (variableExistsMsg id) n
     | None => body
     end;;
     k).
Proof.
  intros Hbody Hk st a st' H. apply bind_inv in H as (st0 & ? & [= <- <-] & H).
  apply bind_inv in H as (u & st1 & H & Hk').
  eapply keptX_trans; [|exact (Hk _ _ _ Hk')].
  destruct (ownVar (heap st) p id) eqn:Hown.
  - exact (kept_logError _ _ _ _ _ _ H).
  - eapply keptX_close; [eapply Hbody, H|]. by intros q k0 [-> ->].
Qed.

Lemma kept_scopeRule_StructDef n p : pres symbolsKept (scopeRule_StructDef n p).
Proof.
  unfold scopeRule_StructDef, childAt.
  kept_auto ltac:(apply kept_register_struct).
Qed.

Lemma kept_scopeRule_FunctionDef n p : pres symbolsKept (scopeRule_FunctionDef n p).
Proof.
  unfold scopeRule_FunctionDef, childAt.
  kept_auto ltac:(apply kept_register_func).
Qed.

Lemma kept_scopeRule_VariableDef n path p :
  pres symbolsKept (scopeRule_VariableDef root n path p).
Proof.
  unfold scopeRule_VariableDef, childAt.
  kept_auto ltac:(first
    [ apply kept_register_var;
      [kept_auto ltac:(first [ by apply kept_updScope_insert_var | by apply kept_updVar ])|] ]).
Qed.

Lemma kept_scopeRule_Access n p : pres symbolsKept (scopeRule_Access n p).
Proof. unfold scopeRule_Access, childAt. kept_auto ltac:(apply kept_makeStructScope). Qed.

Lemma kept_scopeRule_Const path p : pres symbolsKept (scopeRule_Const root path p).
Proof. unfold scopeRule_Const. rewrite bind_descendFirst_None. kept_auto fail. Qed.

Lemma kept_scopeRule_Export path p : pres symbolsKept (scopeRule_Export root path p).
Proof. unfold scopeRule_Export. rewrite bind_descendFirst_None. kept_auto fail. Qed.

Lemma kept_scopeRegistrations n path p :
  Forall (fun r => pres symbolsKept r.2) (scopeRegistrations root n path p).
Proof.
  unfold scopeRegistrations.
  repeat (constructor; simpl;
          [first [ apply kept_scopeRule_Block | apply kept_scopeRule_StructDef
                 | apply kept_scopeRule_FunctionDef | apply kept_scopeRule_VariableDef
                 | apply kept_scopeRule_Access | apply kept_scopeRule_Const
                 | apply kept_scopeRule_Export ]|]).
  constructor.
Qed.

Lemma kept_getScope path : pres symbolsKept (getScope root path).
Proof.
  induction path as [|i pp IH]; rewrite getScope_unfold; unfold getScope_body, nodeScope.
  all: kept_auto ltac:(first
    [ exact IH
    | match goal with
      | H : _ ∈ rulesFor ?n (scopeRegistrations root ?n ?path ?p) |- _ =>
        pose proof (rulesFor_Forall _ n _ (kept_scopeRegistrations n path p)) as HF;
        rewrite Forall_forall in HF; apply HF, H
      end ]).
Qed.

Lemma kept_getDataType n : ∀ path, pres symbolsKept (getDataType root n path).
Proof.
  remember (S (AstNode.height n)) as k eqn:Hk.
  assert (Hlt : AstNode.height n < k) by lia. clear Hk. revert n Hlt.
  induction k as [|k IH]; intros n Hlt path; [lia|].
  rewrite getDataType_unfold. unfold getDataType_body, runDataTypeRules, nodeDataType.
  assert (Hrec : recOk symbolsKept (getDataType root) n)
    by (intros c q Hc; apply IH; lia).
  kept_auto ltac:(first
    [ match goal with
      | H : _ ∈ rulesFor _ (dataTypeRegistrations _ _ _ _) |- _ =>
        pose proof (rulesFor_Forall _ n _
                      (pres_dataTypeRegistrations root symbolsKept
                         (keptX_refl _) (keptX_trans _)
                         (kept_logError _) kept_getScope
                         (getDataType root) n path Hrec)) as HF;
        rewrite Forall_forall in HF; apply HF, H
      end ]).
Qed.

Lemma kept_hoistPass node : ∀ path, pres symbolsKept (hoistPass root node path).
Proof.
  induction node as [ty tok v cs IH] using AstNode_ind'. intros path.
  rewrite hoistPass_unfold. cbn [AstNode.children]. rewrite Forall_forall in IH.
  kept_auto ltac:(first [ apply kept_getScope | by apply IH ]).
Qed.

Lemma kept_scopePass node : ∀ path, pres symbolsKept (scopePass root node path).
Proof.
  induction node as [ty tok v cs IH] using AstNode_ind'. intros path.
  rewrite scopePass_unfold. cbn [AstNode.children]. rewrite Forall_forall in IH.
  kept_auto ltac:(first [ apply kept_getScope | by apply IH ]).
Qed.

Lemma kept_typePass node : ∀ path, pres symbolsKept (typePass root node path).
Proof.
  induction node as [ty tok v cs IH] using AstNode_ind'. intros path.
  rewrite typePass_unfold. cbn [AstNode.children]. rewrite Forall_forall in IH.
  kept_auto ltac:(first [ apply kept_getDataType | by apply IH ]).
Qed.

Lemma kept_analyze : pres symbolsKept (analyze root).
Proof.
  unfold analyze.
  kept_auto ltac:(first [ apply kept_hoistPass | apply kept_scopePass | apply kept_typePass ]).
  intros st u st' H. rewrite analysisPass_noop in H. injection H as _ <-. apply keptX_refl.
Qed.
End KeptScope.

(** C7.  When the id a declaration introduces is already a key of the
    corresponding map of the declaring scope [p], the scope rule of a
    variable, function or struct definition appends exactly one redeclaration
    diagnostic to the log and discards the new record: the scope [p] is left
    as it was, so its map still holds the first record.  (The function and
    struct rules have by then allocated the scope of the new definition, which
    no scope refers to.)  The first record also outlives the passes: whenever
    the scope pass over any subtree, or the whole analysis, runs to completion
    from a state in which the map of [p] holds a record under the id, the map
    holds that same record, field for field, in the final state. *)
Theorem redeclaration_is_rejected (root n : AstNode.t) (path : Path) (p : ScopeId)
    (st : State) (c0 : AstNode.t) :
  AstNode.children n !! 0 = Some c0 →
  let id := tokenValue c0 in
  (∀ v0, ownVar (heap st) p id = Some v0 →
     let st' := withLog (errorMsg (variableExistsMsg id) n) st in
     scopeRule_VariableDef root n path p st = Some (p, st') ∧
     logger st' = logger st ++ [errorMsg (variableExistsMsg id) n] ∧
     heap st' = heap st ∧ ownVar (heap st') p id = Some v0) ∧
  (∀ c1 f0,
     AstNode.children n !! 1 = Some c1 →
     Forall (fun pn => is_Some (AstNode.children pn !! 0)) (AstNode.children c1) →
     ownFunc (heap st) p id = Some f0 →
     let st' := withLog (errorMsg (functionExistsMsg id) n)
                  (set_heap (fun h => h ++ [Scope.new (Some n) (Some p) id]) st) in
     scopeRule_FunctionDef n p st = Some (length (heap st), st') ∧
     logger st' = logger st ++ [errorMsg (functionExistsMsg id) n] ∧
     heap st' !! p = heap st !! p ∧ ownFunc (heap st') p id = Some f0) ∧
  (∀ c1 s0,
     AstNode.children n !! 1 = Some c1 →
     Forall (fun fn => AstNode.type fn = AstType.VariableDef →
                       is_Some (AstNode.children fn !! 0)) (AstNode.children c1) →
     ownStruct (heap st) p id = Some s0 →
     let st' := withLog (errorMsg (structExistsMsg id) n)
                  (set_heap (fun h => h ++ [Scope.new (Some n) (Some p) id]) st) in
     scopeRule_StructDef n p st = Some (length (heap st), st') ∧
     logger st' = logger st ++ [errorMsg (structExistsMsg id) n] ∧
     heap st' !! p = heap st !! p ∧ ownStruct (heap st') p id = Some s0) ∧
  (∀ (pass : M unit) u st1,
     (pass = analyze root ∨ ∃ node q, pass = scopePass root node q) →
     pass st = Some (u, st1) →
     (∀ v0, ownVar (heap st) p id = Some v0 → ownVar (heap st1) p id = Some v0) ∧
     (∀ f0, ownFunc (heap st) p id = Some f0 → ownFunc (heap st1) p id = Some f0) ∧
     (∀ s0, ownStruct (heap st) p id = Some s0 → ownStruct (heap st1) p id = Some s0)).
Proof.
  intros Hc0 id. split; [|split; [|split]].
  4: { intros pass u st1 Hpass Hrun. apply symbolsKept_own.
       destruct Hpass as [->|(node & q & ->)].
       - exact (kept_analyze root _ _ _ Hrun).
       - exact (kept_scopePass root node q _ _ _ Hrun). }
  - intros v0 Hv0 st'. split; [|by repeat split].
    unfold scopeRule_VariableDef.
    rewrite (bind_Some _ _ _ _ _ (childAt_run _ _ _ st Hc0)).
    rewrite bind_unfold. cbn [get Var.id Var.new]. fold id. rewrite Hv0. reflexivity.
  - intros c1 f0 Hc1 Hparams Hf0 st'.
    assert (Hp : heap st' !! p = heap st !! p) by (simpl; by eapply own_lookup_app).
    split; [|split; [reflexivity | split; [exact Hp|]]].
    + unfold scopeRule_FunctionDef.
      rewrite (bind_Some _ _ _ _ _ (childAt_run _ _ _ st Hc0)).
      rewrite (bind_Some _ _ _ _ _ (newScope_run _ _ _ st)).
      rewrite (bind_Some _ _ _ _ _ (childAt_run _ _ _ _ Hc1)).
      destruct (collect_params n (length (heap st)) _
                  (set_heap (fun h => h ++ [Scope.new (Some n) (Some p) id]) st)
                  Hparams []) as [params Hcollect].
      fold id. rewrite (bind_Some _ _ _ _ _ Hcollect).
      rewrite bind_unfold. cbn [get Function.id Function.new].
      unfold ownFunc in *. cbn [heap set_heap].
      rewrite (own_lookup_app Scope.funcs _ _ _ _ _ Hf0), Hf0. reflexivity.
    + unfold ownFunc in *. by rewrite Hp.
  - intros c1 s0 Hc1 Hfields Hs0 st'.
    assert (Hp : heap st' !! p = heap st !! p) by (simpl; by eapply own_lookup_app).
    split; [|split; [reflexivity | split; [exact Hp|]]].
    + unfold scopeRule_StructDef.
      rewrite (bind_Some _ _ _ _ _ (childAt_run _ _ _ st Hc0)).
      rewrite (bind_Some _ _ _ _ _ (newScope_run _ _ _ st)).
      rewrite (bind_Some _ _ _ _ _ (childAt_run _ _ _ _ Hc1)).
      destruct (collect_fields n (length (heap st)) _
                  (set_heap (fun h => h ++ [Scope.new (Some n) (Some p) id]) st)
                  Hfields []) as [fields Hcollect].
      fold id. rewrite (bind_Some _ _ _ _ _ Hcollect).
      rewrite bind_unfold. cbn [get Struct.id Struct.new].
      unfold ownStruct in *. cbn [heap set_heap].
      rewrite (own_lookup_app Scope.structs _ _ _ _ _ Hs0), Hs0. reflexivity.
    + unfold ownStruct in *. by rewrite Hp.
Qed.

Lemma redeclaration_is_rejected_witness :
  (let st' := withLog (errorMsg (variableExistsMsg "C") secondVariable) constState in
   ownVar (heap constState) rootScope "C" = Some constVar ∧
   scopeRule_VariableDef secondVariable secondVariable [] rootScope constState
     = Some (rootScope, st') ∧
   ownVar (heap st') rootScope "C" = Some constVar) ∧
  (let st := newSchwaAnalyzer in
   let nop := Function.new None rootScope "nop" DataType.None [] in
   let st' := withLog (errorMsg (functionExistsMsg "nop") secondFunction)
                (set_heap (fun h => h ++ [Scope.new (Some secondFunction) (Some rootScope) "nop"])
                          st) in
   ownFunc (heap st) rootScope "nop" = Some nop ∧
   scopeRule_FunctionDef secondFunction rootScope st = Some (length (heap st), st') ∧
   ownFunc (heap st') rootScope "nop" = Some nop) ∧
  (let st := structState in
   let s0 := Struct.new None rootScope "S" [] in
   let st' := withLog (errorMsg (structExistsMsg "S") secondStruct)
                (set_heap (fun h => h ++ [Scope.new (Some secondStruct) (Some rootScope) "S"])
                          st) in
   ownStruct (heap st) rootScope "S" = Some s0 ∧
   scopeRule_StructDef secondStruct rootScope st = Some (length (heap st), st') ∧
   ownStruct (heap st') rootScope "S" = Some s0) ∧
  (∃ st1, scopePass secondVariable secondVariable [] constState = Some (tt, st1) ∧
          ownVar (heap st1) rootScope "C" = Some constVar).
Proof.
  split; [|split; [|split]].
  4: { assert (H0 : AstNode.children secondVariable !! 0 = Some (vid "C")) by reflexivity.
       assert (Hv : ownVar (heap constState) rootScope "C" = Some constVar) by reflexivity.
       destruct (scopePass secondVariable secondVariable [] constState) as [[[] st1]|] eqn:Hrun;
         [|vm_compute in Hrun; discriminate].
       exists st1. split; [reflexivity|].
       exact (proj1 (proj2 (proj2 (proj2 (redeclaration_is_rejected secondVariable
                                            secondVariable [] rootScope constState (vid "C") H0)))
                      (scopePass secondVariable secondVariable []) tt st1
                      (or_intror (ex_intro _ secondVariable (ex_intro _ [] eq_refl))) Hrun)
                    constVar Hv). }
  - intros st'.
    assert (H0 : AstNode.children secondVariable !! 0 = Some (vid "C")) by reflexivity.
    assert (Hv : ownVar (heap constState) rootScope "C" = Some constVar) by reflexivity.
    destruct (proj1 (redeclaration_is_rejected secondVariable secondVariable [] rootScope
                       constState (vid "C") H0) constVar Hv) as (H1 & _ & _ & H2).
    exact (conj Hv (conj H1 H2)).
  - intros st nop st'.
    assert (H0 : AstNode.children secondFunction !! 0 = Some (fid "nop")) by reflexivity.
    assert (H1 : AstNode.children secondFunction !! 1
                 = Some (nd AstType.Parameters (tk TokenType.LParen "(") [vdef "int" "a"]))
      by reflexivity.
    assert (Hps : Forall (fun pn => is_Some (AstNode.children pn !! 0)) [vdef "int" "a"])
      by (repeat constructor; by eexists).
    assert (Hf : ownFunc (heap st) rootScope "nop" = Some nop) by (vm_compute; reflexivity).
    destruct (proj1 (proj2 (redeclaration_is_rejected secondFunction secondFunction []
                              rootScope st (fid "nop") H0)) _ nop H1 Hps Hf)
      as (H2 & _ & _ & H3).
    exact (conj Hf (conj H2 H3)).
  - intros st s0 st'.
    assert (H0 : AstNode.children secondStruct !! 0
                 = Some (nd AstType.StructId (tk TokenType.Name "S") [])) by reflexivity.
    assert (H1 : AstNode.children secondStruct !! 1
                 = Some (nd AstType.Fields (tk TokenType.Indent "") [vdef "int" "x"]))
      by reflexivity.
    assert (Hfs : Forall (fun fn => AstNode.type fn = AstType.VariableDef →
                                    is_Some (AstNode.children fn !! 0)) [vdef "int" "x"])
      by (repeat constructor; intros _; by eexists).
    assert (Hs : ownStruct (heap st) rootScope "S" = Some s0) by reflexivity.
    destruct (proj1 (proj2 (proj2 (redeclaration_is_rejected secondStruct secondStruct []
                                     rootScope st _ H0))) _ s0 H1 Hfs Hs)
      as (H2 & _ & _ & H3).
    exact (conj Hs (conj H2 H3)).
Defined.

(** ** The Access rule as the source writes it *)

Lemma withIdentifier_getIdentifier {A} (found : AstNode.t → Path → M A) (notFound : M A)
    (node : AstNode.t) :
  ∀ path st,
    withIdentifier found notFound throw node path st
    = (ident ← getIdentifier node path;
       match ident with
       | Some (m, q) => found m q
       | None => notFound
       end) st.
Proof.
  induction node as [ty tok v cs IH] using AstNode_ind'. intros path st.
  cbn [withIdentifier getIdentifier AstNode.type AstNode.children].
  case_bool_decide; [reflexivity|].
  case_bool_decide; [|reflexivity].
  destruct cs as [|c0 [|c1 l]]; [reflexivity..|].
  rewrite Forall_cons in IH. destruct IH as [_ IH].
  rewrite Forall_cons in IH. destruct IH as [IH _]. apply IH.
Qed.

(** On an Access node, the rule is lines 366-372 of the source:
    [getIdentifier(n)], then [getDataType] of the identifier found. *)
Lemma dtRule_Access_getIdentifier (rec : Rec) (n : AstNode.t) (path : Path) (st : State) :
  AstNode.type n = AstType.Access →
  dtRule_Access rec n path st
  = (if (2 <=? length (AstNode.children n))%nat then
       ident ← getIdentifier n path;
       match ident with
       | Some (node, npath) => t ← rec node npath; mret (Some t)
       | None => mret (Some DataType.Invalid)
       end
     else mret (Some DataType.Invalid)) st.
Proof.
  intros Hty. destruct n as [ty tok v cs]. simpl in Hty. subst ty.
  unfold dtRule_Access. cbn [AstNode.children].
  destruct cs as [|c0 [|c1 l]]; [reflexivity..|].
  cbn [length Nat.leb]. rewrite withIdentifier_getIdentifier. reflexivity.
Qed.

(** * Further properties of the analyzer *)

(** A closed decidable proposition, by evaluation. *)
Ltac by_decide := apply (bool_decide_eq_true_1 _); vm_compute; reflexivity.

(** ** [formatOrdinal] *)

Lemma string_app_cons (a : ascii) (s t : string) : String a s +:+ t = String a (s +:+ t).
Proof. reflexivity. Qed.

Lemma rev_app_app (s1 s2 acc : string) :
  String.rev_app (s1 +:+ s2) acc = String.rev_app s2 (String.rev_app s1 acc).
Proof.
  revert acc. induction s1 as [|a s1 IH]; intros acc; [reflexivity|].
  rewrite string_app_cons. simpl. apply IH.
Qed.

Lemma endsWith_snoc (pre : string) (c d : ascii) :
  endsWith (pre +:+ String c EmptyString) (String d EmptyString) = bool_decide (c = d).
Proof.
  unfold endsWith, String.rev. rewrite rev_app_app. simpl.
  destruct (ascii_dec d c) as [->|Hne].
  - rewrite bool_decide_eq_true_2 by reflexivity.
    by destruct (String.rev_app pre EmptyString).
  - rewrite bool_decide_eq_false_2 by congruence. reflexivity.
Qed.

Lemma string_app_assoc (s1 s2 s3 : string) : (s1 +:+ s2) +:+ s3 = s1 +:+ (s2 +:+ s3).
Proof.
  induction s1 as [|a s1 IH]; [reflexivity|]. rewrite !string_app_cons. by f_equal.
Qed.

Lemma pretty_N_go_app (x : N) : ∀ s, pretty_N_go x s = pretty_N_go x EmptyString +:+ s.
Proof.
  induction (N.lt_wf_0 x) as [x _ IH]. intros s.
  destruct (decide (x = 0%N)) as [->|Hx]; [by rewrite !pretty_N_go_0|].
  rewrite !(pretty_N_go_step x) by lia.
  rewrite (IH (x `div` 10)%N) by (apply N.div_lt; lia).
  rewrite (IH (x `div` 10)%N ltac:(apply N.div_lt; lia) (String _ EmptyString)).
  by rewrite string_app_assoc.
Qed.

(** The decimal representation ends with the digit of [n mod 10]. *)
Lemma pretty_nat_last (n : nat) :
  ∃ pre, pretty n = pre +:+ String (pretty_N_char (N.of_nat (n mod 10))) EmptyString.
Proof.
  unfold pretty, pretty_nat, pretty, pretty_N.
  rewrite Nat2N.inj_mod. change (N.of_nat 10) with 10%N.
  destruct (decide (N.of_nat n = 0%N)) as [->|Hn]; [by exists EmptyString|].
  rewrite pretty_N_go_step by lia. rewrite pretty_N_go_app. by eexists.
Qed.

Lemma endsWith_pretty (n d : nat) :
  d < 10 →
  endsWith (pretty n) (String (pretty_N_char (N.of_nat d)) EmptyString)
  = bool_decide (n mod 10 = d).
Proof.
  intros Hd. destruct (pretty_nat_last n) as [pre ->]. rewrite endsWith_snoc.
  apply bool_decide_ext. split.
  - intros H. apply pretty_N_char_inj in H; [lia | |lia].
    pose proof (Nat.mod_upper_bound n 10). lia.
  - by intros ->.
Qed.

(** [formatOrdinal] at every number: the decimal digits followed by the
    suffix the last digit calls for, with "th" for 11, 12 and 13 only; so 21
    gives "21st", and 111, 112 and 113 give "111st", "112nd" and "113rd". *)
Theorem formatOrdinal_suffix (n : nat) :
  formatOrdinal n = pretty n +:+ ordinalSuffix n.
Proof.
  unfold formatOrdinal, ordinalSuffix.
  assert (E1 : endsWith (pretty n) "1" = bool_decide (n mod 10 = 1))
    by (apply (endsWith_pretty n 1); lia).
  assert (E2 : endsWith (pretty n) "2" = bool_decide (n mod 10 = 2))
    by (apply (endsWith_pretty n 2); lia).
  assert (E3 : endsWith (pretty n) "3" = bool_decide (n mod 10 = 3))
    by (apply (endsWith_pretty n 3); lia).
  assert (E : ∀ k, bool_decide (pretty n ≠ pretty k) = bool_decide (n ≠ k)).
  { intros k. apply bool_decide_ext. split; [congruence|].
    intros Hne Heq. by apply (inj pretty) in Heq. }
  rewrite E1, E2, E3.
  change "11" with (pretty 11). change "12" with (pretty 12). change "13" with (pretty 13).
  rewrite !E.
  repeat case_bool_decide; repeat case_decide; simpl; try reflexivity; exfalso; tauto.
Qed.

(** ** [getIdentifier] *)

Lemma replicate_cons_app {A} (k : nat) (x : A) (l : list A) :
  replicate k x ++ x :: l = x :: replicate k x ++ l.
Proof. induction k as [|k IH]; simpl; [reflexivity | by rewrite IH]. Qed.

(** [getIdentifier] only reads.  A node it returns is a FunctionId or a
    VariableId reached from the argument through second children, every node
    passed on the way being an Access; [null] means this walk ended on a node
    of another kind. *)
Theorem getIdentifier_walks_accesses (node : AstNode.t) (path : Path) (st st' : State)
    (r : option (AstNode.t * Path)) :
  getIdentifier node path st = Some (r, st') →
  st' = st ∧
  ∃ k last,
    descend node (replicate k 1) = Some last ∧
    (∀ j, j < k → ∃ a, descend node (replicate j 1) = Some a ∧ AstNode.type a = AstType.Access) ∧
    match r with
    | Some (ident, ipath) =>
      ident = last ∧ ipath = replicate k 1 ++ path ∧
      (AstNode.type ident = AstType.FunctionId ∨ AstNode.type ident = AstType.VariableId)
    | None =>
      AstNode.type last ≠ AstType.FunctionId ∧ AstNode.type last ≠ AstType.VariableId ∧
      AstNode.type last ≠ AstType.Access
    end.
Proof.
  intros H. split; [by eapply getIdentifier_pure|].
  revert path st st' r H.
  induction node as [ty tok v cs IH] using AstNode_ind'. intros path st st' r H.
  simpl in H. case_bool_decide as Hid.
  { injection H as <- <-. exists 0, (AstNode.mk ty tok v cs).
    split; [reflexivity|]. split; [intros j Hj; lia|]. by repeat split. }
  case_bool_decide as Hacc.
  2: { injection H as <- <-. exists 0, (AstNode.mk ty tok v cs).
       split; [reflexivity|]. split; [intros j Hj; lia|].
       simpl in *. repeat split; intros ->; tauto. }
  destruct cs as [|c0 [|c1 cs]]; try discriminate.
  rewrite Forall_cons in IH. destruct IH as [_ IH].
  rewrite Forall_cons in IH. destruct IH as [IH _].
  destruct (IH _ _ _ _ H) as (k & last & Hlast & Hway & Hr).
  exists (S k), last. split; [exact Hlast|]. split.
  - intros [|j] Hj.
    + exists (AstNode.mk ty tok v (c0 :: c1 :: cs)). by split.
    + destruct (Hway j ltac:(lia)) as (a & Ha & Hty). by exists a.
  - destruct r as [[ident ipath]|]; [|exact Hr].
    destruct Hr as (-> & -> & Hty). split; [reflexivity|]. split; [|exact Hty].
    simpl. by rewrite replicate_cons_app.
Qed.

Lemma getIdentifier_walks_accesses_witness :
  getIdentifier accessNode [2] emptyState = Some (Some (fid "f", [1; 2]), emptyState) ∧
  ∃ k last,
    descend accessNode (replicate k 1) = Some last ∧
    (∀ j, j < k → ∃ a, descend accessNode (replicate j 1) = Some a ∧
                       AstNode.type a = AstType.Access) ∧
    fid "f" = last ∧ [1; 2] = replicate k 1 ++ [2] ∧
    (AstNode.type (fid "f") = AstType.FunctionId ∨ AstNode.type (fid "f") = AstType.VariableId).
Proof.
  assert (H : getIdentifier accessNode [2] emptyState
              = Some (Some (fid "f", [1; 2]), emptyState)) by reflexivity.
  split; [exact H|].
  exact (proj2 (getIdentifier_walks_accesses accessNode [2] emptyState emptyState _ H)).
Defined.

(** ** [DataType.fromTokenType] and the rule of literals *)

(** [fromTokenType] maps the seven literal token types to seven distinct
    data types and every other token type to [invalid]; what it returns is
    always a primitive, and never [void] or [type]. *)
Theorem fromTokenType_literals (a b : TokenType.t) :
  DataType.isPrimitive (DataType.fromTokenType a) = true ∧
  DataType.fromTokenType a ≠ DataType.None ∧
  DataType.fromTokenType a ≠ DataType.Type_ ∧
  (DataType.fromTokenType a = DataType.Invalid ↔ a ∉ literalTokens) ∧
  (a ∈ literalTokens → DataType.fromTokenType a = DataType.fromTokenType b → a = b).
Proof.
  repeat split.
  - by destruct a.
  - by destruct a.
  - by destruct a.
  - intros H. destruct a; first [discriminate H | by_decide].
  - intros H. destruct a; first [reflexivity | exfalso; apply H; by_decide].
  - intros Hin Heq. destruct a;
      first [ exfalso; revert Hin; by_decide
            | destruct b; first [reflexivity | discriminate Heq] ].
Qed.

Lemma rulesFor_Literal root rec n path :
  AstNode.type n = AstType.Literal →
  rulesFor n (dataTypeRegistrations root rec n path) = [dtRule_Literal n].
Proof. intros H. unfold rulesFor, dataTypeRegistrations. rewrite H. reflexivity. Qed.

(** A Literal node that is valid and not yet typed gets the data type of its
    token, [invalid] when the token is of no literal kind; nothing is logged
    and nothing else changes. *)
Theorem literal_rule (root n : AstNode.t) (path : Path) (st : State) :
  AstNode.type n = AstType.Literal →
  AstNode.valid n = true →
  truthy (dataTypeOf st !! path) = false →
  let t := DataType.fromTokenType (Token.type (AstNode.token n)) in
  getDataType root n path st = Some (t, withDataType path (Some t) st).
Proof.
  intros Hty Hv Hfalsy t.
  apply (getDataType_single_rule root n path st (dtRule_Literal n) t st Hv Hfalsy).
  - by apply rulesFor_Literal.
  - reflexivity.
  - subst t. generalize (Token.type (AstNode.token n)). intros ty.
    destruct ty; vm_compute; discriminate.
Qed.

Lemma literal_rule_witness :
  let n := lit TokenType.Long "7" in
  let t := DataType.fromTokenType (Token.type (AstNode.token n)) in
  t = "long" ∧
  getDataType n n [] emptyState = Some (t, withDataType [] (Some t) emptyState).
Proof.
  intros n t. split; [reflexivity|].
  apply (literal_rule n n [] emptyState); reflexivity.
Defined.

(** ** Nodes the validator flagged *)

(** [getDataType] on a node whose [valid] flag is off: the node is typed
    [invalid], whatever type it carried, and that is all; no rule of the
    node's kind runs, so nothing is logged and no child is visited. *)
Theorem flagged_node_is_invalid (root n : AstNode.t) (path : Path) (st : State) :
  AstNode.valid n = false →
  getDataType root n path st
  = Some (DataType.Invalid, withDataType path (Some DataType.Invalid) st).
Proof.
  intros Hv. rewrite getDataType_unfold. unfold getDataType_body.
  rewrite Hv. cbn [negb]. rewrite when_true.
  rewrite (bind_Some _ _ _ _ _ (setNodeDataType_run path _ st)).
  rewrite (bind_Some _ _ _ _ _ (nodeDataType_run path _)).
  rewrite dataTypeOf_withDataType. reflexivity.
Qed.

Lemma flagged_node_is_invalid_witness :
  AstNode.valid flaggedLiteral = false ∧
  getDataType flaggedLiteral flaggedLiteral [] emptyState
  = Some (DataType.Invalid, withDataType [] (Some DataType.Invalid) emptyState).
Proof.
  split; [reflexivity|].
  apply (flagged_node_is_invalid flaggedLiteral flaggedLiteral [] emptyState). reflexivity.
Defined.

(** ** A node with one firing rule *)

Lemma withDataType_twice path o t st :
  withDataType path (Some t) (withDataType path o st) = withDataType path (Some t) st.
Proof.
  destruct st as [h sc dt lg]. unfold withDataType, set_dataTypeOf. simpl. f_equal.
  destruct o; [apply insert_insert_eq | apply insert_delete_eq].
Qed.

Lemma dataTypeOf_withDataType_gen path o st :
  dataTypeOf (withDataType path o st) !! path = o.
Proof. destruct o; simpl; [apply lookup_insert_eq | apply lookup_delete_eq]. Qed.

Section FiringRules.
Context (root : AstNode.t).

(** A valid, untyped node whose rules leave it with the result [o]. *)
Lemma getDataType_rules_gen n path st st1 o :
  AstNode.valid n = true →
  truthy (dataTypeOf st !! path) = false →
  runDataTypeRules path (rulesFor n (dataTypeRegistrations root (getDataType root) n path)) st
    = Some (tt, withDataType path o st1) →
  getDataType root n path st = Some (orVoid o, withDataType path (Some (orVoid o)) st1).
Proof.
  intros Hv Hfalsy Hrun.
  rewrite getDataType_unfold. unfold getDataType_body.
  rewrite Hv. cbn [negb]. rewrite (bind_Some _ _ _ _ _ (when_false _ st)).
  rewrite (bind_Some _ _ _ _ _ (nodeDataType_run path st)), Hfalsy.
  rewrite (bind_Some _ _ _ _ _ Hrun).
  rewrite (bind_Some _ _ _ _ _ (nodeDataType_run path _)).
  rewrite dataTypeOf_withDataType_gen. unfold orVoid.
  destruct (truthy o) eqn:Ho.
  - apply truthy_Some in Ho as (t & -> & _ & _). reflexivity.
  - rewrite (bind_Some _ _ _ _ _ (setNodeDataType_run path _ _)).
    by rewrite withDataType_twice.
Qed.

Lemma getDataType_single_rule_gen n path st rule o st1 :
  AstNode.valid n = true →
  truthy (dataTypeOf st !! path) = false →
  rulesFor n (dataTypeRegistrations root (getDataType root) n path) = [rule] →
  rule st = Some (o, st1) →
  getDataType root n path st = Some (orVoid o, withDataType path (Some (orVoid o)) st1).
Proof.
  intros Hv Hfalsy Hrules Hrule.
  apply getDataType_rules_gen; [exact Hv | exact Hfalsy|].
  rewrite Hrules. by rewrite (runDataTypeRules_cons _ _ _ _ _ _ Hrule).
Qed.

(** Rules that return the node's type as it is leave the state alone. *)
Lemma runDataTypeRules_idle path rules st :
  Forall (fun rule : M (option string) => rule st = Some (dataTypeOf st !! path, st)) rules →
  runDataTypeRules path rules st = Some (tt, st).
Proof.
  induction 1 as [|rule rules Hrule _ IH]; [reflexivity|].
  rewrite (runDataTypeRules_cons _ _ _ _ _ _ Hrule), withDataType_noop. exact IH.
Qed.

(** ** Identifiers *)

Lemma rulesFor_VariableId rec n path :
  AstNode.type n = AstType.VariableId →
  rulesFor n (dataTypeRegistrations root rec n path) = [dtRule_VariableId root n path].
Proof. intros H. unfold rulesFor, dataTypeRegistrations. rewrite H. reflexivity. Qed.

Lemma rulesFor_FunctionId rec n path :
  AstNode.type n = AstType.FunctionId →
  rulesFor n (dataTypeRegistrations root rec n path) = [dtRule_FunctionId root n path].
Proof. intros H. unfold rulesFor, dataTypeRegistrations. rewrite H. reflexivity. Qed.

Lemma rulesFor_StructId rec n path :
  AstNode.type n = AstType.StructId →
  rulesFor n (dataTypeRegistrations root rec n path) = [dtRule_StructId root n path].
Proof. intros H. unfold rulesFor, dataTypeRegistrations. rewrite H. reflexivity. Qed.

Lemma bind_getScope_twice {A} path st s st1 (k : ScopeId → M A) :
  getScope root path st = Some (s, st1) →
  (getScope root path;; s ← getScope root path; k s) st = k s st1.
Proof.
  intros H. rewrite (bind_Some _ _ _ _ _ H).
  assert (H2 : getScope root path st1 = Some (s, st1))
    by (apply getScope_annotated; by eapply getScope_spec).
  by rewrite (bind_Some _ _ _ _ _ H2).
Qed.

(** In a tree and a state that name no member of [Object.prototype], a
    valid, untyped identifier whose scope is [s] and whose name is no such
    member either: a VariableId is typed with the declared
    type of the variable its name resolves to from [s], a FunctionId with the
    return type of the function, a StructId with the id of the struct, and
    nothing is logged; a name that does not resolve is typed [invalid] and
    diagnosed once, at the identifier.  (A name such as [toString] resolves
    to the inherited member in every scope.) *)
Theorem identifier_rules (n : AstNode.t) (path : Path) (st st1 : State) (s : ScopeId) :
  ordinaryNames root = true → ordinaryState st →
  ordinary (tokenValue n) →
  AstNode.valid n = true →
  truthy (dataTypeOf st !! path) = false →
  getScope root path st = Some (s, st1) →
  let name := tokenValue n in
  let typed (o : option string) (msg : string) :=
    match o with
    | Some t => Some (orVoid (Some t), withDataType path (Some (orVoid (Some t))) st1)
    | None => Some (DataType.Invalid,
                    withDataType path (Some DataType.Invalid) (withLog (errorMsg msg n) st1))
    end in
  (AstNode.type n = AstType.VariableId →
   getDataType root n path st
   = typed (Var.type <$> Scope.getVariable (heap st1) s name) (noVariableMsg name)) ∧
  (AstNode.type n = AstType.FunctionId →
   getDataType root n path st
   = typed (Function.type <$> Scope.getFunction (heap st1) s name) (noFunctionMsg name)) ∧
  (AstNode.type n = AstType.StructId →
   getDataType root n path st
   = typed (Struct.id <$> Scope.getStruct (heap st1) s name) (noStructIdMsg name)).
Proof.
  intros _ _ _ Hv Hfalsy Hsc name typed. split; [|split]; intros Hty.
  - destruct (Scope.getVariable (heap st1) s name) as [nvar|] eqn:Hlook; cbn [fmap option_fmap option_map typed].
    + apply (getDataType_single_rule_gen n path st _ (Some (Var.type nvar)) st1 Hv Hfalsy
               (rulesFor_VariableId _ _ _ Hty)).
      unfold dtRule_VariableId. rewrite (bind_getScope_twice _ _ _ _ _ Hsc).
      rewrite bind_unfold. cbn [get]. fold name. by rewrite Hlook.
    + apply (getDataType_single_rule_gen n path st _ (Some DataType.Invalid) _ Hv Hfalsy
               (rulesFor_VariableId _ _ _ Hty)).
      unfold dtRule_VariableId. rewrite (bind_getScope_twice _ _ _ _ _ Hsc).
      rewrite bind_unfold. cbn [get]. fold name. by rewrite Hlook.
  - destruct (Scope.getFunction (heap st1) s name) as [func|] eqn:Hlook; cbn [fmap option_fmap option_map typed].
    + apply (getDataType_single_rule_gen n path st _ (Some (Function.type func)) st1 Hv Hfalsy
               (rulesFor_FunctionId _ _ _ Hty)).
      unfold dtRule_FunctionId. rewrite (bind_getScope_twice _ _ _ _ _ Hsc).
      rewrite bind_unfold. cbn [get]. fold name. by rewrite Hlook.
    + apply (getDataType_single_rule_gen n path st _ (Some DataType.Invalid) _ Hv Hfalsy
               (rulesFor_FunctionId _ _ _ Hty)).
      unfold dtRule_FunctionId. rewrite (bind_getScope_twice _ _ _ _ _ Hsc).
      rewrite bind_unfold. cbn [get]. fold name. by rewrite Hlook.
  - destruct (Scope.getStruct (heap st1) s name) as [struct|] eqn:Hlook; cbn [fmap option_fmap option_map typed].
    + apply (getDataType_single_rule_gen n path st _ (Some (Struct.id struct)) st1 Hv Hfalsy
               (rulesFor_StructId _ _ _ Hty)).
      unfold dtRule_StructId. rewrite (bind_getScope_twice _ _ _ _ _ Hsc).
      rewrite bind_unfold. cbn [get]. fold name. by rewrite Hlook.
    + apply (getDataType_single_rule_gen n path st _ (Some DataType.Invalid) _ Hv Hfalsy
               (rulesFor_StructId _ _ _ Hty)).
      unfold dtRule_StructId. rewrite (bind_getScope_twice _ _ _ _ _ Hsc).
      rewrite bind_unfold. cbn [get]. fold name. by rewrite Hlook.
Qed.
End FiringRules.

Lemma identifier_rules_witness :
  let root := vid "n" in
  let st1 := withScope [] rootScope uintState in
  ordinaryNames root = true ∧ ordinaryState uintState ∧
  ordinary (tokenValue root) ∧
  getScope root [] uintState = Some (rootScope, st1) ∧
  Var.type <$> Scope.getVariable (heap st1) rootScope (tokenValue root) = Some "uint" ∧
  getDataType root root [] uintState = Some ("uint", withDataType [] (Some "uint") st1).
Proof.
  intros root st1.
  assert (H : getScope root [] uintState = Some (rootScope, st1)) by reflexivity.
  assert (H1 : Var.type <$> Scope.getVariable (heap st1) rootScope (tokenValue root)
               = Some "uint") by reflexivity.
  assert (Hord : ordinary (tokenValue root)) by by_decide.
  assert (Hst : ordinaryState uintState) by by_decide.
  split; [reflexivity|]. split; [exact Hst|].
  split; [exact Hord|]. split; [exact H|]. split; [exact H1|].
  pose proof (proj1 (identifier_rules root root [] uintState st1 rootScope eq_refl Hst Hord
                       eq_refl eq_refl H) eq_refl) as Hx.
  cbv zeta in Hx. rewrite H1 in Hx. exact Hx.
Defined.

(** ** Operators *)

Lemma unaryLookup_same (types : list string) (t : string) :
  unaryLookup t (map (fun x => [x; x; x]) types)
  = if bool_decide (t ∈ types) then Some (Some t) else None.
Proof.
  induction types as [|x types IH]; cbn [map unaryLookup].
  - rewrite bool_decide_eq_false_2; [reflexivity | apply not_elem_of_nil].
  - rewrite IH. cbn [lookup list_lookup]. destruct (decide (x = t)) as [->|Hne].
    + rewrite (bool_decide_eq_true_2 (Some t = Some t)) by reflexivity.
      rewrite bool_decide_eq_true_2 by (by left). reflexivity.
    + rewrite (bool_decide_eq_false_2 (Some x = Some t)) by congruence.
      apply (f_equal (fun c : bool => if c then Some (Some t) else None)).
      apply bool_decide_ext. rewrite elem_of_cons. split; [tauto|]. intros [?|?]; congruence.
Qed.

Lemma binaryLookup_same (types : list string) (res : string → string) (t0 t1 : string) :
  binaryLookup t0 t1 (map (fun x => [x; x; res x]) types) = Some <$> sameIn types res t0 t1.
Proof.
  unfold sameIn. induction types as [|x types IH]; cbn [map binaryLookup].
  - rewrite bool_decide_eq_false_2; [reflexivity|]. intros [_ H]. by apply elem_of_nil in H.
  - rewrite IH. cbn [lookup list_lookup].
    destruct (decide (x = t0)) as [->|Hne0]; [destruct (decide (t0 = t1)) as [<-|Hne1]|].
    + rewrite !(bool_decide_eq_true_2 (Some t0 = Some t0)) by reflexivity. cbn [andb].
      rewrite bool_decide_eq_true_2 by (split; [reflexivity | by left]). reflexivity.
    + rewrite (bool_decide_eq_false_2 (Some t0 = Some t1)) by congruence.
      rewrite andb_false_r.
      rewrite !(bool_decide_eq_false_2 (t0 = t1 ∧ _)) by tauto. reflexivity.
    + rewrite (bool_decide_eq_false_2 (Some x = Some t0)) by congruence. cbn [andb].
      apply (f_equal (fun c : bool => Some <$> (if c then Some (res t0) else None))).
      apply bool_decide_ext. rewrite elem_of_cons. split; [tauto|].
      intros [? [?|?]]; [congruence | tauto].
Qed.

Lemma unaryLookup_result op sets t :
  (op, sets) ∈ unaryOps → unaryLookup t sets = Some <$> unaryResult op t.
Proof.
  unfold unaryOps. rewrite !elem_of_cons, elem_of_nil.
  intros [[= -> ->]|[[= -> ->]|[[= -> ->]|[]]]]; cbn [unaryResult].
  - change signedTypeSets with (map (fun x : string => [x; x; x]) signedTypes).
    rewrite unaryLookup_same. by destruct (bool_decide _).
  - change fixedTypeSets with (map (fun x : string => [x; x; x]) integerTypes).
    rewrite unaryLookup_same. by destruct (bool_decide _).
  - change [boolTypeSet] with (map (fun x : string => [x; x; x]) [DataType.Bool]).
    rewrite unaryLookup_same.
    rewrite (bool_decide_ext _ _ (list_elem_of_singleton t DataType.Bool)).
    by destruct (bool_decide _).
Qed.

Lemma binaryLookup_result op sets t0 t1 :
  (op, sets) ∈ binaryOps → binaryLookup t0 t1 sets = Some <$> binaryResult op t0 t1.
Proof.
  unfold binaryOps. rewrite !elem_of_cons, elem_of_nil. intros H.
  do 21 (destruct H as [[= -> ->]|H];
         [first [ exact (binaryLookup_same numberTypes id t0 t1)
                | exact (binaryLookup_same integerTypes id t0 t1)
                | exact (binaryLookup_same numberTypes (fun _ => DataType.Bool) t0 t1)
                | exact (binaryLookup_same (numberTypes ++ [DataType.Bool])
                           (fun _ => DataType.Bool) t0 t1)
                | exact (binaryLookup_same [DataType.Bool] (fun _ => DataType.Bool) t0 t1) ]|]).
  destruct H.
Qed.

Section OperatorTables.
(** Rules registered per operator token: each returns the node's type as it
    is when the node is typed or carries another token. *)
Context (mk : TokenType.t → list (list string) → M (option string)).
Context (n : AstNode.t) (path : Path).
Context (mk_skip : ∀ op sets st,
           truthy (dataTypeOf st !! path) = true ∨ Token.type (AstNode.token n) ≠ op →
           mk op sets st = Some (dataTypeOf st !! path, st)).

Lemma runDataTypeRules_ops_skip ops rest st :
  truthy (dataTypeOf st !! path) = true ∨
    Forall (fun op => Token.type (AstNode.token n) ≠ op.1) ops →
  runDataTypeRules path (map (fun op => mk op.1 op.2) ops ++ rest) st
  = runDataTypeRules path rest st.
Proof.
  intros H. induction ops as [|op ops IH]; [reflexivity|]. simpl.
  rewrite (runDataTypeRules_cons _ _ _ _ (dataTypeOf st !! path) st).
  - rewrite withDataType_noop. apply IH. destruct H as [H|H]; [by left | right].
    by apply Forall_cons in H as [_ H].
  - apply mk_skip. destruct H as [H|H]; [by left | right].
    by apply Forall_cons in H as [H _].
Qed.

Lemma runDataTypeRules_ops_fire ops rest st op sets r st2 :
  (op, sets) ∈ ops → NoDup ops.*1 →
  Token.type (AstNode.token n) = op →
  mk op sets st = Some (Some r, st2) → r ≠ EmptyString →
  runDataTypeRules path (map (fun op => mk op.1 op.2) ops ++ rest) st
  = runDataTypeRules path rest (withDataType path (Some r) st2).
Proof.
  intros Hin Hnd Htok Hfire Hr. induction ops as [|[o s] ops IH]; [by apply elem_of_nil in Hin|].
  simpl. apply NoDup_cons in Hnd as [Hfresh Hnd].
  destruct (decide (o = op)) as [->|Hne].
  - assert (s = sets) as ->.
    { apply elem_of_cons in Hin as [[= ->]|Hin]; [reflexivity|].
      exfalso. apply Hfresh. apply list_elem_of_fmap. by exists (op, sets). }
    rewrite (runDataTypeRules_cons _ _ _ _ _ _ Hfire).
    apply runDataTypeRules_ops_skip. left.
    rewrite dataTypeOf_withDataType. cbn [truthy]. by apply bool_decide_eq_true_2.
  - rewrite (runDataTypeRules_cons _ _ _ _ (dataTypeOf st !! path) st).
    + rewrite withDataType_noop. apply IH; [|exact Hnd].
      apply elem_of_cons in Hin as [[= ? ?]|Hin]; [congruence | exact Hin].
    + apply mk_skip. right. congruence.
Qed.
End OperatorTables.

Lemma dtRule_UnaryOp_skip rec type typeSets n path st :
  truthy (dataTypeOf st !! path) = true ∨ Token.type (AstNode.token n) ≠ type →
  dtRule_UnaryOp rec type typeSets n path st = Some (dataTypeOf st !! path, st).
Proof.
  intros H. unfold dtRule_UnaryOp.
  rewrite (bind_Some _ _ _ _ _ (nodeDataType_run path st)).
  destruct H as [H|H].
  - rewrite H. reflexivity.
  - rewrite (bool_decide_eq_true_2 _ H), orb_true_r. reflexivity.
Qed.

Lemma dtRule_BinaryOp_idle rec type typeSets n path st :
  truthy (dataTypeOf st !! path) = true ∨ Token.type (AstNode.token n) ≠ type →
  dtRule_BinaryOp rec type typeSets n path st = Some (dataTypeOf st !! path, st).
Proof.
  intros H. unfold dtRule_BinaryOp.
  rewrite (bind_Some _ _ _ _ _ (nodeDataType_run path st)).
  destruct H as [H|H].
  - rewrite H. reflexivity.
  - rewrite (bool_decide_eq_true_2 _ H), orb_true_r. reflexivity.
Qed.

Lemma NoDup_unaryOps : NoDup unaryOps.*1.
Proof. by_decide. Qed.

Lemma NoDup_binaryOps : NoDup binaryOps.*1.
Proof. by_decide. Qed.

Section OperatorRules.
Context (root : AstNode.t).

Lemma rulesFor_UnaryOp rec n path :
  AstNode.type n = AstType.UnaryOp →
  rulesFor n (dataTypeRegistrations root rec n path)
  = map (fun op => dtRule_UnaryOp rec op.1 op.2 n path) unaryOps ++ [].
Proof. intros H. unfold rulesFor, dataTypeRegistrations. rewrite H. reflexivity. Qed.

(** A valid, untyped UnaryOp node whose operator is [-], bitwise [NOT] or
    [!], over an operand of type [t]: the node gets the type [t] if the
    operator admits it ([-]: int, long, float, double; [NOT]: the four integer
    types; [!]: bool) and nothing is logged; otherwise the node is typed
    [invalid] and diagnosed once, at the operand. *)
Theorem unary_operator_rule (n : AstNode.t) (path : Path) (c0 : AstNode.t) (st st1 : State)
    (t : string) :
  AstNode.type n = AstType.UnaryOp →
  AstNode.valid n = true →
  truthy (dataTypeOf st !! path) = false →
  AstNode.children n !! 0 = Some c0 →
  Token.type (AstNode.token n) ∈ unaryOps.*1 →
  getDataType root c0 (0 :: path) st = Some (t, st1) →
  getDataType root n path st
  = match unaryResult (Token.type (AstNode.token n)) t with
    | Some r => Some (r, withDataType path (Some r) st1)
    | None => Some (DataType.Invalid,
                    withDataType path (Some DataType.Invalid)
                      (withLog (errorMsg (invalidArgMsg "" n) c0) st1))
    end.
Proof.
  intros Hty Hv Hfalsy Hc0 Hop Ht.
  assert (Hne : t ≠ EmptyString) by (apply getDataType_spec in Ht; tauto).
  apply list_elem_of_fmap in Hop as ([op sets] & Hop & Hin). cbn [fst] in Hop.
  destruct (AstNode.children n) as [|c0' cs] eqn:Hcs; [discriminate|].
  injection Hc0 as ->.
  set (o := match unaryResult op t with Some r => r | None => DataType.Invalid end).
  set (st2 := match unaryResult op t with
              | Some _ => st1
              | None => withLog (errorMsg (invalidArgMsg "" n) c0) st1
              end).
  assert (Hfire : dtRule_UnaryOp (getDataType root) op sets n path st = Some (Some o, st2)).
  { unfold dtRule_UnaryOp.
    rewrite (bind_Some _ _ _ _ _ (nodeDataType_run path st)), Hfalsy.
    rewrite (bool_decide_eq_false_2 (_ ≠ _)) by tauto. cbn [orb].
    rewrite Hcs, (bind_Some _ _ _ _ _ Ht), (unaryLookup_result _ _ _ Hin).
    subst o st2. destruct (unaryResult op t) as [r|] eqn:Hr; [|reflexivity].
    cbn [fmap option_fmap option_map].
    assert (r = t) as ->; [|reflexivity].
    revert Hr. destruct op; cbn [unaryResult]; try discriminate; case_bool_decide; congruence. }
  assert (Ho : o ≠ EmptyString).
  { subst o. destruct (unaryResult op t) as [r|] eqn:Hr; [|discriminate].
    assert (r = t) as ->; [|exact Hne].
    revert Hr. destruct op; cbn [unaryResult]; try discriminate; case_bool_decide; congruence. }
  rewrite Hop.
  assert (Hgoal : getDataType root n path st = Some (o, withDataType path (Some o) st2)).
  { eapply getDataType_run_rules; [exact Hv | exact Hfalsy | | apply dataTypeOf_withDataType
                                   | exact Ho].
    rewrite rulesFor_UnaryOp by exact Hty.
    rewrite (runDataTypeRules_ops_fire
               (fun op sets => dtRule_UnaryOp (getDataType root) op sets n path) n path
               (fun op sets st => dtRule_UnaryOp_skip _ op sets n path st)
               unaryOps [] st op sets o st2 Hin NoDup_unaryOps Hop Hfire Ho).
    reflexivity. }
  rewrite Hgoal. subst o st2. by destruct (unaryResult op t).
Qed.

Lemma sameIn_result types res t0 t1 r :
  sameIn types res t0 t1 = Some r → r = res t0.
Proof. unfold sameIn. case_bool_decide; congruence. Qed.

Lemma binaryResult_nonempty op t0 t1 r :
  t0 ≠ EmptyString → binaryResult op t0 t1 = Some r → r ≠ EmptyString.
Proof.
  intros Hne H. destruct op; cbn [binaryResult] in H; try discriminate;
    apply sameIn_result in H; subst r; first [exact Hne | discriminate].
Qed.

(** A valid, untyped BinaryOp node whose operator is one of the twenty-one
    registered through [registerDataTypeBinaryOp], over operands of types [t0]
    and [t1]: the operator admits the operands only if they are of one and the
    same type, a number type for arithmetic, ordering and equality, an integer
    type for [%], the bitwise operators, shifts and rotations, [bool] for
    equality and the logical operators; the node then gets that type, or
    [bool] for a comparison, and nothing is logged.  Otherwise the node is
    typed [invalid] and both operands are diagnosed, the first before the
    second. *)
Theorem binary_operator_rule (n : AstNode.t) (path : Path) (c0 c1 : AstNode.t)
    (st st1 st2 : State) (t0 t1 : string) :
  AstNode.type n = AstType.BinaryOp →
  AstNode.valid n = true →
  truthy (dataTypeOf st !! path) = false →
  AstNode.children n !! 0 = Some c0 →
  AstNode.children n !! 1 = Some c1 →
  Token.type (AstNode.token n) ∈ binaryOps.*1 →
  getDataType root c0 (0 :: path) st = Some (t0, st1) →
  getDataType root c1 (1 :: path) st1 = Some (t1, st2) →
  getDataType root n path st
  = match binaryResult (Token.type (AstNode.token n)) t0 t1 with
    | Some r => Some (r, withDataType path (Some r) st2)
    | None => Some (DataType.Invalid,
                    withDataType path (Some DataType.Invalid)
                      (withLog (errorMsg (invalidArgMsg "2nd " n) c1)
                         (withLog (errorMsg (invalidArgMsg "1st " n) c0) st2)))
    end.
Proof.
  intros Hty Hv Hfalsy Hc0 Hc1 Hop Ht0 Ht1.
  assert (Hne : t0 ≠ EmptyString) by (apply getDataType_spec in Ht0; tauto).
  apply list_elem_of_fmap in Hop as ([op sets] & Hop & Hin). cbn [fst] in Hop.
  destruct (AstNode.children n) as [|c0' [|c1' cs]] eqn:Hcs; try discriminate.
  injection Hc0 as ->. injection Hc1 as ->.
  set (o := match binaryResult op t0 t1 with Some r => r | None => DataType.Invalid end).
  set (st3 := match binaryResult op t0 t1 with
              | Some _ => st2
              | None => withLog (errorMsg (invalidArgMsg "2nd " n) c1)
                          (withLog (errorMsg (invalidArgMsg "1st " n) c0) st2)
              end).
  assert (Hfire : dtRule_BinaryOp (getDataType root) op sets n path st = Some (Some o, st3)).
  { unfold dtRule_BinaryOp.
    rewrite (bind_Some _ _ _ _ _ (nodeDataType_run path st)), Hfalsy.
    rewrite (bool_decide_eq_false_2 (_ ≠ _)) by tauto. cbn [orb].
    rewrite Hcs, (bind_Some _ _ _ _ _ Ht0), (bind_Some _ _ _ _ _ Ht1).
    rewrite (binaryLookup_result _ _ _ _ Hin).
    subst o st3. by destruct (binaryResult op t0 t1). }
  assert (Ho : o ≠ EmptyString).
  { subst o. destruct (binaryResult op t0 t1) as [r|] eqn:Hr; [|discriminate].
    by eapply binaryResult_nonempty. }
  rewrite Hop.
  assert (Hgoal : getDataType root n path st = Some (o, withDataType path (Some o) st3)).
  { eapply getDataType_run_rules; [exact Hv | exact Hfalsy | | apply dataTypeOf_withDataType
                                   | exact Ho].
    rewrite (rulesFor_BinaryOp root) by exact Hty.
    rewrite (runDataTypeRules_ops_fire
               (fun op sets => dtRule_BinaryOp (getDataType root) op sets n path) n path
               (fun op sets st => dtRule_BinaryOp_idle _ op sets n path st)
               binaryOps _ st op sets o st3 Hin NoDup_binaryOps Hop Hfire Ho).
    apply runDataTypeRules_idle. repeat constructor.
    - apply dtRule_Cast_skip. left. rewrite dataTypeOf_withDataType. cbn [truthy].
      by apply bool_decide_eq_true_2.
    - apply dtRule_Cast_skip. left. rewrite dataTypeOf_withDataType. cbn [truthy].
      by apply bool_decide_eq_true_2. }
  rewrite Hgoal. subst o st3. by destruct (binaryResult op t0 t1).
Qed.

(** A valid, untyped UnaryOp or BinaryOp node whose operator token no rule
    is registered for is typed [void]; its operands are not visited and
    nothing is logged. *)
Theorem unregistered_operator_is_void (n : AstNode.t) (path : Path) (st : State) :
  AstNode.valid n = true →
  truthy (dataTypeOf st !! path) = false →
  (AstNode.type n = AstType.UnaryOp ∧ Token.type (AstNode.token n) ∉ unaryOps.*1) ∨
  (AstNode.type n = AstType.BinaryOp ∧
   Token.type (AstNode.token n) ∉ binaryOps.*1 ++ [TokenType.As; TokenType.To]) →
  getDataType root n path st
  = Some (DataType.None, withDataType path (Some DataType.None) st).
Proof.
  intros Hv Hfalsy H.
  assert (Hskip : ∀ ops : list (TokenType.t * list (list string)),
             Token.type (AstNode.token n) ∉ ops.*1 →
             Forall (fun op => Token.type (AstNode.token n) ≠ op.1) ops).
  { intros ops Hnot. apply Forall_forall. intros op Hin Heq. apply Hnot.
    apply list_elem_of_fmap. by exists op. }
  assert (Hrun : runDataTypeRules path
                   (rulesFor n (dataTypeRegistrations root (getDataType root) n path)) st
                 = Some (tt, withDataType path (dataTypeOf st !! path) st)).
  2: { pose proof (getDataType_rules_gen root n path st st _ Hv Hfalsy Hrun) as Hgoal.
       unfold orVoid in Hgoal. by rewrite Hfalsy in Hgoal. }
  rewrite withDataType_noop. destruct H as [[Hty Hop]|[Hty Hop]].
  - rewrite rulesFor_UnaryOp by exact Hty.
    rewrite (runDataTypeRules_ops_skip
               (fun op sets => dtRule_UnaryOp (getDataType root) op sets n path) n path
               (fun op sets st => dtRule_UnaryOp_skip _ op sets n path st));
      [reflexivity | right; by apply Hskip].
  - rewrite (rulesFor_BinaryOp root) by exact Hty.
    rewrite not_elem_of_app in Hop. destruct Hop as [Hop Hcast].
    rewrite (runDataTypeRules_ops_skip
               (fun op sets => dtRule_BinaryOp (getDataType root) op sets n path) n path
               (fun op sets st => dtRule_BinaryOp_idle _ op sets n path st));
      [|right; by apply Hskip].
    apply runDataTypeRules_idle. repeat constructor.
    + apply dtRule_Cast_skip. right. intros E. apply Hcast. rewrite E. by left.
    + apply dtRule_Cast_skip. right. intros E. apply Hcast. rewrite E. right. by left.
Qed.
End OperatorRules.

Lemma unary_operator_rule_witness :
  let st1 := stateAfter (getDataType negNode (vid "n") [0]) uintState in
  getDataType negNode (vid "n") [0] uintState = Some ("uint", st1) ∧
  unaryResult TokenType.Neg "uint" = None ∧
  getDataType negNode negNode [] uintState
  = Some (DataType.Invalid,
          withDataType [] (Some DataType.Invalid)
            (withLog (errorMsg (invalidArgMsg "" negNode) (vid "n")) st1)).
Proof.
  intros st1.
  assert (H : getDataType negNode (vid "n") [0] uintState = Some ("uint", st1))
    by (vm_compute; reflexivity).
  assert (Hop : Token.type (AstNode.token negNode) ∈ unaryOps.*1) by by_decide.
  split; [exact H|]. split; [reflexivity|].
  exact (unary_operator_rule negNode negNode [] (vid "n") uintState st1 "uint"
           eq_refl eq_refl eq_refl eq_refl Hop H).
Defined.

Lemma binary_operator_rule_witness :
  let st1 := stateAfter (getDataType ltNode (vid "n") [0]) uintState in
  let st2 := stateAfter (getDataType ltNode (vid "n") [1]) st1 in
  getDataType ltNode (vid "n") [0] uintState = Some ("uint", st1) ∧
  getDataType ltNode (vid "n") [1] st1 = Some ("uint", st2) ∧
  binaryResult TokenType.Lt "uint" "uint" = Some "bool" ∧
  getDataType ltNode ltNode [] uintState = Some ("bool", withDataType [] (Some "bool") st2).
Proof.
  intros st1 st2.
  assert (H0 : getDataType ltNode (vid "n") [0] uintState = Some ("uint", st1))
    by (vm_compute; reflexivity).
  assert (H1 : getDataType ltNode (vid "n") [1] st1 = Some ("uint", st2))
    by (vm_compute; reflexivity).
  assert (Hop : Token.type (AstNode.token ltNode) ∈ binaryOps.*1) by by_decide.
  split; [exact H0|]. split; [exact H1|]. split; [reflexivity|].
  exact (binary_operator_rule ltNode ltNode [] (vid "n") (vid "n") uintState st1 st2
           "uint" "uint" eq_refl eq_refl eq_refl eq_refl eq_refl Hop H0 H1).
Defined.

Lemma unregistered_operator_is_void_witness :
  Token.type (AstNode.token commaNode) ∉ binaryOps.*1 ++ [TokenType.As; TokenType.To] ∧
  getDataType commaNode commaNode [] uintState
  = Some (DataType.None, withDataType [] (Some DataType.None) uintState).
Proof.
  assert (Hop : Token.type (AstNode.token commaNode)
                ∉ binaryOps.*1 ++ [TokenType.As; TokenType.To]) by by_decide.
  split; [exact Hop|].
  exact (unregistered_operator_is_void commaNode commaNode [] uintState eq_refl eq_refl
           (or_intror (conj eq_refl Hop))).
Defined.

(** ** The [to] conversion *)

(** The table of [to]: every pair of two different number types, the
    same-width sign changes excepted. *)
Lemma toTable_spec (t0 t1 : string) :
  (t0, t1) ∈ toTable ↔
  t0 ∈ numberTypes ∧ t1 ∈ numberTypes ∧ t0 ≠ t1 ∧ (t0, t1) ∉ signChanges.
Proof.
  split.
  - unfold toTable. rewrite !elem_of_cons, elem_of_nil. intros H.
    do 26 (destruct H as [[= -> ->]|H]; [repeat split; by_decide|]). destruct H.
  - intros (H0 & H1 & Hne & Hsc). unfold numberTypes in H0, H1.
    rewrite !elem_of_cons, elem_of_nil in H0, H1.
    destruct H0 as [->|[->|[->|[->|[->|[->|[]]]]]]];
      destruct H1 as [->|[->|[->|[->|[->|[->|[]]]]]]];
      first [ by_decide | exfalso; apply Hne; reflexivity | exfalso; apply Hsc; by_decide ].
Qed.

Section ToRule.
Context (root : AstNode.t).

(** A valid, untyped BinaryOp node whose operator is [to], over a value of
    type [t0] and a right-hand side naming the type [t1] ([invalid] unless it
    is a Type node other than [bool]): the node gets the type [t1] when [t0]
    and [t1] are two different number types and not a same-width sign change,
    and nothing is logged; otherwise the node is typed [invalid], with a
    diagnostic at the value only if [t0] is [invalid] and one at the right-hand
    side only if [t1] is. *)
Theorem to_conversion_rule (n : AstNode.t) (path : Path) (c0 c1 : AstNode.t) (st st1 : State)
    (t0 : string) :
  AstNode.type n = AstType.BinaryOp →
  Token.type (AstNode.token n) = TokenType.To →
  AstNode.valid n = true →
  truthy (dataTypeOf st !! path) = false →
  AstNode.children n !! 0 = Some c0 →
  AstNode.children n !! 1 = Some c1 →
  getDataType root c0 (0 :: path) st = Some (t0, st1) →
  let t1 := castTargetType c1 in
  let admitted := bool_decide (t0 ∈ numberTypes ∧ t1 ∈ numberTypes ∧ t0 ≠ t1 ∧
                               (t0, t1) ∉ signChanges) in
  let result := if admitted then t1 else DataType.Invalid in
  let st2 := if admitted then st1
             else withLogIf (bool_decide (t1 = DataType.Invalid))
                            (errorMsg (invalidTypeArgMsg n) c1)
                    (withLogIf (bool_decide (t0 = DataType.Invalid))
                               (errorMsg (invalidValueArgMsg n) c0) st1) in
  getDataType root n path st = Some (result, withDataType path (Some result) st2).
Proof.
  intros Hty Htok Hv Hfalsy Hc0' Hc1' Hc0 t1 admitted result st2.
  destruct (AstNode.children n) as [|c0' [|c1' cs]] eqn:Hcs; try discriminate.
  injection Hc0' as ->. injection Hc1' as ->.
  assert (Hrule : dtRule_To (getDataType root) n path st = Some (Some result, st2)).
  { unfold dtRule_To, dtRule_Cast.
    rewrite (bind_Some _ _ _ _ _ (nodeDataType_run path st)), Hfalsy, Htok.
    rewrite (bool_decide_eq_false_2 (TokenType.To ≠ TokenType.To)) by tauto.
    cbn [orb]. rewrite Hcs, (bind_Some _ _ _ _ _ Hc0). cbv zeta. fold t1.
    rewrite castLookup_elem_of.
    rewrite (bool_decide_ext _ _ (toTable_spec t0 t1)). fold admitted.
    unfold result, st2. destruct admitted; [reflexivity|].
    unfold withLogIf.
    destruct (bool_decide (t0 = DataType.Invalid));
      destruct (bool_decide (t1 = DataType.Invalid)); reflexivity. }
  assert (Hres : result ≠ EmptyString).
  { unfold result. destruct admitted eqn:E; [|discriminate].
    apply bool_decide_eq_true in E. destruct E as (_ & E & _). unfold numberTypes in E.
    rewrite !elem_of_cons, elem_of_nil in E.
    repeat (destruct E as [->|E]; [discriminate|]). destruct E. }
  eapply getDataType_run_rules; [exact Hv | exact Hfalsy | | apply dataTypeOf_withDataType
                                 | exact Hres].
  rewrite (rulesFor_BinaryOp root) by exact Hty.
  rewrite runDataTypeRules_skip_binaryOps
    by (rewrite Htok; unfold binaryOps; repeat constructor; discriminate).
  assert (Has : dtRule_As (getDataType root) n path st = Some (dataTypeOf st !! path, st)).
  { apply dtRule_Cast_skip. right. rewrite Htok. discriminate. }
  rewrite (runDataTypeRules_cons _ _ _ _ _ _ Has), withDataType_noop.
  rewrite (runDataTypeRules_cons _ _ _ _ _ _ Hrule). reflexivity.
Qed.
End ToRule.

Lemma to_conversion_rule_witness :
  let st1 := stateAfter (getDataType toFloatNode (vid "n") [0]) uintState in
  getDataType toFloatNode (vid "n") [0] uintState = Some ("uint", st1) ∧
  castTargetType (tyNode "float") = "float" ∧
  getDataType toFloatNode toFloatNode [] uintState
  = Some ("float", withDataType [] (Some "float") st1).
Proof.
  intros st1.
  assert (H0 : getDataType toFloatNode (vid "n") [0] uintState = Some ("uint", st1))
    by (vm_compute; reflexivity).
  split; [exact H0|]. split; [reflexivity|].
  exact (to_conversion_rule toFloatNode toFloatNode [] (vid "n") (tyNode "float") uintState st1
           "uint" eq_refl eq_refl eq_refl eq_refl eq_refl eq_refl H0).
Defined.

(** ** A rule that throws *)

Lemma getDataType_rule_throws root n path st rule rules :
  AstNode.valid n = true →
  truthy (dataTypeOf st !! path) = false →
  rulesFor n (dataTypeRegistrations root (getDataType root) n path) = rule :: rules →
  rule st = None →
  getDataType root n path st = None.
Proof.
  intros Hv Hfalsy Hrules Hrule.
  rewrite getDataType_unfold. unfold getDataType_body.
  rewrite Hv. cbn [negb]. rewrite (bind_Some _ _ _ _ _ (when_false _ st)).
  rewrite (bind_Some _ _ _ _ _ (nodeDataType_run path st)), Hfalsy.
  rewrite Hrules. unfold runDataTypeRules. cbn [foldM].
  rewrite !bind_unfold. by rewrite Hrule.
Qed.

(** ** The rule of a bare [return] *)

Section ReturnVoidRule.
Context (root : AstNode.t).

Lemma rulesFor_ReturnVoid rec n path :
  AstNode.type n = AstType.ReturnVoid →
  rulesFor n (dataTypeRegistrations root rec n path) = [dtRule_ReturnVoid root n path].
Proof. intros H. unfold rulesFor, dataTypeRegistrations. rewrite H. reflexivity. Qed.

(** A valid, untyped ReturnVoid node: outside every FunctionDef, or inside
    one declared [void], it is typed [void] and nothing is logged.  Inside a
    FunctionDef [p] declared with another type, the rule reports the mismatch
    at the node's first child: with such a child the node is typed [invalid]
    and diagnosed once; without one, which is how the validator wants a
    ReturnVoid, building the diagnostic throws and there is no result. *)
Theorem return_void_rule (n : AstNode.t) (path : Path) (st : State) :
  AstNode.type n = AstType.ReturnVoid →
  AstNode.valid n = true →
  truthy (dataTypeOf st !! path) = false →
  (findAncestor root AstType.FunctionDef path = None ∨
   (∃ p, findAncestor root AstType.FunctionDef path = Some p ∧ tokenValue p = DataType.None) →
   getDataType root n path st
   = Some (DataType.None, withDataType path (Some DataType.None) st)) ∧
  (∀ p, findAncestor root AstType.FunctionDef path = Some p →
        tokenValue p ≠ DataType.None →
        (AstNode.children n = [] → getDataType root n path st = None) ∧
        (∀ p0 c0, AstNode.children p !! 0 = Some p0 → AstNode.children n !! 0 = Some c0 →
           getDataType root n path st
           = Some (DataType.Invalid,
                   withDataType path (Some DataType.Invalid)
                     (withLog (errorMsg (returnMsg DataType.None (tokenValue p0) (tokenValue p))
                                        c0) st)))).
Proof.
  intros Hty Hv Hfalsy. split.
  - intros H.
    apply (getDataType_single_rule root n path st (dtRule_ReturnVoid root n path)
             DataType.None st Hv Hfalsy (rulesFor_ReturnVoid _ _ _ Hty)); [|discriminate].
    unfold dtRule_ReturnVoid. destruct H as [->|(p & -> & Hp)]; [reflexivity|].
    rewrite bool_decide_eq_false_2 by tauto. reflexivity.
  - intros p Hanc Hp. split.
    + intros Hcs.
      apply (getDataType_rule_throws root n path st _ [] Hv Hfalsy
               (rulesFor_ReturnVoid _ _ _ Hty)).
      unfold dtRule_ReturnVoid. rewrite Hanc, bool_decide_eq_true_2 by exact Hp.
      unfold childAt. rewrite Hcs. cbn [lookup list_lookup orThrow].
      rewrite bind_unfold. by destruct (orThrow (AstNode.children p !! 0) st) as [[? ?]|].
    + intros p0 c0 Hp0 Hc0.
      apply (getDataType_single_rule root n path st (dtRule_ReturnVoid root n path)
               DataType.Invalid _ Hv Hfalsy (rulesFor_ReturnVoid _ _ _ Hty)); [|discriminate].
      unfold dtRule_ReturnVoid. rewrite Hanc, bool_decide_eq_true_2 by exact Hp.
      unfold childAt. rewrite Hp0, Hc0. reflexivity.
Qed.
End ReturnVoidRule.

Lemma return_void_rule_witness :
  let root := bareReturnProgram in
  let st := afterScopePass root in
  (∃ p, findAncestor root AstType.FunctionDef [0; 2; 0] = Some p ∧
        tokenValue p = "int") ∧
  getDataType root bareReturn [0; 2; 0] st = None.
Proof.
  intros root st.
  assert (Hf : truthy (dataTypeOf st !! [0; 2; 0]) = false) by (vm_compute; reflexivity).
  pose proof (return_void_rule root bareReturn [0; 2; 0] st eq_refl eq_refl Hf) as [_ H].
  split; [eexists; split; reflexivity|].
  refine (proj1 (H _ eq_refl _) eq_refl). discriminate.
Defined.

(** ** Globals and the sides of an assignment *)

Lemma assignSides_run (rec : Rec) n path c0 c1 rest st st1 st2 t0 t1 :
  rec c0 (0 :: path) st = Some (t0, st1) →
  rec c1 (1 :: path) st1 = Some (t1, st2) →
  assignSides rec n path c0 (c1 :: rest) st
  = if bool_decide (t0 = DataType.Invalid ∨ t1 = DataType.Invalid) then
      Some (Some DataType.Invalid,
            withLogIf (bool_decide (t1 = DataType.Invalid)) (errorMsg invalidRhsMsg c1)
              (withLogIf (bool_decide (t0 = DataType.Invalid)) (errorMsg invalidLhsMsg c0) st2))
    else if bool_decide (t0 ≠ t1) then
      Some (Some DataType.Invalid, withLog (errorMsg sameTypeMsg n) st2)
    else Some (Some t0, st2).
Proof.
  intros H0 H1. unfold assignSides.
  rewrite (bind_Some _ _ _ _ _ H0), (bind_Some _ _ _ _ _ H1).
  destruct (bool_decide (t0 = DataType.Invalid ∨ t1 = DataType.Invalid)).
  - unfold withLogIf.
    destruct (bool_decide (t0 = DataType.Invalid));
      destruct (bool_decide (t1 = DataType.Invalid)); reflexivity.
  - destruct (bool_decide (t0 ≠ t1)); reflexivity.
Qed.

Section SidesRules.
Context (root : AstNode.t).

Lemma rulesFor_Global rec n path :
  AstNode.type n = AstType.Global →
  rulesFor n (dataTypeRegistrations root rec n path) = [dtRule_Global rec n path].
Proof. intros H. unfold rulesFor, dataTypeRegistrations. rewrite H. reflexivity. Qed.

(** A valid, untyped Global node over a target of type [t0] and a value of
    type [t1]: if either is [invalid] the node is typed [invalid], with
    "Invalid left-hand side of assignment" at the target if it is the target
    and "Invalid right-hand side of assignment" at the value if it is the
    value, and without the same-type diagnostic; if both are valid and differ,
    the node is typed [invalid] and diagnosed once with the same-type message;
    if they agree the node gets their type and nothing is logged.  No const
    check is made. *)
Theorem global_rule (n : AstNode.t) (path : Path) (c0 c1 : AstNode.t) (st st1 st2 : State)
    (t0 t1 : string) :
  AstNode.type n = AstType.Global →
  AstNode.valid n = true →
  truthy (dataTypeOf st !! path) = false →
  AstNode.children n !! 0 = Some c0 →
  AstNode.children n !! 1 = Some c1 →
  getDataType root c0 (0 :: path) st = Some (t0, st1) →
  getDataType root c1 (1 :: path) st1 = Some (t1, st2) →
  let invalid (st' : State) :=
    Some (DataType.Invalid, withDataType path (Some DataType.Invalid) st') in
  getDataType root n path st
  = if bool_decide (t0 = DataType.Invalid ∨ t1 = DataType.Invalid) then
      invalid (withLogIf (bool_decide (t1 = DataType.Invalid)) (errorMsg invalidRhsMsg c1)
                 (withLogIf (bool_decide (t0 = DataType.Invalid)) (errorMsg invalidLhsMsg c0)
                    st2))
    else if bool_decide (t0 ≠ t1) then invalid (withLog (errorMsg sameTypeMsg n) st2)
    else Some (t0, withDataType path (Some t0) st2).
Proof.
  intros Hty Hv Hfalsy Hc0 Hc1 H0 H1 invalid.
  assert (Hne : t0 ≠ EmptyString) by (apply getDataType_spec in H0; tauto).
  destruct (AstNode.children n) as [|c0' [|c1' cs]] eqn:Hcs; try discriminate.
  injection Hc0 as ->. injection Hc1 as ->.
  assert (Hrule : dtRule_Global (getDataType root) n path st
                  = assignSides (getDataType root) n path c0 (c1 :: cs) st)
    by (unfold dtRule_Global; by rewrite Hcs).
  rewrite (assignSides_run _ _ _ _ _ _ _ _ _ _ _ H0 H1) in Hrule.
  subst invalid. cbv beta.
  destruct (bool_decide (t0 = DataType.Invalid ∨ t1 = DataType.Invalid));
    [|destruct (bool_decide (t0 ≠ t1))].
  - apply (getDataType_single_rule root n path st _ _ _ Hv Hfalsy
             (rulesFor_Global _ _ _ Hty) Hrule). discriminate.
  - apply (getDataType_single_rule root n path st _ _ _ Hv Hfalsy
             (rulesFor_Global _ _ _ Hty) Hrule). discriminate.
  - apply (getDataType_single_rule root n path st _ _ _ Hv Hfalsy
             (rulesFor_Global _ _ _ Hty) Hrule). exact Hne.
Qed.

(** A valid, untyped Assignment node whose target is not a constant, with a
    side of type [invalid]: the node is typed [invalid], the invalid target is
    diagnosed with "Invalid left-hand side of assignment" and the invalid
    value with "Invalid right-hand side of assignment", in this order, and the
    same-type diagnostic is not given. *)
Theorem assignment_invalid_side (n : AstNode.t) (path : Path) (c0 c1 : AstNode.t)
    (st st0 st1 st2 : State) (t0 t1 : string) :
  AstNode.type n = AstType.Assignment →
  AstNode.valid n = true →
  truthy (dataTypeOf st !! path) = false →
  AstNode.children n !! 0 = Some c0 →
  AstNode.children n !! 1 = Some c1 →
  targetIsConst root c0 path st = Some (false, st0) →
  getDataType root c0 (0 :: path) st0 = Some (t0, st1) →
  getDataType root c1 (1 :: path) st1 = Some (t1, st2) →
  t0 = DataType.Invalid ∨ t1 = DataType.Invalid →
  getDataType root n path st
  = Some (DataType.Invalid,
          withDataType path (Some DataType.Invalid)
            (withLogIf (bool_decide (t1 = DataType.Invalid)) (errorMsg invalidRhsMsg c1)
               (withLogIf (bool_decide (t0 = DataType.Invalid)) (errorMsg invalidLhsMsg c0)
                  st2))).
Proof.
  intros Hty Hv Hfalsy Hc0 Hc1 Hconst H0 H1 Hinv.
  destruct (AstNode.children n) as [|c0' [|c1' cs]] eqn:Hcs; try discriminate.
  injection Hc0 as ->. injection Hc1 as ->.
  apply (getDataType_single_rule root n path st _ _ _ Hv Hfalsy
           (rulesFor_Assignment root _ _ _ Hty)); [|discriminate].
  unfold dtRule_Assignment. rewrite Hcs, (bind_Some _ _ _ _ _ Hconst).
  rewrite (assignSides_run _ _ _ _ _ _ _ _ _ _ _ H0 H1).
  by rewrite bool_decide_eq_true_2 by exact Hinv.
Qed.

(** ** The data type of an access *)

Lemma rulesFor_Access rec n path :
  AstNode.type n = AstType.Access →
  rulesFor n (dataTypeRegistrations root rec n path) = [dtRule_Access rec n path].
Proof. intros H. unfold rulesFor, dataTypeRegistrations. rewrite H. reflexivity. Qed.

(** A valid, untyped Access node gets the data type of the identifier
    [getIdentifier] finds in it, the right-most name of the chain.  With
    fewer than two children, or when the chain ends on a node that is no
    identifier, the node is typed [invalid]; the rule itself logs nothing in
    any case. *)
Theorem access_type_rule (n : AstNode.t) (path : Path) (st : State) :
  AstNode.type n = AstType.Access →
  AstNode.valid n = true →
  truthy (dataTypeOf st !! path) = false →
  let invalid := Some (DataType.Invalid, withDataType path (Some DataType.Invalid) st) in
  (length (AstNode.children n) < 2 → getDataType root n path st = invalid) ∧
  (getIdentifier n path st = Some (None, st) → getDataType root n path st = invalid) ∧
  (∀ ident ipath t st1,
     getIdentifier n path st = Some (Some (ident, ipath), st) →
     getDataType root ident ipath st = Some (t, st1) →
     getDataType root n path st = Some (t, withDataType path (Some t) st1)).
Proof.
  intros Hty Hv Hfalsy invalid. subst invalid.
  pose proof (dtRule_Access_getIdentifier (getDataType root) n path st Hty) as Hrule.
  split; [|split].
  - intros Hlen.
    apply (getDataType_single_rule root n path st _ _ _ Hv Hfalsy
             (rulesFor_Access _ _ _ Hty)); [|discriminate].
    rewrite Hrule. destruct (Nat.leb_spec 2 (length (AstNode.children n))); [lia | reflexivity].
  - intros Hid.
    apply (getDataType_single_rule root n path st _ _ _ Hv Hfalsy
             (rulesFor_Access _ _ _ Hty)); [|discriminate].
    rewrite Hrule. destruct (2 <=? length (AstNode.children n))%nat; [|reflexivity].
    by rewrite (bind_Some _ _ _ _ _ Hid).
  - intros ident ipath t st1 Hid Ht.
    assert (Hne : t ≠ EmptyString) by (apply getDataType_spec in Ht; tauto).
    apply (getDataType_single_rule root n path st _ _ _ Hv Hfalsy
             (rulesFor_Access _ _ _ Hty)); [|exact Hne].
    rewrite Hrule.
    assert (Hlen : (2 <=? length (AstNode.children n))%nat = true).
    { destruct n as [ty tok v cs]. simpl in Hty. subst ty.
      destruct cs as [|c0 [|c1 cs]]; [discriminate Hid..|reflexivity]. }
    rewrite Hlen, (bind_Some _ _ _ _ _ Hid), (bind_Some _ _ _ _ _ Ht). reflexivity.
Qed.

(** ** Calls that resolve to no function *)

Lemma rulesFor_FunctionCall rec n path :
  AstNode.type n = AstType.FunctionCall →
  rulesFor n (dataTypeRegistrations root rec n path) = [dtRule_FunctionCall root rec n path].
Proof. intros H. unfold rulesFor, dataTypeRegistrations. rewrite H. reflexivity. Qed.

(** In a tree and a state that name no member of [Object.prototype]: a
    valid, untyped FunctionCall node whose callee is no identifier is typed
    [invalid] with "Invalid function identifier"; one whose callee is a name,
    no member of [Object.prototype], of no function visible from the callee's
    scope is typed [invalid] with "No function named ...".  Either diagnostic
    is placed at the call, not at the callee, and no argument is typed. *)
Theorem call_without_function (n : AstNode.t) (path : Path) (c0 : AstNode.t) (st : State) :
  ordinaryNames root = true → ordinaryState st →
  AstNode.type n = AstType.FunctionCall →
  AstNode.valid n = true →
  truthy (dataTypeOf st !! path) = false →
  AstNode.children n !! 0 = Some c0 →
  let invalid (msg : string) (st' : State) :=
    Some (DataType.Invalid,
          withDataType path (Some DataType.Invalid) (withLog (errorMsg msg n) st')) in
  (getIdentifier c0 (0 :: path) st = Some (None, st) →
   getDataType root n path st = invalid invalidFunctionIdMsg st) ∧
  (∀ ident ipath s st1,
     getIdentifier c0 (0 :: path) st = Some (Some (ident, ipath), st) →
     getScope root ipath st = Some (s, st1) →
     ordinary (tokenValue ident) →
     Scope.getFunction (heap st1) s (tokenValue ident) = None →
     getDataType root n path st = invalid (noFunctionMsg (tokenValue ident)) st1).
Proof.
  intros _ _ Hty Hv Hfalsy Hc0 invalid. subst invalid.
  destruct (AstNode.children n) as [|c0' cs] eqn:Hcs; [discriminate|].
  injection Hc0 as ->. split.
  - intros Hid.
    apply (getDataType_single_rule root n path st _ _ _ Hv Hfalsy
             (rulesFor_FunctionCall _ _ _ Hty)); [|discriminate].
    unfold dtRule_FunctionCall. by rewrite Hcs, (bind_Some _ _ _ _ _ Hid).
  - intros ident ipath s st1 Hid Hs _ Hfun.
    apply (getDataType_single_rule root n path st _ _ _ Hv Hfalsy
             (rulesFor_FunctionCall _ _ _ Hty)); [|discriminate].
    unfold dtRule_FunctionCall.
    rewrite Hcs, (bind_Some _ _ _ _ _ Hid), (bind_Some _ _ _ _ _ Hs).
    rewrite bind_unfold. cbn [get]. by rewrite Hfun.
Qed.
End SidesRules.

Lemma global_rule_witness :
  let st1 := stateAfter (getDataType globalNode (vid "n") [0]) uintState in
  let st2 := withDataType [1] (Some "double") st1 in
  getDataType globalNode (vid "n") [0] uintState = Some ("uint", st1) ∧
  getDataType globalNode (lit TokenType.Double "1.5") [1] st1 = Some ("double", st2) ∧
  getDataType globalNode globalNode [] uintState
  = Some (DataType.Invalid,
          withDataType [] (Some DataType.Invalid)
            (withLog (errorMsg sameTypeMsg globalNode) st2)).
Proof.
  intros st1 st2.
  assert (H0 : getDataType globalNode (vid "n") [0] uintState = Some ("uint", st1))
    by (vm_compute; reflexivity).
  assert (H1 : getDataType globalNode (lit TokenType.Double "1.5") [1] st1
               = Some ("double", st2)) by (vm_compute; reflexivity).
  split; [exact H0|]. split; [exact H1|].
  exact (global_rule globalNode globalNode [] _ _ uintState st1 st2 "uint" "double"
           eq_refl eq_refl eq_refl eq_refl eq_refl H0 H1).
Defined.

Lemma assignment_invalid_side_witness :
  let root := danglingAssignment in
  let st0 := stateAfter (targetIsConst root (vid "n") []) uintState in
  let st1 := stateAfter (getDataType root (vid "n") [0]) st0 in
  let st2 := stateAfter (getDataType root (vid "m") [1]) st1 in
  getDataType root (vid "m") [1] st1 = Some (DataType.Invalid, st2) ∧
  getDataType root root [] uintState
  = Some (DataType.Invalid,
          withDataType [] (Some DataType.Invalid)
            (withLog (errorMsg invalidRhsMsg (vid "m")) st2)).
Proof.
  intros root st0 st1 st2.
  assert (Hc : targetIsConst root (vid "n") [] uintState = Some (false, st0))
    by (vm_compute; reflexivity).
  assert (H0 : getDataType root (vid "n") [0] st0 = Some ("uint", st1))
    by (vm_compute; reflexivity).
  assert (H1 : getDataType root (vid "m") [1] st1 = Some (DataType.Invalid, st2))
    by (vm_compute; reflexivity).
  split; [exact H1|].
  exact (assignment_invalid_side root root [] _ _ uintState st0 st1 st2 "uint"
           DataType.Invalid eq_refl eq_refl eq_refl eq_refl eq_refl Hc H0 H1
           (or_intror eq_refl)).
Defined.

Lemma access_type_rule_witness :
  let st1 := stateAfter (getDataType accessVar (vid "n") [1]) uintState in
  getDataType shortAccess shortAccess [] uintState
  = Some (DataType.Invalid, withDataType [] (Some DataType.Invalid) uintState) ∧
  getDataType accessVar (vid "n") [1] uintState = Some ("uint", st1) ∧
  getDataType accessVar accessVar [] uintState
  = Some ("uint", withDataType [] (Some "uint") st1).
Proof.
  intros st1.
  assert (H1 : getDataType accessVar (vid "n") [1] uintState = Some ("uint", st1))
    by (vm_compute; reflexivity).
  split; [|split; [exact H1|]].
  - refine (proj1 (access_type_rule shortAccess shortAccess [] uintState
                     eq_refl eq_refl eq_refl) _). simpl. lia.
  - exact (proj2 (proj2 (access_type_rule accessVar accessVar [] uintState
                           eq_refl eq_refl eq_refl)) (vid "n") [1] "uint" st1 eq_refl H1).
Defined.

Lemma call_without_function_witness :
  let st1 := stateAfter (getScope unknownCall [0]) uintState in
  ordinaryNames literalCall = true ∧ ordinaryNames unknownCall = true ∧
  ordinaryState uintState ∧
  getDataType literalCall literalCall [] uintState
  = Some (DataType.Invalid,
          withDataType [] (Some DataType.Invalid)
            (withLog (errorMsg invalidFunctionIdMsg literalCall) uintState)) ∧
  getDataType unknownCall unknownCall [] uintState
  = Some (DataType.Invalid,
          withDataType [] (Some DataType.Invalid)
            (withLog (errorMsg (noFunctionMsg "g") unknownCall) st1)).
Proof.
  intros st1.
  assert (Hs : getScope unknownCall [0] uintState = Some (rootScope, st1))
    by (vm_compute; reflexivity).
  assert (Hst : ordinaryState uintState) by by_decide.
  split; [reflexivity|]. split; [reflexivity|]. split; [exact Hst|].
  split.
  - exact (proj1 (call_without_function literalCall literalCall [] _ uintState
                    eq_refl Hst eq_refl eq_refl eq_refl eq_refl) eq_refl).
  - exact (proj2 (call_without_function unknownCall unknownCall [] _ uintState
                    eq_refl Hst eq_refl eq_refl eq_refl eq_refl) (fid "g") [0] rootScope st1
             eq_refl Hs ltac:(by_decide) eq_refl).
Defined.

(** ** What a declaration registers *)

Lemma set_heap_set_heap f g st : set_heap f (set_heap g st) = set_heap (f ∘ g) st.
Proof. reflexivity. Qed.

Lemma set_heap_alter_alter (f g : Scope.t → Scope.t) p st :
  set_heap (alter f p) (set_heap (alter g p) st) = set_heap (alter (f ∘ g) p) st.
Proof.
  destruct st as [h sc dt lg]. unfold set_heap. simpl. f_equal. apply list_alter_alter_eq.
Qed.

Lemma updScope_run s f st : updScope s f st = Some (tt, set_heap (alter f s) st).
Proof. reflexivity. Qed.

Lemma updVar_run p id f st :
  updVar p id f st = Some (tt, set_heap (alter (Scope.set_vars (alter f id)) p) st).
Proof. reflexivity. Qed.

Lemma ownVar_alter h p id (f : Scope.t → Scope.t) v :
  is_Some (h !! p) →
  (∀ sc, Scope.vars (f sc) !! id = Some v) →
  ownVar (alter f p h) p id = Some v.
Proof.
  intros [sc Hsc] Hf. unfold ownVar. rewrite list_lookup_alter_eq, Hsc. simpl. apply Hf.
Qed.

Section Declarations.
Context (root : AstNode.t).

(** The VariableDef scope rule on an id, no member of [Object.prototype],
    that the map of the declaring scope
    [p] does not hold: the scope [p] gets, under the id, a variable of the
    type written in the definition's token, not const and not exported;
    [global] if the definition is below a Global or a Map node, [mapped] if it
    is below a Map node, and then with the offset [parseInt] reads from the
    Map node's second child, when there is one.  The rule returns [p], logs
    nothing and changes nothing else. *)
Theorem variable_definition_registers (n : AstNode.t) (path : Path) (p : ScopeId)
    (st : State) (c0 : AstNode.t) :
  AstNode.children n !! 0 = Some c0 →
  ordinary (tokenValue c0) →
  ownVar (heap st) p (tokenValue c0) = None →
  let id := tokenValue c0 in
  let inGlobal := bool_decide (is_Some (findAncestor root AstType.Global path)) in
  let map := findAncestor root AstType.Map path in
  let offset := match map ≫= fun pn => AstNode.children pn !! 1 with
                | Some m1 => parseInt (tokenValue m1)
                | None => Num 0
                end in
  let nvar := Var.mk (Some n) p id (tokenValue n) false false
                     (inGlobal || bool_decide (is_Some map)) (bool_decide (is_Some map))
                     offset in
  let st' := set_heap (alter (Scope.set_vars <[id := nvar]>) p) st in
  scopeRule_VariableDef root n path p st = Some (p, st') ∧
  (is_Some (heap st !! p) → ownVar (heap st') p id = Some nvar).
Proof.
  intros Hc0 _ Hown id inGlobal map offset nvar st'. split.
  2: { intros Hp. apply ownVar_alter; [exact Hp|]. intros sc. simpl. apply lookup_insert_eq. }
  unfold scopeRule_VariableDef.
  rewrite (bind_Some _ _ _ _ _ (childAt_run _ _ _ st Hc0)).
  rewrite bind_unfold. cbn [get Var.id Var.new]. rewrite Hown. fold id.
  assert (Hst : ∀ (G : Scope.t → Scope.t),
             (∀ sc, G sc = Scope.set_vars <[id := nvar]> sc) →
             set_heap (alter G p) st = st').
  { intros G HG. unfold st'. destruct st as [h sc dt lg]. unfold set_heap. simpl. f_equal.
    apply list_alter_ext; [|reflexivity]. intros x _. apply HG. }
  assert (Hvars : ∀ (sc : Scope.t) (f : Var.t → Var.t) (v : Var.t),
             Scope.set_vars (alter f id) (Scope.set_vars <[id := v]> sc)
             = Scope.set_vars <[id := f v]> sc).
  { intros sc f v. destruct sc. unfold Scope.set_vars. simpl. f_equal. apply alter_insert_eq. }
  subst nvar offset inGlobal. fold map in Hst |- *.
  destruct (findAncestor root AstType.Global path) as [g|] eqn:Hg;
    destruct map as [pn|] eqn:Hmap; cbn [mbind option_bind] in Hst;
    rewrite ?(bool_decide_eq_true_2 (is_Some (Some _))) in Hst by (by eexists);
    rewrite ?(bool_decide_eq_false_2 (is_Some None)) in Hst by (by intros [? ?]);
    try (destruct (AstNode.children pn) as [|a [|m1 l]] eqn:Hcs; cbn [lookup list_lookup] in Hst;
         cbn [length Nat.leb]; unfold childAt; rewrite ?Hcs; cbn [lookup list_lookup orThrow]).
  all: cbv [mbind M_bind bind mret M_ret ret updScope updVar modify].
  all: rewrite ?set_heap_alter_alter; f_equal; f_equal; apply Hst; intros sc; cbn [compose].
  all: by rewrite ?Hvars.
Qed.

(** The loops that collect the parameters of a function and the fields of a
    struct: one record per definition, in order; a definition without a
    first child makes the loop throw. *)
Lemma collect_params_run (n : AstNode.t) (scope : ScopeId) (nodes : list AstNode.t) st :
  ∀ acc,
    foldM (fun (params : list Var.t) paramNode =>
             f0 ← childAt paramNode 0;
             mret (params ++ [Var.new (Some n) scope (tokenValue f0) (tokenValue paramNode)]))
          acc nodes st
    = if bool_decide (Forall (fun pn => is_Some (AstNode.children pn !! 0)) nodes)
      then Some (acc ++ map (memberOf n scope) nodes, st) else None.
Proof.
  induction nodes as [|pn nodes IH]; intros acc; cbn [foldM map].
  - rewrite bool_decide_eq_true_2 by constructor. by rewrite app_nil_r.
  - rewrite bind_unfold. unfold childAt at 1.
    destruct (AstNode.children pn !! 0) as [f0|] eqn:Hf0; cbn [orThrow].
    + cbv [mbind M_bind bind mret M_ret ret]. rewrite IH.
      rewrite <- app_assoc. cbn [app]. unfold memberOf at 2, declaredName. rewrite Hf0.
      cbn [from_option].
      apply (f_equal (fun c : bool => if c then _ else None)).
      apply bool_decide_ext. rewrite Forall_cons. split; [|tauto]. intros H. split; [|exact H].
      by eexists.
    + cbv [mbind M_bind bind throw]. rewrite bool_decide_eq_false_2; [reflexivity|].
      rewrite Forall_cons. intros [[? H] _]. congruence.
Qed.

Lemma collect_fields_run (n : AstNode.t) (scope : ScopeId) (nodes : list AstNode.t) st :
  ∀ acc,
    foldM (fun (fields : list Var.t) fieldNode =>
             if bool_decide (AstNode.type fieldNode ≠ AstType.VariableDef)
             then mret fields
             else
               f0 ← childAt fieldNode 0;
               mret (fields ++ [Var.new (Some n) scope (tokenValue f0) (tokenValue fieldNode)]))
          acc nodes st
    = let defs := filter (fun fn => AstNode.type fn = AstType.VariableDef) nodes in
      if bool_decide (Forall (fun fn => is_Some (AstNode.children fn !! 0)) defs)
      then Some (acc ++ map (memberOf n scope) defs, st) else None.
Proof.
  cbv zeta. induction nodes as [|fn nodes IH]; intros acc; cbn [foldM].
  - rewrite bool_decide_eq_true_2 by constructor. by rewrite app_nil_r.
  - rewrite bind_unfold. destruct (decide (AstNode.type fn = AstType.VariableDef)) as [Hty|Hty].
    + rewrite (bool_decide_eq_false_2 (_ ≠ _)) by tauto.
      rewrite filter_cons_True by exact Hty. cbn [map]. unfold childAt at 1.
      destruct (AstNode.children fn !! 0) as [f0|] eqn:Hf0; cbn [orThrow].
      * cbv [mbind M_bind bind mret M_ret ret]. rewrite IH.
        rewrite <- app_assoc. cbn [app]. unfold memberOf at 2, declaredName. rewrite Hf0.
        cbn [from_option].
        apply (f_equal (fun c : bool => if c then _ else None)).
        apply bool_decide_ext. rewrite Forall_cons. split; [|tauto]. intros H.
        split; [|exact H]. by eexists.
      * cbv [mbind M_bind bind throw]. rewrite bool_decide_eq_false_2; [reflexivity|].
        rewrite Forall_cons. intros [[? H] _]. congruence.
    + rewrite (bool_decide_eq_true_2 (_ ≠ _)) by exact Hty.
      rewrite filter_cons_False by exact Hty.
      cbv [mret M_ret ret]. apply IH.
Qed.

Lemma ownFunc_opened h p id (sc : Scope.t) :
  Scope.funcs sc = ∅ → ownFunc h p id = None → ownFunc (h ++ [sc]) p id = None.
Proof.
  unfold ownFunc. intros He H. destruct (decide (p < length h)) as [Hlt|Hge].
  - by rewrite lookup_app_l.
  - rewrite lookup_app_r by lia. destruct (p - length h) as [|[|k]]; [|reflexivity..].
    simpl. by rewrite He.
Qed.

Lemma ownStruct_opened h p id (sc : Scope.t) :
  Scope.structs sc = ∅ → ownStruct h p id = None → ownStruct (h ++ [sc]) p id = None.
Proof.
  unfold ownStruct. intros He H. destruct (decide (p < length h)) as [Hlt|Hge].
  - by rewrite lookup_app_l.
  - rewrite lookup_app_r by lia. destruct (p - length h) as [|[|k]]; [|reflexivity..].
    simpl. by rewrite He.
Qed.

(** The FunctionDef scope rule on an id, no member of [Object.prototype],
    that the map of the declaring scope
    [p] does not hold: a scope is opened for the function, with [p] as its
    parent and the function's id as its id, and returned; [p] gets the
    function under its id, declared with the type written in the definition's
    token and with one parameter per child of the Parameters node, in order,
    and gets the new scope under the same id.  The parameters are recorded in
    the function only: the new scope is empty.  A parameter node without a
    child makes the rule throw. *)
Theorem function_definition_registers (n : AstNode.t) (p : ScopeId) (st : State)
    (c0 c1 : AstNode.t) :
  AstNode.children n !! 0 = Some c0 →
  AstNode.children n !! 1 = Some c1 →
  let id := tokenValue c0 in
  let scope := length (heap st) in
  let func := Function.new (Some n) scope id (tokenValue n)
                (map (memberOf n scope) (AstNode.children c1)) in
  let opened := set_heap (fun h => h ++ [Scope.new (Some n) (Some p) id]) st in
  (¬ Forall (fun pn => is_Some (AstNode.children pn !! 0)) (AstNode.children c1) →
   scopeRule_FunctionDef n p st = None) ∧
  (Forall (fun pn => is_Some (AstNode.children pn !! 0)) (AstNode.children c1) →
   ordinary id →
   ownFunc (heap st) p id = None →
   scopeRule_FunctionDef n p st
   = Some (scope,
           set_heap (alter (Scope.set_scopes <[id := scope]>) p)
             (set_heap (alter (Scope.set_funcs <[id := func]>) p) opened))).
Proof.
  intros Hc0 Hc1 id scope func opened.
  assert (Hrun : scopeRule_FunctionDef n p st
                 = (params ← (fun st0 =>
                       if bool_decide (Forall (fun pn => is_Some (AstNode.children pn !! 0))
                                              (AstNode.children c1))
                       then Some (map (memberOf n scope) (AstNode.children c1), st0)
                       else None);
                    let func := Function.new (Some n) scope id (tokenValue n) params in
                    st0 ← get;
                    match ownFunc (heap st0) p (Function.id func) with
                    | Some _ => logError (functionExistsMsg (Function.id func)) n
                    | None =>
                      updScope p (Scope.set_funcs <[Function.id func := func]>);;
                      updScope p (Scope.set_scopes <[id := scope]>)
                    end;;
                    mret scope) opened).
  { unfold scopeRule_FunctionDef.
    rewrite (bind_Some _ _ _ _ _ (childAt_run _ _ _ st Hc0)).
    rewrite (bind_Some _ _ _ _ _ (newScope_run _ _ _ st)).
    rewrite (bind_Some _ _ _ _ _ (childAt_run _ _ _ _ Hc1)).
    rewrite !bind_unfold. fold id scope opened. by rewrite collect_params_run. }
  rewrite Hrun. split.
  - intros Hbad. rewrite bind_unfold. by rewrite bool_decide_eq_false_2 by exact Hbad.
  - intros Hok _ Hown. rewrite bind_unfold. rewrite bool_decide_eq_true_2 by exact Hok.
    cbv zeta. rewrite bind_unfold. cbn [get Function.id Function.new].
    unfold opened at 1. cbn [heap set_heap].
    erewrite ownFunc_opened; [reflexivity | reflexivity | exact Hown].
Qed.

(** The StructDef scope rule on an id that the map of the declaring scope
    [p] does not hold: a scope is opened for the struct, with [p] as its
    parent and the struct's id as its id, and returned; [p] gets the struct
    under its id, with one field per VariableDef child of the Fields node, in
    order and skipping children of other kinds, and gets the new scope under
    the same id.  A field definition without a child makes the rule throw. *)
Theorem struct_definition_registers (n : AstNode.t) (p : ScopeId) (st : State)
    (c0 c1 : AstNode.t) :
  AstNode.children n !! 0 = Some c0 →
  AstNode.children n !! 1 = Some c1 →
  let id := tokenValue c0 in
  let scope := length (heap st) in
  let defs := filter (fun fn => AstNode.type fn = AstType.VariableDef) (AstNode.children c1) in
  let struct := Struct.new (Some n) scope id (map (memberOf n scope) defs) in
  let opened := set_heap (fun h => h ++ [Scope.new (Some n) (Some p) id]) st in
  (¬ Forall (fun fn => is_Some (AstNode.children fn !! 0)) defs →
   scopeRule_StructDef n p st = None) ∧
  (Forall (fun fn => is_Some (AstNode.children fn !! 0)) defs →
   ownStruct (heap st) p id = None →
   scopeRule_StructDef n p st
   = Some (scope,
           set_heap (alter (Scope.set_scopes <[id := scope]>) p)
             (set_heap (alter (Scope.set_structs <[id := struct]>) p) opened))).
Proof.
  intros Hc0 Hc1 id scope defs struct opened.
  assert (Hrun : scopeRule_StructDef n p st
                 = (fields ← (fun st0 =>
                       if bool_decide (Forall (fun fn => is_Some (AstNode.children fn !! 0))
                                              defs)
                       then Some (map (memberOf n scope) defs, st0)
                       else None);
                    let struct := Struct.new (Some n) scope id fields in
                    st0 ← get;
                    match ownStruct (heap st0) p (Struct.id struct) with
                    | Some _ => logError (structExistsMsg (Struct.id struct)) n
                    | None =>
                      updScope p (Scope.set_structs <[Struct.id struct := struct]>);;
                      updScope p (Scope.set_scopes <[id := scope]>)
                    end;;
                    mret scope) opened).
  { unfold scopeRule_StructDef.
    rewrite (bind_Some _ _ _ _ _ (childAt_run _ _ _ st Hc0)).
    rewrite (bind_Some _ _ _ _ _ (newScope_run _ _ _ st)).
    rewrite (bind_Some _ _ _ _ _ (childAt_run _ _ _ _ Hc1)).
    rewrite !bind_unfold. fold id scope opened. by rewrite collect_fields_run. }
  rewrite Hrun. split.
  - intros Hbad. rewrite bind_unfold. by rewrite bool_decide_eq_false_2 by exact Hbad.
  - intros Hok Hown. rewrite bind_unfold. rewrite bool_decide_eq_true_2 by exact Hok.
    cbv zeta. rewrite bind_unfold. cbn [get Struct.id Struct.new].
    unfold opened at 1. cbn [heap set_heap].
    erewrite ownStruct_opened; [reflexivity | reflexivity | exact Hown].
Qed.
End Declarations.

Lemma variable_definition_registers_witness :
  let nvar := Var.mk (Some mappedDef) rootScope "m" "int" false false true true (Num 16) in
  let st' := set_heap (alter (Scope.set_vars <["m" := nvar]>) rootScope) emptyState in
  scopeRule_VariableDef mapProgram mappedDef [0; 0] rootScope emptyState
  = Some (rootScope, st') ∧
  ownVar (heap st') rootScope "m" = Some nvar.
Proof.
  intros nvar st'.
  pose proof (variable_definition_registers mapProgram mappedDef [0; 0] rootScope emptyState
                (vid "m") eq_refl ltac:(by_decide) eq_refl) as [H1 H2].
  split; [exact H1|]. exact (H2 (ex_intro _ _ eq_refl)).
Defined.

Lemma function_definition_registers_witness :
  let func := Function.new (Some secondFunction) 1 "nop" "int"
                [Var.new (Some secondFunction) 1 "a" "int"] in
  scopeRule_FunctionDef secondFunction rootScope emptyState
  = Some (1, mkState [ Scope.set_scopes <["nop" := 1]>
                         (Scope.set_funcs <["nop" := func]> (Scope.new None None EmptyString));
                       Scope.new (Some secondFunction) (Some rootScope) "nop" ] ∅ ∅ []).
Proof.
  intros func.
  assert (Hps : Forall (fun pn => is_Some (AstNode.children pn !! 0)) [vdef "int" "a"])
    by (repeat constructor; by eexists).
  exact (proj2 (function_definition_registers secondFunction rootScope emptyState
                  (fid "nop") _ eq_refl eq_refl) Hps ltac:(by_decide) eq_refl).
Defined.

Lemma struct_definition_registers_witness :
  let struct := Struct.new (Some pointStruct) 1 "P"
                  [Var.new (Some pointStruct) 1 "x" "int";
                   Var.new (Some pointStruct) 1 "y" "long"] in
  scopeRule_StructDef pointStruct rootScope emptyState
  = Some (1, mkState [ Scope.set_scopes <["P" := 1]>
                         (Scope.set_structs <["P" := struct]>
                            (Scope.new None None EmptyString));
                       Scope.new (Some pointStruct) (Some rootScope) "P" ] ∅ ∅ []).
Proof.
  intros struct.
  assert (Hfs : Forall (fun fn => is_Some (AstNode.children fn !! 0))
                  (filter (fun fn => AstNode.type fn = AstType.VariableDef)
                          [vdef "int" "x"; nd AstType.Comment (tk TokenType.Comment "//") [];
                           vdef "long" "y"]))
    by (repeat constructor; by eexists).
  exact (proj2 (struct_definition_registers pointStruct rootScope emptyState
                  (nd AstType.StructId (tk TokenType.Name "P") []) _ eq_refl eq_refl)
           Hfs eq_refl).
Defined.

(** ** The modifier rules *)

Lemma scope_modifiers_noop (root : AstNode.t) (path : Path) (p : ScopeId) (st : State) :
  scopeRule_Const root path p st = Some (p, st) ∧
  scopeRule_Export root path p st = Some (p, st).
Proof.
  unfold scopeRule_Const, scopeRule_Export. rewrite bind_descendFirst_None. by split.
Qed.

(** The scope rules of Const and Export descend from the parent through
    first children for as long as there is a node, and so end without one:
    whatever the tree, they return the parent scope and leave the state as it
    is; no variable is marked const and nothing is marked exported. *)
Theorem modifier_rules_change_nothing (root : AstNode.t) (path : Path) (p : ScopeId)
    (st : State) :
  scopeRule_Const root path p st = Some (p, st) ∧
  scopeRule_Export root path p st = Some (p, st).
Proof. apply scope_modifiers_noop. Qed.

(** ** The scope of an access *)

(** The Access scope rule looks the left-hand name, no member of
    [Object.prototype], up as a scope, from the
    parent scope [p] outwards: a scope found is returned and nothing changes.
    If there is none and the name is no variable either, or a variable of a
    primitive type, the rule logs "No scope named ..." at the access and
    returns [p]. *)
Theorem access_scope_rule (n : AstNode.t) (p : ScopeId) (st : State) (c0 : AstNode.t) :
  AstNode.children n !! 0 = Some c0 →
  ordinary (tokenValue c0) →
  let name := tokenValue c0 in
  let missing := Some (p, withLog (errorMsg (noScopeMsg name) n) st) in
  (∀ s, Scope.getScope (heap st) p name = Some s → scopeRule_Access n p st = Some (s, st)) ∧
  (Scope.getScope (heap st) p name = None →
   Scope.getVariable (heap st) p name = None →
   scopeRule_Access n p st = missing) ∧
  (∀ v, Scope.getScope (heap st) p name = None →
        Scope.getVariable (heap st) p name = Some v →
        DataType.isPrimitive (Var.type v) = true →
        scopeRule_Access n p st = missing).
Proof.
  intros Hc0 _ name missing. subst missing.
  assert (Hrun : scopeRule_Access n p st
                 = match Scope.getScope (heap st) p name with
                   | Some scope => Some (scope, st)
                   | None =>
                     match Scope.getVariable (heap st) p name with
                     | Some nvar =>
                       (makeStructScope nvar p;;
                        st' ← get;
                        match Scope.getScope (heap st') p name with
                        | Some scope => mret scope
                        | None => logError (noScopeMsg name) n;; mret p
                        end) st
                     | None => Some (p, withLog (errorMsg (noScopeMsg name) n) st)
                     end
                   end).
  { unfold scopeRule_Access. rewrite (bind_Some _ _ _ _ _ (childAt_run _ _ _ st Hc0)).
    rewrite bind_unfold. cbn [get]. fold name.
    destruct (Scope.getScope (heap st) p name); [reflexivity|].
    destruct (Scope.getVariable (heap st) p name); reflexivity. }
  rewrite Hrun. split; [|split].
  - by intros s ->.
  - by intros -> ->.
  - intros v Hs -> Hprim. rewrite Hs. unfold makeStructScope. rewrite Hprim.
    rewrite bind_unfold. cbn [mret M_ret ret]. rewrite bind_unfold. cbn [get]. by rewrite Hs.
Qed.

Lemma access_scope_rule_witness :
  (∃ s, Scope.getScope (heap newSchwaAnalyzer) rootScope "int" = Some s ∧
        scopeRule_Access intAccess rootScope newSchwaAnalyzer = Some (s, newSchwaAnalyzer)) ∧
  scopeRule_Access danglingAccess rootScope newSchwaAnalyzer
  = Some (rootScope, withLog (errorMsg (noScopeMsg "q") danglingAccess) newSchwaAnalyzer).
Proof.
  pose proof (access_scope_rule intAccess rootScope newSchwaAnalyzer (vid "int") eq_refl
                ltac:(by_decide)) as [H1 _].
  pose proof (access_scope_rule danglingAccess rootScope newSchwaAnalyzer (vid "q") eq_refl
                ltac:(by_decide)) as [_ [H2 _]].
  split.
  - destruct (Scope.getScope (heap newSchwaAnalyzer) rootScope "int") as [s|] eqn:Hs;
      [|vm_compute in Hs; discriminate].
    exists s. split; [reflexivity|]. apply H1. exact Hs.
  - apply H2; vm_compute; reflexivity.
Defined.

(** ** What scope resolution touches *)

Lemma sameAnnotations_refl st : sameAnnotations st st.
Proof. by split. Qed.

Lemma sameAnnotations_trans a b c :
  sameAnnotations a b → sameAnnotations b c → sameAnnotations a c.
Proof. intros [? ?] [? ?]. split; congruence. Qed.

Lemma same_logError msg node : pres sameAnnotations (logError msg node).
Proof. apply pres_modify. intros st. by split. Qed.

Lemma same_updScope s f : pres sameAnnotations (updScope s f).
Proof. apply pres_modify. intros st. by split. Qed.

Lemma same_newScope node parent id : pres sameAnnotations (newScope node parent id).
Proof. intros st a st' [= _ <-]. by split. Qed.

Ltac same_struct :=
  first
    [ apply same_logError
    | apply same_updScope
    | apply same_newScope
    | pres_struct_with ltac:(apply sameAnnotations_refl) ltac:(apply sameAnnotations_trans) ].

Ltac same_auto tac := repeat first [ tac | same_struct | pres_cases ].

Lemma same_getSize_fuel fuel : ∀ v p depth, pres sameAnnotations (getSize_fuel fuel v p depth).
Proof.
  induction fuel as [|fuel IH]; intros v p depth; simpl.
  - same_auto fail.
  - unfold getSize_body. same_auto ltac:(apply IH).
Qed.

Lemma same_makeStructScope v p : pres sameAnnotations (makeStructScope v p).
Proof. unfold makeStructScope. same_auto ltac:(apply same_getSize_fuel). Qed.

Section Footprint.
Context (root : AstNode.t).

Lemma same_scopeRegistrations n path p :
  Forall (fun r => pres sameAnnotations r.2) (scopeRegistrations root n path p).
Proof.
  unfold scopeRegistrations.
  repeat (constructor; simpl;
          [first [ unfold scopeRule_Block; by same_auto fail
                 | unfold scopeRule_StructDef, childAt; by same_auto fail
                 | unfold scopeRule_FunctionDef, childAt; by same_auto fail
                 | unfold scopeRule_VariableDef, childAt, updVar; by same_auto fail
                 | unfold scopeRule_Access, childAt;
                   by same_auto ltac:(apply same_makeStructScope)
                 | unfold scopeRule_Const, updVar; by same_auto fail
                 | unfold scopeRule_Export, updVar, updFunc, updStruct; by same_auto fail ]|]).
  constructor.
Qed.

Lemma annotatedUpTo_refl path st : annotatedUpTo path st st.
Proof. by split. Qed.

Lemma annotatedUpTo_trans path a b c :
  annotatedUpTo path a b → annotatedUpTo path b c → annotatedUpTo path a c.
Proof.
  intros [D1 S1] [D2 S2]. split; [congruence|]. intros q Hq. by rewrite S2, S1.
Qed.

Lemma same_annotatedUpTo path st st' : sameAnnotations st st' → annotatedUpTo path st st'.
Proof. intros [S D]. split; [exact D|]. intros q _. by rewrite S. Qed.

Lemma annotatedUpTo_parent i pp st st' :
  annotatedUpTo pp st st' → annotatedUpTo (i :: pp) st st'.
Proof.
  intros [D S]. split; [exact D|]. intros q Hq. apply S. intros Hs. apply Hq.
  by apply suffix_cons_r.
Qed.

Lemma annotatedUpTo_setNodeScope path s :
  pres (annotatedUpTo path) (setNodeScope path s).
Proof.
  apply pres_modify. intros st. split; [reflexivity|]. intros q Hq. simpl.
  apply lookup_insert_ne. intros ->. by apply Hq.
Qed.

Lemma getScope_body_footprint (getParentScope : M ScopeId) path :
  pres (annotatedUpTo path) getParentScope →
  pres (annotatedUpTo path) (getScope_body root getParentScope path).
Proof.
  intros Hparent. unfold getScope_body, nodeScope.
  repeat first
    [ exact Hparent
    | apply annotatedUpTo_setNodeScope
    | match goal with
      | H : _ ∈ rulesFor ?n (scopeRegistrations root ?n ?path ?p) |- _ =>
        pose proof (rulesFor_Forall _ n _ (same_scopeRegistrations n path p)) as HF;
        rewrite Forall_forall in HF;
        intros ? ? ? Hrun; apply same_annotatedUpTo; exact (HF _ H _ _ _ Hrun)
      end
    | pres_struct_with ltac:(apply annotatedUpTo_refl) ltac:(apply annotatedUpTo_trans)
    | pres_cases ].
Qed.

Lemma getScope_footprint path : pres (annotatedUpTo path) (getScope root path).
Proof.
  induction path as [|i pp IH]; rewrite getScope_unfold; apply getScope_body_footprint.
  - apply pres_ret, annotatedUpTo_refl.
  - intros st s st' H. apply annotatedUpTo_parent. eapply IH, H.
Qed.

Lemma same_dataTypes_pass (pass : AstNode.t → Path → M unit) :
  (∀ node path,
     pass node path
     = (s ← getScope root path;
        setNodeScope path s;;
        forIndexed (fun i child =>
                      if bool_decide (AstNode.type child ≠ AstType.StructDef)
                      then mret tt else pass child (i :: path))
                   0 (AstNode.children node)) ∨
     pass node path
     = (s ← getScope root path;
        setNodeScope path s;;
        forIndexed (fun i child => pass child (i :: path)) 0 (AstNode.children node))) →
  ∀ node path, pres (fun st st' => dataTypeOf st' = dataTypeOf st) (pass node path).
Proof.
  intros Hpass node. induction node as [ty tok v cs IH] using AstNode_ind'. intros path.
  rewrite Forall_forall in IH.
  assert (Hrefl : ∀ st : State, dataTypeOf st = dataTypeOf st) by reflexivity.
  assert (Htrans : ∀ a b c : State,
             dataTypeOf b = dataTypeOf a → dataTypeOf c = dataTypeOf b →
             dataTypeOf c = dataTypeOf a) by (intros; congruence).
  assert (Hscope : pres (fun st st' => dataTypeOf st' = dataTypeOf st) (getScope root path)).
  { intros st s st' H. by apply getScope_footprint in H as [D _]. }
  assert (Hset : ∀ s, pres (fun st st' => dataTypeOf st' = dataTypeOf st)
                        (setNodeScope path s)).
  { intros s. apply pres_modify. reflexivity. }
  destruct (Hpass (AstNode.mk ty tok v cs) path) as [-> | ->]; cbn [AstNode.children].
  - apply pres_bind; [exact Htrans | exact Hscope | intros s].
    apply pres_bind; [exact Htrans | apply Hset | intros _].
    apply pres_forIndexed; [exact Hrefl | exact Htrans | intros i x Hx].
    destruct (bool_decide _); [by apply pres_ret | by apply IH].
  - apply pres_bind; [exact Htrans | exact Hscope | intros s].
    apply pres_bind; [exact Htrans | apply Hset | intros _].
    apply pres_forIndexed; [exact Hrefl | exact Htrans | intros i x Hx]. by apply IH.
Qed.

(** Scope resolution annotates scopes along one branch only and types
    nothing: [getScope] of a node leaves every data type as it is, and every
    scope annotation other than those of the node and of the nodes above
    it. *)
Theorem scope_resolution_footprint (path : Path) (st st' : State) (s : ScopeId) :
  getScope root path st = Some (s, st') →
  dataTypeOf st' = dataTypeOf st ∧
  ∀ q, ¬ q `suffix_of` path → scopeOf st' !! q = scopeOf st !! q.
Proof. intros H. exact (getScope_footprint path _ _ _ H). Qed.

(** The hoist pass and the scope pass, which do nothing but resolve scopes,
    leave every data type as it is. *)
Theorem scope_passes_type_nothing (node : AstNode.t) (path : Path) (st st' : State) (u : unit) :
  hoistPass root node path st = Some (u, st') ∨ scopePass root node path st = Some (u, st') →
  dataTypeOf st' = dataTypeOf st.
Proof.
  intros [H|H]; revert H.
  - apply (same_dataTypes_pass (hoistPass root)). intros n q. left. apply hoistPass_unfold.
  - apply (same_dataTypes_pass (scopePass root)). intros n q. right. apply scopePass_unfold.
Qed.

(** ** Scopes that are inherited *)

Lemma rulesFor_scope_none n path p :
  AstNode.type n ∉ scopeOpeningKinds →
  AstNode.type n ≠ AstType.Const → AstNode.type n ≠ AstType.Export →
  rulesFor n (scopeRegistrations root n path p) = [].
Proof.
  intros Hk Hc He. unfold rulesFor, scopeRegistrations. cbn [omap list_omap fst snd].
  unfold scopeOpeningKinds in Hk. rewrite !not_elem_of_cons in Hk.
  destruct Hk as (? & ? & ? & ? & ? & ? & _).
  repeat (destruct (decide _) as [E|_]; [congruence|]). reflexivity.
Qed.

Lemma getScope_inherit_from n path st ps st1 (getParentScope : M ScopeId) :
  nodeAt root path = Some n →
  AstNode.type n ∉ scopeOpeningKinds →
  scopeOf st !! path = None →
  getParentScope st = Some (ps, st1) →
  scopeOf st1 !! path = None →
  getScope_body root getParentScope path st = Some (ps, withScope path ps st1).
Proof.
  intros Hn Hk Hnone Hpar Hnone1. unfold getScope_body.
  rewrite (bind_Some _ _ _ _ _ (nodeScope_run path st)), Hnone.
  rewrite (bind_Some _ _ _ _ _ Hpar), Hn. cbn [orThrow].
  rewrite bind_unfold. cbn [mret M_ret ret].
  destruct (decide (AstNode.type n = AstType.Const)) as [Hc|Hc];
    [|destruct (decide (AstNode.type n = AstType.Export)) as [He|He]].
  - assert (Hr : rulesFor n (scopeRegistrations root n path ps) = [scopeRule_Const root path ps])
      by (unfold rulesFor, scopeRegistrations; rewrite Hc; reflexivity).
    rewrite Hr. cbn [foldM]. rewrite !bind_unfold.
    rewrite (proj1 (scope_modifiers_noop root path ps st1)).
    cbv [setNodeScope modify mret M_ret ret].
    rewrite (bind_Some _ _ _ _ _ (nodeScope_run path _)).
    cbn [scopeOf withScope set_scopeOf]. rewrite lookup_insert_eq. reflexivity.
  - assert (Hr : rulesFor n (scopeRegistrations root n path ps)
                 = [scopeRule_Export root path ps])
      by (unfold rulesFor, scopeRegistrations; rewrite He; reflexivity).
    rewrite Hr. cbn [foldM]. rewrite !bind_unfold.
    rewrite (proj2 (scope_modifiers_noop root path ps st1)).
    cbv [setNodeScope modify mret M_ret ret].
    rewrite (bind_Some _ _ _ _ _ (nodeScope_run path _)).
    cbn [scopeOf withScope set_scopeOf]. rewrite lookup_insert_eq. reflexivity.
  - rewrite rulesFor_scope_none by assumption. cbn [foldM].
    cbv [mret M_ret ret mbind M_bind bind nodeScope get setNodeScope modify].
    by rewrite Hnone1.
Qed.

(** A node that carries no scope yet and is of a kind that opens or enters
    no scope (any kind but Program, Block, StructDef, FunctionDef, VariableDef
    and Access; Const and Export included) gets the scope of its parent, the
    root scope at the root of the tree; beyond what resolving the parent's
    scope did, only the node's annotation changes. *)
Theorem scope_is_inherited (n : AstNode.t) (path : Path) (st : State) :
  nodeAt root path = Some n →
  AstNode.type n ∉ scopeOpeningKinds →
  scopeOf st !! path = None →
  match path with
  | [] => getScope root [] st = Some (rootScope, withScope [] rootScope st)
  | i :: pp =>
    ∀ ps st1, getScope root pp st = Some (ps, st1) →
              getScope root (i :: pp) st = Some (ps, withScope (i :: pp) ps st1)
  end.
Proof.
  intros Hn Hk Hnone. destruct path as [|i pp].
  - rewrite getScope_unfold. by apply (getScope_inherit_from n).
  - intros ps st1 Hpar. rewrite getScope_unfold.
    apply (getScope_inherit_from n); [exact Hn | exact Hk | exact Hnone | exact Hpar|].
    destruct (getScope_footprint pp _ _ _ Hpar) as [_ S].
    rewrite S; [exact Hnone|]. intros Hs. apply suffix_length in Hs. simpl in Hs. lia.
Qed.
End Footprint.

Lemma scope_resolution_footprint_witness :
  let st := withDataType [0] (Some "int") emptyState in
  let st' := stateAfter (getScope constProgram [0; 0]) st in
  getScope constProgram [0; 0] st = Some (1, st') ∧
  dataTypeOf st' = dataTypeOf st ∧
  ∀ q, ¬ q `suffix_of` [0; 0] → scopeOf st' !! q = scopeOf st !! q.
Proof.
  intros st st'.
  assert (H : getScope constProgram [0; 0] st = Some (1, st')) by (vm_compute; reflexivity).
  split; [exact H|]. exact (scope_resolution_footprint constProgram [0; 0] st st' 1 H).
Defined.

Lemma scope_passes_type_nothing_witness :
  let st := withDataType [0] (Some "int") emptyState in
  let st' := stateAfter (scopePass constProgram constProgram []) st in
  scopePass constProgram constProgram [] st = Some (tt, st') ∧
  dataTypeOf st' = dataTypeOf st.
Proof.
  intros st st'.
  assert (H : scopePass constProgram constProgram [] st = Some (tt, st'))
    by (vm_compute; reflexivity).
  split; [exact H|].
  exact (scope_passes_type_nothing constProgram constProgram [] st st' tt (or_intror H)).
Defined.

Lemma scope_is_inherited_witness :
  let st1 := stateAfter (getScope constProgram []) emptyState in
  getScope constProgram [] emptyState = Some (1, st1) ∧
  getScope constProgram [0] emptyState = Some (1, withScope [0] 1 st1).
Proof.
  intros st1.
  assert (H : getScope constProgram [] emptyState = Some (1, st1)) by (vm_compute; reflexivity).
  split; [exact H|].
  assert (Hk : AstType.Const ∉ scopeOpeningKinds) by by_decide.
  exact (scope_is_inherited constProgram
           (nd AstType.Const (tk TokenType.Const "const") [vdef "int" "k"]) [0] emptyState
           eq_refl Hk eq_refl 1 st1 H).
Defined.

(** ** Well-formed heaps *)

Lemma wfKept_refl st : wfKept st st.
Proof. intros H. by split. Qed.

Lemma wfKept_trans a b c : wfKept a b → wfKept b c → wfKept a c.
Proof.
  intros H1 H2 Ha. destruct (H1 Ha) as [Hb L1]. destruct (H2 Hb) as [Hc L2].
  split; [exact Hc | lia].
Qed.

Lemma treeKept_refl st : treeKept st st.
Proof. split; [reflexivity|]. split; [reflexivity|]. intros i sc H. by exists sc. Qed.

Lemma treeKept_trans a b c : treeKept a b → treeKept b c → treeKept a c.
Proof.
  intros (S1 & L1 & T1) (S2 & L2 & T2). split; [congruence|]. split; [congruence|].
  intros i sc H. destruct (T1 i sc H) as (sc1 & H1 & P1 & C1).
  destruct (T2 i sc1 H1) as (sc2 & H2 & P2 & C2). exists sc2. split; [exact H2|].
  split; congruence.
Qed.

Lemma treeKept_wfKept st st' : treeKept st st' → wfKept st st'.
Proof.
  intros (S & L & T) [[Hlen Hwf] Hsc]. split; [|lia]. split; [split|].
  - lia.
  - intros i sc' Hi.
    assert (Hlt : i < length (heap st)) by (rewrite <- L; by eapply lookup_lt_Some).
    apply lookup_lt_is_Some in Hlt as [sc Hsc0].
    destruct (T i sc Hsc0) as (sc'' & Hi' & P & C).
    assert (sc'' = sc') as -> by congruence.
    destruct (Hwf i sc Hsc0) as [Hp Hs]. rewrite P, C, L. by split.
  - intros q s Hq. rewrite S in Hq. rewrite L. by eapply Hsc.
Qed.

Lemma treeKept_same st st' :
  heap st' = heap st → scopeOf st' = scopeOf st → treeKept st st'.
Proof.
  intros Hh Hs. split; [exact Hs|]. split; [by rewrite Hh|].
  intros i sc H. exists sc. by rewrite Hh.
Qed.

Lemma tree_logError msg node : pres treeKept (logError msg node).
Proof. apply pres_modify. intros st. by apply treeKept_same. Qed.

Lemma tree_setNodeDataType path t : pres treeKept (setNodeDataType path t).
Proof. apply pres_modify. intros st. by apply treeKept_same. Qed.

Lemma tree_updScope s (f : Scope.t → Scope.t) :
  (∀ sc, Scope.parent (f sc) = Scope.parent sc ∧ Scope.scopes (f sc) = Scope.scopes sc) →
  pres treeKept (updScope s f).
Proof.
  intros Hf. apply pres_modify. intros st. split; [reflexivity|].
  split; [cbn [heap set_heap]; apply length_alter|].
  intros i sc Hi. cbn [heap set_heap]. destruct (decide (s = i)) as [->|Hne].
  - exists (f sc). split; [by rewrite list_lookup_alter_eq, Hi | apply Hf].
  - exists sc. split; [by rewrite list_lookup_alter_ne | by split].
Qed.

Ltac tree_struct :=
  first
    [ apply tree_logError
    | apply tree_setNodeDataType
    | apply tree_updScope; intros [? ? ? ? ? ? ?]; by split
    | pres_struct_with ltac:(apply treeKept_refl) ltac:(apply treeKept_trans) ].

Ltac tree_auto tac := repeat first [ tac | tree_struct | pres_cases ].

Lemma tree_getSize_fuel fuel : ∀ v p depth, pres treeKept (getSize_fuel fuel v p depth).
Proof.
  induction fuel as [|fuel IH]; intros v p depth; simpl.
  - tree_auto fail.
  - unfold getSize_body. tree_auto ltac:(apply IH).
Qed.

Lemma wf_opened st node p id :
  wfState st → p < length (heap st) →
  wfState (set_heap (fun h => h ++ [Scope.new node (Some p) id]) st).
Proof.
  intros [[Hlen Hwf] Hsc] Hp. split; [split|]; cbn [heap set_heap scopeOf].
  - rewrite length_app. simpl. lia.
  - intros i sc Hi. rewrite length_app. simpl.
    destruct (decide (i < length (heap st))) as [Hlt|Hge].
    + rewrite lookup_app_l in Hi by exact Hlt. destruct (Hwf i sc Hi) as [P C].
      split; [exact P|]. intros k j Hj. specialize (C k j Hj). lia.
    + rewrite lookup_app_r in Hi by lia.
      destruct (i - length (heap st)) as [|d] eqn:Hd; [|by destruct d].
      injection Hi as <-. simpl. split.
      * intros p' [= <-]. lia.
      * intros k j Hj. by rewrite lookup_empty in Hj.
  - intros q s Hq. rewrite length_app. specialize (Hsc q s Hq). simpl. lia.
Qed.

Lemma wf_registered st p k j :
  wfState st → j < length (heap st) →
  wfState (set_heap (alter (Scope.set_scopes <[k := j]>) p) st).
Proof.
  intros [[Hlen Hwf] Hsc] Hj. split; [split|]; cbn [heap set_heap scopeOf];
    rewrite ?length_alter; [exact Hlen| |exact Hsc].
  intros i sc' Hi. destruct (decide (p = i)) as [->|Hne].
  - rewrite list_lookup_alter_eq in Hi. destruct (heap st !! i) as [sc|] eqn:Hs; [|discriminate].
    injection Hi as <-. destruct (Hwf i sc Hs) as [P C]. destruct sc. simpl in *.
    split; [exact P|]. intros k' j' Hj'.
    destruct (decide (k = k')) as [->|Hk].
    + rewrite lookup_insert_eq in Hj'. by injection Hj' as <-.
    + rewrite lookup_insert_ne in Hj' by exact Hk. by eapply C.
  - rewrite list_lookup_alter_ne in Hi by exact Hne. by apply Hwf.
Qed.

Lemma wf_withScope st path s :
  wfState st → s < length (heap st) → wfState (withScope path s st).
Proof.
  intros [Hh Hsc] Hs. split; [exact Hh|]. cbn [heap scopeOf withScope set_scopeOf].
  intros q s' Hq. destruct (decide (path = q)) as [->|Hne].
  - rewrite lookup_insert_eq in Hq. by injection Hq as <-.
  - rewrite lookup_insert_ne in Hq by exact Hne. by eapply Hsc.
Qed.

Lemma wf_withLog st m : wfState st → wfState (withLog m st).
Proof. intros H. exact H. Qed.

(** What a lookup finds is held by a scope of the heap. *)
Lemma lookupUp_Some {A} (sel : Scope.t → gmap string A) h fuel :
  ∀ this id owner x,
    Scope.lookupUp sel h fuel this id = Some (owner, x) →
    ∃ sc, h !! owner = Some sc ∧ sel sc !! id = Some x.
Proof.
  induction fuel as [|fuel IH]; intros this id owner x H; [discriminate|].
  cbn [Scope.lookupUp] in H. destruct (h !! this) as [sc|] eqn:Hs; [|discriminate].
  destruct (sel sc !! id) as [y|] eqn:Hy.
  - injection H as <- <-. by exists sc.
  - destruct (Scope.parent sc) as [p|]; [|discriminate]. by eapply IH.
Qed.

Lemma getScope_valid h p name j :
  wfHeap h → Scope.getScope h p name = Some j → j < length h.
Proof.
  intros [_ Hwf] H. unfold Scope.getScope in H.
  destruct (Scope.lookupUp Scope.scopes h (length h) p name) as [[owner x]|] eqn:Hl;
    [|discriminate].
  injection H as <-. apply lookupUp_Some in Hl as (sc & Hsc & Hx).
  by eapply (Hwf owner sc Hsc).
Qed.

Lemma childAt_inv n i st c st' :
  childAt n i st = Some (c, st') → AstNode.children n !! i = Some c ∧ st' = st.
Proof.
  unfold childAt. destruct (AstNode.children n !! i); [|discriminate]. by intros [= -> ->].
Qed.

Lemma step_Block n p : scopeStep p (scopeRule_Block n p).
Proof.
  intros st s st' Hwf Hp H. injection H as <- <-.
  split; [|split].
  - apply wf_registered; [by apply wf_opened|].
    cbn [heap set_heap]. rewrite length_app. simpl. lia.
  - cbn [heap set_heap]. rewrite length_alter, length_app. lia.
  - cbn [heap set_heap]. rewrite length_alter, length_app. simpl. lia.
Qed.

Lemma step_declaration (p : ScopeId) (node : option AstNode.t) (id : string) (msg : string)
    (n : AstNode.t) (f : Scope.t → Scope.t) st s st' :
  (∀ sc, Scope.parent (f sc) = Scope.parent sc ∧ Scope.scopes (f sc) = Scope.scopes sc) →
  wfState st → p < length (heap st) →
  let opened := set_heap (fun h => h ++ [Scope.new node (Some p) id]) st in
  (s, st') = (length (heap st), withLog (errorMsg msg n) opened) ∨
  (s, st') = (length (heap st),
              set_heap (alter (Scope.set_scopes <[id := length (heap st)]>) p)
                (set_heap (alter f p) opened)) →
  wfState st' ∧ length (heap st) ≤ length (heap st') ∧ s < length (heap st').
Proof.
  intros Hf Hwf Hp opened H.
  assert (Hopen : wfState opened) by (by apply wf_opened).
  assert (Hlen : length (heap opened) = S (length (heap st)))
    by (cbn [heap set_heap opened]; rewrite length_app; simpl; lia).
  destruct H as [[= -> ->]|[= -> ->]].
  - split; [exact Hopen|]. cbn [heap withLog set_logger] in *. lia.
  - assert (Ht : wfState (set_heap (alter f p) opened) ∧
                 length (heap (set_heap (alter f p) opened)) = S (length (heap st))).
    { split.
      - apply (treeKept_wfKept opened); [|exact Hopen].
        exact (tree_updScope p f Hf opened tt _ eq_refl).
      - cbn [heap set_heap]. by rewrite length_alter. }
    destruct Ht as [Ht Hl]. split; [apply wf_registered; [exact Ht | lia]|].
    cbn [heap set_heap] in *. rewrite !length_alter in *. lia.
Qed.

Lemma scopeRule_FunctionDef_result n p st c0 c1 :
  AstNode.children n !! 0 = Some c0 →
  AstNode.children n !! 1 = Some c1 →
  let id := tokenValue c0 in
  let scope := length (heap st) in
  let func := Function.new (Some n) scope id (tokenValue n)
                (map (memberOf n scope) (AstNode.children c1)) in
  let opened := set_heap (fun h => h ++ [Scope.new (Some n) (Some p) id]) st in
  scopeRule_FunctionDef n p st
  = if bool_decide (Forall (fun pn => is_Some (AstNode.children pn !! 0)) (AstNode.children c1))
    then Some (scope,
               match ownFunc (heap opened) p id with
               | Some _ => withLog (errorMsg (functionExistsMsg id) n) opened
               | None => set_heap (alter (Scope.set_scopes <[id := scope]>) p)
                           (set_heap (alter (Scope.set_funcs <[id := func]>) p) opened)
               end)
    else None.
Proof.
  intros Hc0 Hc1 id scope func opened. unfold scopeRule_FunctionDef.
  rewrite (bind_Some _ _ _ _ _ (childAt_run _ _ _ st Hc0)).
  rewrite (bind_Some _ _ _ _ _ (newScope_run _ _ _ st)).
  rewrite (bind_Some _ _ _ _ _ (childAt_run _ _ _ _ Hc1)).
  rewrite bind_unfold. fold id scope opened. rewrite collect_params_run.
  destruct (bool_decide _); [|reflexivity].
  cbv zeta. rewrite bind_unfold. cbn [get Function.id Function.new app].
  by destruct (ownFunc (heap opened) p id).
Qed.

Lemma scopeRule_StructDef_result n p st c0 c1 :
  AstNode.children n !! 0 = Some c0 →
  AstNode.children n !! 1 = Some c1 →
  let id := tokenValue c0 in
  let scope := length (heap st) in
  let defs := filter (fun fn => AstNode.type fn = AstType.VariableDef) (AstNode.children c1) in
  let struct := Struct.new (Some n) scope id (map (memberOf n scope) defs) in
  let opened := set_heap (fun h => h ++ [Scope.new (Some n) (Some p) id]) st in
  scopeRule_StructDef n p st
  = if bool_decide (Forall (fun fn => is_Some (AstNode.children fn !! 0)) defs)
    then Some (scope,
               match ownStruct (heap opened) p id with
               | Some _ => withLog (errorMsg (structExistsMsg id) n) opened
               | None => set_heap (alter (Scope.set_scopes <[id := scope]>) p)
                           (set_heap (alter (Scope.set_structs <[id := struct]>) p) opened)
               end)
    else None.
Proof.
  intros Hc0 Hc1 id scope defs struct opened. unfold scopeRule_StructDef.
  rewrite (bind_Some _ _ _ _ _ (childAt_run _ _ _ st Hc0)).
  rewrite (bind_Some _ _ _ _ _ (newScope_run _ _ _ st)).
  rewrite (bind_Some _ _ _ _ _ (childAt_run _ _ _ _ Hc1)).
  rewrite bind_unfold. fold id scope opened. rewrite collect_fields_run.
  cbv zeta. fold defs. destruct (bool_decide _); [|reflexivity].
  rewrite bind_unfold. cbn [get Struct.id Struct.new app].
  by destruct (ownStruct (heap opened) p id).
Qed.

Lemma FunctionDef_children n p st r :
  scopeRule_FunctionDef n p st = Some r →
  ∃ c0 c1, AstNode.children n !! 0 = Some c0 ∧ AstNode.children n !! 1 = Some c1.
Proof.
  destruct r as [a st']. unfold scopeRule_FunctionDef. intros H.
  apply bind_inv in H as (c0 & s0 & Hc0 & H). apply childAt_inv in Hc0 as [Hc0 ->].
  apply bind_inv in H as (scope & s1 & _ & H).
  apply bind_inv in H as (c1 & s2 & Hc1 & H). apply childAt_inv in Hc1 as [Hc1 ->].
  by exists c0, c1.
Qed.

Lemma StructDef_children n p st r :
  scopeRule_StructDef n p st = Some r →
  ∃ c0 c1, AstNode.children n !! 0 = Some c0 ∧ AstNode.children n !! 1 = Some c1.
Proof.
  destruct r as [a st']. unfold scopeRule_StructDef. intros H.
  apply bind_inv in H as (c0 & s0 & Hc0 & H). apply childAt_inv in Hc0 as [Hc0 ->].
  apply bind_inv in H as (scope & s1 & _ & H).
  apply bind_inv in H as (c1 & s2 & Hc1 & H). apply childAt_inv in Hc1 as [Hc1 ->].
  by exists c0, c1.
Qed.

Lemma step_FunctionDef n p : scopeStep p (scopeRule_FunctionDef n p).
Proof.
  intros st s st' Hwf Hp H.
  destruct (FunctionDef_children n p st _ H) as (c0 & c1 & Hc0 & Hc1).
  rewrite (scopeRule_FunctionDef_result n p st c0 c1 Hc0 Hc1) in H. cbv zeta in H.
  destruct (bool_decide _); [|discriminate]. injection H as <- <-.
  eapply (step_declaration p (Some n) (tokenValue c0) _ n
            (Scope.set_funcs <[tokenValue c0 := _]>)); [|exact Hwf|exact Hp|].
  - by intros [? ? ? ? ? ? ?].
  - destruct (ownFunc _ p (tokenValue c0)); [by left | by right].
Qed.

Lemma step_StructDef n p : scopeStep p (scopeRule_StructDef n p).
Proof.
  intros st s st' Hwf Hp H.
  destruct (StructDef_children n p st _ H) as (c0 & c1 & Hc0 & Hc1).
  rewrite (scopeRule_StructDef_result n p st c0 c1 Hc0 Hc1) in H. cbv zeta in H.
  destruct (bool_decide _); [|discriminate]. injection H as <- <-.
  eapply (step_declaration p (Some n) (tokenValue c0) _ n
            (Scope.set_structs <[tokenValue c0 := _]>)); [|exact Hwf|exact Hp|].
  - by intros [? ? ? ? ? ? ?].
  - destruct (ownStruct _ p (tokenValue c0)); [by left | by right].
Qed.

Lemma step_treeKept (p : ScopeId) (m : M ScopeId) :
  pres treeKept m → (∀ st s st', m st = Some (s, st') → s = p) → scopeStep p m.
Proof.
  intros Htree Hret st s st' Hwf Hp H. rewrite (Hret _ _ _ H).
  destruct (treeKept_wfKept _ _ (Htree _ _ _ H) Hwf) as [Hwf' Hlen].
  split; [exact Hwf'|]. split; lia.
Qed.

Lemma step_VariableDef root n path p : scopeStep p (scopeRule_VariableDef root n path p).
Proof.
  apply step_treeKept.
  - unfold scopeRule_VariableDef, childAt, updVar. tree_auto fail.
  - intros st s st' H. unfold scopeRule_VariableDef in H.
    apply bind_inv in H as (c0 & s0 & _ & H).
    apply bind_inv in H as (st0 & s1 & _ & H).
    apply bind_inv in H as (u & s2 & _ & H). by injection H.
Qed.

Lemma step_modifiers root path p :
  scopeStep p (scopeRule_Const root path p) ∧ scopeStep p (scopeRule_Export root path p).
Proof.
  split; intros st s st' Hwf Hp H.
  - rewrite (proj1 (scope_modifiers_noop root path p st)) in H. injection H as <- <-.
    split; [exact Hwf|]. split; lia.
  - rewrite (proj2 (scope_modifiers_noop root path p st)) in H. injection H as <- <-.
    split; [exact Hwf|]. split; lia.
Qed.

Lemma wf_makeStructScope v p st u st' :
  wfState st → p < length (heap st) → makeStructScope v p st = Some (u, st') →
  wfState st' ∧ length (heap st) ≤ length (heap st').
Proof.
  intros Hwf Hp H. unfold makeStructScope in H.
  destruct (DataType.isPrimitive (Var.type v)).
  { injection H as _ <-. by split. }
  apply bind_inv in H as (st0 & ? & [= <- <-] & H).
  destruct (Scope.getStruct (heap st) p (Var.type v)) as [struct|].
  2: { destruct (Var.node v); injection H as _ <-; by split. }
  apply bind_inv in H as (scope & st1 & Hnew & H).
  rewrite newScope_run in Hnew. injection Hnew as <- <-.
  apply bind_inv in H as (u1 & st2 & Hreg & H). injection Hreg as _ <-.
  apply bind_inv in H as (off & st3 & Hfold & H). injection H as _ <-.
  assert (Hwf2 : wfState (set_heap (alter (Scope.set_scopes <[Var.id v := length (heap st)]>) p)
                            (set_heap (fun h => h ++ [Scope.new (Var.node v) (Some p) (Var.id v)])
                                      st))).
  { apply wf_registered; [by apply wf_opened|].
    cbn [heap set_heap]. rewrite length_app. simpl. lia. }
  assert (Htree : pres treeKept
                    (foldM (fun offset field =>
                              let nvar := Var.new None (length (heap st)) (Var.id field)
                                            (Var.type field) in
                              let nvar := Var.set_offset offset
                                            (Var.set_mapped (Var.mapped v)
                                               (Var.set_export (Var.export v)
                                                  (Var.set_const (Var.const v) nvar))) in
                              updScope (length (heap st))
                                (Scope.set_vars <[Var.id nvar := nvar]>);;
                              size ← getSize nvar (length (heap st)) 0;
                              mret (JSNum_add offset size))
                           (Var.offset v) (Struct.fields struct))).
  { apply pres_foldM; [apply treeKept_refl | apply treeKept_trans|].
    intros acc field Hin. cbv zeta. tree_auto ltac:(apply tree_getSize_fuel). }
  destruct (treeKept_wfKept _ _ (Htree _ _ _ Hfold) Hwf2) as [Hwf3 Hlen].
  split; [exact Hwf3|].
  cbn [heap set_heap] in Hlen. rewrite length_alter, length_app in Hlen. lia.
Qed.

Lemma scopeRule_Access_run n p st c0 :
  AstNode.children n !! 0 = Some c0 →
  let name := tokenValue c0 in
  scopeRule_Access n p st
  = match Scope.getScope (heap st) p name with
    | Some scope => Some (scope, st)
    | None =>
      match Scope.getVariable (heap st) p name with
      | Some nvar =>
        (makeStructScope nvar p;;
         st' ← get;
         match Scope.getScope (heap st') p name with
         | Some scope => mret scope
         | None => logError (noScopeMsg name) n;; mret p
         end) st
      | None => Some (p, withLog (errorMsg (noScopeMsg name) n) st)
      end
    end.
Proof.
  intros Hc0 name. unfold scopeRule_Access.
  rewrite (bind_Some _ _ _ _ _ (childAt_run _ _ _ st Hc0)).
  rewrite bind_unfold. cbn [get]. fold name.
  destruct (Scope.getScope (heap st) p name); [reflexivity|].
  destruct (Scope.getVariable (heap st) p name); reflexivity.
Qed.

Lemma step_Access n p : scopeStep p (scopeRule_Access n p).
Proof.
  intros st s st' Hwf Hp H.
  destruct (AstNode.children n !! 0) as [c0|] eqn:Hc0.
  2: { unfold scopeRule_Access, childAt in H. rewrite Hc0 in H. discriminate H. }
  rewrite (scopeRule_Access_run n p st c0 Hc0) in H. cbv zeta in H.
  destruct (Scope.getScope (heap st) p (tokenValue c0)) as [scope|] eqn:Hs.
  { injection H as <- <-. split; [exact Hwf|]. split; [lia|].
    eapply getScope_valid; [apply Hwf | exact Hs]. }
  destruct (Scope.getVariable (heap st) p (tokenValue c0)) as [nvar|].
  2: { injection H as <- <-. split; [exact Hwf|]. cbn [heap withLog set_logger]. split; lia. }
  apply bind_inv in H as (u & st1 & Hmk & H).
  destruct (wf_makeStructScope _ _ _ _ _ Hwf Hp Hmk) as [Hwf1 Hlen1].
  apply bind_inv in H as (st1' & ? & [= <- <-] & H).
  destruct (Scope.getScope (heap st1) p (tokenValue c0)) as [scope|] eqn:Hs1.
  - injection H as <- <-. split; [exact Hwf1|]. split; [exact Hlen1|].
    eapply getScope_valid; [apply Hwf1 | exact Hs1].
  - injection H as <- <-. split; [exact Hwf1|]. cbn [heap withLog set_logger]. split; lia.
Qed.

Section WellFormed.
Context (root : AstNode.t).

Lemma step_scopeRegistrations n path p :
  Forall (fun r => scopeStep p r.2) (scopeRegistrations root n path p).
Proof.
  unfold scopeRegistrations.
  repeat (constructor; simpl;
          [first [ apply step_Block | apply step_StructDef | apply step_FunctionDef
                 | apply step_VariableDef | apply step_Access
                 | apply (proj1 (step_modifiers root path p))
                 | apply (proj2 (step_modifiers root path p)) ]|]).
  constructor.
Qed.

Lemma wf_run_scope_rules path ps (rules : list (M ScopeId)) :
  Forall (scopeStep ps) rules →
  ∀ st u st', wfState st → ps < length (heap st) →
    foldM (fun (_ : unit) rule => s ← rule; setNodeScope path s) tt rules st = Some (u, st') →
    wfState st' ∧ length (heap st) ≤ length (heap st').
Proof.
  induction 1 as [|rule rules Hrule _ IH]; intros st u st' Hwf Hp H.
  - injection H as _ <-. by split.
  - cbn [foldM] in H. apply bind_inv in H as (u1 & st2 & Hone & H).
    apply bind_inv in Hone as (s & st1 & Hr & Hset). injection Hset as _ <-.
    destruct (Hrule _ _ _ Hwf Hp Hr) as (Hwf1 & Hlen1 & Hs).
    destruct (IH (withScope path s st1) u st') as [Hwf' Hlen'].
    + by apply wf_withScope.
    + cbn [heap withScope set_scopeOf]. lia.
    + destruct u1. exact H.
    + split; [exact Hwf'|]. cbn [heap withScope set_scopeOf] in Hlen'. lia.
Qed.

Lemma wf_getScope_body (getParentScope : M ScopeId) path :
  (∀ st s st', wfState st → getParentScope st = Some (s, st') →
     wfState st' ∧ length (heap st) ≤ length (heap st') ∧ s < length (heap st')) →
  ∀ st s st', wfState st → getScope_body root getParentScope path st = Some (s, st') →
    wfState st' ∧ length (heap st) ≤ length (heap st') ∧ s < length (heap st').
Proof.
  intros Hparent st s st' Hwf H. unfold getScope_body in H.
  rewrite (bind_Some _ _ _ _ _ (nodeScope_run path st)) in H.
  destruct (scopeOf st !! path) as [s0|] eqn:Hcur.
  { injection H as <- <-. split; [exact Hwf|]. split; [lia|]. by eapply (proj2 Hwf). }
  apply bind_inv in H as (ps & st1 & Hpar & H).
  destruct (Hparent _ _ _ Hwf Hpar) as (Hwf1 & Hlen1 & Hps).
  apply bind_inv in H as (n & st1' & Hn & H).
  assert (st1' = st1) as -> by (destruct (nodeAt root path); [by injection Hn | discriminate]).
  apply bind_inv in H as (u & st2 & Hrules & H).
  destruct (wf_run_scope_rules path ps _
              (rulesFor_Forall _ n _ (step_scopeRegistrations n path ps))
              _ _ _ Hwf1 Hps Hrules) as [Hwf2 Hlen2].
  rewrite (bind_Some _ _ _ _ _ (nodeScope_run path st2)) in H.
  destruct (scopeOf st2 !! path) as [s2|] eqn:Hcur2.
  - injection H as <- <-. split; [exact Hwf2|]. split; [lia|]. by eapply (proj2 Hwf2).
  - injection H as <- <-. split; [apply wf_withScope; [exact Hwf2 | lia]|].
    cbn [heap withScope set_scopeOf]. split; lia.
Qed.

Lemma wf_getScope path :
  ∀ st s st', wfState st → getScope root path st = Some (s, st') →
    wfState st' ∧ length (heap st) ≤ length (heap st') ∧ s < length (heap st').
Proof.
  induction path as [|i pp IH]; intros st s st'; rewrite getScope_unfold;
    apply wf_getScope_body.
  - intros st0 s0 st0' Hwf [= <- <-]. split; [exact Hwf|]. split; [lia|]. apply Hwf.
  - exact IH.
Qed.

Lemma wfKept_getScope path : pres wfKept (getScope root path).
Proof. intros st s st' H Hwf. destruct (wf_getScope _ _ _ _ Hwf H) as (? & ? & ?). by split. Qed.

Lemma wfKept_logError msg node : pres wfKept (logError msg node).
Proof. intros st u st' H. by apply treeKept_wfKept, (tree_logError msg node st u). Qed.

Lemma wfKept_setNodeDataType path t : pres wfKept (setNodeDataType path t).
Proof. intros st u st' H. by apply treeKept_wfKept, (tree_setNodeDataType path t st u). Qed.

Ltac wf_struct :=
  first
    [ apply wfKept_logError
    | apply wfKept_setNodeDataType
    | apply wfKept_getScope
    | pres_struct_with ltac:(apply wfKept_refl) ltac:(apply wfKept_trans) ].

Ltac wf_auto tac := repeat first [ tac | wf_struct | pres_cases ].

Lemma wfKept_getDataType n : ∀ path, pres wfKept (getDataType root n path).
Proof.
  remember (S (AstNode.height n)) as k eqn:Hk.
  assert (Hlt : AstNode.height n < k) by lia. clear Hk. revert n Hlt.
  induction k as [|k IH]; intros n Hlt path; [lia|].
  rewrite getDataType_unfold. unfold getDataType_body, runDataTypeRules, nodeDataType.
  assert (Hrec : recOk wfKept (getDataType root) n)
    by (intros c q Hc; apply IH; lia).
  wf_auto ltac:(first
    [ match goal with
      | H : _ ∈ rulesFor _ (dataTypeRegistrations _ _ _ _) |- _ =>
        pose proof (rulesFor_Forall _ n _
                      (pres_dataTypeRegistrations root wfKept
                         wfKept_refl wfKept_trans
                         wfKept_logError wfKept_getScope
                         (getDataType root) n path Hrec)) as HF;
        rewrite Forall_forall in HF; apply HF, H
      end ]).
Qed.

Lemma wfKept_scope_step path (rest : M unit) :
  pres wfKept rest →
  pres wfKept (s ← getScope root path; setNodeScope path s;; rest).
Proof.
  intros Hrest st u st' H Hwf.
  apply bind_inv in H as (s & st1 & Hs & H).
  destruct (wf_getScope _ _ _ _ Hwf Hs) as (Hwf1 & Hlen1 & Hvalid).
  apply bind_inv in H as (u1 & st2 & Hset & H). injection Hset as _ <-.
  destruct (Hrest _ _ _ H (wf_withScope _ path s Hwf1 Hvalid)) as [Hwf' Hlen'].
  split; [exact Hwf'|]. cbn [heap withScope set_scopeOf] in Hlen'. lia.
Qed.

Lemma wfKept_hoistPass node : ∀ path, pres wfKept (hoistPass root node path).
Proof.
  induction node as [ty tok v cs IH] using AstNode_ind'. intros path.
  rewrite hoistPass_unfold. cbn [AstNode.children]. rewrite Forall_forall in IH.
  apply wfKept_scope_step. wf_auto ltac:(by apply IH).
Qed.

Lemma wfKept_scopePass node : ∀ path, pres wfKept (scopePass root node path).
Proof.
  induction node as [ty tok v cs IH] using AstNode_ind'. intros path.
  rewrite scopePass_unfold. cbn [AstNode.children]. rewrite Forall_forall in IH.
  apply wfKept_scope_step. wf_auto ltac:(by apply IH).
Qed.

Lemma wfKept_typePass node : ∀ path, pres wfKept (typePass root node path).
Proof.
  induction node as [ty tok v cs IH] using AstNode_ind'. intros path.
  rewrite typePass_unfold. cbn [AstNode.children]. rewrite Forall_forall in IH.
  wf_auto ltac:(first [ apply wfKept_getDataType | by apply IH ]).
Qed.

Lemma wfKept_analyze : pres wfKept (analyze root).
Proof.
  unfold analyze.
  wf_auto ltac:(first [ apply wfKept_hoistPass | apply wfKept_scopePass
                      | apply wfKept_typePass ]).
  intros st u st' H. rewrite analysisPass_noop in H. injection H as _ <-. apply wfKept_refl.
Qed.
End WellFormed.

(** ** Lookups on a well-formed heap *)

Lemma lookupUp_fuel {A} (sel : Scope.t → gmap string A) h id :
  wfHeap h →
  ∀ this fuel, this < fuel →
    Scope.lookupUp sel h fuel this id = Scope.lookupUp sel h (S this) this id.
Proof.
  intros [_ Hwf] this. induction (lt_wf this) as [this _ IH]. intros fuel Hlt.
  destruct fuel as [|fuel]; [lia|]. cbn [Scope.lookupUp].
  destruct (h !! this) as [sc|] eqn:Hs; [|reflexivity].
  destruct (sel sc !! id); [reflexivity|].
  destruct (Scope.parent sc) as [p|] eqn:Hp; [|reflexivity].
  assert (p < this) by (by eapply (Hwf this sc Hs)).
  rewrite (IH p) by lia. by rewrite (IH p ltac:(lia) this).
Qed.

Lemma lookupUp_unfold {A} (sel : Scope.t → gmap string A) h this id :
  wfHeap h → this < length h →
  snd <$> Scope.lookupUp sel h (length h) this id
  = sc ← h !! this;
    match sel sc !! id with
    | Some x => Some x
    | None => p ← Scope.parent sc; snd <$> Scope.lookupUp sel h (length h) p id
    end.
Proof.
  intros Hwf Hlt. rewrite (lookupUp_fuel sel h id Hwf this (length h)) by exact Hlt.
  cbn [Scope.lookupUp]. destruct (h !! this) as [sc|] eqn:Hs; [|reflexivity].
  cbn [mbind option_bind]. destruct (sel sc !! id); [reflexivity|].
  destruct (Scope.parent sc) as [p|] eqn:Hp; [|reflexivity]. cbn [mbind option_bind].
  assert (p < this) by (by eapply (proj2 Hwf this sc Hs)).
  rewrite (lookupUp_fuel sel h id Hwf p this) by lia.
  by rewrite (lookupUp_fuel sel h id Hwf p (length h)) by lia.
Qed.

Lemma wfHeap_uintState : wfHeap (heap uintState).
Proof.
  split; [simpl; lia|]. intros [|i] sc H; [|by destruct i].
  injection H as <-. split; [intros p [=]|]. intros k j Hj.
  cbn [Scope.scopes Scope.set_vars Scope.new] in Hj. by rewrite lookup_empty in Hj.
Qed.

(** Two heaps that hold the same parents and the same maps [sel] below
    [bound] answer alike below [bound]. *)
Lemma lookupUp_agree {A} (sel : Scope.t → gmap string A) h h' id :
  wfHeap h →
  (∀ i sc, h !! i = Some sc →
     ∃ sc', h' !! i = Some sc' ∧ Scope.parent sc' = Scope.parent sc ∧ sel sc' = sel sc) →
  ∀ fuel this, this < length h →
    Scope.lookupUp sel h' fuel this id = Scope.lookupUp sel h fuel this id.
Proof.
  intros Hwf Hagree. induction fuel as [|fuel IH]; intros this Hlt; [reflexivity|].
  cbn [Scope.lookupUp]. apply lookup_lt_is_Some in Hlt as Hsc. destruct Hsc as [sc Hsc].
  destruct (Hagree this sc Hsc) as (sc' & Hsc' & P & S). rewrite Hsc, Hsc', P, S.
  destruct (sel sc !! id); [reflexivity|].
  destruct (Scope.parent sc) as [p|] eqn:Hp; [|reflexivity].
  apply IH. assert (p < this) by (by eapply (proj2 Hwf this sc Hsc)). lia.
Qed.

Lemma opened_scope_lookup {A} (sel : Scope.t → gmap string A) h h' s p id :
  wfHeap h → p < length h → length h < length h' →
  (∀ i sc, h !! i = Some sc →
     ∃ sc', h' !! i = Some sc' ∧ Scope.parent sc' = Scope.parent sc ∧ sel sc' = sel sc) →
  (∃ sc, h' !! s = Some sc ∧ Scope.parent sc = Some p ∧ sel sc = ∅) →
  snd <$> Scope.lookupUp sel h' (length h') s id
  = snd <$> Scope.lookupUp sel h (length h) p id.
Proof.
  intros Hwf Hp Hlen Hagree (sc & Hs & Hpar & Hempty).
  destruct (length h') as [|len'] eqn:Hl; [lia|].
  cbn [Scope.lookupUp]. rewrite Hs, Hempty, lookup_empty, Hpar.
  rewrite (lookupUp_agree sel h h' id Hwf Hagree) by exact Hp.
  rewrite (lookupUp_fuel sel h id Hwf p len') by lia.
  by rewrite (lookupUp_fuel sel h id Hwf p (length h)) by lia.
Qed.

(** The scope a Block or Program node opens sees what its parent scope [p]
    sees: on a well-formed heap, every variable, function and struct lookup
    from the new scope answers as the same lookup from [p] did before the
    block was entered. *)
Theorem block_sees_enclosing_scope (n : AstNode.t) (p : ScopeId) (st st' : State)
    (s : ScopeId) (id : string) :
  wfHeap (heap st) → p < length (heap st) →
  scopeRule_Block n p st = Some (s, st') →
  Scope.getVariable (heap st') s id = Scope.getVariable (heap st) p id ∧
  Scope.getFunction (heap st') s id = Scope.getFunction (heap st) p id ∧
  Scope.getStruct (heap st') s id = Scope.getStruct (heap st) p id.
Proof.
  intros Hwf Hp H. injection H as <- <-. cbn [heap set_heap].
  set (h := heap st).
  set (h' := alter (Scope.set_scopes <["" := length h]>) p
               (h ++ [Scope.new (Some n) (Some p) EmptyString])).
  assert (Hlen : length h < length h')
    by (unfold h'; rewrite length_alter, length_app; simpl; lia).
  assert (Hnew : ∃ sc, h' !! length h = Some sc ∧ Scope.parent sc = Some p ∧
                       Scope.vars sc = ∅ ∧ Scope.funcs sc = ∅ ∧ Scope.structs sc = ∅).
  { exists (Scope.new (Some n) (Some p) EmptyString). split; [|by repeat split].
    unfold h'. rewrite list_lookup_alter_ne by (fold h in Hp; lia).
    rewrite lookup_app_r by lia. by rewrite Nat.sub_diag. }
  assert (Hagree : ∀ i sc, h !! i = Some sc →
            ∃ sc', h' !! i = Some sc' ∧ Scope.parent sc' = Scope.parent sc ∧
                   Scope.vars sc' = Scope.vars sc ∧ Scope.funcs sc' = Scope.funcs sc ∧
                   Scope.structs sc' = Scope.structs sc).
  { intros i sc Hi. unfold h'. destruct (decide (p = i)) as [->|Hne].
    - exists (Scope.set_scopes <["" := length h]> sc).
      split; [|by destruct sc]. rewrite list_lookup_alter_eq.
      by rewrite (lookup_app_l_Some _ _ _ _ Hi).
    - exists sc. split; [|by repeat split]. rewrite list_lookup_alter_ne by exact Hne.
      by apply lookup_app_l_Some. }
  destruct Hnew as (scn & Hs & Hpar & Ev & Ef & Es).
  unfold Scope.getVariable, Scope.getFunction, Scope.getStruct.
  split; [|split]; apply opened_scope_lookup; try done.
  - intros i sc Hi. destruct (Hagree i sc Hi) as (sc' & ? & ? & ? & ? & ?). by exists sc'.
  - by exists scn.
  - intros i sc Hi. destruct (Hagree i sc Hi) as (sc' & ? & ? & ? & ? & ?). by exists sc'.
  - by exists scn.
  - intros i sc Hi. destruct (Hagree i sc Hi) as (sc' & ? & ? & ? & ? & ?). by exists sc'.
  - by exists scn.
Qed.

Lemma block_sees_enclosing_scope_witness :
  let st' := stateAfter (scopeRule_Block negNode rootScope) uintState in
  scopeRule_Block negNode rootScope uintState = Some (1, st') ∧
  Scope.getVariable (heap st') 1 "n" = Scope.getVariable (heap uintState) rootScope "n".
Proof.
  intros st'.
  assert (H : scopeRule_Block negNode rootScope uintState = Some (1, st')) by reflexivity.
  assert (Hlt : rootScope < length (heap uintState)) by (simpl; unfold rootScope; lia).
  split; [exact H|].
  exact (proj1 (block_sees_enclosing_scope negNode rootScope uintState st' 1 "n"
                  wfHeap_uintState Hlt H)).
Defined.

(** ** Analysis keeps the heap well formed *)

(** From a well-formed state, an analysis that returns ends in a well-formed
    state with no fewer scopes: the root scope is there, every scope's parent
    precedes it in the heap, and every scope a [scopes] map or a node refers
    to is a scope of the heap; and every scope [getScope] returns is one.
    This is said of trees and states that name no member of
    [Object.prototype]: an access to [toString.x] gets the inherited function
    for its scope. *)
Theorem analysis_keeps_heap_well_formed (root : AstNode.t) (st : State) :
  ordinaryNames root = true → ordinaryState st →
  wfState st →
  (∀ u st', analyze root st = Some (u, st') →
     wfState st' ∧ length (heap st) ≤ length (heap st')) ∧
  (∀ path s st', getScope root path st = Some (s, st') →
     wfState st' ∧ s < length (heap st')).
Proof.
  intros _ _ Hwf. split.
  - intros u st' H. exact (wfKept_analyze root _ _ _ H Hwf).
  - intros path s st' H. destruct (wf_getScope root _ _ _ _ Hwf H) as (? & ? & ?). by split.
Qed.

Lemma wfState_emptyState : wfState emptyState.
Proof.
  split; [split; [simpl; lia|]|].
  - intros [|i] sc H; [|by destruct i]. injection H as <-.
    split; [intros p [=]|]. intros k j Hj.
    cbn [Scope.scopes Scope.new] in Hj. by rewrite lookup_empty in Hj.
  - intros q s Hq. cbn [scopeOf emptyState] in Hq. by rewrite lookup_empty in Hq.
Qed.

Lemma ordinaryState_emptyState : ordinaryState emptyState.
Proof.
  constructor; [|constructor].
  split; [|split; [|split]]; apply map_Forall_empty.
Qed.

Lemma analysis_keeps_heap_well_formed_witness :
  let st' := stateAfter (analyze mapProgram) emptyState in
  ordinaryNames mapProgram = true ∧
  analyze mapProgram emptyState = Some (tt, st') ∧
  wfState st' ∧ length (heap emptyState) ≤ length (heap st').
Proof.
  intros st'.
  assert (H : analyze mapProgram emptyState = Some (tt, st')) by (vm_compute; reflexivity).
  split; [reflexivity|]. split; [exact H|].
  exact (proj1 (analysis_keeps_heap_well_formed mapProgram emptyState eq_refl
                  ordinaryState_emptyState wfState_emptyState) tt st' H).
Defined.

(** ** The builtin catalog *)








(** ** Struct layout *)

Lemma getSize_primitive v p depth st :
  DataType.isPrimitive (Var.type v) = true → depth ≤ MAX_TYPE_DEPTH →
  getSize v p depth st = Some (primitiveSize (Var.type v), st).
Proof.
  intros Hprim Hd. rewrite getSize_unfold. unfold getSize_body, primitiveSize.
  destruct (MAX_TYPE_DEPTH <? depth)%nat eqn:E; [apply Nat.ltb_lt in E; lia|].
  repeat case_bool_decide; try reflexivity. by rewrite Hprim.
Qed.

Lemma list_insert_alter_eq {A} (f : A → A) (l : list A) i x :
  <[i := x]> (alter f i l) = <[i := x]> l.
Proof.
  revert i. induction l as [|y l IH]; intros [|i]; simpl; try reflexivity.
  f_equal. apply IH.
Qed.

Lemma set_vars_set_vars f g sc :
  Scope.set_vars f (Scope.set_vars g sc) = Scope.set_vars (fun m => f (g m)) sc.
Proof. by destruct sc. Qed.

(** The loop of [makeStructScope] over fields of primitive types. *)
Lemma layout_loop (v : Var.t) (scope : ScopeId) (fields : list Var.t) :
  Forall (fun f => DataType.isPrimitive (Var.type f) = true) fields →
  ∀ offset st sc, heap st !! scope = Some sc →
    foldM (fun offset field =>
             let nvar := Var.new None scope (Var.id field) (Var.type field) in
             let nvar := Var.set_offset offset
                           (Var.set_mapped (Var.mapped v)
                              (Var.set_export (Var.export v)
                                 (Var.set_const (Var.const v) nvar))) in
             updScope scope (Scope.set_vars <[Var.id nvar := nvar]>);;
             size ← getSize nvar scope 0;
             mret (JSNum_add offset size))
          offset fields st
    = Some (offsetAfter offset fields,
            set_heap <[scope := Scope.set_vars
                                  (fun m => foldl declare m (layoutFields v scope offset fields))
                                  sc]> st).
Proof.
  induction 1 as [|f rest Hf _ IH]; intros offset st sc Hsc.
  - cbn [offsetAfter layoutFields foldl].
    change (Some (offset, st) = Some (offset, set_heap <[scope := Scope.set_vars (fun m => m) sc]> st)).
    do 2 f_equal. destruct st as [h so dt lg]. unfold set_heap.
    cbn [heap scopeOf dataTypeOf logger] in *. f_equal.
    symmetry. apply list_insert_id. rewrite Hsc. by destruct sc.
  - cbn [foldM]. cbv zeta. rewrite !bind_unfold, updScope_run. cbv beta iota.
    rewrite ?bind_unfold, getSize_primitive by first [exact Hf | unfold MAX_TYPE_DEPTH; lia].
    cbv beta iota. cbn [mret M_ret ret].
    cbn [Var.type Var.set_offset Var.set_mapped Var.set_export Var.set_const Var.new Var.id
         Var.node Var.scope Var.const Var.export Var.global Var.mapped Var.offset].
    erewrite IH; [|cbn [heap set_heap]; rewrite list_lookup_alter_eq, Hsc; reflexivity].
    cbn [offsetAfter foldl]. do 2 f_equal.
    destruct st as [h so dt lg]. unfold set_heap. cbn [heap scopeOf dataTypeOf logger] in *.
    f_equal. rewrite list_insert_alter_eq. f_equal.
Qed.

Lemma declare_other (nvars : list Var.t) id :
  id ∉ Var.id <$> nvars → ∀ m, foldl declare m nvars !! id = m !! id.
Proof.
  induction nvars as [|nv rest IH]; intros Hnot m; [reflexivity|]. cbn [foldl].
  rewrite fmap_cons, not_elem_of_cons in Hnot. destruct Hnot as [Hne Hrest].
  rewrite IH by exact Hrest. unfold declare. by rewrite lookup_insert_ne.
Qed.

Lemma declare_domain (nvars : list Var.t) id :
  ∀ m, is_Some (foldl declare m nvars !! id) ↔ is_Some (m !! id) ∨ id ∈ Var.id <$> nvars.
Proof.
  induction nvars as [|nv rest IH]; intros m; cbn [foldl].
  - rewrite fmap_nil, elem_of_nil. tauto.
  - rewrite IH, fmap_cons, elem_of_cons. unfold declare.
    destruct (decide (Var.id nv = id)) as [<-|Hne].
    + rewrite lookup_insert_eq. split; [intros [?|?]; tauto|intros _; left; by eexists].
    + rewrite lookup_insert_ne by exact Hne. split; [tauto|intros [?|[?|?]]; try tauto; congruence].
Qed.

(** The last declaration of a name is the one that stays. *)
Lemma declare_last (nvars : list Var.t) :
  ∀ i nv m, nvars !! i = Some nv →
    (∀ j g, i < j → nvars !! j = Some g → Var.id g ≠ Var.id nv) →
    foldl declare m nvars !! Var.id nv = Some nv.
Proof.
  induction nvars as [|x rest IH]; intros i nv m Hi Hlast; [done|]. cbn [foldl].
  destruct i as [|i].
  - injection Hi as ->. rewrite declare_other.
    + unfold declare. apply lookup_insert_eq.
    + intros Hin. apply list_elem_of_fmap in Hin as (g & Hg & Hin).
      apply list_elem_of_lookup in Hin as [j Hj].
      apply (Hlast (S j) g); [lia | exact Hj | by symmetry].
  - apply (IH i); [exact Hi|]. intros j g Hlt Hj. apply (Hlast (S j) g); [lia | exact Hj].
Qed.

Lemma layoutFields_lookup v scope (fields : list Var.t) :
  ∀ offset i f, fields !! i = Some f →
    layoutFields v scope offset fields !! i
    = Some (fieldVar v scope (offsetAfter offset (take i fields)) f).
Proof.
  induction fields as [|x rest IH]; intros offset i f Hi; [done|].
  destruct i as [|i].
  - injection Hi as ->. reflexivity.
  - cbn [layoutFields]. cbn [lookup list_lookup]. rewrite (IH _ i f Hi). reflexivity.
Qed.

Lemma layoutFields_ids v scope (fields : list Var.t) :
  ∀ offset, Var.id <$> layoutFields v scope offset fields = Var.id <$> fields.
Proof.
  induction fields as [|x rest IH]; intros offset; [reflexivity|].
  cbn [layoutFields]. rewrite !fmap_cons, IH. reflexivity.
Qed.

Lemma layoutFields_length v scope (fields : list Var.t) :
  ∀ offset, length (layoutFields v scope offset fields) = length fields.
Proof. induction fields as [|x rest IH]; intros offset; [reflexivity|]. simpl. by rewrite IH. Qed.

Lemma getStruct_owner h p id s :
  Scope.getStruct h p id = Some s → p < length h.
Proof.
  unfold Scope.getStruct. destruct (length h) as [|n] eqn:Hn; [discriminate|].
  cbn [Scope.lookupUp]. destruct (h !! p) as [sc|] eqn:Hp; [|discriminate].
  intros _. rewrite <- Hn. by eapply lookup_lt_Some.
Qed.

(** [makeStructScope] for a variable [v] whose type names a struct with
    fields of primitive types, where the variable and the fields are named
    and typed by no member of [Object.prototype]: a new scope named after the
    variable is
    opened under [p] and registered in [p.scopes]; it holds one variable for
    each field name, of the field's type, with the flags [const], [export]
    and [mapped] of [v] (and [global] off), laid out in field order from
    [v.offset], each field at the JS sum of the offset of the one before it
    and that one's size; the sums are doubles, so from 2^53 on an offset may
    round and fields may share one.  Of two fields with one name the later
    one stays.  Nothing is logged and nothing else changes. *)
Theorem struct_scope_layout (v : Var.t) (p : ScopeId) (struct : Struct.t) (st : State) :
  ordinaryVar v → Forall ordinaryVar (Struct.fields struct) →
  DataType.isPrimitive (Var.type v) = false →
  Scope.getStruct (heap st) p (Var.type v) = Some struct →
  Forall (fun f => DataType.isPrimitive (Var.type f) = true) (Struct.fields struct) →
  ∃ vars,
    makeStructScope v p st
    = Some (tt, set_heap (fun h => alter (Scope.set_scopes <[Var.id v := length h]>) p h
                                   ++ [Scope.mk (Var.node v) (Some p) (Var.id v) ∅ vars ∅ ∅]) st) ∧
    (∀ id, is_Some (vars !! id) ↔ id ∈ Var.id <$> Struct.fields struct) ∧
    (∀ i f, Struct.fields struct !! i = Some f →
       (∀ j g, i < j → Struct.fields struct !! j = Some g → Var.id g ≠ Var.id f) →
       vars !! Var.id f
       = Some (fieldVar v (length (heap st))
                 (offsetAfter (Var.offset v) (take i (Struct.fields struct))) f)).
Proof.
  intros _ _ Hprim Hstruct Hfields.
  set (scope := length (heap st)).
  set (nvars := layoutFields v scope (Var.offset v) (Struct.fields struct)).
  exists (foldl declare ∅ nvars). split; [|split].
  - pose proof (getStruct_owner _ _ _ _ Hstruct) as Hp.
    unfold makeStructScope. rewrite Hprim, bind_unfold. cbn [get]. rewrite Hstruct.
    rewrite bind_unfold, newScope_run, bind_unfold, updScope_run, bind_unfold.
    fold scope.
    erewrite (layout_loop v scope _ Hfields (Var.offset v) _
                (Scope.new (Var.node v) (Some p) (Var.id v))).
    + cbn [mret M_ret ret]. do 2 f_equal. destruct st as [h so dt lg].
      unfold set_heap. cbn [heap scopeOf dataTypeOf logger] in *. f_equal.
      rewrite alter_app_l by exact Hp. unfold scope. cbn [heap].
      rewrite insert_app_r_alt by (by rewrite length_alter).
      rewrite length_alter, Nat.sub_diag. reflexivity.
    + cbn [heap set_heap]. rewrite list_lookup_alter_ne by lia.
      unfold scope. rewrite lookup_app_r by lia. by rewrite Nat.sub_diag.
  - intros id. rewrite declare_domain, lookup_empty. unfold nvars.
    rewrite layoutFields_ids. split; [intros [[? [=]]|?]; done | by right].
  - intros i f Hi Hlast.
    pose proof (layoutFields_lookup v scope _ (Var.offset v) i f Hi) as Hnv. fold nvars in Hnv.
    apply (declare_last nvars i _ ∅ Hnv). intros j g Hlt Hj. cbn [fieldVar Var.id].
    unfold nvars in Hj.
    destruct (Struct.fields struct !! j) as [fj|] eqn:Hfj.
    + rewrite (layoutFields_lookup v scope _ (Var.offset v) j fj Hfj) in Hj.
      injection Hj as <-. cbn [fieldVar Var.id]. by apply (Hlast j).
    + apply lookup_ge_None in Hfj. apply lookup_lt_Some in Hj.
      rewrite layoutFields_length in Hj. lia.
Qed.

Lemma struct_scope_layout_witness :
  (∃ vars st',
     makeStructScope pointVar rootScope pointState = Some (tt, st') ∧
     heap st' !! 2 = Some (Scope.mk None (Some rootScope) "pt" ∅ vars ∅ ∅) ∧
     Var.offset <$> vars !! "x" = Some (Num 16) ∧
     Var.offset <$> vars !! "y" = Some (Num 20) ∧
     Var.mapped <$> vars !! "y" = Some true) ∧
  (∃ vars st',
     makeStructScope farPointVar rootScope pointState = Some (tt, st') ∧
     heap st' !! 2 = Some (Scope.mk None (Some rootScope) "pt" ∅ vars ∅ ∅) ∧
     Var.offset <$> vars !! "x" = Some (Num (2 ^ 55)) ∧
     Var.offset <$> vars !! "y" = Some (Num (2 ^ 55))).
Proof.
  assert (Hs : ∃ s, Scope.getStruct (heap pointState) rootScope (Var.type pointVar) = Some s ∧
                    Struct.fields s
                    = [Var.new (Some pointStruct) 1 "x" "int";
                       Var.new (Some pointStruct) 1 "y" "long"]).
  { eexists. split; vm_compute; reflexivity. }
  destruct Hs as (s & Hs & Hf).
  assert (Hprim : Forall (fun f => DataType.isPrimitive (Var.type f) = true) (Struct.fields s)).
  { rewrite Hf. repeat constructor. }
  assert (Hlast0 : ∀ j g, 0 < j →
            [Var.new (Some pointStruct) 1 "x" "int"; Var.new (Some pointStruct) 1 "y" "long"]
              !! j = Some g → Var.id g ≠ "x").
  { intros [|[|j]] g Hlt Hj; [lia| |discriminate]. injection Hj as <-. discriminate. }
  assert (Hlast1 : ∀ j g, 1 < j →
            [Var.new (Some pointStruct) 1 "x" "int"; Var.new (Some pointStruct) 1 "y" "long"]
              !! j = Some g → Var.id g ≠ "y").
  { intros [|[|j]] g Hlt Hj; [lia|lia|discriminate]. }
  assert (Hord : Forall ordinaryVar (Struct.fields s)).
  { rewrite Hf. repeat constructor; by_decide. }
  assert (Hv : ordinaryVar pointVar ∧ ordinaryVar farPointVar)
    by (repeat split; by_decide).
  split.
  - destruct (struct_scope_layout pointVar rootScope s pointState (proj1 Hv) Hord
                eq_refl Hs Hprim)
      as (vars & Hrun & _ & Hvars).
    exists vars. eexists. split; [exact Hrun|]. split; [reflexivity|].
    rewrite Hf in Hvars.
    pose proof (Hvars 0 _ eq_refl Hlast0) as Hx. pose proof (Hvars 1 _ eq_refl Hlast1) as Hy.
    cbn [Var.id Var.new] in Hx, Hy. rewrite Hx, Hy.
    split; [vm_compute; reflexivity|]. split; [vm_compute; reflexivity | reflexivity].
  - destruct (struct_scope_layout farPointVar rootScope s pointState (proj2 Hv) Hord
                eq_refl Hs Hprim)
      as (vars & Hrun & _ & Hvars).
    exists vars. eexists. split; [exact Hrun|]. split; [reflexivity|].
    rewrite Hf in Hvars.
    pose proof (Hvars 0 _ eq_refl Hlast0) as Hx. pose proof (Hvars 1 _ eq_refl Hlast1) as Hy.
    cbn [Var.id Var.new] in Hx, Hy. rewrite Hx, Hy.
    split; vm_compute; reflexivity.
Defined.

(** ** The size of a flat struct *)

Lemma fields_beyond_cutoff (fields : list Var.t) depth :
  MAX_TYPE_DEPTH < depth →
  ∀ acc st,
    foldM (fun size field => s ← getSize field (Var.scope field) depth; mret (size + s)%Z)
          acc fields st = Some (acc, st).
Proof.
  intros Hd. induction fields as [|f rest IH]; intros acc st; [reflexivity|].
  cbn [foldM]. rewrite bind_unfold. cbn [bind]. rewrite bind_unfold.
  rewrite getSize_unfold, getSize_body_cutoff by lia.
  cbn [mret M_ret ret]. rewrite Z.add_0_r. apply IH.
Qed.

Lemma fields_flat (fields : list Var.t) depth :
  Forall (fun f => DataType.isPrimitive (Var.type f) = true) fields →
  depth ≤ MAX_TYPE_DEPTH →
  ∀ acc st,
    foldM (fun size field => s ← getSize field (Var.scope field) depth; mret (size + s)%Z)
          acc fields st = Some ((acc + fieldsSize fields)%Z, st).
Proof.
  intros Hf Hd. induction Hf as [|f rest Hf _ IH]; intros acc st.
  - cbn [foldM fieldsSize foldr mret M_ret ret]. by rewrite Z.add_0_r.
  - cbn [foldM]. rewrite bind_unfold. cbn [bind]. rewrite bind_unfold.
    rewrite getSize_primitive by assumption. cbn [mret M_ret ret]. rewrite IH.
    cbn [fieldsSize foldr]. by rewrite Z.add_assoc.
Qed.

Lemma sized_is_primitive (t : string) :
  t ∈ [DataType.Int; DataType.UInt; DataType.Float; DataType.Bool]
  ∨ t ∈ [DataType.Long; DataType.ULong; DataType.Double] →
  DataType.isPrimitive t = true.
Proof.
  rewrite !elem_of_cons, !elem_of_nil.
  intros [[->|[->|[->|[->|[]]]]] | [->|[->|[->|[]]]]]; reflexivity.
Qed.

Lemma getSize_struct v p depth st struct :
  DataType.isPrimitive (Var.type v) = false → depth ≤ MAX_TYPE_DEPTH →
  Scope.getStruct (heap st) p (Var.type v) = Some struct →
  getSize v p depth st
  = foldM (fun size field => s ← getSize field (Var.scope field) (depth + 1); mret (size + s)%Z)
          0%Z (Struct.fields struct) st.
Proof.
  intros Hprim Hd Hs. rewrite getSize_unfold. unfold getSize_body.
  destruct (MAX_TYPE_DEPTH <? depth)%nat eqn:E; [apply Nat.ltb_lt in E; lia|].
  case_bool_decide as H1; [rewrite sized_is_primitive in Hprim by (by left); discriminate|].
  case_bool_decide as H2; [rewrite sized_is_primitive in Hprim by (by right); discriminate|].
  rewrite Hprim, bind_unfold. cbn [get]. by rewrite Hs.
Qed.

(** [getSize] of a variable whose type names a struct: below the depth
    cut-off a struct with fields of primitive types has the sum of their
    sizes; at the cut-off itself ([depth] = 16) every struct has size 0,
    whatever its fields, because they are measured one level deeper.
    Neither logs or changes anything. *)
Theorem flat_struct_size (v : Var.t) (p : ScopeId) (struct : Struct.t) (depth : nat)
    (st : State) :
  DataType.isPrimitive (Var.type v) = false →
  Scope.getStruct (heap st) p (Var.type v) = Some struct →
  (depth < MAX_TYPE_DEPTH →
   Forall (fun f => DataType.isPrimitive (Var.type f) = true) (Struct.fields struct) →
   getSize v p depth st = Some (fieldsSize (Struct.fields struct), st)) ∧
  (depth = MAX_TYPE_DEPTH → getSize v p depth st = Some (0%Z, st)).
Proof.
  intros Hprim Hs. split.
  - intros Hd Hf. rewrite (getSize_struct v p depth st struct Hprim ltac:(lia) Hs).
    rewrite fields_flat by (try assumption; lia). reflexivity.
  - intros Hd. rewrite (getSize_struct v p depth st struct Hprim ltac:(lia) Hs).
    apply fields_beyond_cutoff. lia.
Qed.

Lemma flat_struct_size_witness :
  getSize pointVar rootScope 0 pointState = Some (12%Z, pointState) ∧
  getSize pointVar rootScope 16 pointState = Some (0%Z, pointState).
Proof.
  assert (Hs : ∃ s, Scope.getStruct (heap pointState) rootScope (Var.type pointVar) = Some s ∧
                    Struct.fields s
                    = [Var.new (Some pointStruct) 1 "x" "int";
                       Var.new (Some pointStruct) 1 "y" "long"]).
  { eexists. split; vm_compute; reflexivity. }
  destruct Hs as (s & Hs & Hf).
  destruct (flat_struct_size pointVar rootScope s 0 pointState eq_refl Hs) as [H0 _].
  destruct (flat_struct_size pointVar rootScope s 16 pointState eq_refl Hs) as [_ H16].
  split; [|by apply H16].
  rewrite H0; [by rewrite Hf | unfold MAX_TYPE_DEPTH; lia | rewrite Hf; repeat constructor].
Defined.

(** ** No symbol is ever const or exported *)

Lemma modsKept_refl st : modsKept st st.
Proof. by intros H. Qed.

Lemma modsKept_trans a b c : modsKept a b → modsKept b c → modsKept a c.
Proof. intros H1 H2 Ha. by apply H2, H1. Qed.

Lemma modsKept_same st st' : heap st' = heap st → modsKept st st'.
Proof. intros Hh. unfold modsKept, noModifiers. by rewrite Hh. Qed.

Lemma mods_logError msg node : pres modsKept (logError msg node).
Proof. apply pres_modify. intros st. by apply modsKept_same. Qed.

Lemma mods_setNodeDataType path t : pres modsKept (setNodeDataType path t).
Proof. apply pres_modify. intros st. by apply modsKept_same. Qed.

Lemma mods_setNodeScope path s : pres modsKept (setNodeScope path s).
Proof. apply pres_modify. intros st. by apply modsKept_same. Qed.

Lemma mods_newScope node parent id : pres modsKept (newScope node parent id).
Proof.
  intros st a st' [= _ <-] H. unfold noModifiers. cbn [heap set_heap].
  apply Forall_app. split; [exact H|]. constructor; [|constructor].
  unfold unmodified. cbn [Scope.new Scope.vars Scope.funcs Scope.structs].
  split; [|split]; apply map_Forall_empty.
Qed.

Lemma mods_updScope s (f : Scope.t → Scope.t) :
  (∀ sc, unmodified sc → unmodified (f sc)) → pres modsKept (updScope s f).
Proof.
  intros Hf. apply pres_modify. intros st H. unfold noModifiers. cbn [heap set_heap].
  apply Forall_alter; [exact H|]. intros sc _. apply Hf.
Qed.

Lemma unmodified_set_scopes g sc : unmodified sc → unmodified (Scope.set_scopes g sc).
Proof. by destruct sc. Qed.

Lemma unmodified_declare_var id v sc :
  Var.const v = false → Var.export v = false →
  unmodified sc → unmodified (Scope.set_vars <[id := v]> sc).
Proof.
  intros Hc He (Hv & Hf & Hs). destruct sc. split; [|by split]. simpl in *.
  by apply map_Forall_insert_2.
Qed.

Lemma unmodified_alter_var id (g : Var.t → Var.t) sc :
  (∀ v, Var.const (g v) = Var.const v ∧ Var.export (g v) = Var.export v) →
  unmodified sc → unmodified (Scope.set_vars (alter g id) sc).
Proof.
  intros Hg (Hv & Hf & Hs). destruct sc. split; [|by split]. simpl in *.
  intros k v Hk. apply lookup_alter_Some in Hk as [(-> & v0 & Hv0 & ->)|[_ Hk]].
  - destruct (Hg v0) as [-> ->]. by apply (Hv k).
  - by apply (Hv k).
Qed.

Lemma unmodified_declare_func id f sc :
  Function.export f = false → unmodified sc → unmodified (Scope.set_funcs <[id := f]> sc).
Proof.
  intros He (Hv & Hf & Hs). destruct sc. split; [exact Hv|]. split; [|exact Hs]. simpl in *.
  by apply map_Forall_insert_2.
Qed.

Lemma unmodified_declare_struct id s sc :
  Struct.export s = false → unmodified sc → unmodified (Scope.set_structs <[id := s]> sc).
Proof.
  intros He (Hv & Hf & Hs). destruct sc. split; [exact Hv|]. split; [exact Hf|]. simpl in *.
  by apply map_Forall_insert_2.
Qed.

Ltac mods_scope :=
  first
    [ apply unmodified_set_scopes
    | apply unmodified_declare_func; [reflexivity|]
    | apply unmodified_declare_struct; [reflexivity|]
    | apply unmodified_declare_var; [first [reflexivity | assumption] ..|]
    | apply unmodified_alter_var; [intros [? ? ? ? ? ? ? ? ?]; by split|] ];
  assumption.

Ltac mods_struct :=
  first
    [ apply mods_logError
    | apply mods_setNodeDataType
    | apply mods_setNodeScope
    | apply mods_newScope
    | apply mods_updScope; intros ? ?; mods_scope
    | pres_struct_with ltac:(apply modsKept_refl) ltac:(apply modsKept_trans) ].

Ltac mods_auto tac := repeat first [ tac | mods_struct | pres_cases ].

Lemma mods_getSize_fuel fuel : ∀ v p depth, pres modsKept (getSize_fuel fuel v p depth).
Proof.
  induction fuel as [|fuel IH]; intros v p depth; simpl.
  - mods_auto fail.
  - unfold getSize_body. mods_auto ltac:(apply IH).
Qed.

Lemma mods_makeStructScope v p :
  Var.const v = false → Var.export v = false → pres modsKept (makeStructScope v p).
Proof.
  intros Hc He. unfold makeStructScope.
  mods_auto ltac:(first [ apply mods_getSize_fuel
                        | apply mods_updScope; intros ? ?;
                          apply unmodified_declare_var; [exact Hc | exact He | assumption] ]).
Qed.

(** What a state reads where a run starts may be used to show the run
    keeps the invariant. *)
Lemma mods_get {A} (k : State → M A) :
  (∀ st0, noModifiers st0 → pres modsKept (k st0)) → pres modsKept (st ← get; k st).
Proof. intros H st a st' Hrun HI. exact (H st HI st a st' Hrun HI). Qed.

Lemma getVariable_unmodified st p id v :
  noModifiers st → Scope.getVariable (heap st) p id = Some v →
  Var.const v = false ∧ Var.export v = false.
Proof.
  intros HI H. unfold Scope.getVariable in H.
  destruct (Scope.lookupUp Scope.vars (heap st) (length (heap st)) p id) as [[owner x]|] eqn:E;
    [|discriminate].
  injection H as ->. apply lookupUp_Some in E as (sc & Hsc & Hx).
  unfold noModifiers in HI. rewrite Forall_lookup in HI.
  exact (proj1 (HI owner sc Hsc) id v Hx).
Qed.

Lemma mods_registerBuiltinFunc path type paramTypes paramNames :
  pres modsKept (registerBuiltinFunc path type paramTypes paramNames).
Proof. unfold registerBuiltinFunc. mods_auto fail. Qed.

Lemma mods_registerBuiltins : pres modsKept registerBuiltins.
Proof.
  unfold registerBuiltins, loadStore, unaryBuiltins, binaryBuiltins.
  mods_auto ltac:(apply mods_registerBuiltinFunc).
Qed.

Lemma noModifiers_emptyState : noModifiers emptyState.
Proof.
  constructor; [|constructor]. unfold unmodified.
  cbn [Scope.new Scope.vars Scope.funcs Scope.structs]. split; [|split]; apply map_Forall_empty.
Qed.

Lemma noModifiers_newSchwaAnalyzer : noModifiers newSchwaAnalyzer.
Proof.
  unfold newSchwaAnalyzer.
  destruct (registerBuiltins emptyState) as [[u st]|] eqn:E; [|apply noModifiers_emptyState].
  exact (mods_registerBuiltins _ _ _ E noModifiers_emptyState).
Qed.

Section NoModifiers.
Context (root : AstNode.t).

Lemma mods_scopeRule_Access n p : pres modsKept (scopeRule_Access n p).
Proof.
  unfold scopeRule_Access, childAt.
  apply pres_bind; [apply modsKept_trans | apply pres_orThrow, modsKept_refl | intros c0].
  apply mods_get. intros st0 HI0.
  mods_auto ltac:(first
    [ match goal with
      | H : Scope.getVariable (heap st0) _ _ = Some ?v
        |- pres modsKept (makeStructScope ?v _) =>
        apply mods_makeStructScope;
        [exact (proj1 (getVariable_unmodified _ _ _ _ HI0 H))
        |exact (proj2 (getVariable_unmodified _ _ _ _ HI0 H))]
      end ]).
Qed.

Lemma mods_scope_modifiers path p :
  pres modsKept (scopeRule_Const root path p) ∧ pres modsKept (scopeRule_Export root path p).
Proof.
  split; intros st s st' H.
  - rewrite (proj1 (scope_modifiers_noop root path p st)) in H. injection H as _ <-.
    apply modsKept_refl.
  - rewrite (proj2 (scope_modifiers_noop root path p st)) in H. injection H as _ <-.
    apply modsKept_refl.
Qed.

Lemma mods_scopeRegistrations n path p :
  Forall (fun r => pres modsKept r.2) (scopeRegistrations root n path p).
Proof.
  unfold scopeRegistrations.
  repeat (constructor; simpl;
          [first [ unfold scopeRule_Block; by mods_auto fail
                 | unfold scopeRule_StructDef, childAt; by mods_auto fail
                 | unfold scopeRule_FunctionDef, childAt; by mods_auto fail
                 | unfold scopeRule_VariableDef, childAt, updVar; by mods_auto fail
                 | apply mods_scopeRule_Access
                 | apply (proj1 (mods_scope_modifiers path p))
                 | apply (proj2 (mods_scope_modifiers path p)) ]|]).
  constructor.
Qed.

Lemma mods_getScope_body (getParentScope : M ScopeId) path :
  pres modsKept getParentScope → pres modsKept (getScope_body root getParentScope path).
Proof.
  intros Hparent. unfold getScope_body, nodeScope.
  repeat first
    [ exact Hparent
    | match goal with
      | H : _ ∈ rulesFor ?n (scopeRegistrations root ?n ?path ?p) |- _ =>
        pose proof (rulesFor_Forall _ n _ (mods_scopeRegistrations n path p)) as HF;
        rewrite Forall_forall in HF; exact (HF _ H)
      end
    | mods_struct
    | pres_cases ].
Qed.

Lemma mods_getScope path : pres modsKept (getScope root path).
Proof.
  induction path as [|i pp IH]; rewrite getScope_unfold; apply mods_getScope_body.
  - apply pres_ret, modsKept_refl.
  - exact IH.
Qed.

Lemma mods_getDataType n : ∀ path, pres modsKept (getDataType root n path).
Proof.
  remember (S (AstNode.height n)) as k eqn:Hk.
  assert (Hlt : AstNode.height n < k) by lia. clear Hk. revert n Hlt.
  induction k as [|k IH]; intros n Hlt path; [lia|].
  rewrite getDataType_unfold. unfold getDataType_body, runDataTypeRules, nodeDataType.
  assert (Hrec : recOk modsKept (getDataType root) n)
    by (intros c q Hc; apply IH; lia).
  mods_auto ltac:(first
    [ apply mods_getScope
    | match goal with
      | H : _ ∈ rulesFor _ (dataTypeRegistrations _ _ _ _) |- _ =>
        pose proof (rulesFor_Forall _ n _
                      (pres_dataTypeRegistrations root modsKept
                         modsKept_refl modsKept_trans
                         mods_logError mods_getScope
                         (getDataType root) n path Hrec)) as HF;
        rewrite Forall_forall in HF; apply HF, H
      end ]).
Qed.

Lemma mods_hoistPass node : ∀ path, pres modsKept (hoistPass root node path).
Proof.
  induction node as [ty tok v cs IH] using AstNode_ind'. intros path.
  rewrite hoistPass_unfold. cbn [AstNode.children]. rewrite Forall_forall in IH.
  mods_auto ltac:(first [ apply mods_getScope | by apply IH ]).
Qed.

Lemma mods_scopePass node : ∀ path, pres modsKept (scopePass root node path).
Proof.
  induction node as [ty tok v cs IH] using AstNode_ind'. intros path.
  rewrite scopePass_unfold. cbn [AstNode.children]. rewrite Forall_forall in IH.
  mods_auto ltac:(first [ apply mods_getScope | by apply IH ]).
Qed.

Lemma mods_typePass node : ∀ path, pres modsKept (typePass root node path).
Proof.
  induction node as [ty tok v cs IH] using AstNode_ind'. intros path.
  rewrite typePass_unfold. cbn [AstNode.children]. rewrite Forall_forall in IH.
  mods_auto ltac:(first [ apply mods_getDataType | by apply IH ]).
Qed.

Lemma mods_analyze : pres modsKept (analyze root).
Proof.
  unfold analyze.
  mods_auto ltac:(first [ apply mods_hoistPass | apply mods_scopePass
                        | apply mods_typePass ]).
  intros st u st' H. rewrite analysisPass_noop in H. injection H as _ <-. apply modsKept_refl.
Qed.

Lemma targetIsConst_false c0 path st b st' :
  noModifiers st → targetIsConst root c0 path st = Some (b, st') → b = false.
Proof.
  intros HI H. unfold targetIsConst in H.
  apply bind_inv in H as (ident & st0 & Hid & H).
  apply getIdentifier_pure in Hid as ->.
  destruct ident as [[inode ipath]|]; [|by injection H as <- _].
  apply bind_inv in H as (s & st1 & Hs & H).
  pose proof (mods_getScope ipath _ _ _ Hs HI) as HI1.
  rewrite bind_unfold in H. cbn [get] in H.
  destruct (Scope.getVariable (heap st1) s (tokenValue inode)) as [nvar|] eqn:Hv;
    injection H as <- _; [|reflexivity].
  exact (proj1 (getVariable_unmodified _ _ _ _ HI1 Hv)).
Qed.
End NoModifiers.

(** A fresh analyzer holds no constant variable and no exported symbol, and
    from a state that holds none neither scope resolution, nor typing, nor
    a whole analysis produces one, whatever the tree: [const] and [export]
    declarations included, no variable is ever marked constant and nothing
    is ever marked exported.  The constant check of the Assignment rule
    therefore always answers no. *)
Theorem analysis_sets_no_modifier (root : AstNode.t) (st : State) :
  noModifiers st →
  (∀ u st', analyze root st = Some (u, st') → noModifiers st') ∧
  (∀ path s st', getScope root path st = Some (s, st') → noModifiers st') ∧
  (∀ n path t st', getDataType root n path st = Some (t, st') → noModifiers st') ∧
  (∀ c0 path b st', targetIsConst root c0 path st = Some (b, st') → b = false).
Proof.
  intros HI. split; [|split; [|split]].
  - intros u st' H. exact (mods_analyze root _ _ _ H HI).
  - intros path s st' H. exact (mods_getScope root path _ _ _ H HI).
  - intros n path t st' H. exact (mods_getDataType root n path _ _ _ H HI).
  - intros c0 path b st' H. exact (targetIsConst_false root c0 path st b st' HI H).
Qed.

Lemma analysis_sets_no_modifier_witness :
  let st' := stateAfter (analyze constProgram) newSchwaAnalyzer in
  noModifiers newSchwaAnalyzer ∧
  analyze constProgram newSchwaAnalyzer = Some (tt, st') ∧
  noModifiers st' ∧
  (s ← scopeOf st' !! [0; 0]; Var.const <$> Scope.getVariable (heap st') s "k") = Some false.
Proof.
  intros st'.
  assert (Hrun : analyze constProgram newSchwaAnalyzer = Some (tt, st'))
    by (vm_compute; reflexivity).
  split; [exact noModifiers_newSchwaAnalyzer|]. split; [exact Hrun|]. split.
  - exact (proj1 (analysis_sets_no_modifier constProgram newSchwaAnalyzer
                    noModifiers_newSchwaAnalyzer) tt st' Hrun).
  - vm_compute. reflexivity.
Defined.

(** * The data types of an analysis *)

Section Keeps.
Context (Inv : State → Prop).

Lemma keeps_ret {A} (a : A) (Φ : A → Prop) : Φ a → keeps Inv (mret a) Φ.
Proof. intros H st a' st' HI [= <- <-]. by split. Qed.

Lemma keeps_throw {A} (Φ : A → Prop) : keeps Inv (@throw A) Φ.
Proof. intros st a st' _ [=]. Qed.

Lemma keeps_bind {A B} (m : M A) (k : A → M B) (Ψ : A → Prop) (Φ : B → Prop) :
  keeps Inv m Ψ → (∀ a, Ψ a → keeps Inv (k a) Φ) → keeps Inv (m ≫= k) Φ.
Proof.
  intros Hm Hk st b st2 HI H. apply bind_inv in H as (a & st1 & H1 & H2).
  destruct (Hm _ _ _ HI H1) as [HI1 Ha]. exact (Hk a Ha _ _ _ HI1 H2).
Qed.

Lemma keeps_get : keeps Inv get Inv.
Proof. intros st a st' HI [= <- <-]. by split. Qed.

Lemma keeps_weaken {A} (m : M A) (Ψ Φ : A → Prop) :
  keeps Inv m Ψ → (∀ a, Ψ a → Φ a) → keeps Inv m Φ.
Proof. intros Hm H st a st' HI Hrun. destruct (Hm _ _ _ HI Hrun). split; auto. Qed.

Lemma keeps_orThrow {A} (o : option A) : keeps Inv (orThrow o) (fun a => o = Some a).
Proof. destruct o; [by apply keeps_ret | apply keeps_throw]. Qed.

Lemma keeps_when (b : bool) (m : M unit) :
  keeps Inv m (fun _ => True) → keeps Inv (when b m) (fun _ => True).
Proof. destruct b; [auto | intros _; by apply keeps_ret]. Qed.

Lemma keeps_modify (f : State → State) :
  (∀ st, Inv st → Inv (f st)) → keeps Inv (modify f) (fun _ => True).
Proof. intros H st a st' HI [= _ <-]. split; auto. Qed.

Lemma keeps_foldM {A B} (f : B → A → M B) (l : list A) (Φ : B → Prop) :
  (∀ acc x, x ∈ l → Φ acc → keeps Inv (f acc x) Φ) →
  ∀ acc, Φ acc → keeps Inv (foldM f acc l) Φ.
Proof.
  induction l as [|x l IH]; intros Hf acc Hacc; simpl; [by apply keeps_ret|].
  apply (keeps_bind _ _ Φ); [apply Hf; [by left | exact Hacc]|].
  intros acc' Hacc'. apply IH; [|exact Hacc']. intros. apply Hf; [by right | done].
Qed.

Lemma keeps_forIndexed {A} (f : nat → A → M unit) (l : list A) :
  ∀ i, (∀ j x, l !! j = Some x → keeps Inv (f (i + j) x) (fun _ => True)) →
       keeps Inv (forIndexed f i l) (fun _ => True).
Proof.
  induction l as [|x l IH]; intros i Hf; simpl; [by apply keeps_ret|].
  apply (keeps_bind _ _ (fun _ => True)).
  - specialize (Hf 0 x eq_refl). by rewrite Nat.add_0_r in Hf.
  - intros _ _. apply IH. intros j y Hj. specialize (Hf (S j) y Hj).
    by replace (S i + j) with (i + S j) by lia.
Qed.
End Keeps.

(** One step through the structure of a computation; [leaf] proves the
    primitive at the head of a bind. *)
Ltac keeps_step leaf :=
  lazymatch goal with
  | |- keeps _ (mret _) _ => apply keeps_ret
  | |- keeps _ throw _ => apply keeps_throw
  | |- keeps _ (when _ _) _ => apply keeps_when
  | |- keeps _ (_ ≫= _) _ =>
    first [ eapply keeps_bind; [solve [leaf] | intros ? ?; cbv beta]
          | eapply (keeps_bind _ _ _ (fun _ => True)); [|intros ? _; cbv beta] ]
  | |- keeps _ (match ?x with _ => _ end) _ =>
    first [ progress cbv iota | destruct x eqn:? ]
  | |- keeps _ (let _ := _ in _) _ => cbv zeta
  | |- keeps _ _ (fun _ => True) =>
    first [ solve [leaf] | eapply keeps_weaken; [solve [leaf] | done] ]
  end.

Ltac keeps_auto leaf := repeat keeps_step leaf; try done.

Lemma nodeAt_child root path n i c :
  nodeAt root path = Some n → AstNode.children n !! i = Some c →
  nodeAt root (i :: path) = Some c.
Proof.
  unfold nodeAt. rewrite reverse_cons. generalize (reverse path). clear path.
  intros down. revert root. induction down as [|j down IH]; intros root Hn Hc; simpl in *.
  - injection Hn as ->. by rewrite Hc.
  - destruct (AstNode.children root !! j) as [d|]; [|discriminate]. by apply IH.
Qed.

Lemma height_lookup (n c : AstNode.t) i :
  AstNode.children n !! i = Some c → AstNode.height c < AstNode.height n.
Proof. intros H. apply height_child. by eapply list_elem_of_lookup_2. Qed.

Section TypeNames.
Context (root : AstNode.t).

Lemma typeName_primitive t : DataType.isPrimitive t = true → typeName root t.
Proof. by left. Qed.

Lemma typeName_definition n path :
  nodeAt root path = Some n →
  AstNode.type n = AstType.VariableDef ∨ AstNode.type n = AstType.FunctionDef →
  typeName root (tokenValue n).
Proof. intros Hn Hk. right. exists path, n. split; [exact Hn|]. by left. Qed.

Lemma typeName_struct n path c0 :
  nodeAt root path = Some n → AstNode.type n = AstType.StructDef →
  AstNode.children n !! 0 = Some c0 → typeName root (tokenValue c0).
Proof.
  intros Hn Hk Hc. right. exists path, n. split; [exact Hn|]. right.
  split; [exact Hk|]. by rewrite Hc.
Qed.

Lemma optTyped_Some t : typeName root t → optTyped root (Some t).
Proof. by intros H t' [= <-] _. Qed.

Lemma optTyped_None : optTyped root None.
Proof. by intros t [=]. Qed.

Lemma optTyped_truthy dt :
  optTyped root dt → truthy dt = true → typeName root (default EmptyString dt).
Proof.
  intros H Ht. apply truthy_Some in Ht as (t & -> & Hne & ->). by apply H.
Qed.

(** *** The state *)

Lemma typedState_same st st' :
  heap st' = heap st → dataTypeOf st' = dataTypeOf st →
  typedState root st → typedState root st'.
Proof. intros Hh Hd [H1 H2]. split; [by rewrite Hh | by rewrite Hd]. Qed.

Lemma keeps_logError msg node :
  keeps (typedState root) (logError msg node) (fun _ => True).
Proof. apply keeps_modify. intros st. by apply typedState_same. Qed.

Lemma keeps_setNodeScope path s :
  keeps (typedState root) (setNodeScope path s) (fun _ => True).
Proof. apply keeps_modify. intros st. by apply typedState_same. Qed.

Lemma keeps_setNodeDataType path r :
  optTyped root r → keeps (typedState root) (setNodeDataType path r) (fun _ => True).
Proof.
  intros Hr. apply keeps_modify. intros st [Hh Ha]. split; [exact Hh|].
  intros q t Hq Hne. unfold withDataType, set_dataTypeOf in Hq. cbn [dataTypeOf] in Hq.
  destruct r as [s|].
  - destruct (decide (path = q)) as [->|Hp].
    + rewrite lookup_insert_eq in Hq. injection Hq as ->. by apply Hr.
    + rewrite lookup_insert_ne in Hq by exact Hp. by eapply Ha.
  - apply lookup_delete_Some in Hq as [_ Hq]. by eapply Ha.
Qed.

Lemma keeps_nodeDataType path :
  keeps (typedState root) (nodeDataType path) (optTyped root).
Proof.
  intros st dt st' HI H. unfold nodeDataType in H. rewrite bind_unfold in H.
  cbn [get mret M_ret ret] in H. injection H as <- <-. split; [exact HI|].
  intros t Ht Hne. by eapply (proj2 HI).
Qed.

Lemma keeps_nodeScope path :
  keeps (typedState root) (nodeScope path) (fun _ => True).
Proof.
  intros st dt st' HI H. unfold nodeScope in H. rewrite bind_unfold in H.
  cbn [get mret M_ret ret] in H. injection H as <- <-. by split.
Qed.

Lemma keeps_childAt n i :
  keeps (typedState root) (childAt n i) (fun c => AstNode.children n !! i = Some c).
Proof. apply keeps_orThrow. Qed.

Lemma typedScope_new node parent id : typedScope root (Scope.new node parent id).
Proof.
  unfold typedScope. cbn [Scope.new Scope.vars Scope.funcs Scope.structs].
  split; [|split]; apply map_Forall_empty.
Qed.

Lemma keeps_newScope node parent id :
  keeps (typedState root) (newScope node parent id) (fun _ => True).
Proof.
  intros st a st' [Hh Ha] [= _ <-]. split; [|done]. split; [|exact Ha].
  cbn [heap set_heap]. apply Forall_app. split; [exact Hh|].
  constructor; [apply typedScope_new | constructor].
Qed.

Lemma keeps_updScope s (f : Scope.t → Scope.t) :
  (∀ sc, typedScope root sc → typedScope root (f sc)) →
  keeps (typedState root) (updScope s f) (fun _ => True).
Proof.
  intros Hf. apply keeps_modify. intros st [Hh Ha]. split; [|exact Ha].
  cbn [heap set_heap]. apply Forall_alter; [exact Hh|]. intros sc _. apply Hf.
Qed.

Lemma typedScope_set_scopes g sc : typedScope root sc → typedScope root (Scope.set_scopes g sc).
Proof. by destruct sc. Qed.

Lemma typedScope_declare_var id v sc :
  typeName root (Var.type v) →
  typedScope root sc → typedScope root (Scope.set_vars <[id := v]> sc).
Proof.
  intros Hv (H1 & H2 & H3). destruct sc. split; [|by split]. simpl in *.
  by apply map_Forall_insert_2.
Qed.

Lemma typedScope_alter_var id (g : Var.t → Var.t) sc :
  (∀ v, Var.type (g v) = Var.type v) →
  typedScope root sc → typedScope root (Scope.set_vars (alter g id) sc).
Proof.
  intros Hg (H1 & H2 & H3). destruct sc. split; [|by split]. simpl in *.
  intros k v Hk. apply lookup_alter_Some in Hk as [(-> & v0 & Hv0 & ->)|[_ Hk]].
  - rewrite Hg. by apply (H1 k).
  - by apply (H1 k).
Qed.

Lemma typedScope_declare_func id f sc :
  typeName root (Function.type f) →
  typedScope root sc → typedScope root (Scope.set_funcs <[id := f]> sc).
Proof.
  intros Hf (H1 & H2 & H3). destruct sc. split; [exact H1|]. split; [|exact H3]. simpl in *.
  by apply map_Forall_insert_2.
Qed.

Lemma typedScope_declare_struct id s sc :
  typeName root (Struct.id s) →
  Forall (fun f => typeName root (Var.type f)) (Struct.fields s) →
  typedScope root sc → typedScope root (Scope.set_structs <[id := s]> sc).
Proof.
  intros Hs Hf (H1 & H2 & H3). destruct sc. split; [exact H1|]. split; [exact H2|].
  simpl in *. by apply map_Forall_insert_2.
Qed.

Lemma typed_lookupUp {A} (sel : Scope.t → gmap string A) (P : A → Prop) st fuel this id r :
  typedState root st →
  (∀ sc, typedScope root sc → map_Forall (fun _ x => P x) (sel sc)) →
  snd <$> Scope.lookupUp sel (heap st) fuel this id = Some r → P r.
Proof.
  intros [Hh _] Hsel H.
  destruct (Scope.lookupUp sel (heap st) fuel this id) as [[owner x]|] eqn:E; [|discriminate].
  injection H as ->. apply lookupUp_Some in E as (sc & Hsc & Hx).
  rewrite Forall_lookup in Hh. exact (Hsel sc (Hh owner sc Hsc) id r Hx).
Qed.

Lemma typed_getVariable st s id v :
  typedState root st → Scope.getVariable (heap st) s id = Some v →
  typeName root (Var.type v).
Proof.
  intros HI H.
  eapply (typed_lookupUp Scope.vars (fun v => typeName root (Var.type v))); [exact HI| |exact H].
  intros sc Hsc. apply Hsc.
Qed.

Lemma typed_getFunction st s id f :
  typedState root st → Scope.getFunction (heap st) s id = Some f →
  typeName root (Function.type f).
Proof.
  intros HI H.
  eapply (typed_lookupUp Scope.funcs (fun f => typeName root (Function.type f)));
    [exact HI| |exact H].
  intros sc Hsc. apply Hsc.
Qed.

Lemma typed_getStruct st s id x :
  typedState root st → Scope.getStruct (heap st) s id = Some x →
  typeName root (Struct.id x) ∧ Forall (fun f => typeName root (Var.type f)) (Struct.fields x).
Proof.
  intros HI H.
  eapply (typed_lookupUp Scope.structs
            (fun x => typeName root (Struct.id x) ∧
                      Forall (fun f => typeName root (Var.type f)) (Struct.fields x)));
    [exact HI| |exact H].
  intros sc Hsc. apply Hsc.
Qed.

End TypeNames.

Ltac typed_leaf :=
  first
    [ apply keeps_get | apply keeps_logError | apply keeps_setNodeScope
    | apply keeps_newScope | apply keeps_nodeDataType | apply keeps_nodeScope
    | apply keeps_childAt | apply keeps_orThrow
    | apply keeps_updScope; intros ? ?;
      first [ by apply typedScope_set_scopes
            | by apply typedScope_alter_var; [intros []|] ] ].

(** *** Identifiers, sizes and struct scopes *)

Section TypedScopes.
Context (root : AstNode.t).

Lemma keeps_getIdentifier c :
  ∀ q, nodeAt root q = Some c →
    keeps (typedState root) (getIdentifier c q)
      (fun r => ∀ ident ipath, r = Some (ident, ipath) →
                  nodeAt root ipath = Some ident ∧ AstNode.height ident ≤ AstNode.height c).
Proof.
  induction c as [ty tok v cs IH] using AstNode_ind'. intros q Hq.
  cbn [getIdentifier AstNode.type AstNode.children]. repeat case_match; subst.
  - apply keeps_ret. intros ident ipath [= <- <-]. by split.
  - apply keeps_throw.
  - apply keeps_throw.
  - rewrite Forall_cons in IH. destruct IH as [_ IH].
    rewrite Forall_cons in IH. destruct IH as [IH _].
    eapply keeps_weaken; [apply IH; by apply (nodeAt_child _ _ _ 1 _ Hq)|].
    intros r Hr ident ipath ->. destruct (Hr _ _ eq_refl) as [H1 H2]. split; [exact H1|].
    simpl in *. lia.
  - by apply keeps_ret.
Qed.

Lemma keeps_getSize_fuel fuel :
  ∀ v p depth, keeps (typedState root) (getSize_fuel fuel v p depth) (fun _ => True).
Proof.
  induction fuel as [|fuel IH]; intros v p depth; simpl; [by apply keeps_ret|].
  unfold getSize_body. keeps_auto typed_leaf.
  apply keeps_foldM; [|done]. intros size field _ _. keeps_auto ltac:(apply IH).
Qed.

Lemma keeps_getSize v p depth :
  keeps (typedState root) (getSize v p depth) (fun _ => True).
Proof. apply keeps_getSize_fuel. Qed.

Lemma keeps_makeStructScope v p :
  keeps (typedState root) (makeStructScope v p) (fun _ => True).
Proof.
  unfold makeStructScope. destruct (DataType.isPrimitive _); [by apply keeps_ret|].
  eapply keeps_bind; [apply keeps_get|]. intros st Hst. cbv beta.
  destruct (Scope.getStruct _ _ _) as [struct|] eqn:Hs; [|keeps_auto typed_leaf].
  apply (typed_getStruct _ _ _ _ _ Hst) in Hs as [_ Hf].
  keeps_auto typed_leaf.
  apply keeps_foldM; [|done]. intros offset field Hin _.
  rewrite Forall_forall in Hf. apply Hf in Hin.
  keeps_auto ltac:(first [ apply keeps_getSize
                         | apply keeps_updScope; intros ? ?;
                           by apply typedScope_declare_var ]).
Qed.

(** *** The scope rules and [getScope] *)

Lemma rulesFor_Forall_kind {A} (P : A → Prop) (n : AstNode.t) (regs : list (AstType.t * A)) :
  Forall (fun r => r.1 = AstNode.type n → P r.2) regs → Forall P (rulesFor n regs).
Proof.
  intros H. unfold rulesFor. induction H as [|r regs Hr _ IH]; simpl; [constructor|].
  destruct (decide (r.1 = AstNode.type n)); [constructor; auto | assumption].
Qed.

Lemma keeps_scopeRule_Block n p :
  keeps (typedState root) (scopeRule_Block n p) (fun _ => True).
Proof. unfold scopeRule_Block. keeps_auto typed_leaf. Qed.

Lemma keeps_scopeRule_StructDef n path p :
  nodeAt root path = Some n → AstNode.type n = AstType.StructDef →
  keeps (typedState root) (scopeRule_StructDef n p) (fun _ => True).
Proof.
  intros Hn Hk. unfold scopeRule_StructDef.
  eapply keeps_bind; [apply keeps_childAt|]. intros c0 Hc0. cbv beta.
  eapply keeps_bind; [apply keeps_newScope|]. intros scope _. cbv beta.
  eapply keeps_bind; [apply keeps_childAt|]. intros c1 Hc1. cbv beta.
  eapply (keeps_bind _ _ _ (Forall (fun f => typeName root (Var.type f)))).
  - apply keeps_foldM; [|constructor]. intros fields fieldNode Hin Hfields.
    destruct (bool_decide _) eqn:Hkind; [by apply keeps_ret|].
    apply bool_decide_eq_false in Hkind. apply dec_stable in Hkind.
    apply list_elem_of_lookup in Hin as [j Hj].
    eapply keeps_bind; [apply keeps_childAt|]. intros f0 _. cbv beta.
    apply keeps_ret. apply Forall_app. split; [exact Hfields|].
    constructor; [|constructor]. cbn [Var.new Var.type].
    eapply typeName_definition; [|by left].
    eapply nodeAt_child; [eapply nodeAt_child; [exact Hn|exact Hc1]|exact Hj].
  - intros fields Hfields. cbv beta zeta.
    keeps_auto ltac:(first [ typed_leaf
                           | apply keeps_updScope; intros ? ?;
                             apply typedScope_declare_struct;
                             [by eapply typeName_struct| exact Hfields | done ] ]).
Qed.

Lemma keeps_scopeRule_FunctionDef n path p :
  nodeAt root path = Some n → AstNode.type n = AstType.FunctionDef →
  keeps (typedState root) (scopeRule_FunctionDef n p) (fun _ => True).
Proof.
  intros Hn Hk. unfold scopeRule_FunctionDef.
  eapply keeps_bind; [apply keeps_childAt|]. intros c0 Hc0. cbv beta.
  eapply keeps_bind; [apply keeps_newScope|]. intros scope _. cbv beta.
  eapply keeps_bind; [apply keeps_childAt|]. intros c1 Hc1. cbv beta.
  eapply (keeps_bind _ _ _ (fun _ => True)).
  - apply keeps_foldM; [|done]. intros params paramNode _ _. keeps_auto typed_leaf.
  - intros params _. cbv beta zeta.
    keeps_auto ltac:(first [ typed_leaf
                           | apply keeps_updScope; intros ? ?;
                             apply typedScope_declare_func;
                             [by eapply typeName_definition; [|right] | done ] ]).
Qed.

Lemma keeps_scopeRule_VariableDef n path p :
  nodeAt root path = Some n → AstNode.type n = AstType.VariableDef →
  keeps (typedState root) (scopeRule_VariableDef root n path p) (fun _ => True).
Proof.
  intros Hn Hk. unfold scopeRule_VariableDef, updVar.
  keeps_auto ltac:(first [ typed_leaf
                         | apply keeps_updScope; intros ? ?;
                           apply typedScope_declare_var;
                           [by eapply typeName_definition; [|left] | done ] ]).
Qed.

Lemma keeps_scopeRule_Access n p :
  keeps (typedState root) (scopeRule_Access n p) (fun _ => True).
Proof.
  unfold scopeRule_Access.
  keeps_auto ltac:(first [ typed_leaf | apply keeps_makeStructScope ]).
Qed.

Lemma keeps_scopeRule_Const path p :
  keeps (typedState root) (scopeRule_Const root path p) (fun _ => True).
Proof.
  intros st a st' HI H. destruct (scope_modifiers_noop root path p st) as [H1 _].
  rewrite H1 in H. injection H as _ <-. by split.
Qed.

Lemma keeps_scopeRule_Export path p :
  keeps (typedState root) (scopeRule_Export root path p) (fun _ => True).
Proof.
  intros st a st' HI H. destruct (scope_modifiers_noop root path p st) as [_ H2].
  rewrite H2 in H. injection H as _ <-. by split.
Qed.

Lemma keeps_scopeRegistrations n path p :
  nodeAt root path = Some n →
  Forall (fun r => r.1 = AstNode.type n → keeps (typedState root) r.2 (fun _ => True))
         (scopeRegistrations root n path p).
Proof.
  intros Hn. unfold scopeRegistrations.
  repeat (constructor; [cbn [fst snd]; intros Hk; symmetry in Hk|]); [..|constructor].
  - apply keeps_scopeRule_Block.
  - apply keeps_scopeRule_Block.
  - by eapply keeps_scopeRule_StructDef.
  - by eapply keeps_scopeRule_FunctionDef.
  - by eapply keeps_scopeRule_VariableDef.
  - apply keeps_scopeRule_Access.
  - apply keeps_scopeRule_Const.
  - apply keeps_scopeRule_Export.
Qed.

Lemma keeps_getScope_body getParentScope path :
  keeps (typedState root) getParentScope (fun _ => True) →
  keeps (typedState root) (getScope_body root getParentScope path) (fun _ => True).
Proof.
  intros Hp. unfold getScope_body.
  eapply keeps_bind; [apply keeps_nodeScope|]. intros [s|] _; cbv beta iota;
    [by apply keeps_ret|].
  eapply keeps_bind; [exact Hp|]. intros parentScope _. cbv beta.
  eapply keeps_bind; [apply keeps_orThrow|]. intros n Hn. cbv beta.
  eapply (keeps_bind _ _ _ (fun _ => True)).
  - apply keeps_foldM; [|done]. intros [] rule Hin _.
    pose proof (rulesFor_Forall_kind (fun r => keeps (typedState root) r (fun _ => True)) n _
                  (keeps_scopeRegistrations n path parentScope Hn)) as Hrules.
    rewrite Forall_forall in Hrules. specialize (Hrules rule Hin).
    eapply keeps_bind; [exact Hrules|]. intros s _. apply keeps_setNodeScope.
  - intros _ _. keeps_auto typed_leaf.
Qed.

Lemma keeps_getScope path :
  keeps (typedState root) (getScope root path) (fun _ => True).
Proof.
  induction path as [|i pp IH]; rewrite getScope_unfold; apply keeps_getScope_body.
  - by apply keeps_ret.
  - exact IH.
Qed.
End TypedScopes.

(** *** The data-type rules *)

Lemma forallb_lookup {A} (P : A → bool) (l : list A) i x :
  forallb P l = true → l !! i = Some x → P x = true.
Proof.
  revert i. induction l as [|y l IH]; intros i H Hi; [done|].
  simpl in H. apply andb_prop in H as [Hy Hl].
  destruct i as [|i]; simpl in Hi; [by injection Hi as <-|by eapply IH].
Qed.

Lemma fromTokenType_primitive ty : DataType.isPrimitive (DataType.fromTokenType ty) = true.
Proof. by destruct ty. Qed.

Section TypedRules.
Context (root : AstNode.t).

Lemma unaryLookup_typed t typeSets r :
  primitiveRows typeSets = true → unaryLookup t typeSets = Some r → optTyped root r.
Proof.
  induction typeSets as [|row rest IH]; intros H Hr; [done|].
  simpl in H, Hr. apply andb_prop in H as [Hrow Hrest].
  destruct (bool_decide _); [|by apply IH].
  injection Hr as <-. intros t' Ht' _. left. by eapply forallb_lookup.
Qed.

Lemma binaryLookup_typed t0 t1 typeSets r :
  primitiveRows typeSets = true → binaryLookup t0 t1 typeSets = Some r → optTyped root r.
Proof.
  induction typeSets as [|row rest IH]; intros H Hr; [done|].
  simpl in H, Hr. apply andb_prop in H as [Hrow Hrest].
  destruct (_ && _); [|by apply IH].
  injection Hr as <-. intros t' Ht' _. left. by eapply forallb_lookup.
Qed.

Lemma castLookup_typed t0 t1 table r :
  primitiveTargets table = true → castLookup t0 t1 table = Some r → typeName root r.
Proof.
  induction table as [|[a b] rest IH]; intros H Hr; [done|].
  simpl in H, Hr. apply andb_prop in H as [Hrow Hrest].
  destruct (_ && _); [|by apply IH]. injection Hr as <-. by left.
Qed.

Context (rec : Rec) (n : AstNode.t) (path : Path).
Context (Hn : nodeAt root path = Some n) (Hrec : recTyped root rec n).

Ltac child_lookup :=
  match goal with H : AstNode.children n = _ |- _ => by rewrite H end.

Ltac rec_leaf :=
  lazymatch goal with
  | |- keeps _ (rec _ (?i :: path)) _ =>
    eapply Hrec; [apply (height_lookup _ _ i); child_lookup
                 |apply (nodeAt_child _ _ _ i _ Hn); child_lookup]
  end.

Ltac rule_leaf :=
  first [ typed_leaf | apply keeps_getScope | rec_leaf ].

Ltac typed_result :=
  first
    [ assumption
    | by apply optTyped_Some, typeName_primitive
    | apply optTyped_Some;
      first [ assumption
            | eapply typed_getVariable; eassumption
            | eapply typed_getFunction; eassumption
            | eapply proj1, typed_getStruct; eassumption
            | eapply castLookup_typed; eassumption ]
    | eapply unaryLookup_typed; eassumption
    | eapply binaryLookup_typed; eassumption ].

Ltac rule_auto := keeps_auto rule_leaf; try typed_result.

Lemma keeps_withIdentifier c :
  ∀ q, nodeAt root q = Some c → AstNode.height c < AstNode.height n →
    keeps (typedState root)
      (withIdentifier (fun node npath => t ← rec node npath; mret (Some t))
                      (mret (Some DataType.Invalid)) throw c q)
      (optTyped root).
Proof using Hrec.
  induction c as [ty tok v cs IH] using AstNode_ind'. intros q Hq Hh.
  cbn [withIdentifier AstNode.type AstNode.children]. repeat case_match; subst.
  - eapply keeps_bind; [by apply Hrec|]. intros t Ht. by apply keeps_ret, optTyped_Some.
  - apply keeps_throw.
  - apply keeps_throw.
  - rewrite Forall_cons in IH. destruct IH as [_ IH].
    rewrite Forall_cons in IH. destruct IH as [IH _].
    apply IH; [by apply (nodeAt_child _ _ _ 1 _ Hq)|]. simpl in *. lia.
  - by apply keeps_ret, optTyped_Some, typeName_primitive.
Qed.

Lemma keeps_dtRule_Access :
  keeps (typedState root) (dtRule_Access rec n path) (optTyped root).
Proof using Hn Hrec.
  unfold dtRule_Access. destruct (AstNode.children n) as [|c0 [|c1 l]] eqn:Hcs;
    [by apply keeps_ret, optTyped_Some, typeName_primitive..|].
  apply keeps_withIdentifier.
  - apply (nodeAt_child _ _ _ 1 _ Hn). by rewrite Hcs.
  - apply (height_lookup _ _ 1). by rewrite Hcs.
Qed.

Lemma keeps_dtRule_VariableId :
  keeps (typedState root) (dtRule_VariableId root n path) (optTyped root).
Proof. unfold dtRule_VariableId. rule_auto. Qed.

Lemma keeps_dtRule_FunctionId :
  keeps (typedState root) (dtRule_FunctionId root n path) (optTyped root).
Proof. unfold dtRule_FunctionId. rule_auto. Qed.

Lemma keeps_dtRule_StructId :
  keeps (typedState root) (dtRule_StructId root n path) (optTyped root).
Proof. unfold dtRule_StructId. rule_auto. Qed.

Lemma keeps_dtRule_Type : keeps (typedState root) dtRule_Type (optTyped root).
Proof. unfold dtRule_Type. rule_auto. Qed.

Lemma keeps_dtRule_VariableDef :
  AstNode.type n = AstType.VariableDef →
  keeps (typedState root) (dtRule_VariableDef n) (optTyped root).
Proof using Hn.
  intros Hk. apply keeps_ret, optTyped_Some. eapply typeName_definition; [exact Hn|by left].
Qed.

Lemma keeps_dtRule_FunctionDef :
  AstNode.type n = AstType.FunctionDef →
  keeps (typedState root) (dtRule_FunctionDef n) (optTyped root).
Proof using Hn.
  intros Hk. apply keeps_ret, optTyped_Some. eapply typeName_definition; [exact Hn|by right].
Qed.

Lemma keeps_dtRule_StructDef :
  AstNode.type n = AstType.StructDef →
  keeps (typedState root) (dtRule_StructDef n) (optTyped root).
Proof using Hn.
  intros Hk. unfold dtRule_StructDef.
  eapply keeps_bind; [apply keeps_childAt|]. intros c0 Hc0.
  apply keeps_ret, optTyped_Some. by eapply typeName_struct.
Qed.

Lemma keeps_dtRule_Literal : keeps (typedState root) (dtRule_Literal n) (optTyped root).
Proof.
  apply keeps_ret, optTyped_Some, typeName_primitive, fromTokenType_primitive.
Qed.

Lemma keeps_dtRule_UnaryOp type typeSets :
  primitiveRows typeSets = true →
  keeps (typedState root) (dtRule_UnaryOp rec type typeSets n path) (optTyped root).
Proof using Hn Hrec.
  intros Hsets. unfold dtRule_UnaryOp.
  eapply keeps_bind; [apply keeps_nodeDataType|]. intros dt Hdt. cbv beta.
  destruct (_ || _); [by apply keeps_ret|].
  destruct (AstNode.children n) as [|c0 rest] eqn:Hcs; rule_auto.
Qed.

Lemma keeps_dtRule_BinaryOp type typeSets :
  primitiveRows typeSets = true →
  keeps (typedState root) (dtRule_BinaryOp rec type typeSets n path) (optTyped root).
Proof using Hn Hrec.
  intros Hsets. unfold dtRule_BinaryOp.
  eapply keeps_bind; [apply keeps_nodeDataType|]. intros dt Hdt. cbv beta.
  destruct (_ || _); [by apply keeps_ret|].
  destruct (AstNode.children n) as [|c0 [|c1 rest]] eqn:Hcs; rule_auto.
Qed.

Lemma keeps_assignSides c0 rest :
  AstNode.children n = c0 :: rest →
  keeps (typedState root) (assignSides rec n path c0 rest) (optTyped root).
Proof using Hn Hrec.
  intros Hcs. unfold assignSides. destruct rest as [|c1 rest]; rule_auto.
Qed.

Lemma keeps_targetIsConst c0 :
  keeps (typedState root) (targetIsConst root c0 path) (fun _ => True).
Proof.
  unfold targetIsConst. eapply (keeps_bind _ _ _ (fun _ => True)).
  - intros st r st' HI H. apply getIdentifier_pure in H as ->. by split.
  - intros ident _. rule_auto.
Qed.

Lemma keeps_dtRule_Assignment :
  keeps (typedState root) (dtRule_Assignment root rec n path) (optTyped root).
Proof using Hn Hrec.
  unfold dtRule_Assignment. destruct (AstNode.children n) as [|c0 rest] eqn:Hcs;
    [apply keeps_throw|].
  eapply keeps_bind; [apply keeps_targetIsConst|]. intros [] _; cbv beta iota.
  - rule_auto.
  - by apply keeps_assignSides.
Qed.

Lemma keeps_dtRule_Global :
  keeps (typedState root) (dtRule_Global rec n path) (optTyped root).
Proof using Hn Hrec.
  unfold dtRule_Global. destruct (AstNode.children n) as [|c0 rest] eqn:Hcs;
    [apply keeps_throw | by apply keeps_assignSides].
Qed.

Lemma keeps_dtRule_Cast type table :
  primitiveTargets table = true →
  keeps (typedState root) (dtRule_Cast rec type table n path) (optTyped root).
Proof using Hn Hrec.
  intros Htable. unfold dtRule_Cast.
  eapply keeps_bind; [apply keeps_nodeDataType|]. intros dt Hdt. cbv beta.
  destruct (_ || _); [by apply keeps_ret|].
  destruct (AstNode.children n) as [|c0 [|c1 rest]] eqn:Hcs; rule_auto.
Qed.

Lemma keeps_checkArgs func argsPath args :
  ∀ i params valid,
    (∀ j a, args !! j = Some a →
            keeps (typedState root) (rec a ((i + j) :: argsPath)) (typeName root)) →
    keeps (typedState root) (checkArgs rec func argsPath i params args valid) (fun _ => True).
Proof.
  induction args as [|arg args IH]; intros i params valid Hargs.
  - destruct params; simpl; keeps_auto typed_leaf.
  - destruct params as [|param params]; simpl; [keeps_auto typed_leaf|].
    assert (Hrest : ∀ j a, args !! j = Some a →
              keeps (typedState root) (rec a ((S i + j) :: argsPath)) (typeName root)).
    { intros j a Hj. specialize (Hargs (S j) a Hj).
      by replace (i + S j) with (S i + j) in Hargs by lia. }
    eapply keeps_bind.
    { specialize (Hargs 0 arg eq_refl). rewrite Nat.add_0_r in Hargs. exact Hargs. }
    intros type _. cbv beta.
    keeps_auto ltac:(first [ typed_leaf | by apply IH ]).
Qed.

Lemma keeps_dtRule_FunctionCall :
  keeps (typedState root) (dtRule_FunctionCall root rec n path) (optTyped root).
Proof using Hn Hrec.
  unfold dtRule_FunctionCall.
  destruct (AstNode.children n) as [|c0 rest] eqn:Hcs; [apply keeps_throw|].
  eapply (keeps_bind _ _ _ (fun _ => True)).
  { intros st r st' HI H. apply getIdentifier_pure in H as ->. by split. }
  intros ident _. cbv beta.
  keeps_auto ltac:(first
    [ rule_leaf
    | apply keeps_checkArgs; intros j arg Hj; cbn [Nat.add];
      match goal with
      | Hc : AstNode.children n = _ :: ?c1 :: _ |- _ =>
        apply Hrec;
        [ pose proof (height_lookup c1 arg j Hj);
          pose proof (height_lookup n c1 1 ltac:(by rewrite Hc)); lia
        | apply (nodeAt_child _ _ c1 j _); [|exact Hj];
          apply (nodeAt_child _ _ _ 1 _ Hn); by rewrite Hc ]
      end ]);
    try typed_result.
Qed.

Lemma keeps_dtRule_Return :
  keeps (typedState root) (dtRule_Return root rec n path) (optTyped root).
Proof using Hn Hrec.
  unfold dtRule_Return. destruct (AstNode.children n) as [|c0 rest] eqn:Hcs; rule_auto.
Qed.

Lemma keeps_dtRule_ReturnVoid :
  keeps (typedState root) (dtRule_ReturnVoid root n path) (optTyped root).
Proof. unfold dtRule_ReturnVoid. rule_auto. Qed.

Lemma keeps_dataTypeRegistrations :
  Forall (fun r => r.1 = AstNode.type n → keeps (typedState root) r.2 (optTyped root))
         (dataTypeRegistrations root rec n path).
Proof using Hn Hrec.
  unfold dataTypeRegistrations, dtRule_As, dtRule_To.
  repeat (constructor;
          [cbn [fst snd]; intros Hk; symmetry in Hk;
           first [ apply keeps_dtRule_Access | apply keeps_dtRule_VariableId
                 | apply keeps_dtRule_FunctionId | apply keeps_dtRule_StructId
                 | apply keeps_dtRule_Type | by apply keeps_dtRule_VariableDef
                 | by apply keeps_dtRule_FunctionDef | by apply keeps_dtRule_StructDef
                 | apply keeps_dtRule_Literal
                 | by apply keeps_dtRule_UnaryOp | by apply keeps_dtRule_BinaryOp
                 | apply keeps_dtRule_Assignment | apply keeps_dtRule_Global
                 | by apply keeps_dtRule_Cast
                 | apply keeps_dtRule_FunctionCall | apply keeps_dtRule_Return
                 | apply keeps_dtRule_ReturnVoid ]|]).
  constructor.
Qed.

Lemma keeps_getDataType_body :
  keeps (typedState root) (getDataType_body root rec n path) (typeName root).
Proof using Hn Hrec.
  unfold getDataType_body, runDataTypeRules.
  eapply (keeps_bind _ _ _ (fun _ => True)).
  { apply keeps_when, keeps_setNodeDataType. by apply optTyped_Some, typeName_primitive. }
  intros _ _.
  eapply keeps_bind; [apply keeps_nodeDataType|]. intros dt Hdt. cbv beta.
  destruct (truthy dt) eqn:Ht; [by apply keeps_ret, optTyped_truthy|].
  eapply (keeps_bind _ _ _ (fun _ => True)).
  { apply keeps_foldM; [|done]. intros [] rule Hin _.
    pose proof (rulesFor_Forall_kind
                  (fun r => keeps (typedState root) r (optTyped root)) n _
                  keeps_dataTypeRegistrations) as Hrules.
    rewrite Forall_forall in Hrules. specialize (Hrules rule Hin).
    eapply keeps_bind; [exact Hrules|]. intros r Hr. by apply keeps_setNodeDataType. }
  intros _ _.
  eapply keeps_bind; [apply keeps_nodeDataType|]. intros dt' Hdt'. cbv beta.
  destruct (truthy dt') eqn:Ht'; [by apply keeps_ret, optTyped_truthy|].
  eapply (keeps_bind _ _ _ (fun _ => True)).
  { apply keeps_setNodeDataType. by apply optTyped_Some, typeName_primitive. }
  intros _ _. by apply keeps_ret, typeName_primitive.
Qed.
End TypedRules.

(** *** [getDataType], the passes and [analyze] *)

Section TypedAnalysis.
Context (root : AstNode.t).

Lemma keeps_getDataType n :
  ∀ path, nodeAt root path = Some n →
    keeps (typedState root) (getDataType root n path) (typeName root).
Proof.
  remember (S (AstNode.height n)) as k eqn:Hk.
  assert (Hlt : AstNode.height n < k) by lia. clear Hk. revert n Hlt.
  induction k as [|k IH]; intros n Hlt path Hn; [lia|].
  rewrite getDataType_unfold. apply keeps_getDataType_body; [exact Hn|].
  intros c q Hc Hq. apply IH; [lia | exact Hq].
Qed.

Lemma keeps_hoistPass node :
  ∀ path, keeps (typedState root) (hoistPass root node path) (fun _ => True).
Proof.
  induction node as [ty tok v cs IH] using AstNode_ind'. intros path.
  rewrite hoistPass_unfold. cbn [AstNode.children].
  eapply keeps_bind; [apply keeps_getScope|]. intros s _.
  eapply keeps_bind; [apply keeps_setNodeScope|]. intros _ _.
  apply keeps_forIndexed. intros j x Hj.
  destruct (bool_decide _); [by apply keeps_ret|].
  rewrite Forall_lookup in IH. by eapply IH.
Qed.

Lemma keeps_scopePass node :
  ∀ path, keeps (typedState root) (scopePass root node path) (fun _ => True).
Proof.
  induction node as [ty tok v cs IH] using AstNode_ind'. intros path.
  rewrite scopePass_unfold. cbn [AstNode.children].
  eapply keeps_bind; [apply keeps_getScope|]. intros s _.
  eapply keeps_bind; [apply keeps_setNodeScope|]. intros _ _.
  apply keeps_forIndexed. intros j x Hj.
  rewrite Forall_lookup in IH. by eapply IH.
Qed.

Lemma keeps_typePass node :
  ∀ path, nodeAt root path = Some node →
    keeps (typedState root) (typePass root node path) (fun _ => True).
Proof.
  induction node as [ty tok v cs IH] using AstNode_ind'. intros path Hn.
  rewrite typePass_unfold. cbn [AstNode.children].
  eapply keeps_bind; [by apply keeps_getDataType|]. intros t Ht.
  eapply keeps_bind; [by apply keeps_setNodeDataType, optTyped_Some|]. intros _ _.
  apply keeps_forIndexed. intros j x Hj.
  rewrite Forall_lookup in IH. eapply IH; [exact Hj|].
  by apply (nodeAt_child _ _ _ j _ Hn).
Qed.

Lemma keeps_analyze : keeps (typedState root) (analyze root) (fun _ => True).
Proof.
  unfold analyze.
  eapply keeps_bind; [apply keeps_hoistPass|]. intros _ _.
  eapply keeps_bind; [apply keeps_scopePass|]. intros _ _.
  eapply keeps_bind; [by apply keeps_typePass|]. intros _ _.
  intros st a st' HI H. rewrite analysisPass_noop in H. injection H as _ <-. by split.
Qed.

(** The builtin catalog declares functions of primitive types only. *)
Lemma keeps_registerBuiltinFunc path type paramTypes paramNames :
  DataType.isPrimitive type = true →
  keeps (typedState root) (registerBuiltinFunc path type paramTypes paramNames)
        (fun _ => True).
Proof.
  intros Hp. unfold registerBuiltinFunc. cbv zeta.
  eapply (keeps_bind _ _ _ (fun _ => True)).
  { apply keeps_foldM; [|done]. intros scope part _ _. keeps_auto typed_leaf. }
  intros scope _. cbv beta.
  destruct (bool_decide _); [|by apply keeps_ret].
  apply keeps_updScope. intros sc Hsc. apply typedScope_declare_func; [|exact Hsc].
  by left.
Qed.

Lemma keeps_registerBuiltins : keeps (typedState root) registerBuiltins (fun _ => True).
Proof.
  unfold registerBuiltins, loadStore, unaryBuiltins, binaryBuiltins.
  repeat first
    [ by apply keeps_registerBuiltinFunc
    | apply keeps_foldM; [intros [] ? _ _|done]
    | eapply (keeps_bind _ _ _ (fun _ => True)); [|intros _ _; cbv beta] ].
Qed.

Lemma typedState_emptyState : typedState root emptyState.
Proof.
  split.
  - constructor; [apply typedScope_new | constructor].
  - intros q t H. cbn [emptyState dataTypeOf] in H. by rewrite lookup_empty in H.
Qed.

Lemma typedState_newSchwaAnalyzer : typedState root newSchwaAnalyzer.
Proof.
  unfold newSchwaAnalyzer.
  destruct (registerBuiltins emptyState) as [[u st]|] eqn:E; [|apply typedState_emptyState].
  exact (proj1 (keeps_registerBuiltins _ _ _ typedState_emptyState E)).
Qed.
End TypedAnalysis.

(** C1 as stated fails in its description of the data type: a variable
    definition is typed with its type token verbatim (analyzer.ts line 398),
    and an identifier with the type of the variable it names.  In
    [void f(Foo x)], a tree the validator passes unflagged, the parameter's
    definition and its identifier both end with the data type [Foo], which is
    neither a primitive name nor [invalid] nor a struct declared in any scope,
    and no diagnostic is logged. *)
Lemma analyze_undeclared_type_counterexample :
  analyze undeclaredParamProgram newSchwaAnalyzer
    = Some (tt, analyzed undeclaredParamProgram) ∧
  logger (analyzed undeclaredParamProgram) = [] ∧
  nodeAt undeclaredParamProgram [0; 1; 0]
    = Some (nd AstType.VariableDef (tk TokenType.Name "Foo") [vid "x"]) ∧
  nodeAt undeclaredParamProgram [0; 0; 1; 0] = Some (vid "x") ∧
  dataTypeOf (analyzed undeclaredParamProgram) !! [0; 1; 0] = Some "Foo" ∧
  dataTypeOf (analyzed undeclaredParamProgram) !! [0; 0; 1; 0] = Some "Foo" ∧
  DataType.isPrimitive "Foo" = false ∧
  Forall (fun sc => Scope.structs sc !! "Foo" = None) (heap (analyzed undeclaredParamProgram)).
Proof.
  split; [vm_compute; reflexivity|].
  split; [vm_compute; reflexivity|].
  split; [reflexivity|].
  split; [reflexivity|].
  split; [vm_compute; reflexivity|].
  split; [vm_compute; reflexivity|].
  split; [reflexivity|].
  vm_compute. repeat constructor.
Qed.

(** C1, amended.  When [analyze] returns, every node of the tree has a scope
    and a non-empty data type, which is [invalid] on a node the validator
    flagged.  When the analysis started from a state that holds type names
    of the tree only, as the state of a fresh analyzer does, the data type is
    a type name of the tree: a primitive name ([void], [invalid] and [type]
    among them), the type token of a variable or function definition of the
    tree, or the name of one of its struct definitions. *)
Theorem analyze_annotates_every_node (root : AstNode.t) (st st' : State) (u : unit)
    (path : Path) (n : AstNode.t) :
  analyze root st = Some (u, st') →
  nodeAt root path = Some n →
  is_Some (scopeOf st' !! path) ∧
  ∃ t, dataTypeOf st' !! path = Some t ∧ t ≠ EmptyString ∧
       (AstNode.valid n = false → t = DataType.Invalid) ∧
       (typedState root st → typeName root t).
Proof.
  intros H Hn. pose proof H as H'. apply analyze_spec in H' as (_ & Hs & Ht).
  unfold nodeAt in Hn.
  specialize (Hs _ _ Hn). specialize (Ht _ _ Hn).
  rewrite reverse_involutive, app_nil_r in Hs, Ht.
  split; [exact Hs|]. destruct Ht as (t & Hd & Hne & Hv).
  exists t. split; [exact Hd|]. split; [exact Hne|]. split; [exact Hv|].
  intros HI. destruct (keeps_analyze root _ _ _ HI H) as [[_ Ha] _]. by eapply Ha.
Qed.

Lemma analyze_annotates_every_node_witness :
  typedState undeclaredParamProgram newSchwaAnalyzer ∧
  analyze undeclaredParamProgram newSchwaAnalyzer
    = Some (tt, analyzed undeclaredParamProgram) ∧
  nodeAt undeclaredParamProgram [0; 1; 0]
    = Some (nd AstType.VariableDef (tk TokenType.Name "Foo") [vid "x"]) ∧
  is_Some (scopeOf (analyzed undeclaredParamProgram) !! [0; 1; 0]) ∧
  ∃ t, dataTypeOf (analyzed undeclaredParamProgram) !! [0; 1; 0] = Some t ∧ t ≠ EmptyString ∧
       (AstNode.valid (nd AstType.VariableDef (tk TokenType.Name "Foo") [vid "x"]) = false →
        t = DataType.Invalid) ∧
       (typedState undeclaredParamProgram newSchwaAnalyzer →
        typeName undeclaredParamProgram t).
Proof.
  assert (H1 : analyze undeclaredParamProgram newSchwaAnalyzer
               = Some (tt, analyzed undeclaredParamProgram)) by (vm_compute; reflexivity).
  assert (H2 : nodeAt undeclaredParamProgram [0; 1; 0]
               = Some (nd AstType.VariableDef (tk TokenType.Name "Foo") [vid "x"]))
    by reflexivity.
  split; [apply typedState_newSchwaAnalyzer|]. split; [exact H1|]. split; [exact H2|].
  exact (analyze_annotates_every_node _ _ _ _ _ _ H1 H2).
Defined.
